(** * image_fft_toy: the frequency-domain engine of [fft_toy.py]

    A shallow embedding of the transform-and-reconciliation core of the
    interactive Fourier viewer: the forward and inverse per-channel 2D DFT,
    the log-magnitude and phase visualizations, the radial and
    magnitude-threshold filters and the two reconcilers that map a painted
    8-bit visualization back to complex spectrum values.

    Numbers.  numpy's [float64] and [complex128] are modelled by the real
    numbers [R] and by pairs of reals, with exact arithmetic.  Where
    rounding decides a property (the round trip of an image through the
    two transforms), numpy's [fft2], [ifft2] and [abs] are parameters at a
    bounded distance from the exact ones.  [uint8] samples are integers
    [Z].

    Arrays.  An array of shape (h, w, 3) is a list of rows, each row a list
    of three-channel pixels; indexing outside the array is [None], as numpy
    raises [IndexError] there.

    Qt widgets, canvases and the status bar are reduced to what the engine
    reads from them (the three lock check boxes, the image a canvas hands
    over) and to the message a handler reports.  The handlers that draw
    while the mouse moves, the line generator and the canvas widget (zoom,
    pan, mouse events and the signals they emit) follow the engine, with
    OpenCV's drawing and colour conversions and Qt's image buffer as
    parameters. *)

From Stdlib Require Import Reals Rtrigo_facts Lra Lia ZArith.
From stdpp Require Import base list option.

(** ** Scalars: what the code uses of Python and numpy *)

Module Np.

(** [complex128] *)
Record complex := mkC { Re : R; Im : R }.

(** [0 + 0j] *)
Definition czero : complex := mkC 0 0.

Definition cadd (a b : complex) : complex :=
  mkC (Re a + Re b) (Im a + Im b).

Definition cmul (a b : complex) : complex :=
  mkC (Re a * Re b - Im a * Im b) (Re a * Im b + Im a * Re b).

(** a float times a complex *)
Definition cscale (m : R) (z : complex) : complex :=
  mkC (m * Re z) (m * Im z).

(** [np.exp(1j * phi)] *)
Definition cis (phi : R) : complex := mkC (cos phi) (sin phi).

(** [np.abs] of a complex *)
Definition cabs (z : complex) : R := sqrt (Re z * Re z + Im z * Im z).

(** [np.arctan2(y, x)], with values in (-pi, pi] and 0 at the origin *)
Definition arctan2 (y x : R) : R :=
  if Rlt_dec 0 x then atan (y / x)
  else if Rlt_dec x 0 then
    (if Rle_dec 0 y then atan (y / x) + PI else atan (y / x) - PI)
  else if Rlt_dec 0 y then PI / 2
  else if Rlt_dec y 0 then - (PI / 2)
  else 0.

(** [np.angle] *)
Definition angle (z : complex) : R := arctan2 (Im z) (Re z).

Definition log1p (x : R) : R := ln (1 + x).
Definition expm1 (x : R) : R := exp x - 1.

(** Python's [max(0, x)]: the second argument wins only when it is
    greater *)
Definition py_max0 (x : R) : R := if Rlt_dec 0 x then x else 0.

(** [np.clip(x, lo, hi)] *)
Definition clip (x lo hi : R) : R := Rmin (Rmax x lo) hi.

(** the integer part of a float, rounded towards zero *)
Definition trunc (x : R) : Z :=
  if Rle_dec 0 x then Int_part x else (- Int_part (- x))%Z.

(** [.astype(np.uint8)] of a float *)
Definition astype_uint8 (x : R) : Z := (trunc x mod 256)%Z.

End Np.
Export Np.

(** The [epsilon = 1e-9] of the source. *)
Definition epsilon : R := 1e-9.

(** ** Arrays of shape (h, w, 3) *)

(** An index along the last axis: the values of [range(3)]. *)
Inductive chan : Type := C0 | C1 | C2.

#[global] Instance chan_eq_dec : EqDecision chan.
Proof. solve_decision. Defined.

Definition all_chans : list chan := [C0; C1; C2].

Record pixel (A : Type) : Type := Px { ch0 : A; ch1 : A; ch2 : A }.
Arguments Px {A} _ _ _.
Arguments ch0 {A} _.
Arguments ch1 {A} _.
Arguments ch2 {A} _.

Definition px_get {A} (k : chan) (p : pixel A) : A :=
  match k with C0 => ch0 p | C1 => ch1 p | C2 => ch2 p end.

Definition px_set {A} (k : chan) (v : A) (p : pixel A) : pixel A :=
  match k with
  | C0 => Px v (ch1 p) (ch2 p)
  | C1 => Px (ch0 p) v (ch2 p)
  | C2 => Px (ch0 p) (ch1 p) v
  end.

Definition px_map {A B} (f : A -> B) (p : pixel A) : pixel B :=
  Px (f (ch0 p)) (f (ch1 p)) (f (ch2 p)).

Definition px_zip {A B C} (f : A -> B -> C) (p : pixel A) (q : pixel B)
  : pixel C :=
  Px (f (ch0 p) (ch0 q)) (f (ch1 p) (ch1 q)) (f (ch2 p) (ch2 q)).

(** [np.all] and [np.any] along the last axis *)
Definition px_all (p : pixel bool) : bool := ch0 p && ch1 p && ch2 p.
Definition px_any (p : pixel bool) : bool := ch0 p || ch1 p || ch2 p.

Abbreviation ndarray A := (list (list (pixel A))).

(** [a.shape[:2]] *)
Definition shape {A} (a : list (list A)) : nat * nat :=
  (length a, match a with [] => 0 | row :: _ => length row end).

(** [a[r, c, :]] *)
Definition getitem {A} (a : list (list A)) (r c : nat) : option A :=
  match a !! r with
  | Some row => row !! c
  | None => None
  end.

(** [a[r, c, k]] *)
Definition getitem3 {A} (a : ndarray A) (r c : nat) (k : chan) : option A :=
  px_get k <$> getitem a r c.

(** [a[r, c, k] = v], in place *)
Definition setitem3 {A} (a : ndarray A) (r c : nat) (k : chan) (v : A)
  : option (ndarray A) :=
  match a !! r with
  | Some row =>
      match row !! c with
      | Some p => Some (<[r := <[c := px_set k v p]> row]> a)
      | None => None
      end
  | None => None
  end.

(** [a[:, :, k]] *)
Definition slice_chan {A} (k : chan) (a : ndarray A) : list (list A) :=
  fmap (M:=list) (fmap (M:=list) (px_get k)) a.

(** [a[:, :, k] = s] for a 2D array [s] of the same height and width *)
Definition assign_chan {A} (k : chan) (s : list (list A)) (a : ndarray A)
  : ndarray A :=
  zip_with (zip_with (fun p v => px_set k v p)) a s.

(** [np.zeros((h, w, 3))] and friends *)
Definition full {A} (h w : nat) (v : A) : ndarray A :=
  replicate h (replicate w (Px v v v)).

(** [np.any] of a 2D boolean array *)
Definition np_any (m : list (list bool)) : bool :=
  existsb (existsb (fun b : bool => b)) m.

(** [np.where(m)], zipped: the positions holding [True], in row-major
    order *)
Definition np_where (m : list (list bool)) : list (nat * nat) :=
  mjoin (imap (fun r row =>
    mjoin (imap (fun c (b : bool) => if b then [(r, c)] else []) row)) m).

(** A [for] loop whose body may raise: the first exception ends it. *)
Fixpoint for_each {A S} (body : S -> A -> option S) (l : list A) (s : S)
  : option S :=
  match l with
  | [] => Some s
  | x :: l' =>
      match body s x with
      | Some s' => for_each body l' s'
      | None => None
      end
  end.

(** ** The discrete Fourier transform of [np.fft] *)

Module Fft.

(** the sum of [f 0], ..., [f (n - 1)] *)
Fixpoint csum (f : nat -> complex) (n : nat) : complex :=
  match n with
  | O => czero
  | S n' => cadd (csum f n') (f n')
  end.

(** The one-dimensional transform of [np.fft]:
    [out[k] = sum_n x[n] * exp(s * 2 pi i * k * n / N)], with [s = -1]
    for [fft] and [s = 1] for [ifft]. *)
Definition dft (s : R) (x : list complex) : list complex :=
  let N := length x in
  (fun k => csum (fun n =>
     cmul (default czero (x !! n))
          (cis (s * (2 * PI * INR k * INR n / INR N)))) N) <$> seq 0 N.

Definition fft (x : list complex) : list complex := dft (-1) x.

Definition ifft (x : list complex) : list complex :=
  cscale (/ INR (length x)) <$> dft 1 x.

(** column [c] of a 2D array *)
Definition column {A} (a : list (list A)) (c : nat) : list A :=
  omap (fun row => row !! c) a.

(** a length-preserving 1D function applied along axis 0 *)
Definition along_columns (f : list complex -> list complex)
    (a : list (list complex)) : list (list complex) :=
  let w := snd (shape a) in
  (fun r => (fun c => default czero (f (column a c) !! r)) <$> seq 0 w)
    <$> seq 0 (length a).

(** a 1D function applied along axis 1 *)
Definition along_rows (f : list complex -> list complex)
    (a : list (list complex)) : list (list complex) :=
  f <$> a.

Definition zero_size {A} (a : list (list A)) : bool :=
  match shape a with
  | (O, _) | (_, O) => true
  | _ => false
  end.

(** [np.fft.fft2] and [np.fft.ifft2]: the last axis first, then axis 0;
    a zero-size array raises [ValueError]. *)
Definition fft2 (a : list (list complex)) : option (list (list complex)) :=
  if zero_size a then None
  else Some (along_columns fft (along_rows fft a)).

Definition ifft2 (a : list (list complex)) : option (list (list complex)) :=
  if zero_size a then None
  else Some (along_columns ifft (along_rows ifft a)).

(** [np.roll] by [n // 2] and back, along one axis *)
Definition fftshift1 {A} (l : list A) : list A :=
  let n := length l in
  drop (n - n / 2) l ++ take (n - n / 2) l.

Definition ifftshift1 {A} (l : list A) : list A :=
  let n := length l in
  drop (n / 2) l ++ take (n / 2) l.

(** [np.fft.fftshift] and [np.fft.ifftshift] of a 2D array: both axes *)
Definition fftshift {A} (a : list (list A)) : list (list A) :=
  fftshift1 (fftshift1 <$> a).

Definition ifftshift {A} (a : list (list A)) : list (list A) :=
  ifftshift1 (ifftshift1 <$> a).

End Fft.

(** ** The application state: the data attributes of [FourierTransformApp] *)

Record AppState : Type := mkApp {
  current_spatial_image : option (ndarray Z);
  resulting_spatial_image : option (ndarray Z);
  frequency_image : option (ndarray complex);
  magnitude_spectrum : option (ndarray R);
  normalized_spectrum : option (ndarray Z);
  global_log_mag_range : R * R;
  phase_vis_b : option (ndarray Z);
  phase_vis_g : option (ndarray Z);
  phase_vis_r : option (ndarray Z);
  display_normalized_spectrum : option (ndarray Z);
  display_phase_vis_b : option (ndarray Z);
  display_phase_vis_g : option (ndarray Z);
  display_phase_vis_r : option (ndarray Z);
  lock_b_check : bool;
  lock_g_check : bool;
  lock_r_check : bool
}.

(** The state of [__init__], with the three check boxes as given. *)
Definition initial_state (lb lg lr : bool) : AppState :=
  mkApp None None None None None (0%R, 1%R) None None None None None None None
        lb lg lr.

Definition with_spatial (img : option (ndarray Z)) (st : AppState) :=
  mkApp img (resulting_spatial_image st) (frequency_image st)
    (magnitude_spectrum st) (normalized_spectrum st)
    (global_log_mag_range st) (phase_vis_b st) (phase_vis_g st)
    (phase_vis_r st) (display_normalized_spectrum st)
    (display_phase_vis_b st) (display_phase_vis_g st)
    (display_phase_vis_r st) (lock_b_check st) (lock_g_check st)
    (lock_r_check st).

Definition with_result (res : option (ndarray Z)) (st : AppState) :=
  mkApp (current_spatial_image st) res (frequency_image st)
    (magnitude_spectrum st) (normalized_spectrum st)
    (global_log_mag_range st) (phase_vis_b st) (phase_vis_g st)
    (phase_vis_r st) (display_normalized_spectrum st)
    (display_phase_vis_b st) (display_phase_vis_g st)
    (display_phase_vis_r st) (lock_b_check st) (lock_g_check st)
    (lock_r_check st).

Definition with_frequency (f : option (ndarray complex)) (st : AppState) :=
  mkApp (current_spatial_image st) (resulting_spatial_image st) f
    (magnitude_spectrum st) (normalized_spectrum st)
    (global_log_mag_range st) (phase_vis_b st) (phase_vis_g st)
    (phase_vis_r st) (display_normalized_spectrum st)
    (display_phase_vis_b st) (display_phase_vis_g st)
    (display_phase_vis_r st) (lock_b_check st) (lock_g_check st)
    (lock_r_check st).

Definition with_magnitude (m : option (ndarray R)) (st : AppState) :=
  mkApp (current_spatial_image st) (resulting_spatial_image st)
    (frequency_image st) m (normalized_spectrum st)
    (global_log_mag_range st) (phase_vis_b st) (phase_vis_g st)
    (phase_vis_r st) (display_normalized_spectrum st)
    (display_phase_vis_b st) (display_phase_vis_g st)
    (display_phase_vis_r st) (lock_b_check st) (lock_g_check st)
    (lock_r_check st).

(** The display copy of a magnitude visualization, as a paint stroke on the
    frequency canvas leaves it. *)
Definition with_display (d : option (ndarray Z)) (st : AppState) :=
  mkApp (current_spatial_image st) (resulting_spatial_image st)
    (frequency_image st) (magnitude_spectrum st) (normalized_spectrum st)
    (global_log_mag_range st) (phase_vis_b st) (phase_vis_g st)
    (phase_vis_r st) d
    (display_phase_vis_b st) (display_phase_vis_g st)
    (display_phase_vis_r st) (lock_b_check st) (lock_g_check st)
    (lock_r_check st).

Definition with_phase_displays (b g r : option (ndarray Z)) (st : AppState) :=
  mkApp (current_spatial_image st) (resulting_spatial_image st)
    (frequency_image st) (magnitude_spectrum st) (normalized_spectrum st)
    (global_log_mag_range st) (phase_vis_b st) (phase_vis_g st)
    (phase_vis_r st) (display_normalized_spectrum st) b g r
    (lock_b_check st) (lock_g_check st) (lock_r_check st).

(** [getattr(self, f"phase_vis_{'bgr'[k]}")] *)
Definition phase_vis (st : AppState) (k : chan) : option (ndarray Z) :=
  match k with
  | C0 => phase_vis_b st
  | C1 => phase_vis_g st
  | C2 => phase_vis_r st
  end.

(** [getattr(self, display_attr_name)] for the attribute of channel [k] *)
Definition display_phase_vis (st : AppState) (k : chan)
  : option (ndarray Z) :=
  match k with
  | C0 => display_phase_vis_b st
  | C1 => display_phase_vis_g st
  | C2 => display_phase_vis_r st
  end.

(** [lock_state = {0: lock_b, 1: lock_g, 2: lock_r}] *)
Definition lock_state (st : AppState) (c_bgr : chan) : bool :=
  match c_bgr with
  | C0 => lock_b_check st
  | C1 => lock_g_check st
  | C2 => lock_r_check st
  end.

(** [map_rgb_to_bgr_idx = {0: 2, 1: 1, 2: 0}]; [map_bgr_to_rgb_idx] is the
    same dictionary. *)
Definition map_rgb_to_bgr_idx (c : chan) : chan :=
  match c with C0 => C2 | C1 => C1 | C2 => C0 end.

Definition map_bgr_to_rgb_idx (c : chan) : chan :=
  match c with C0 => C2 | C1 => C1 | C2 => C0 end.

(** What a handler reports on the status bar. *)
Inductive Message : Type :=
| MissingData         (* "Error: Missing data for ... finalization." *)
| MissingSpectrum     (* "Error: Missing spectrum data ..." *)
| ShapeError          (* "Freq shape error." *)
| NoChanges           (* "No final changes detected." *)
| RangeZero           (* "Cannot modify: Log range zero." *)
| ErrorCaught         (* "Error finalizing ...": an exception was caught *)
| Finalized.          (* "... edit finalized." *)

(** ** The engine: methods of [FourierTransformApp] *)

Section Engine.

(** OpenCV's 8-bit colour conversions of one pixel,
    [cv2.cvtColor(.., cv2.COLOR_HSV2BGR)] and
    [cv2.cvtColor(.., cv2.COLOR_BGR2HSV)]: library code, a parameter of
    the engine. *)
Variable cvt_hsv2bgr : pixel Z -> pixel Z.
Variable cvt_bgr2hsv : pixel Z -> pixel Z.

Local Open Scope R_scope.

(** [normalize_for_display], with [min_val] and [max_val] given *)
Definition normalize_for_display (img_channel : list (list R))
    (min_val max_val : R) : list (list Z) :=
  let range_val := max_val - min_val in
  if Rlt_dec range_val 1e-9 then
    fmap (M:=list) (fmap (M:=list) (fun _ => 0%Z)) img_channel
  else
    fmap (M:=list) (fmap (M:=list) (fun x =>
      let img_clipped := clip x min_val max_val in
      let normalized := (img_clipped - min_val) / range_val in
      astype_uint8 (normalized * 255))) img_channel.

(** all the entries of an array, and [np.min], [np.max] of it: a
    zero-size array raises [ValueError] *)
Definition entries {A} (a : ndarray A) : list A :=
  p ← mjoin a; [ch0 p; ch1 p; ch2 p].

Definition np_min (a : ndarray R) : option R :=
  match entries a with
  | [] => None
  | x :: l => Some (foldl Rmin x l)
  end.

Definition np_max (a : ndarray R) : option R :=
  match entries a with
  | [] => None
  | x :: l => Some (foldl Rmax x l)
  end.

(** [np.log1p(np.abs(z) + epsilon)], the log-magnitude of every entry *)
Definition log_magnitude (f : ndarray complex) : ndarray R :=
  fmap (M:=list) (fmap (M:=list)
    (px_map (fun z => log1p (cabs z + epsilon)))) f.

(** the global range of lines 675-677 (and 287-289) *)
Definition log_mag_range (mag : ndarray R) : option (R * R) :=
  match np_min mag, np_max mag with
  | Some global_min_log_mag, Some global_max_log_mag =>
      if Rlt_dec (global_max_log_mag - global_min_log_mag) epsilon
      then Some (global_min_log_mag, global_min_log_mag + 1)
      else Some (global_min_log_mag, global_max_log_mag)
  | _, _ => None
  end.

(** the loop of lines 679-681 as far as [normalized_spectrum] goes:
    channel [c_bgr] of the log-magnitude lands in channel [c_rgb] *)
Definition magnitude_visualization (mag : ndarray R) (rng : R * R)
  : ndarray Z :=
  foldl (fun norm c_bgr =>
    let norm_log_mag_uint8 :=
      normalize_for_display (slice_chan c_bgr mag) (fst rng) (snd rng) in
    assign_chan (map_bgr_to_rgb_idx c_bgr) norm_log_mag_uint8 norm)
    (full (fst (shape mag)) (snd (shape mag)) 0%Z) all_chans.

(** lines 680-684 for one channel: hue from the phase, full saturation,
    value from the normalized log-magnitude clamped to at least 1 *)
Definition phase_visualization (f : ndarray complex) (mag : ndarray R)
    (rng : R * R) (c_bgr : chan) : ndarray Z :=
  let norm_log_mag_uint8 :=
    normalize_for_display (slice_chan c_bgr mag) (fst rng) (snd rng) in
  zip_with (zip_with (fun z v =>
    let phase := angle z in
    let hue := astype_uint8 ((phase + PI) / (2 * PI) * 179) in
    let saturation := 255%Z in
    let value := Z.max 1 v in
    cvt_hsv2bgr (Px hue saturation value)))
    (slice_chan c_bgr f) norm_log_mag_uint8.

(** lines 675-686, common to [compute_frequency_domain] and
    [_compute_visualizations_from_frequency_data]: from the spectrum and
    its log-magnitude to the range, the baselines and their display
    copies.  [np.min] of a zero-size array raises before anything else
    is assigned. *)
Definition visualize (f : ndarray complex) (mag : ndarray R)
    (st : AppState) : option AppState :=
  match log_mag_range mag with
  | None => None
  | Some rng =>
      let norm := magnitude_visualization mag rng in
      let pb := phase_visualization f mag rng C0 in
      let pg := phase_visualization f mag rng C1 in
      let pr := phase_visualization f mag rng C2 in
      Some (mkApp (current_spatial_image st) (resulting_spatial_image st)
              (Some f) (Some mag) (Some norm) rng
              (Some pb) (Some pg) (Some pr)
              (Some norm) (Some pb) (Some pg) (Some pr)
              (lock_b_check st) (lock_g_check st) (lock_r_check st))
  end.

(** [_compute_visualizations_from_frequency_data]; its [except] clause
    only prints, so an exception leaves what was assigned before it. *)
Definition _compute_visualizations_from_frequency_data (st : AppState)
  : AppState :=
  match frequency_image st with
  | None => st
  | Some f =>
      let mag := log_magnitude f in
      match visualize f mag st with
      | Some st' => st'
      | None => with_magnitude (Some mag) st
      end
  end.

(** [inverse_transform]: per channel [ifftshift], [ifft2], [np.abs];
    then clip to [0, 255] and cast.  [None] stands for the exception
    [ifft2] raises on a zero-size array. *)
Definition inverse_channel (f : ndarray complex) (c : chan)
  : option (list (list R)) :=
  let f_ishifted_channel := Fft.ifftshift (slice_chan c f) in
  img_back_complex_channel ← Fft.ifft2 f_ishifted_channel;
  Some (fmap (M:=list) (fmap (M:=list) cabs) img_back_complex_channel).

Definition inverse_transform (freq_data_bgr_complex : ndarray complex)
  : option (ndarray Z) :=
  let h := fst (shape freq_data_bgr_complex) in
  let w := snd (shape freq_data_bgr_complex) in
  img_back_bgr_float ←
    for_each (fun img c =>
      ch ← inverse_channel freq_data_bgr_complex c;
      Some (assign_chan c ch img)) all_chans (full h w 0);
  Some (fmap (M:=list) (fmap (M:=list)
    (px_map (fun x => astype_uint8 (clip x 0 255)))) img_back_bgr_float).

(** the forward transform of one channel, lines 286:
    [astype(np.float32)], [fft2], [fftshift] *)
Definition forward_channel (img : ndarray Z) (c : chan)
  : option (list (list complex)) :=
  let img_channel_float :=
    fmap (M:=list) (fmap (M:=list) (fun v : Z => mkC (IZR v) 0))
         (slice_chan c img) in
  f_transform_channel ← Fft.fft2 img_channel_float;
  Some (Fft.fftshift f_transform_channel).

(** the spectrum of an image: the loop of line 286 on
    [frequency_image].  The log-magnitude the same loop stores is taken
    from [shifted_fft], the value just written to
    [frequency_image[:, :, c]]; below it is [log_magnitude] of the
    spectrum. *)
Definition forward_transform (img : ndarray Z) : option (ndarray complex) :=
  let h := fst (shape img) in
  let w := snd (shape img) in
  for_each (fun freq c =>
    shifted_fft ← forward_channel img c;
    Some (assign_chan c shifted_fft freq)) all_chans (full h w czero).

(** the state the [except] clause of [compute_frequency_domain] leaves *)
Definition cleared (st : AppState) : AppState :=
  mkApp (current_spatial_image st) (resulting_spatial_image st)
    None None None (0, 1) None None None None None None None
    (lock_b_check st) (lock_g_check st) (lock_r_check st).

(** [compute_frequency_domain] *)
Definition compute_frequency_domain (st : AppState) : AppState :=
  match current_spatial_image st with
  | None =>
      mkApp (current_spatial_image st) (resulting_spatial_image st)
        None None None (global_log_mag_range st)
        None None None None None None None
        (lock_b_check st) (lock_g_check st) (lock_r_check st)
  | Some img =>
      match forward_transform img with
      | None => cleared st
      | Some f =>
          match visualize f (log_magnitude f) st with
          | Some st' => st'
          | None => cleared st
          end
      end
  end.

(** *** Reconciling a magnitude edit: [freq_drawing_finished] *)

Definition black_tolerance : Z := 5.

(** lines 519 and 556: a pixel has changed when some channel differs from
    the baseline by more than 10 *)
Definition change_mask (final original : ndarray Z) : list (list bool) :=
  zip_with (zip_with (fun p q =>
    px_any (px_map (fun d => (10 <? Z.abs d)%Z) (px_zip Z.sub p q))))
    final original.

(** lines 533-537: the value written for a pixel that is not black *)
Definition magnitude_value (rng : R * R) (final_channel_val_uint8 : Z)
    (z : complex) : complex :=
  let global_min_log_mag := fst rng in
  let global_log_mag_range_width := snd rng - fst rng in
  let target_log_mag :=
    IZR final_channel_val_uint8 / 255 * global_log_mag_range_width
    + global_min_log_mag in
  let target_magnitude := py_max0 (expm1 target_log_mag) in
  let original_phase := angle z in
  cscale target_magnitude (cis original_phase).

(** lines 529-537: the body of the inner loop *)
Definition reconcile_channel (original_complex_bgr : ndarray complex)
    (rng : R * R) (locks : chan -> bool) (r c : nat)
    (final_rgb_pixel : pixel Z) (is_black : bool)
    (modified_complex_bgr : ndarray complex) (c_rgb : chan)
  : option (ndarray complex) :=
  let c_bgr := map_rgb_to_bgr_idx c_rgb in
  if locks c_bgr then Some modified_complex_bgr
  else if is_black then setitem3 modified_complex_bgr r c c_bgr czero
  else
    z ← getitem3 original_complex_bgr r c c_bgr;
    setitem3 modified_complex_bgr r c c_bgr
      (magnitude_value rng (px_get c_rgb final_rgb_pixel) z).

(** lines 526-537: the body of the outer loop *)
Definition reconcile_pixel (original_complex_bgr : ndarray complex)
    (final_display_norm_spectrum_rgb : ndarray Z) (rng : R * R)
    (locks : chan -> bool) (modified_complex_bgr : ndarray complex)
    (rc : nat * nat) : option (ndarray complex) :=
  final_rgb_pixel ←
    getitem final_display_norm_spectrum_rgb (fst rc) (snd rc);
  let is_black :=
    px_all (px_map (fun v => (v <? black_tolerance)%Z) final_rgb_pixel) in
  for_each (reconcile_channel original_complex_bgr rng locks
              (fst rc) (snd rc) final_rgb_pixel is_black)
           all_chans modified_complex_bgr.

(** lines 521-537: the loop over the changed pixels, on a copy of the
    spectrum *)
Definition reconcile_magnitude (original_complex_bgr : ndarray complex)
    (final : ndarray Z) (rng : R * R) (locks : chan -> bool)
    (changed_indices : list (nat * nat)) : option (ndarray complex) :=
  for_each (reconcile_pixel original_complex_bgr final rng locks)
           changed_indices original_complex_bgr.

(** [_update_phase_displays_from_magnitude]: the value channel of the
    three phase display copies follows the new magnitudes, with the range
    the state holds; hue and saturation are read back from the copies. *)
Definition refresh_value (rng : R * R) (complex_bgr_data : ndarray complex)
    (c_bgr : chan) (current_display_bgr : ndarray Z) : ndarray Z :=
  let new_log_mag :=
    slice_chan c_bgr (log_magnitude complex_bgr_data) in
  let new_value_unclamped :=
    normalize_for_display new_log_mag (fst rng) (snd rng) in
  zip_with (zip_with (fun p v =>
    let current_hsv := cvt_bgr2hsv p in
    let new_value := Z.max 1 v in
    cvt_hsv2bgr (Px (ch0 current_hsv) (ch1 current_hsv) new_value)))
    current_display_bgr new_value_unclamped.

Definition _update_phase_displays_from_magnitude
    (complex_bgr_data : ndarray complex) (st : AppState) : AppState :=
  match display_phase_vis_b st, display_phase_vis_g st,
        display_phase_vis_r st with
  | Some db, Some dg, Some dr =>
      let rng := global_log_mag_range st in
      with_phase_displays
        (Some (refresh_value rng complex_bgr_data C0 db))
        (Some (refresh_value rng complex_bgr_data C1 dg))
        (Some (refresh_value rng complex_bgr_data C2 dr)) st
  | _, _, _ => st
  end.

(** lines 538-542 and 567-570: the commit.  The spectrum is assigned
    first; an exception of [inverse_transform] is caught after it. *)
Definition commit (refresh_phase : bool)
    (modified_complex_bgr : ndarray complex) (st : AppState)
  : AppState * Message :=
  let st1 := with_frequency (Some modified_complex_bgr) st in
  match inverse_transform modified_complex_bgr with
  | None => (st1, ErrorCaught)
  | Some res =>
      let st2 := with_result (Some res) st1 in
      (if refresh_phase
       then _update_phase_displays_from_magnitude modified_complex_bgr st2
       else st2, Finalized)
  end.

(** [freq_drawing_finished].  [drawn_freq_bgr_data] is only tested for
    [None]; the canvas never emits [None]. *)
Definition freq_drawing_finished (st : AppState)
    (drawn_freq_bgr_data : ndarray Z) : AppState * Message :=
  match frequency_image st, display_normalized_spectrum st with
  | Some original_complex_bgr, Some final_display_norm_spectrum_rgb =>
      match normalized_spectrum st with
      | None => (st, MissingSpectrum)
      | Some original_calculated_norm_spectrum_rgb =>
          if negb (bool_decide
               (shape final_display_norm_spectrum_rgb
                = shape original_calculated_norm_spectrum_rgb))
          then (st, ShapeError)
          else
            let change_mask_rgb :=
              change_mask final_display_norm_spectrum_rgb
                          original_calculated_norm_spectrum_rgb in
            if negb (np_any change_mask_rgb) then (st, NoChanges)
            else
              let rng := global_log_mag_range st in
              if Rlt_dec (snd rng - fst rng) 1e-9 then (st, RangeZero)
              else
                match reconcile_magnitude original_complex_bgr
                        final_display_norm_spectrum_rgb rng
                        (lock_state st) (np_where change_mask_rgb) with
                | None => (st, ErrorCaught)
                | Some modified_complex_bgr =>
                    commit true modified_complex_bgr st
                end
      end
  | _, _ => (st, MissingData)
  end.

(** *** Reconciling a phase edit: [_process_phase_drawing_finished] *)

(** lines 563-565: the value written at a changed pixel *)
Definition phase_value (final_bgr_pixel : pixel Z) (z : complex)
  : complex :=
  let hsv_pixel := cvt_bgr2hsv final_bgr_pixel in
  let final_hue := ch0 hsv_pixel in
  let new_phase := IZR final_hue / 179 * (2 * PI) - PI in
  let original_magnitude := cabs z in
  cscale original_magnitude (cis new_phase).

(** lines 560-566: the body of the loop *)
Definition reconcile_phase_pixel (original_complex_bgr : ndarray complex)
    (drawn_phase_bgr_data : ndarray Z) (channel_index_bgr : chan)
    (modified_complex_bgr : ndarray complex) (rc : nat * nat)
  : option (ndarray complex) :=
  final_bgr_pixel ← getitem drawn_phase_bgr_data (fst rc) (snd rc);
  z ← getitem3 original_complex_bgr (fst rc) (snd rc) channel_index_bgr;
  setitem3 modified_complex_bgr (fst rc) (snd rc) channel_index_bgr
    (phase_value final_bgr_pixel z).

Definition reconcile_phase (original_complex_bgr : ndarray complex)
    (drawn : ndarray Z) (channel_index_bgr : chan)
    (changed_indices : list (nat * nat)) : option (ndarray complex) :=
  for_each
    (reconcile_phase_pixel original_complex_bgr drawn channel_index_bgr)
    changed_indices original_complex_bgr.

(** [_process_phase_drawing_finished] for the canvas of channel
    [channel_index_bgr] *)
Definition _process_phase_drawing_finished (st : AppState)
    (drawn_phase_bgr_data : ndarray Z) (channel_index_bgr : chan)
  : AppState * Message :=
  match frequency_image st, display_phase_vis st channel_index_bgr with
  | Some original_complex_bgr, Some _ =>
      match phase_vis st channel_index_bgr with
      | None => (st, MissingSpectrum)
      | Some original_calculated_phase_vis =>
          if negb (bool_decide
               (shape drawn_phase_bgr_data
                = shape original_calculated_phase_vis))
          then (st, ShapeError)
          else
            let mask :=
              change_mask drawn_phase_bgr_data
                          original_calculated_phase_vis in
            if negb (np_any mask) then (st, NoChanges)
            else
              match reconcile_phase original_complex_bgr
                      drawn_phase_bgr_data channel_index_bgr
                      (np_where mask) with
              | None => (st, ErrorCaught)
              | Some modified_complex_bgr =>
                  commit false modified_complex_bgr st
              end
      end
  | _, _ => (st, MissingData)
  end.

(** *** The filters *)

(** [_post_filter_update]: the inverse image, then every visualization
    from the new spectrum.  An exception of [inverse_transform] is caught
    and skips the rest. *)
Definition _post_filter_update (st : AppState) : AppState :=
  match frequency_image st with
  | None => st
  | Some f =>
      match inverse_transform f with
      | None => st
      | Some res =>
          _compute_visualizations_from_frequency_data
            (with_result (Some res) st)
      end
  end.

(** [a[m, c] = 0 + 0j] for a 2D boolean array [m] *)
Definition zero_where (m : list (list bool)) (c : chan)
    (a : ndarray complex) : ndarray complex :=
  zip_with (zip_with (fun p (b : bool) =>
    if b then px_set c czero p else p)) a m.

(** the squared distance of [(y, x)] from the centre, an integer *)
Definition dist_sq (center_row center_col y x : nat) : Z :=
  ((Z.of_nat y - Z.of_nat center_row) ^ 2
   + (Z.of_nat x - Z.of_nat center_col) ^ 2)%Z.

(** [max_radius = np.sqrt((h//2)**2 + (w//2)**2)] *)
Definition max_radius (h w : nat) : R :=
  sqrt (IZR (Z.of_nat (h / 2) ^ 2 + Z.of_nat (w / 2) ^ 2)).

(** line 631: [mask = dist_from_center <= radius_pixels] over
    [np.ogrid[:h, :w]] *)
Definition radial_mask (h w : nat) (radius_pixels : R)
  : list (list bool) :=
  let center_row := (h / 2)%nat in
  let center_col := (w / 2)%nat in
  (fun y => (fun x =>
     let dist_from_center :=
       sqrt (IZR (dist_sq center_row center_col y x)) in
     if Rle_dec dist_from_center radius_pixels then true else false)
     <$> seq 0 w) <$> seq 0 h.

(** [~mask] *)
Definition invert (m : list (list bool)) : list (list bool) :=
  fmap (M:=list) (fmap (M:=list) negb) m.

(** lines 630-634 of [apply_radial_filter]: the filtered copy *)
Definition radial_filtered (radius_fraction : R) (f : ndarray complex)
  : ndarray complex :=
  let h := fst (shape f) in
  let w := snd (shape f) in
  let radius_pixels := radius_fraction * max_radius h w in
  let mask := radial_mask h w radius_pixels in
  foldl (fun modified_frequency_image c =>
           zero_where (invert mask) c modified_frequency_image)
        f all_chans.

(** [apply_radial_filter] *)
Definition apply_radial_filter (st : AppState) (radius_fraction : R)
  : AppState :=
  match frequency_image st with
  | None => st
  | Some f =>
      _post_filter_update
        (with_frequency (Some (radial_filtered radius_fraction f)) st)
  end.

(** lines 642-645 of [apply_magnitude_filter]: the filtered copy *)
Definition magnitude_filtered (threshold_log_value : R)
    (log_magnitudes : ndarray R) (f : ndarray complex)
  : ndarray complex :=
  let mask_below_threshold :=
    fmap (M:=list) (fmap (M:=list) (px_map (fun x =>
      if Rlt_dec x threshold_log_value then true else false)))
      log_magnitudes in
  foldl (fun modified_frequency_image c =>
           zero_where (slice_chan c mask_below_threshold) c
                      modified_frequency_image) f all_chans.

(** [apply_magnitude_filter]: the test is made on the attribute
    [magnitude_spectrum] and on the range the state holds *)
Definition apply_magnitude_filter (st : AppState) (threshold_fraction : R)
  : AppState :=
  match frequency_image st, magnitude_spectrum st with
  | Some f, Some log_magnitudes =>
      let min_log_mag := fst (global_log_mag_range st) in
      let max_log_mag := snd (global_log_mag_range st) in
      let log_mag_range := max_log_mag - min_log_mag in
      if Rlt_dec log_mag_range 1e-9 then st
      else
        let threshold_log_value :=
          min_log_mag + threshold_fraction * log_mag_range in
        _post_filter_update
          (with_frequency
             (Some (magnitude_filtered threshold_log_value
                      log_magnitudes f)) st)
  | _, _ => st
  end.

(** [apply_gaussian_filter] *)
Definition gaussian_filtered (sigma_pixels : R) (f : ndarray complex)
  : ndarray complex :=
  let h := fst (shape f) in
  let w := snd (shape f) in
  let center_row := (h / 2)%nat in
  let center_col := (w / 2)%nat in
  imap (fun y row => imap (fun x p =>
    let gaussian_filter :=
      exp (- IZR (dist_sq center_row center_col y x)
           / (2 * (sigma_pixels * sigma_pixels))) in
    px_map (cscale gaussian_filter) p) row) f.

Definition apply_gaussian_filter (st : AppState) (sigma_fraction : R)
  : AppState :=
  match frequency_image st with
  | None => st
  | Some f =>
      let sigma_pixels :=
        sigma_fraction * max_radius (fst (shape f)) (snd (shape f)) in
      if Rlt_dec sigma_pixels 1e-6 then st
      else
        _post_filter_update
          (with_frequency (Some (gaussian_filtered sigma_pixels f)) st)
  end.

End Engine.

(** ** Edits and what they write *)

(** The canvas a stroke is finished on: the magnitude canvas, or the phase
    canvas of one channel (lines 216 and 222-224 connect each canvas to its
    handler; lines 545-547 pass the channel). *)
Inductive edit : Type :=
| MagnitudeEdit
| PhaseEdit (channel_index_bgr : chan).

Section Dispatch.

Variable cvt_hsv2bgr : pixel Z -> pixel Z.
Variable cvt_bgr2hsv : pixel Z -> pixel Z.

(** the [drawingFinished] handler of a canvas *)
Definition drawing_finished (e : edit) (st : AppState) (drawn : ndarray Z)
  : AppState * Message :=
  match e with
  | MagnitudeEdit => freq_drawing_finished cvt_hsv2bgr cvt_bgr2hsv st drawn
  | PhaseEdit k =>
      _process_phase_drawing_finished cvt_hsv2bgr cvt_bgr2hsv st drawn k
  end.

End Dispatch.

(** the baseline visualization an edit is compared with *)
Definition baseline (e : edit) (st : AppState) : option (ndarray Z) :=
  match e with
  | MagnitudeEdit => normalized_spectrum st
  | PhaseEdit k => phase_vis st k
  end.

(** the working copy of the visualization the edit paints on *)
Definition working_copy (e : edit) (st : AppState) : option (ndarray Z) :=
  match e with
  | MagnitudeEdit => display_normalized_spectrum st
  | PhaseEdit k => display_phase_vis st k
  end.

(** the final visualization the handler compares with the baseline: the
    display copy for a magnitude edit, the image of the canvas for a phase
    edit *)
Definition displayed (e : edit) (st : AppState) (drawn : ndarray Z)
  : option (ndarray Z) :=
  match e with
  | MagnitudeEdit => display_normalized_spectrum st
  | PhaseEdit _ => Some drawn
  end.

(** the channels of the spectrum an edit may write *)
Definition writes (e : edit) (st : AppState) (k : chan) : bool :=
  match e with
  | MagnitudeEdit => negb (lock_state st k)
  | PhaseEdit ch => bool_decide (k = ch)
  end.

(** The test of lines 519 and 556 on one pixel. *)
Definition differs (p q : pixel Z) : Prop :=
  (10 < Z.abs (ch0 p - ch0 q) \/ 10 < Z.abs (ch1 p - ch1 q)
   \/ 10 < Z.abs (ch2 p - ch2 q))%Z.

(** What the magnitude reconciler writes at channel [k] of a changed pixel,
    from the spectrum before the commit and the display buffer alone. *)
Definition channel_target (orig : ndarray complex) (rng : R * R)
    (r c : nat) (px : pixel Z) (is_black : bool) (k : chan)
  : option complex :=
  if is_black then Some czero
  else magnitude_value rng (px_get (map_bgr_to_rgb_idx k) px)
         <$> getitem3 orig r c k.

Definition pixel_target (orig : ndarray complex) (final : ndarray Z)
    (rng : R * R) (r c : nat) (k : chan) : option complex :=
  px ← getitem final r c;
  channel_target orig rng r c px
    (px_all (px_map (fun v => (v <? black_tolerance)%Z) px)) k.

(** What the phase reconciler writes at a changed pixel. *)
Definition phase_target (cvt_bgr2hsv : pixel Z -> pixel Z)
    (orig : ndarray complex) (drawn : ndarray Z) (k : chan) (r c : nat)
  : option complex :=
  px ← getitem drawn r c;
  phase_value cvt_bgr2hsv px <$> getitem3 orig r c k.

(** The attributes an edit commit does not assign. *)
Definition same_caches (st st' : AppState) : Prop :=
  magnitude_spectrum st' = magnitude_spectrum st
  /\ global_log_mag_range st' = global_log_mag_range st
  /\ normalized_spectrum st' = normalized_spectrum st
  /\ display_normalized_spectrum st' = display_normalized_spectrum st
  /\ phase_vis st' = phase_vis st
  /\ lock_state st' = lock_state st.

(** ** Sample data *)

#[global] Instance pixel_eq_dec {A} `{EqDecision A} : EqDecision (pixel A).
Proof. solve_decision. Defined.

(** Two pixel conversions to run the engine with.  They agree with
    OpenCV's 8-bit conversions on pure green, on pure red and on the greys,
    the colours the examples paint with. *)
Definition sample_bgr2hsv (p : pixel Z) : pixel Z :=
  if decide (p = Px 0 255 0)%Z then (Px 60 255 255)%Z
  else if decide (p = Px 0 0 255)%Z then (Px 0 255 255)%Z
  else (Px 0 0 (Z.max (ch0 p) (Z.max (ch1 p) (ch2 p))))%Z.

Definition sample_hsv2bgr (p : pixel Z) : pixel Z :=
  if decide (p = Px 60 255 255)%Z then (Px 0 255 0)%Z
  else if decide (p = Px 0 255 255)%Z then (Px 0 0 255)%Z
  else Px (ch2 p) (ch2 p) (ch2 p).

(** A 1 x 1 spectrum, and the state after a stroke on its magnitude canvas
    with the green channel locked. *)
Definition sample_spectrum : ndarray complex :=
  [[Px (mkC 3 4) (mkC 1 0) (mkC 0 2)]].

Definition sample_painted : AppState :=
  mkApp None None (Some sample_spectrum) None (Some [[Px 0 0 0]]%Z)
    (0%R, 1%R) None None None (Some [[Px 200 100 50]]%Z) None None None
    false true false.

Definition sample_reconciled : ndarray complex :=
  [[Px (magnitude_value (0%R, 1%R) 50 (mkC 3 4)) (mkC 1 0)
       (magnitude_value (0%R, 1%R) 200 (mkC 0 2))]].

(** Two arrays with the same positions. *)
Definition same_dom {A} (m m' : list (list A)) : Prop :=
  length m' = length m
  /\ forall r c, is_Some (getitem m' r c) <-> is_Some (getitem m r c).


Section EditLoops.

Variable cvt_bgr2hsv : pixel Z -> pixel Z.

(** the loop an edit runs over the changed positions, on a copy of the
    spectrum *)
Definition reconcile (e : edit) (st : AppState) (orig : ndarray complex)
    (final : ndarray Z) (changed_indices : list (nat * nat))
  : option (ndarray complex) :=
  match e with
  | MagnitudeEdit =>
      reconcile_magnitude orig final (global_log_mag_range st)
        (lock_state st) changed_indices
  | PhaseEdit k => reconcile_phase cvt_bgr2hsv orig final k changed_indices
  end.

(** the value an edit writes at a changed position, a function of the
    spectrum before the commit and of the final visualization *)
Definition edit_target (e : edit) (st : AppState) (orig : ndarray complex)
    (final : ndarray Z) (r c : nat) (k : chan) : option complex :=
  match e with
  | MagnitudeEdit =>
      pixel_target orig final (global_log_mag_range st) r c k
  | PhaseEdit ch => phase_target cvt_bgr2hsv orig final ch r c
  end.

End EditLoops.

(** A 1 x 1 spectrum with the value [z] in every channel, and the state
    after a stroke of pure green on the phase canvas of the blue channel,
    with the blue channel locked.  For [z = 0] this is what an all-black
    1 x 1 image loads to: phase 0 is hue 89, the value is clamped to 1. *)
Definition uniform_spectrum (z : complex) : ndarray complex := [[Px z z z]].

Definition phase_painted (z : complex) : AppState :=
  mkApp None None (Some (uniform_spectrum z)) None (Some [[Px 0 0 0]]%Z)
    (0%R, 1%R)
    (Some [[Px 1 1 0]]%Z) (Some [[Px 1 1 0]]%Z) (Some [[Px 1 1 0]]%Z)
    (Some [[Px 0 0 0]]%Z)
    (Some [[Px 0 255 0]]%Z) (Some [[Px 1 1 0]]%Z) (Some [[Px 1 1 0]]%Z)
    true false false.

Definition green_stroke : ndarray Z := [[Px 0 255 0]]%Z.

(** A stroke of black on the magnitude canvas of [sample_spectrum], green
    locked; and a stroke too faint to count. *)
Definition sample_blackened : AppState :=
  mkApp None None (Some sample_spectrum) None (Some [[Px 90 80 70]]%Z)
    (0%R, 1%R) None None None (Some [[Px 0 3 0]]%Z) None None None
    false true false.

Definition sample_faint : AppState :=
  mkApp None None (Some sample_spectrum) None (Some [[Px 90 80 70]]%Z)
    (0%R, 1%R) None None None (Some [[Px 100 80 60]]%Z) None None None
    false false false.

(** the outcome of the green stroke on the locked blue channel *)
Definition locked_phase_edit : AppState * Message :=
  drawing_finished sample_hsv2bgr sample_bgr2hsv (PhaseEdit C0)
    (phase_painted (mkC 1 0)) green_stroke.

(** Every row of a numpy array has the length of the first. *)
Definition rectangular {A} (a : list (list A)) : Prop :=
  Forall (fun row => length row = snd (shape a)) a.

(** ** A session: load, paint, commit, filter *)

(** A 1 x 1 image with every sample 1 is loaded; its spectrum is 1 in
    every channel.  The user paints white on the magnitude canvas and
    releases the mouse; then the magnitude filter is applied at 50%. *)
Definition unit_image : ndarray Z := [[Px 1 1 1]]%Z.

Definition loaded_unit : AppState :=
  compute_frequency_domain sample_hsv2bgr
    (with_spatial (Some unit_image) (initial_state false false false)).

Definition brightened : AppState :=
  with_display (Some [[Px 255 255 255]]%Z) loaded_unit.

Definition bright_edit : AppState * Message :=
  freq_drawing_finished sample_hsv2bgr sample_bgr2hsv brightened
    [[Px 255 255 255]]%Z.

Definition filtered_after_edit : AppState :=
  apply_magnitude_filter sample_hsv2bgr (fst bright_edit) (1 / 2).

(** the log-magnitude of an entry of absolute value 1 *)
Definition unit_log_mag : R := log1p (1 + epsilon).

(** the magnitude the white stroke asks for *)
Definition bright_magnitude : R := expm1 (unit_log_mag + 1).

(** ** Filters and caches *)

(** The three filters of the toolbar, each with its fraction
    ([prompt_*_filter] passes [percent / 100.0]). *)
Inductive filter : Type :=
| Radial (radius_fraction : R)
| MagnitudeThreshold (threshold_fraction : R)
| Gaussian (sigma_fraction : R).

Definition apply_filter (cvt_hsv2bgr : pixel Z -> pixel Z) (k : filter)
    (st : AppState) : AppState :=
  match k with
  | Radial p => apply_radial_filter cvt_hsv2bgr st p
  | MagnitudeThreshold p => apply_magnitude_filter cvt_hsv2bgr st p
  | Gaussian p => apply_gaussian_filter cvt_hsv2bgr st p
  end.

(** The LogMagnitude matrix, the global range and the baseline magnitude
    visualization of a state are those of the spectrum [f] it holds. *)
Definition caches_of (f : ndarray complex) (st : AppState) : Prop :=
  frequency_image st = Some f
  /\ magnitude_spectrum st = Some (log_magnitude f)
  /\ log_mag_range (log_magnitude f) = Some (global_log_mag_range st)
  /\ normalized_spectrum st
     = Some (magnitude_visualization (log_magnitude f)
               (global_log_mag_range st))
  /\ display_normalized_spectrum st = normalized_spectrum st.

(** the outcome of the green stroke on the phase canvas of the blue
    channel of an all-zero spectrum *)
Definition zero_phase_edit : AppState * Message :=
  drawing_finished sample_hsv2bgr sample_bgr2hsv (PhaseEdit C0)
    (phase_painted czero) green_stroke.

(** a 2 x 2 spectrum *)
Definition square_spectrum : ndarray complex :=
  [[Px (mkC 3 4) (mkC 1 0) (mkC 0 2); Px (mkC 1 1) (mkC 1 0) (mkC 0 2)];
   [Px (mkC 0 0) (mkC 5 0) (mkC 2 2); Px (mkC 7 1) (mkC 1 0) (mkC 0 2)]].

(** ** Shapes *)

(** every row has [w] entries *)
Definition has_width {A} (w : nat) (a : list (list A)) : Prop :=
  Forall (fun row => length row = w) a.

(** the entry at [(r, c)] of a 2D array of complex numbers, 0 outside *)
Definition entry (a : list (list complex)) (r c : nat) : complex :=
  default czero (getitem a r c).

(** A valid image: a rectangular array of at least one pixel with 8-bit
    samples. *)
Definition valid_image (img : ndarray Z) : Prop :=
  rectangular img
  /\ Fft.zero_size img = false
  /\ forall r c k v, getitem3 img r c k = Some v -> (0 <= v <= 255)%Z.

(** a 2 x 2 image, with one solid row *)
Definition sample_image : ndarray Z :=
  [[Px 10 20 30; Px 0 255 7]; [Px 200 100 50; Px 200 100 50]]%Z.

(** The LogMagnitude matrix, the global range and the baseline magnitude
    visualization of a state are those computed from the spectrum [f] it
    holds. *)
Definition magnitude_caches_of (f : ndarray complex) (st : AppState)
  : Prop :=
  frequency_image st = Some f
  /\ magnitude_spectrum st = Some (log_magnitude f)
  /\ log_mag_range (log_magnitude f) = Some (global_log_mag_range st)
  /\ normalized_spectrum st
     = Some (magnitude_visualization (log_magnitude f)
               (global_log_mag_range st)).

(** [loaded_unit] after the magnitude filter at 50%; and [loaded_unit]
    after a stroke of pure green on the phase canvas of its blue channel,
    with the commit of that stroke. *)
Definition thresholded_unit : AppState :=
  apply_filter sample_hsv2bgr (MagnitudeThreshold (1 / 2)) loaded_unit.

Definition phase_painted_unit : AppState :=
  with_phase_displays (Some green_stroke) (display_phase_vis_g loaded_unit)
    (display_phase_vis_r loaded_unit) loaded_unit.

Definition phase_unit_edit : AppState * Message :=
  _process_phase_drawing_finished sample_hsv2bgr sample_bgr2hsv
    phase_painted_unit green_stroke C0.

(** ** Bresenham's line: [bresenham_line] *)

(** The [while True] loop of the generator, run for at most [fuel]
    iterations: the points yielded up to the [break], or [None] when the
    loop has not reached its [break] by then. *)
Fixpoint bresenham_loop (fuel : nat) (dx dy sx sy x1 y1 x0 y0 err : Z)
  : option (list (Z * Z)) :=
  match fuel with
  | O => None
  | S fuel' =>
      if ((x0 =? x1) && (y0 =? y1))%Z then Some [(x0, y0)]
      else
        let e2 := (2 * err)%Z in
        let step_x := (e2 >? - dy)%Z in
        let err_x := if step_x then (err - dy)%Z else err in
        let x0' := if step_x then (x0 + sx)%Z else x0 in
        let step_y := (e2 <? dx)%Z in
        let err' := if step_y then (err_x + dx)%Z else err_x in
        let y0' := if step_y then (y0 + sy)%Z else y0 in
        cons (x0, y0)
          <$> bresenham_loop fuel' dx dy sx sy x1 y1 x0' y0' err'
  end.

(** [bresenham_line(x0, y0, x1, y1)], the generator consumed to its end *)
Definition bresenham_line (fuel : nat) (x0 y0 x1 y1 : Z)
  : option (list (Z * Z)) :=
  let dx := Z.abs (x1 - x0) in
  let dy := Z.abs (y1 - y0) in
  let sx := (if x0 <? x1 then 1 else -1)%Z in
  let sy := (if y0 <? y1 then 1 else -1)%Z in
  let err := (dx - dy)%Z in
  bresenham_loop fuel dx dy sx sy x1 y1 x0 y0 err.

(** The points of [for x, y in bresenham_line(..)]: the loop is run for
    as many iterations as it can need. *)
Definition bresenham_points (x0 y0 x1 y1 : Z) : list (Z * Z) :=
  default []
    (bresenham_line (S (Z.to_nat (Z.abs (x1 - x0) + Z.abs (y1 - y0))))
       x0 y0 x1 y1).

(** two points next to each other, diagonals included *)
Definition adjacent (p q : Z * Z) : Prop :=
  (Z.abs (fst q - fst p) <= 1)%Z /\ (Z.abs (snd q - snd p) <= 1)%Z
  /\ p <> q.

(** every point of [l] is next to the one before it *)
Fixpoint connected (l : list (Z * Z)) : Prop :=
  match l with
  | p :: (q :: _) as l' => adjacent p q /\ connected l'
  | _ => True
  end.

(** [v] lies between [a] and [b], whichever is the smaller *)
Definition between (a b v : Z) : Prop :=
  (Z.min a b <= v <= Z.max a b)%Z.

(** ** Pens and strokes: what a canvas sends to the application *)

(** [QPoint]: a position, in image coordinates when a signal carries it *)
Record QPoint : Type := mkQPoint { pt_x : Z; pt_y : Z }.

#[global] Instance QPoint_eq_dec : EqDecision QPoint.
Proof. solve_decision. Defined.

(** [QColor], reduced to what the handlers read of it: the components of
    [getRgb()] and the hue of [getHsv()] (0..359, or -1 for a grey) *)
Record QColor : Type := mkQColor {
  q_red : Z;
  q_green : Z;
  q_blue : Z;
  q_hue : Z
}.

(** Python's [round] of a float: the nearest integer, a half going to
    the even neighbour *)
Definition py_round (x : R) : Z :=
  let n := Int_part x in
  let d := (x - IZR n)%R in
  if Rlt_dec d (1 / 2) then n
  else if Rlt_dec (1 / 2) d then (n + 1)%Z
  else if Z.even n then n else (n + 1)%Z.

(** [max(1, int(round(pen_width / zoom_factor)))]; [None] stands for the
    [ZeroDivisionError] of a zero zoom *)
Definition effective_pen_width (pen_width : Z) (zoom_factor : R)
  : option Z :=
  if Req_EM_T zoom_factor 0 then None
  else Some (Z.max 1 (py_round (IZR pen_width / zoom_factor))).

(** [0 <= y < h and 0 <= x < w] *)
Definition in_bounds (h w : nat) (x y : Z) : bool :=
  ((0 <=? y) && (y <? Z.of_nat h) && (0 <=? x) && (x <? Z.of_nat w))%Z.

(** [a[y, x] = p] for a position inside the array *)
Definition setitem {A} (a : list (list A)) (r c : nat) (p : A)
  : list (list A) :=
  match a !! r with
  | Some row => <[r := <[c := p]> row]> a
  | None => a
  end.

(** [a[y, x] = paint(a[y, x])] for a point that has passed the bounds
    test *)
Definition paint_at {A} (paint : A -> A) (a : list (list A)) (xy : Z * Z)
  : list (list A) :=
  let r := Z.to_nat (snd xy) in
  let c := Z.to_nat (fst xy) in
  match getitem a r c with
  | Some p => setitem a r c (paint p)
  | None => a
  end.

(** [for x, y in points: if 0 <= y < h and 0 <= x < w: a[y, x] = ..] *)
Definition paint_points {A} (paint : A -> A) (points : list (Z * Z))
    (a : list (list A)) : list (list A) :=
  let '(h, w) := shape a in
  foldl (fun a xy =>
           if in_bounds h w (fst xy) (snd xy) then paint_at paint a xy
           else a) a points.

(** a pixel after such a loop: the one before, painted if the points
    hold its position *)
Definition painted {A} (paint : nat -> nat -> A -> A)
    (points : list (Z * Z)) (r c : nat) (p : A) : A :=
  if decide ((Z.of_nat c, Z.of_nat r) ∈ points) then paint r c p else p.

(** [idx = np.where(mask > 0); a[idx] = paint(a[idx])] for a mask drawn
    on [np.zeros(a.shape[:2])]: the mask has the height and the width of
    [a].  [paint] is given the position as well. *)
Definition paint_where {A} (mask : list (list Z))
    (paint : nat -> nat -> A -> A) (a : list (list A)) : list (list A) :=
  imap (fun r row => imap (fun c p =>
    match getitem mask r c with
    | Some m => if (0 <? m)%Z then paint r c p else p
    | None => p
    end) row) a.

(** [setattr(self, display_attr_name, ..)] for the attribute of channel
    [k] *)
Definition with_display_phase_vis (k : chan) (d : option (ndarray Z))
    (st : AppState) : AppState :=
  match k with
  | C0 => with_phase_displays d (display_phase_vis_g st)
            (display_phase_vis_r st) st
  | C1 => with_phase_displays (display_phase_vis_b st) d
            (display_phase_vis_r st) st
  | C2 => with_phase_displays (display_phase_vis_b st)
            (display_phase_vis_g st) d st
  end.

(** The state of a [DrawableCanvas]: the attributes of [__init__]
    ([_initial_image_set], which nothing reads, left out) and the size
    [width()] x [height()] of the widget.  [display_image] is the
    [QImage] shown, in the format RGB888, as its rows of pixels. *)
Record DrawableCanvas : Type := mkCanvas {
  display_image : option (ndarray Z);
  drawing : bool;
  last_point : QPoint;
  last_image_point : QPoint;
  pen_color : QColor;
  pen_width : Z;
  drawing_enabled : bool;
  drawing_allowed : bool;
  zoom_factor : R;
  offset_x : R;
  offset_y : R;
  _is_panning : bool;
  width : Z;
  height : Z
}.

(** ** The live drawing handlers *)

Section LiveDrawing.

Variable cvt_hsv2bgr : pixel Z -> pixel Z.

(** OpenCV's anti-aliased drawing, library code and a parameter here.
    [cv2_line_mask h w p1 p2 thickness] is the array
    [np.zeros((h, w), np.uint8)] after
    [cv2.line(mask, p1, p2, 255, thickness, cv2.LINE_AA)], and
    [cv2_circle_mask h w p radius] the same array after
    [cv2.circle(mask, p, radius, 255, thickness=-1, lineType=cv2.LINE_AA)];
    [cv2_line] and [cv2_circle] are the image after a coloured line or
    disc has been drawn on it. *)
Variable cv2_line_mask : nat -> nat -> QPoint -> QPoint -> Z -> list (list Z).
Variable cv2_circle_mask : nat -> nat -> QPoint -> Z -> list (list Z).
Variable cv2_line :
  ndarray Z -> QPoint -> QPoint -> pixel Z -> Z -> ndarray Z.
Variable cv2_circle : ndarray Z -> QPoint -> Z -> pixel Z -> ndarray Z.

(** *** The spatial canvas *)

(** [bgr_color = (color.blue(), color.green(), color.red())] *)
Definition bgr_color (color : QColor) : pixel Z :=
  Px (q_blue color) (q_green color) (q_red color).

Definition handle_spatial_point_drawn (st : AppState) (p : QPoint)
    (color : QColor) : AppState :=
  match current_spatial_image st with
  | None => st
  | Some img =>
      with_spatial
        (Some (paint_points (fun _ => bgr_color color)
                 [(pt_x p, pt_y p)] img)) st
  end.

Definition handle_spatial_line_drawn (canvas : DrawableCanvas) (st : AppState)
    (p1 p2 : QPoint) (color : QColor) : AppState :=
  match current_spatial_image st with
  | None => st
  | Some img =>
      match effective_pen_width (pen_width canvas) (zoom_factor canvas) with
      | None => st
      | Some thickness =>
          if (thickness =? 1)%Z then
            with_spatial
              (Some (paint_points (fun _ => bgr_color color)
                       (bresenham_points (pt_x p1) (pt_y p1)
                          (pt_x p2) (pt_y p2)) img)) st
          else
            with_spatial
              (Some (cv2_line img p1 p2 (bgr_color color) thickness)) st
      end
  end.

Definition handle_spatial_circle_drawn (st : AppState) (p : QPoint)
    (radius : Z) (color : QColor) : AppState :=
  match current_spatial_image st with
  | None => st
  | Some img =>
      with_spatial (Some (cv2_circle img p radius (bgr_color color))) st
  end.

(** *** The frequency canvas *)

(** lines 365-380 (and 400-413, 419-431): the colour a painted pixel of
    the magnitude display gets, from the pen, the locks and the pixel
    under it *)
Definition freq_target (st : AppState) (color : QColor)
    (underlying_rgb : pixel Z) : pixel Z :=
  let pen_r := q_red color in
  let pen_g := q_green color in
  let pen_b := q_blue color in
  let is_black_pen := ((pen_r <? 5) && (pen_g <? 5) && (pen_b <? 5))%Z in
  let lock_b := lock_b_check st in
  let lock_g := lock_g_check st in
  let lock_r := lock_r_check st in
  let target_r := ch0 underlying_rgb in
  let target_g := ch1 underlying_rgb in
  let target_b := ch2 underlying_rgb in
  if is_black_pen then
    Px (if negb lock_r then 0%Z else target_r)
       (if negb lock_g then 0%Z else target_g)
       (if negb lock_b then 0%Z else target_b)
  else
    Px (if negb lock_r then pen_r else target_r)
       (if negb lock_g then pen_g else target_g)
       (if negb lock_b then pen_b else target_b).

Definition handle_freq_point_drawn (st : AppState) (p : QPoint)
    (color : QColor) : AppState :=
  match display_normalized_spectrum st with
  | None => st
  | Some d =>
      with_display
        (Some (paint_points (freq_target st color) [(pt_x p, pt_y p)] d))
        st
  end.

Definition handle_freq_line_drawn (canvas : DrawableCanvas) (st : AppState)
    (p1 p2 : QPoint) (color : QColor) : AppState :=
  match display_normalized_spectrum st with
  | None => st
  | Some d =>
      match effective_pen_width (pen_width canvas) (zoom_factor canvas) with
      | None => st
      | Some thickness =>
          if (thickness =? 1)%Z then
            with_display
              (Some (paint_points (freq_target st color)
                       (bresenham_points (pt_x p1) (pt_y p1)
                          (pt_x p2) (pt_y p2)) d)) st
          else
            let line_mask :=
              cv2_line_mask (fst (shape d)) (snd (shape d)) p1 p2
                thickness in
            with_display
              (Some (paint_where line_mask
                       (fun _ _ => freq_target st color) d)) st
      end
  end.

Definition handle_freq_circle_drawn (st : AppState) (p : QPoint)
    (radius : Z) (color : QColor) : AppState :=
  match display_normalized_spectrum st with
  | None => st
  | Some d =>
      let circle_mask :=
        cv2_circle_mask (fst (shape d)) (snd (shape d)) p radius in
      with_display
        (Some (paint_where circle_mask
                 (fun _ _ => freq_target st color) d)) st
  end.

(** *** The three phase canvases *)

(** [target_hue = int(round(pen_hsv[0] / 2))], at most 179 *)
Definition target_hue (color : QColor) : Z :=
  let target_hue := py_round (IZR (q_hue color) / 2) in
  if (179 <? target_hue)%Z then 179%Z else target_hue.

(** lines 447-449: the pixel a phase display gets at [(y, x)]: the hue of
    the pen, full saturation and the value of the magnitude display
    there, at least 1.  Both arrays have the shape of the spectrum; a
    pixel the magnitude display does not have is left as it is. *)
Definition phase_pixel (color : QColor) (norm_mag_display_rgb : ndarray Z)
    (rgb_idx : chan) (r c : nat) (old : pixel Z) : pixel Z :=
  match getitem3 norm_mag_display_rgb r c rgb_idx with
  | Some current_value_unclamped =>
      let current_value := Z.max 1 current_value_unclamped in
      cvt_hsv2bgr (Px (target_hue color) 255%Z current_value)
  | None => old
  end.

Definition handle_phase_point_drawn (st : AppState) (p : QPoint)
    (color : QColor) (channel_index_bgr : chan) : AppState :=
  match display_phase_vis st channel_index_bgr,
        display_normalized_spectrum st with
  | Some display_array_bgr, Some norm_mag_display_rgb =>
      let rgb_idx := map_bgr_to_rgb_idx channel_index_bgr in
      with_display_phase_vis channel_index_bgr
        (Some (paint_points
                 (phase_pixel color norm_mag_display_rgb rgb_idx
                    (Z.to_nat (pt_y p)) (Z.to_nat (pt_x p)))
                 [(pt_x p, pt_y p)] display_array_bgr)) st
  | _, _ => st
  end.

(** the thin line of lines 445-449: every point of the line reads the
    magnitude display at its own position *)
Definition paint_phase_points (color : QColor)
    (norm_mag_display_rgb : ndarray Z) (rgb_idx : chan)
    (points : list (Z * Z)) (a : ndarray Z) : ndarray Z :=
  let '(h, w) := shape a in
  foldl (fun a xy =>
           if in_bounds h w (fst xy) (snd xy) then
             paint_at (phase_pixel color norm_mag_display_rgb rgb_idx
                         (Z.to_nat (snd xy)) (Z.to_nat (fst xy))) a xy
           else a) a points.

Definition handle_phase_line_drawn (canvas : DrawableCanvas) (st : AppState)
    (p1 p2 : QPoint) (color : QColor) (channel_index_bgr : chan)
  : AppState :=
  match display_phase_vis st channel_index_bgr,
        display_normalized_spectrum st with
  | Some display_array_bgr, Some norm_mag_display_rgb =>
      match effective_pen_width (pen_width canvas) (zoom_factor canvas) with
      | None => st
      | Some thickness =>
          let rgb_idx := map_bgr_to_rgb_idx channel_index_bgr in
          if (thickness =? 1)%Z then
            with_display_phase_vis channel_index_bgr
              (Some (paint_phase_points color norm_mag_display_rgb rgb_idx
                       (bresenham_points (pt_x p1) (pt_y p1)
                          (pt_x p2) (pt_y p2)) display_array_bgr)) st
          else
            let line_mask :=
              cv2_line_mask (fst (shape display_array_bgr))
                (snd (shape display_array_bgr)) p1 p2 thickness in
            with_display_phase_vis channel_index_bgr
              (Some (paint_where line_mask
                       (phase_pixel color norm_mag_display_rgb rgb_idx)
                       display_array_bgr)) st
      end
  | _, _ => st
  end.

Definition handle_phase_circle_drawn (st : AppState) (p : QPoint)
    (radius : Z) (color : QColor) (channel_index_bgr : chan) : AppState :=
  match display_phase_vis st channel_index_bgr,
        display_normalized_spectrum st with
  | Some display_array_bgr, Some norm_mag_display_rgb =>
      let rgb_idx := map_bgr_to_rgb_idx channel_index_bgr in
      let circle_mask :=
        cv2_circle_mask (fst (shape display_array_bgr))
          (snd (shape display_array_bgr)) p radius in
      with_display_phase_vis channel_index_bgr
        (Some (paint_where circle_mask
                 (phase_pixel color norm_mag_display_rgb rgb_idx)
                 display_array_bgr)) st
  | _, _ => st
  end.

(** *** The signals of a canvas and their handlers *)

(** What a canvas has drawn: the arguments of [pointDrawn], [lineDrawn]
    and [circleDrawn] before the colour. *)
Inductive stroke : Type :=
| PointDrawn (p : QPoint)
| LineDrawn (p1 p2 : QPoint)
| CircleDrawn (p : QPoint) (radius : Z).

(** the connections of [setup_display_areas] *)
Definition handle_spatial_stroke (canvas : DrawableCanvas) (st : AppState)
    (s : stroke) (color : QColor) : AppState :=
  match s with
  | PointDrawn p => handle_spatial_point_drawn st p color
  | LineDrawn p1 p2 => handle_spatial_line_drawn canvas st p1 p2 color
  | CircleDrawn p radius => handle_spatial_circle_drawn st p radius color
  end.

Definition handle_freq_stroke (canvas : DrawableCanvas) (st : AppState)
    (s : stroke) (color : QColor) : AppState :=
  match s with
  | PointDrawn p => handle_freq_point_drawn st p color
  | LineDrawn p1 p2 => handle_freq_line_drawn canvas st p1 p2 color
  | CircleDrawn p radius => handle_freq_circle_drawn st p radius color
  end.

Definition handle_phase_stroke (canvas : DrawableCanvas) (st : AppState)
    (s : stroke) (color : QColor) (channel_index_bgr : chan) : AppState :=
  match s with
  | PointDrawn p => handle_phase_point_drawn st p color channel_index_bgr
  | LineDrawn p1 p2 =>
      handle_phase_line_drawn canvas st p1 p2 color channel_index_bgr
  | CircleDrawn p radius =>
      handle_phase_circle_drawn st p radius color channel_index_bgr
  end.

End LiveDrawing.

(** ** The session: loading, resetting, applying the result *)

(** How a session handler ends: its work done, an exception caught and
    reported, or nothing to work on. *)
Inductive Outcome : Type :=
| SessionDone
| SessionFailed
| SessionIdle.

Section Session.

Variable cvt_hsv2bgr : pixel Z -> pixel Z.
Variable cvt_bgr2hsv : pixel Z -> pixel Z.
Variable cv2_line_mask : nat -> nat -> QPoint -> QPoint -> Z -> list (list Z).
Variable cv2_circle_mask : nat -> nat -> QPoint -> Z -> list (list Z).

(** [process_and_display]: the spectrum of the current image, then its
    inverse.  A spectrum that is [None] and an exception of
    [inverse_transform] both end in the [except] clause. *)
Definition process_and_display (st : AppState) : AppState * Outcome :=
  match current_spatial_image st with
  | None => (st, SessionIdle)
  | Some _ =>
      let st1 := compute_frequency_domain cvt_hsv2bgr st in
      match frequency_image st1 with
      | None => (st1, SessionFailed)
      | Some f =>
          match inverse_transform f with
          | None => (st1, SessionFailed)
          | Some res => (with_result (Some res) st1, SessionDone)
          end
      end
  end.

(** [reset_frequency_domain] *)
Definition reset_frequency_domain (st : AppState) : AppState * Outcome :=
  match current_spatial_image st with
  | None => (st, SessionIdle)
  | Some _ =>
      let st1 := compute_frequency_domain cvt_hsv2bgr st in
      match frequency_image st1 with
      | None => (st1, SessionFailed)
      | Some f =>
          match inverse_transform f with
          | None => (st1, SessionFailed)
          | Some res => (with_result (Some res) st1, SessionDone)
          end
      end
  end.

(** [spatial_drawing_finished]: the image the canvas hands over is not
    read, the strokes are in [current_spatial_image] already *)
Definition spatial_drawing_finished (st : AppState)
    (drawn_bgr_data : ndarray Z) : AppState * Outcome :=
  match current_spatial_image st with
  | None => (st, SessionIdle)
  | Some _ =>
      let st1 := compute_frequency_domain cvt_hsv2bgr st in
      match frequency_image st1 with
      | None => (st1, SessionFailed)
      | Some f =>
          match inverse_transform f with
          | None => (st1, SessionFailed)
          | Some res => (with_result (Some res) st1, SessionDone)
          end
      end
  end.

(** [apply_result_to_original] *)
Definition apply_result_to_original (st : AppState) : AppState * Outcome :=
  match resulting_spatial_image st with
  | None => (st, SessionIdle)
  | Some res =>
      let st1 :=
        compute_frequency_domain cvt_hsv2bgr (with_spatial (Some res) st) in
      match frequency_image st1 with
      | None => (st1, SessionFailed)
      | Some f =>
          match inverse_transform f with
          | None => (st1, SessionFailed)
          | Some res' => (with_result (Some res') st1, SessionDone)
          end
      end
  end.

(** What can be done to the frequency side between two resets: a stroke
    on the magnitude canvas or on a phase canvas, the release that ends
    a stroke, a filter. *)
Inductive frequency_action : Type :=
| DrawOnMagnitude (canvas : DrawableCanvas) (s : stroke) (color : QColor)
| DrawOnPhase (channel_index_bgr : chan) (canvas : DrawableCanvas)
    (s : stroke) (color : QColor)
| FinishDrawing (e : edit) (drawn : ndarray Z)
| ApplyFilter (k : filter).

Definition perform (st : AppState) (a : frequency_action) : AppState :=
  match a with
  | DrawOnMagnitude canvas s color =>
      handle_freq_stroke cv2_line_mask cv2_circle_mask canvas st s color
  | DrawOnPhase k canvas s color =>
      handle_phase_stroke cvt_hsv2bgr cv2_line_mask cv2_circle_mask canvas
        st s color k
  | FinishDrawing e drawn =>
      fst (drawing_finished cvt_hsv2bgr cvt_bgr2hsv e st drawn)
  | ApplyFilter k => apply_filter cvt_hsv2bgr k st
  end.

End Session.

(** ** The canvas widget: the methods of [DrawableCanvas] *)

(** [cv2.cvtColor] with [COLOR_RGB2BGR] or [COLOR_BGR2RGB]: the channels
    of every pixel in the opposite order *)
Definition swap_channels (a : ndarray Z) : ndarray Z :=
  fmap (M:=list) (fmap (M:=list) (fun p => Px (ch2 p) (ch1 p) (ch0 p))) a.

(** A [QImage] is its rows of RGB pixels; an image without a row or
    without a column is the null image, as [QImage(data, width, height,
    ..)] is for a width or a height of 0. *)
Definition isNull (qimg : ndarray Z) : bool := Fft.zero_size qimg.

Section QImageBits.

(** [np.frombuffer(ptr, np.uint8).reshape((height, width, 3))] for the
    [constBits()] of an image: the first [height * width * 3] bytes of
    Qt's buffer, read as rows of [width] pixels.  Qt keeps each scanline
    of an image on a 32-bit boundary, so the rows read are the rows of
    the image when three times its width is a multiple of four; what is
    read otherwise is left to Qt. *)
Variable frombuffer : ndarray Z -> ndarray Z.

(** [qimage_to_bgr_ndarray] *)
Definition qimage_to_bgr_ndarray (qimg : ndarray Z) : option (ndarray Z) :=
  if isNull qimg then None else Some (swap_channels (frombuffer qimg)).

End QImageBits.

(** [bgr_ndarray_to_qimage] for an array of three channels *)
Definition bgr_ndarray_to_qimage (arr_bgr : option (ndarray Z))
  : option (ndarray Z) :=
  match arr_bgr with
  | None => None
  | Some arr => Some (swap_channels arr)
  end.

Inductive MouseButton : Type := LeftButton | MiddleButton | OtherButton.

(** [QMouseEvent]: [pos()], [button()], and of [buttons()] the two flags
    the canvas tests *)
Record QMouseEvent : Type := mkMouseEvent {
  ev_pos : QPoint;
  ev_button : MouseButton;
  ev_left_down : bool;
  ev_middle_down : bool
}.

(** [QWheelEvent]: [pos()] and [angleDelta().y()] *)
Record QWheelEvent : Type := mkWheelEvent {
  wheel_pos : QPoint;
  wheel_delta : Z
}.

(** the signals of the class *)
Inductive Signal : Type :=
| drawingFinished (numpy_data : ndarray Z)
| lineDrawn (p1 p2 : QPoint) (color : QColor)
| pointDrawn (p : QPoint) (color : QColor)
| circleDrawn (p : QPoint) (radius : Z) (color : QColor).

(** The canvas of [__init__], for a widget of the given size. *)
Definition new_canvas (drawing_allowed : bool) (w h : Z) : DrawableCanvas :=
  mkCanvas None false (mkQPoint 0 0) (mkQPoint 0 0)
    (mkQColor 255 0 0 0) 5 false drawing_allowed 1 0 0 false w h.

Definition with_view (zoom off_x off_y : R) (cv : DrawableCanvas)
  : DrawableCanvas :=
  mkCanvas (display_image cv) (drawing cv) (last_point cv)
    (last_image_point cv) (pen_color cv) (pen_width cv)
    (drawing_enabled cv) (drawing_allowed cv) zoom off_x off_y
    (_is_panning cv) (width cv) (height cv).

Definition with_image (img : option (ndarray Z)) (cv : DrawableCanvas)
  : DrawableCanvas :=
  mkCanvas img (drawing cv) (last_point cv)
    (last_image_point cv) (pen_color cv) (pen_width cv)
    (drawing_enabled cv) (drawing_allowed cv) (zoom_factor cv)
    (offset_x cv) (offset_y cv) (_is_panning cv) (width cv) (height cv).

(** the mouse state: [drawing], [last_point], [last_image_point],
    [_is_panning] *)
Definition with_mouse (d : bool) (lp lip : QPoint) (pan : bool)
    (cv : DrawableCanvas) : DrawableCanvas :=
  mkCanvas (display_image cv) d lp lip (pen_color cv) (pen_width cv)
    (drawing_enabled cv) (drawing_allowed cv) (zoom_factor cv)
    (offset_x cv) (offset_y cv) pan (width cv) (height cv).

Definition with_pen (color : QColor) (w : Z) (enabled : bool)
    (cv : DrawableCanvas) : DrawableCanvas :=
  mkCanvas (display_image cv) (drawing cv) (last_point cv)
    (last_image_point cv) color w enabled (drawing_allowed cv)
    (zoom_factor cv) (offset_x cv) (offset_y cv) (_is_panning cv)
    (width cv) (height cv).

Definition with_size (w h : Z) (cv : DrawableCanvas) : DrawableCanvas :=
  mkCanvas (display_image cv) (drawing cv) (last_point cv)
    (last_image_point cv) (pen_color cv) (pen_width cv)
    (drawing_enabled cv) (drawing_allowed cv) (zoom_factor cv)
    (offset_x cv) (offset_y cv) (_is_panning cv) w h.

(** [display_image.width()] and [display_image.height()] *)
Definition image_width (img : ndarray Z) : R := INR (snd (shape img)).
Definition image_height (img : ndarray Z) : R := INR (fst (shape img)).

(** [setImage] *)
Definition setImage (q_image : option (ndarray Z)) (cv : DrawableCanvas)
  : DrawableCanvas :=
  match q_image with
  | None => with_image None cv
  | Some q => if isNull q then with_image None cv
              else with_image (Some q) cv
  end.

Definition enableDrawing (enabled : bool) (cv : DrawableCanvas)
  : DrawableCanvas :=
  with_pen (pen_color cv) (pen_width cv) (enabled && drawing_allowed cv) cv.

Definition setPenColor (color : QColor) (cv : DrawableCanvas)
  : DrawableCanvas :=
  with_pen color (pen_width cv) (drawing_enabled cv) cv.

Definition setPenWidth (w : Z) (cv : DrawableCanvas) : DrawableCanvas :=
  with_pen (pen_color cv) w (drawing_enabled cv) cv.


(** lines 154-157 of [mapWidgetToImage]: the position in the image,
    before it is rounded *)
Definition image_position (cv : DrawableCanvas) (img : ndarray Z)
    (widget_pos : QPoint) : R * R :=
  let img_width_zoomed := (image_width img * zoom_factor cv)%R in
  let img_height_zoomed := (image_height img * zoom_factor cv)%R in
  let draw_x_widget :=
    ((IZR (width cv) - img_width_zoomed) / 2 + offset_x cv)%R in
  let draw_y_widget :=
    ((IZR (height cv) - img_height_zoomed) / 2 + offset_y cv)%R in
  let relative_x := (IZR (pt_x widget_pos) - draw_x_widget)%R in
  let relative_y := (IZR (pt_y widget_pos) - draw_y_widget)%R in
  let image_x := (relative_x / zoom_factor cv)%R in
  let image_y := (relative_y / zoom_factor cv)%R in
  (image_x, image_y).

(** [mapWidgetToImage] *)
Definition mapWidgetToImage (cv : DrawableCanvas) (widget_pos : QPoint)
  : QPoint :=
  match display_image cv with
  | None => mkQPoint 0 0
  | Some img =>
      if Rlt_dec (zoom_factor cv) 1e-6 then mkQPoint 0 0
      else
        let '(image_x, image_y) := image_position cv img widget_pos in
        mkQPoint (py_round image_x) (py_round image_y)
  end.

Definition reset_view (cv : DrawableCanvas) : DrawableCanvas :=
  with_view 1 0 0 cv.

(** [scale_to_fit] *)
Definition scale_to_fit (cv : DrawableCanvas) : DrawableCanvas :=
  match display_image cv with
  | None => with_view 1 0 0 cv
  | Some img =>
      if ((width cv <=? 0) || (height cv <=? 0))%Z then with_view 1 0 0 cv
      else
        let img_width := image_width img in
        let img_height := image_height img in
        let canvas_width := IZR (width cv) in
        let canvas_height := IZR (height cv) in
        if Rle_dec img_width 0 then with_view 1 0 0 cv
        else if Rle_dec img_height 0 then with_view 1 0 0 cv
        else
          let margin := 0.95%R in
          let width_ratio := (canvas_width * margin / img_width)%R in
          let height_ratio := (canvas_height * margin / img_height)%R in
          with_view (Rmax 0.05 (Rmin width_ratio height_ratio)) 0 0 cv
  end.

(** [wheelEvent] *)
Definition wheelEvent (cv : DrawableCanvas) (event : QWheelEvent)
  : DrawableCanvas :=
  match display_image cv with
  | None => cv
  | Some img =>
      let zoom_in_factor := 1.15%R in
      let zoom_out_factor := (1 / 1.15)%R in
      let old_zoom := zoom_factor cv in
      let delta := wheel_delta event in
      if (delta =? 0)%Z then cv
      else
        let scaled :=
          if (0 <? delta)%Z then (old_zoom * zoom_in_factor)%R
          else (old_zoom * zoom_out_factor)%R in
        let zoom := Rmax 0.05 (Rmin 100 scaled) in
        let widget_width := IZR (width cv) in
        let widget_height := IZR (height cv) in
        let mouse_x_rel_widget := IZR (pt_x (wheel_pos event)) in
        let mouse_y_rel_widget := IZR (pt_y (wheel_pos event)) in
        let img_w_old := (image_width img * old_zoom)%R in
        let img_h_old := (image_height img * old_zoom)%R in
        let img_x_old_widget :=
          ((widget_width - img_w_old) / 2 + offset_x cv)%R in
        let img_y_old_widget :=
          ((widget_height - img_h_old) / 2 + offset_y cv)%R in
        let img_coord_x :=
          if Rlt_dec 1e-6 old_zoom
          then ((mouse_x_rel_widget - img_x_old_widget) / old_zoom)%R
          else (image_width img / 2)%R in
        let img_coord_y :=
          if Rlt_dec 1e-6 old_zoom
          then ((mouse_y_rel_widget - img_y_old_widget) / old_zoom)%R
          else (image_height img / 2)%R in
        let img_w_new := (image_width img * zoom)%R in
        let img_h_new := (image_height img * zoom)%R in
        let img_x_new_target_widget :=
          (mouse_x_rel_widget - img_coord_x * zoom)%R in
        let img_y_new_target_widget :=
          (mouse_y_rel_widget - img_coord_y * zoom)%R in
        with_view zoom
          (img_x_new_target_widget - (widget_width - img_w_new) / 2)
          (img_y_new_target_widget - (widget_height - img_h_new) / 2) cv
  end.

Section CanvasEvents.

(** Qt's reading of an image's buffer, as for [qimage_to_bgr_ndarray] *)
Variable frombuffer : ndarray Z -> ndarray Z.

(** [getImageData] *)
Definition getImageData (cv : DrawableCanvas) : option (ndarray Z) :=
  qimg ← display_image cv; qimage_to_bgr_ndarray frombuffer qimg.

(** [mousePressEvent]: the canvas after the event and the signal it
    emits.  [None] stands for the [ZeroDivisionError] of a zero zoom,
    which nothing catches. *)
Definition mousePressEvent (cv : DrawableCanvas) (event : QMouseEvent)
  : option (DrawableCanvas * option Signal) :=
  let cv := with_mouse (drawing cv) (ev_pos event) (last_image_point cv)
              (_is_panning cv) cv in
  match ev_button event with
  | LeftButton =>
      if drawing_enabled cv && drawing_allowed cv then
        match display_image cv with
        | Some _ =>
            let image_pos := mapWidgetToImage cv (ev_pos event) in
            let cv := with_mouse true (last_point cv) image_pos
                        (_is_panning cv) cv in
            effective_pen_width ←
              effective_pen_width (pen_width cv) (zoom_factor cv);
            if (effective_pen_width =? 1)%Z then
              Some (cv, Some (pointDrawn image_pos (pen_color cv)))
            else
              let radius := (effective_pen_width / 2)%Z in
              Some (cv, Some (circleDrawn image_pos radius (pen_color cv)))
        | None =>
            Some (with_mouse false (last_point cv) (last_image_point cv)
                    (_is_panning cv) cv, None)
        end
      else Some (cv, None)
  | MiddleButton =>
      Some (with_mouse (drawing cv) (last_point cv) (last_image_point cv)
              true cv, None)
  | OtherButton => Some (cv, None)
  end.

(** [mouseMoveEvent] *)
Definition mouseMoveEvent (cv : DrawableCanvas) (event : QMouseEvent)
  : DrawableCanvas * option Signal :=
  let current_pos := ev_pos event in
  if ev_left_down event && drawing cv && drawing_enabled cv
     && drawing_allowed cv then
    match display_image cv with
    | Some _ =>
        let current_image_pos := mapWidgetToImage cv current_pos in
        let cv' := with_mouse (drawing cv) current_pos current_image_pos
                     (_is_panning cv) cv in
        if decide (last_image_point cv = current_image_pos)
        then (cv', None)
        else (cv', Some (lineDrawn (last_image_point cv) current_image_pos
                           (pen_color cv)))
    | None => (cv, None)
    end
  else if ev_middle_down event && _is_panning cv then
    let diff_x := (pt_x current_pos - pt_x (last_point cv))%Z in
    let diff_y := (pt_y current_pos - pt_y (last_point cv))%Z in
    (with_mouse (drawing cv) current_pos (last_image_point cv)
       (_is_panning cv)
       (with_view (zoom_factor cv) (offset_x cv + IZR diff_x)
          (offset_y cv + IZR diff_y) cv), None)
  else (cv, None).

(** [mouseReleaseEvent] *)
Definition mouseReleaseEvent (cv : DrawableCanvas) (event : QMouseEvent)
  : DrawableCanvas * option Signal :=
  match ev_button event with
  | LeftButton =>
      if drawing cv && drawing_allowed cv then
        let cv' := with_mouse false (last_point cv) (last_image_point cv)
                     (_is_panning cv) cv in
        (cv', numpy_data ← getImageData cv'; Some (drawingFinished numpy_data))
      else (cv, None)
  | MiddleButton =>
      if _is_panning cv then
        (with_mouse (drawing cv) (last_point cv) (last_image_point cv)
           false cv, None)
      else (cv, None)
  | OtherButton => (cv, None)
  end.

(** What happens to a canvas. *)
Inductive canvas_event : Type :=
| Press (event : QMouseEvent)
| Move (event : QMouseEvent)
| Release (event : QMouseEvent)
| Wheel (event : QWheelEvent)
| ScaleToFit
| ResetView
| SetImage (q_image : option (ndarray Z))
| EnableDrawing (enabled : bool)
| SetPenColor (color : QColor)
| SetPenWidth (w : Z)
| Resize (w h : Z).

Definition canvas_step (cv : DrawableCanvas) (e : canvas_event)
  : option (DrawableCanvas * option Signal) :=
  match e with
  | Press event => mousePressEvent cv event
  | Move event => Some (mouseMoveEvent cv event)
  | Release event => Some (mouseReleaseEvent cv event)
  | Wheel event => Some (wheelEvent cv event, None)
  | ScaleToFit => Some (scale_to_fit cv, None)
  | ResetView => Some (reset_view cv, None)
  | SetImage q_image => Some (setImage q_image cv, None)
  | EnableDrawing enabled => Some (enableDrawing enabled cv, None)
  | SetPenColor color => Some (setPenColor color cv, None)
  | SetPenWidth w => Some (setPenWidth w cv, None)
  | Resize w h => Some (with_size w h cv, None)
  end.

(** A run of events: the canvas at the end and the signals emitted, in
    order; [None] when an event raised. *)
Fixpoint canvas_run (cv : DrawableCanvas) (events : list canvas_event)
  : option (DrawableCanvas * list Signal) :=
  match events with
  | [] => Some (cv, [])
  | e :: events' =>
      '(cv', s) ← canvas_step cv e;
      '(cv'', signals) ← canvas_run cv' events';
      Some (cv'', match s with Some x => x :: signals | None => signals end)
  end.

End CanvasEvents.

(** ** Sample strokes, canvases and sessions *)

(** Stand-ins for OpenCV's drawing to run the handlers with: a mask that
    covers the row of the first point, and an image left as it is. *)
Definition sample_line_mask (h w : nat) (p1 p2 : QPoint) (thickness : Z)
  : list (list Z) :=
  (fun y => replicate w (if (Z.of_nat y =? pt_y p1)%Z then 255%Z else 0%Z))
    <$> seq 0 h.

Definition sample_circle_mask (h w : nat) (p : QPoint) (radius : Z)
  : list (list Z) :=
  sample_line_mask h w p p radius.

Definition sample_black : QColor := mkQColor 0 0 0 (-1).
Definition sample_white : QColor := mkQColor 255 255 255 (-1).
Definition sample_green : QColor := mkQColor 0 255 0 120.

(** the spectrum of [square_spectrum] in a fresh application *)
Definition square_state : AppState :=
  with_frequency (Some square_spectrum) (initial_state false false false).

(** a magnitude display with the green channel locked *)
Definition locked_display : AppState :=
  with_display (Some [[Px 10 20 30; Px 40 50 60]]%Z)
    (initial_state false true false).

(** a phase display of the blue channel beside a magnitude display *)
Definition phase_display : AppState :=
  with_display_phase_vis C0 (Some [[Px 1 1 1; Px 2 2 2]]%Z)
    (with_display (Some [[Px 10 20 30; Px 40 50 60]]%Z)
       (initial_state false false false)).

(** [sample_image] as the current image of a fresh application *)
Definition sample_session : AppState :=
  with_spatial (Some sample_image) (initial_state false false false).

(** a canvas of 400 x 300 showing [sample_image], with drawing enabled *)
Definition sample_canvas : DrawableCanvas :=
  enableDrawing true
    (setImage (Some sample_image) (new_canvas true 400 300)).

(** the same canvas with a pen of width 1 *)
Definition thin_canvas : DrawableCanvas := setPenWidth 1 sample_canvas.

Definition left_click (x y : Z) : QMouseEvent :=
  mkMouseEvent (mkQPoint x y) LeftButton true false.

(** the reading of a buffer whose scanlines need no padding *)
Definition sample_frombuffer (qimg : ndarray Z) : ndarray Z := qimg.

(** ** The transforms in floating point *)

(** The difference and the distance of two complex numbers. *)
Definition csub (z w : complex) : complex :=
  mkC (Re z - Re w) (Im z - Im w).

Definition cdist (z w : complex) : R := cabs (csub z w).

(** Two arrays of the same shape whose entries are at most [eps]
    apart. *)
Definition near (eps : R) (a b : list (list complex)) : Prop :=
  Forall2 (Forall2 (fun z w => (cdist z w <= eps)%R)) a b.

(** [self.current_spatial_image[:, :, c].astype(np.float32)]: an 8-bit
    sample is a float exactly *)
Definition img_channel_float (img : ndarray Z) (c : chan)
  : list (list complex) :=
  fmap (M:=list) (fmap (M:=list) (fun v : Z => mkC (IZR v) 0))
       (slice_chan c img).

Section FloatingPoint.

(** [np.fft.fft2], [np.fft.ifft2] and [np.abs] as numpy computes them: in
    floating point, so near the sums of [Fft] and near [cabs] and not
    equal to them.  They are any functions here; how near they are is a
    hypothesis where it matters. *)
Variable np_fft2 : list (list complex) -> option (list (list complex)).
Variable np_ifft2 : list (list complex) -> option (list (list complex)).
Variable np_abs : complex -> R.

Variable cvt_hsv2bgr : pixel Z -> pixel Z.

(** [inverse_transform] with numpy's [ifft2] and [np.abs]; the shift, the
    clip and the cast are exact in floating point *)
Definition inverse_channel_fp (f : ndarray complex) (c : chan)
  : option (list (list R)) :=
  let f_ishifted_channel := Fft.ifftshift (slice_chan c f) in
  img_back_complex_channel ← np_ifft2 f_ishifted_channel;
  Some (fmap (M:=list) (fmap (M:=list) np_abs) img_back_complex_channel).

Definition inverse_transform_fp (freq_data_bgr_complex : ndarray complex)
  : option (ndarray Z) :=
  let h := fst (shape freq_data_bgr_complex) in
  let w := snd (shape freq_data_bgr_complex) in
  img_back_bgr_float ←
    for_each (fun img c =>
      ch ← inverse_channel_fp freq_data_bgr_complex c;
      Some (assign_chan c ch img)) all_chans (full h w 0%R);
  Some (fmap (M:=list) (fmap (M:=list)
    (px_map (fun x => astype_uint8 (clip x 0 255)))) img_back_bgr_float).

(** the loop of line 286 with numpy's [fft2] and [np.abs] *)
Definition forward_channel_fp (img : ndarray Z) (c : chan)
  : option (list (list complex)) :=
  f_transform_channel ← np_fft2 (img_channel_float img c);
  Some (Fft.fftshift f_transform_channel).

Definition forward_transform_fp (img : ndarray Z)
  : option (ndarray complex) :=
  let h := fst (shape img) in
  let w := snd (shape img) in
  for_each (fun freq c =>
    shifted_fft ← forward_channel_fp img c;
    Some (assign_chan c shifted_fft freq)) all_chans (full h w czero).

Definition log_magnitude_fp (f : ndarray complex) : ndarray R :=
  fmap (M:=list) (fmap (M:=list)
    (px_map (fun z => log1p (np_abs z + epsilon)))) f.

(** [compute_frequency_domain] with them *)
Definition compute_frequency_domain_fp (st : AppState) : AppState :=
  match current_spatial_image st with
  | None =>
      mkApp (current_spatial_image st) (resulting_spatial_image st)
        None None None (global_log_mag_range st)
        None None None None None None None
        (lock_b_check st) (lock_g_check st) (lock_r_check st)
  | Some img =>
      match forward_transform_fp img with
      | None => cleared st
      | Some f =>
          match visualize cvt_hsv2bgr f (log_magnitude_fp f) st with
          | Some st' => st'
          | None => cleared st
          end
      end
  end.

End FloatingPoint.

(** How far numpy's transforms and [np.abs] are from the exact ones on
    an image: [fft2] on its three channels, [ifft2] on what [fft2] gave,
    [np.abs] on what [ifft2] gave. *)
Definition fft_accuracy
    (np_fft2 np_ifft2 : list (list complex) -> option (list (list complex)))
    (np_abs : complex -> R) (eps_f eps_i eps_a : R) (img : ndarray Z)
  : Prop :=
  forall c,
    option_Forall2 (near eps_f)
      (np_fft2 (img_channel_float img c))
      (Fft.fft2 (img_channel_float img c))
    /\ forall F,
         np_fft2 (img_channel_float img c) = Some F ->
         option_Forall2 (near eps_i) (np_ifft2 F) (Fft.ifft2 F)
         /\ forall B,
              np_ifft2 F = Some B ->
              Forall (Forall (fun z =>
                (Rabs (np_abs z - cabs z) <= eps_a)%R)) B.

(** A float implementation to run the round trip with: the exact
    transforms, each a quarter too low in the real part of every entry. *)
Definition quarter_low (z : complex) : complex := mkC (Re z - 1 / 4) (Im z).

Definition sample_np_fft2 (a : list (list complex))
  : option (list (list complex)) :=
  fmap (M:=list) (fmap (M:=list) quarter_low) <$> Fft.fft2 a.

Definition sample_np_ifft2 (a : list (list complex))
  : option (list (list complex)) :=
  fmap (M:=list) (fmap (M:=list) quarter_low) <$> Fft.ifft2 a.

(** * Properties *)

(** ** Arrays *)

Lemma px_get_set {A} (k k' : chan) (v : A) p :
  px_get k' (px_set k v p) = if decide (k' = k) then v else px_get k' p.
Proof. destruct k, k'; reflexivity. Qed.

Lemma getitem_insert {A} (a : list (list A)) r c row p r' c' :
  a !! r = Some row -> is_Some (row !! c) ->
  getitem (<[r := <[c := p]> row]> a) r' c'
  = if decide (r' = r /\ c' = c) then Some p else getitem a r' c'.
Proof.
  intros Hr [q Hc]. unfold getitem.
  destruct (decide (r' = r)) as [->|Hne].
  - rewrite list_lookup_insert_eq by (eapply lookup_lt_Some; eauto).
    rewrite Hr. destruct (decide (c' = c)) as [->|Hnc].
    + rewrite list_lookup_insert_eq by (eapply lookup_lt_Some; eauto).
      rewrite decide_True; auto.
    + rewrite list_lookup_insert_ne by auto.
      rewrite decide_False; [done|]. intros [_ ?]; done.
  - rewrite list_lookup_insert_ne by auto.
    rewrite decide_False; [done|]. intros [? _]; done.
Qed.

Lemma getitem3_setitem3 {A} (a a' : ndarray A) r c k v r' c' k' :
  setitem3 a r c k v = Some a' ->
  getitem3 a' r' c' k'
  = if decide (r' = r /\ c' = c /\ k' = k) then Some v
    else getitem3 a r' c' k'.
Proof.
  unfold setitem3, getitem3. intros H.
  destruct (a !! r) as [row|] eqn:Hr; [|done].
  destruct (row !! c) as [p|] eqn:Hc; [|done].
  injection H as <-.
  rewrite (getitem_insert a r c row _ r' c' Hr) by eauto.
  destruct (decide (r' = r /\ c' = c)) as [[-> ->]|Hne].
  - simpl. rewrite px_get_set. unfold getitem. rewrite Hr, Hc. simpl.
    destruct (decide (k' = k)) as [->|Hk].
    + rewrite decide_True; auto.
    + rewrite decide_False; [done|]. intros (_ & _ & ?); done.
  - rewrite decide_False; [done|]. intros (? & ? & _); auto.
Qed.

Lemma setitem3_is_Some {A} (a : ndarray A) r c k v :
  is_Some (setitem3 a r c k v) <-> is_Some (getitem a r c).
Proof.
  unfold setitem3, getitem.
  destruct (a !! r) as [row|]; [|done].
  destruct (row !! c); split; intros [? ?]; eauto; done.
Qed.

Lemma getitem_setitem3_is_Some {A} (a a' : ndarray A) r c k v r' c' :
  setitem3 a r c k v = Some a' ->
  is_Some (getitem a' r' c') <-> is_Some (getitem a r' c').
Proof.
  intros H.
  assert (forall k', getitem3 a' r' c' k'
    = if decide (r' = r /\ c' = c /\ k' = k) then Some v
      else getitem3 a r' c' k') as Hg
    by (intros; eapply getitem3_setitem3; eauto).
  assert (is_Some (getitem a r c)) as Hrc
    by (apply (setitem3_is_Some a r c k v); eauto).
  specialize (Hg k). unfold getitem3 in Hg.
  destruct (decide (r' = r /\ c' = c /\ k = k)) as [(-> & -> & _)|Hne].
  - destruct (getitem a' r c); [|done]. split; eauto.
  - destruct (getitem a' r' c'), (getitem a r' c'); simpl in Hg;
      try done; split; eauto.
Qed.



(** ** The loop of the magnitude reconciler *)

Lemma reconcile_channel_get orig rng locks r c px blk m c_rgb m' r' c' k' :
  reconcile_channel orig rng locks r c px blk m c_rgb = Some m' ->
  getitem3 m' r' c' k'
  = if decide (r' = r /\ c' = c /\ k' = map_rgb_to_bgr_idx c_rgb
               /\ locks k' = false)
    then channel_target orig rng r c px blk k'
    else getitem3 m r' c' k'.
Proof.
  unfold reconcile_channel, channel_target. intros H.
  destruct (locks (map_rgb_to_bgr_idx c_rgb)) eqn:Hl.
  - injection H as <-. rewrite decide_False; [done|].
    intros (_ & _ & -> & ?); congruence.
  - destruct blk.
    + rewrite (getitem3_setitem3 _ _ _ _ _ _ _ _ _ H).
      destruct (decide (r' = r /\ c' = c /\ k' = map_rgb_to_bgr_idx c_rgb))
        as [(-> & -> & ->)|Hne].
      * rewrite decide_True; auto.
      * rewrite decide_False; [done|]. intros (? & ? & ? & _); auto.
    + destruct (getitem3 orig r c (map_rgb_to_bgr_idx c_rgb)) as [z|] eqn:Hz;
        simpl in H; [|done].
      rewrite (getitem3_setitem3 _ _ _ _ _ _ _ _ _ H).
      destruct (decide (r' = r /\ c' = c /\ k' = map_rgb_to_bgr_idx c_rgb))
        as [(-> & -> & ->)|Hne].
      * rewrite decide_True by auto. rewrite Hz. simpl.
        destruct c_rgb; reflexivity.
      * rewrite decide_False; [done|]. intros (? & ? & ? & _); auto.
Qed.

Lemma reconcile_pixel_get orig final rng locks m rc m' r' c' k' :
  reconcile_pixel orig final rng locks m rc = Some m' ->
  getitem3 m' r' c' k'
  = if decide ((r', c') = rc /\ locks k' = false)
    then pixel_target orig final rng r' c' k'
    else getitem3 m r' c' k'.
Proof.
  destruct rc as [r c]. unfold reconcile_pixel, pixel_target. simpl.
  destruct (getitem final r c) as [px|] eqn:Hpx; simpl; [|done].
  set (blk := px_all _).
  destruct (reconcile_channel orig rng locks r c px blk m C0)
    as [m1|] eqn:H1; [|done].
  destruct (reconcile_channel orig rng locks r c px blk m1 C1)
    as [m2|] eqn:H2; [|done].
  destruct (reconcile_channel orig rng locks r c px blk m2 C2)
    as [m3|] eqn:H3; [|done].
  intros [= <-].
  rewrite (reconcile_channel_get _ _ _ _ _ _ _ _ _ _ r' c' k' H3).
  rewrite (reconcile_channel_get _ _ _ _ _ _ _ _ _ _ r' c' k' H2).
  rewrite (reconcile_channel_get _ _ _ _ _ _ _ _ _ _ r' c' k' H1).
  destruct (decide ((r', c') = (r, c) /\ locks k' = false))
    as [[[= -> ->] Hl]|Hne].
  - rewrite Hpx. simpl. fold blk.
    destruct k'; simpl; repeat case_decide; try done;
      exfalso; naive_solver.
  - repeat case_decide; try done; exfalso; apply Hne; naive_solver.
Qed.

Lemma reconcile_loop_get orig final rng locks idxs m m' r' c' k' :
  for_each (reconcile_pixel orig final rng locks) idxs m = Some m' ->
  getitem3 m' r' c' k'
  = if decide ((r', c') ∈ idxs /\ locks k' = false)
    then pixel_target orig final rng r' c' k'
    else getitem3 m r' c' k'.
Proof.
  revert m. induction idxs as [|rc idxs IH]; intros m H; simpl in H.
  - injection H as <-. rewrite decide_False; [done|].
    intros [Hin _]. by apply elem_of_nil in Hin.
  - destruct (reconcile_pixel orig final rng locks m rc) as [m1|] eqn:H1;
      [|done].
    rewrite (IH _ H).
    rewrite (reconcile_pixel_get _ _ _ _ _ _ _ r' c' k' H1).
    repeat case_decide; try done; exfalso;
      rewrite elem_of_cons in *; naive_solver.
Qed.

Lemma reconcile_channel_defined orig rng locks r c px blk m c_rgb m' :
  reconcile_channel orig rng locks r c px blk m c_rgb = Some m' ->
  locks (map_rgb_to_bgr_idx c_rgb) = false ->
  is_Some (channel_target orig rng r c px blk (map_rgb_to_bgr_idx c_rgb)).
Proof.
  unfold reconcile_channel, channel_target. intros H Hl. rewrite Hl in H.
  destruct blk; [eauto|].
  destruct (getitem3 orig r c (map_rgb_to_bgr_idx c_rgb)); simpl in *;
    [eauto|done].
Qed.

Lemma reconcile_pixel_defined orig final rng locks m r c m' k :
  reconcile_pixel orig final rng locks m (r, c) = Some m' ->
  locks k = false ->
  is_Some (pixel_target orig final rng r c k).
Proof.
  unfold reconcile_pixel, pixel_target. simpl.
  destruct (getitem final r c) as [px|]; simpl; [|done].
  set (blk := px_all _).
  destruct (reconcile_channel orig rng locks r c px blk m C0)
    as [m1|] eqn:H1; [|done].
  destruct (reconcile_channel orig rng locks r c px blk m1 C1)
    as [m2|] eqn:H2; [|done].
  destruct (reconcile_channel orig rng locks r c px blk m2 C2)
    as [m3|] eqn:H3; [|done].
  intros _ Hl. destruct k.
  - by apply (reconcile_channel_defined _ _ _ _ _ _ _ _ C2 _ H3).
  - by apply (reconcile_channel_defined _ _ _ _ _ _ _ _ C1 _ H2).
  - by apply (reconcile_channel_defined _ _ _ _ _ _ _ _ C0 _ H1).
Qed.

Lemma reconcile_loop_defined orig final rng locks idxs m m' r c k :
  for_each (reconcile_pixel orig final rng locks) idxs m = Some m' ->
  (r, c) ∈ idxs -> locks k = false ->
  is_Some (pixel_target orig final rng r c k).
Proof.
  revert m. induction idxs as [|rc idxs IH]; intros m H Hin Hl; simpl in H.
  - by apply elem_of_nil in Hin.
  - destruct (reconcile_pixel orig final rng locks m rc) as [m1|] eqn:H1;
      [|done].
    apply elem_of_cons in Hin as [<-|Hin]; [|eauto].
    eapply reconcile_pixel_defined; eauto.
Qed.

(** ** Masks *)

Lemma elem_of_np_where (m : list (list bool)) r c :
  (r, c) ∈ np_where m <-> getitem m r c = Some true.
Proof.
  unfold np_where, getitem. rewrite list_elem_of_join. split.
  - intros (l & Hin & Hl).
    apply elem_of_lookup_imap in Hl as (i & row & -> & Hrow).
    apply list_elem_of_join in Hin as (l' & Hin & Hl').
    apply elem_of_lookup_imap in Hl' as (j & b & -> & Hb).
    destruct b; [|by apply elem_of_nil in Hin].
    apply list_elem_of_singleton in Hin as [= -> ->].
    by rewrite Hrow.
  - destruct (m !! r) as [row|] eqn:Hrow; [|done]. intros Hc.
    eexists. split; [|eapply elem_of_lookup_imap_2; eauto].
    apply list_elem_of_join. eexists. split;
      [|eapply (elem_of_lookup_imap_2 _ row true c); eauto].
    simpl. apply list_elem_of_singleton. done.
Qed.

Lemma np_any_true (m : list (list bool)) :
  np_any m = true <-> exists r c, getitem m r c = Some true.
Proof.
  unfold np_any, getitem. rewrite existsb_exists. split.
  - intros (row & Hin & Hrow). apply existsb_exists in Hrow as (b & Hb & ->).
    apply list_elem_of_In, list_elem_of_lookup in Hin as [r Hr].
    apply list_elem_of_In, list_elem_of_lookup in Hb as [c Hc].
    exists r, c. by rewrite Hr.
  - intros (r & c & H). destruct (m !! r) as [row|] eqn:Hr; [|done].
    exists row. split.
    + apply list_elem_of_In, list_elem_of_lookup. eauto.
    + apply existsb_exists. exists true. split; [|done].
      apply list_elem_of_In, list_elem_of_lookup. eauto.
Qed.

Lemma getitem_zip_with {A B C} (f : A -> B -> C)
    (a : list (list A)) (b : list (list B)) r c :
  getitem (zip_with (zip_with f) a b) r c
  = match getitem a r c, getitem b r c with
    | Some x, Some y => Some (f x y)
    | _, _ => None
    end.
Proof.
  unfold getitem. rewrite lookup_zip_with.
  destruct (a !! r) as [ra|]; simpl; [|done].
  destruct (b !! r) as [rb|]; simpl.
  - rewrite lookup_zip_with.
    destruct (ra !! c); simpl; [|done]. destruct (rb !! c); done.
  - destruct (ra !! c); done.
Qed.

Lemma getitem_fmap {A B} (f : A -> B) (a : list (list A)) r c :
  getitem (fmap (M:=list) (fmap (M:=list) f) a) r c = f <$> getitem a r c.
Proof.
  unfold getitem. rewrite list_lookup_fmap.
  destruct (a !! r); simpl; [|done]. by rewrite list_lookup_fmap.
Qed.

Lemma change_mask_true final base r c :
  getitem (change_mask final base) r c = Some true <->
  exists p q, getitem final r c = Some p /\ getitem base r c = Some q
              /\ differs p q.
Proof.
  unfold change_mask, differs. rewrite getitem_zip_with.
  destruct (getitem final r c) as [p|]; [|naive_solver].
  destruct (getitem base r c) as [q|]; [|naive_solver].
  unfold px_any, px_map, px_zip. simpl. split.
  - intros [= H]. exists p, q. repeat split.
    apply orb_true_iff in H as [H|H]; [apply orb_true_iff in H as [H|H]|];
      apply Z.ltb_lt in H; auto.
  - intros (? & ? & [= <-] & [= <-] & H). f_equal.
    rewrite !orb_true_iff, !Z.ltb_lt. tauto.
Qed.

Section HandlerFacts.

Variable cvt_hsv2bgr : pixel Z -> pixel Z.
Variable cvt_bgr2hsv : pixel Z -> pixel Z.

Lemma commit_spec b m st st' msg :
  commit cvt_hsv2bgr cvt_bgr2hsv b m st = (st', msg) ->
  frequency_image st' = Some m /\ same_caches st st'
  /\ (msg = Finalized \/ msg = ErrorCaught).
Proof.
  unfold commit, same_caches.
  destruct (inverse_transform m) as [res|]; intros [= <- <-].
  - destruct b; [unfold _update_phase_displays_from_magnitude|]; simpl;
      repeat case_match; simpl; auto 10.
  - simpl. auto 10.
Qed.

Lemma freq_drawing_finished_Finalized st drawn st' :
  freq_drawing_finished cvt_hsv2bgr cvt_bgr2hsv st drawn = (st', Finalized) ->
  exists orig final base modified,
    frequency_image st = Some orig
    /\ display_normalized_spectrum st = Some final
    /\ normalized_spectrum st = Some base
    /\ reconcile_magnitude orig final (global_log_mag_range st)
         (lock_state st) (np_where (change_mask final base))
       = Some modified
    /\ frequency_image st' = Some modified
    /\ same_caches st st'.
Proof.
  unfold freq_drawing_finished. intros H.
  destruct (frequency_image st) as [orig|]; [|done].
  destruct (display_normalized_spectrum st) as [final|]; [|done].
  destruct (normalized_spectrum st) as [base|]; [|done].
  repeat case_match; try done.
  apply commit_spec in H as (? & ? & _).
  exists orig, final, base. eauto 10.
Qed.

Lemma inverse_transform_is_Some (f : ndarray complex) :
  (forall c, Fft.zero_size (Fft.ifftshift (slice_chan c f)) = false) ->
  is_Some (inverse_transform f).
Proof.
  intros Hz. unfold inverse_transform, inverse_channel, Fft.ifft2.
  simpl. rewrite !Hz. simpl. eauto.
Qed.

(** A magnitude edit whose guards pass is committed. *)
Lemma freq_drawing_finished_commits st drawn orig final base modified :
  frequency_image st = Some orig ->
  display_normalized_spectrum st = Some final ->
  normalized_spectrum st = Some base ->
  shape final = shape base ->
  np_any (change_mask final base) = true ->
  (1e-9 <= snd (global_log_mag_range st) - fst (global_log_mag_range st))%R ->
  reconcile_magnitude orig final (global_log_mag_range st) (lock_state st)
    (np_where (change_mask final base)) = Some modified ->
  is_Some (inverse_transform modified) ->
  exists st',
    freq_drawing_finished cvt_hsv2bgr cvt_bgr2hsv st drawn
    = (st', Finalized)
    /\ frequency_image st' = Some modified.
Proof.
  intros Ho Hf Hb Hs Hany Hr Hrec [res Hres].
  unfold freq_drawing_finished. rewrite Ho, Hf, Hb.
  rewrite bool_decide_true by done. simpl. rewrite Hany. simpl.
  destruct (Rlt_dec _ _) as [Hlt|_]; [lra|].
  rewrite Hrec.
  destruct (commit cvt_hsv2bgr cvt_bgr2hsv true modified st)
    as [st' msg] eqn:Hc.
  pose proof (commit_spec _ _ _ _ _ Hc) as (Hm & _ & _).
  unfold commit in Hc. rewrite Hres in Hc. injection Hc as <- <-.
  eauto.
Qed.

(** A phase edit whose guards pass is committed. *)
Lemma phase_drawing_finished_commits st drawn ch orig wc base modified :
  frequency_image st = Some orig ->
  display_phase_vis st ch = Some wc ->
  phase_vis st ch = Some base ->
  shape drawn = shape base ->
  np_any (change_mask drawn base) = true ->
  reconcile_phase cvt_bgr2hsv orig drawn ch
    (np_where (change_mask drawn base)) = Some modified ->
  is_Some (inverse_transform modified) ->
  exists st',
    _process_phase_drawing_finished cvt_hsv2bgr cvt_bgr2hsv st drawn ch
    = (st', Finalized)
    /\ frequency_image st' = Some modified.
Proof.
  intros Ho Hw Hb Hs Hany Hrec [res Hres].
  unfold _process_phase_drawing_finished. rewrite Ho, Hw, Hb.
  rewrite bool_decide_true by done. simpl. rewrite Hany. simpl.
  rewrite Hrec.
  destruct (commit cvt_hsv2bgr cvt_bgr2hsv false modified st)
    as [st' msg] eqn:Hc.
  pose proof (commit_spec _ _ _ _ _ Hc) as (Hm & _ & _).
  unfold commit in Hc. rewrite Hres in Hc. injection Hc as <- <-.
  eauto.
Qed.

Lemma py_max0_Rmax x : py_max0 x = Rmax 0 x.
Proof.
  unfold py_max0. destruct (Rlt_dec 0 x).
  - rewrite Rmax_right; lra.
  - rewrite Rmax_left; lra.
Qed.

(** C1. In a committed magnitude edit, at a pixel of the change mask
    whose final display colour is not near-black, every unlocked channel
    of the spectrum becomes [m * e^(i * phase)], with
    [m = max(0, expm1(v / 255 * (max - min) + min))], [v] that channel's
    value in the final display and [phase] the angle of the value the
    spectrum held before the commit. *)
Theorem magnitude_edit_recombines st drawn st' orig final base r c k px :
  freq_drawing_finished cvt_hsv2bgr cvt_bgr2hsv st drawn = (st', Finalized) ->
  frequency_image st = Some orig ->
  display_normalized_spectrum st = Some final ->
  normalized_spectrum st = Some base ->
  (r, c) ∈ np_where (change_mask final base) ->
  lock_state st k = false ->
  getitem final r c = Some px ->
  ~ (ch0 px < 5 /\ ch1 px < 5 /\ ch2 px < 5)%Z ->
  exists z modified,
    getitem3 orig r c k = Some z
    /\ frequency_image st' = Some modified
    /\ let v := px_get (map_bgr_to_rgb_idx k) px in
       let lo := fst (global_log_mag_range st) in
       let hi := snd (global_log_mag_range st) in
       let m := Rmax 0 (expm1 (IZR v / 255 * (hi - lo) + lo)) in
       let phase := angle z in
       getitem3 modified r c k
       = Some (mkC (m * cos phase) (m * sin phase)).
Proof.
  intros H Ho Hf Hb Hin Hl Hpx Hnb.
  apply freq_drawing_finished_Finalized in H
    as (orig' & final' & base' & modified & Ho' & Hf' & Hb' & Hrec & Hm & _).
  rewrite Ho in Ho'. rewrite Hf in Hf'. rewrite Hb in Hb'.
  injection Ho' as <-. injection Hf' as <-. injection Hb' as <-.
  unfold reconcile_magnitude in Hrec.
  pose proof (reconcile_loop_get _ _ _ _ _ _ _ r c k Hrec) as Hget.
  rewrite decide_True in Hget by auto.
  unfold pixel_target in Hget. rewrite Hpx in Hget. simpl in Hget.
  assert (px_all (px_map (fun v => (v <? black_tolerance)%Z) px) = false)
    as Hblk.
  { apply not_true_is_false. intros Hall. apply Hnb.
    unfold px_all, px_map, black_tolerance in Hall. simpl in Hall.
    rewrite !andb_true_iff, !Z.ltb_lt in Hall. tauto. }
  rewrite Hblk in Hget. unfold channel_target in Hget.
  destruct (getitem3 orig r c k) as [z|] eqn:Hz.
  - exists z, modified. repeat split; auto. simpl in Hget |- *.
    rewrite Hget. unfold magnitude_value, cscale, cis. simpl.
    by rewrite py_max0_Rmax.
  - pose proof (reconcile_loop_defined _ _ _ _ _ _ _ r c k Hrec Hin Hl)
      as [? Hs].
    unfold pixel_target in Hs. rewrite Hpx in Hs. simpl in Hs.
    rewrite Hblk in Hs. unfold channel_target in Hs.
    rewrite Hz in Hs. done.
Qed.

End HandlerFacts.

(** ** Loops that write an array in any order *)

Lemma same_dom_refl {A} (m : list (list A)) : same_dom m m.
Proof. split; [done|]. intros; tauto. Qed.

Lemma same_dom_trans {A} (m1 m2 m3 : list (list A)) :
  same_dom m1 m2 -> same_dom m2 m3 -> same_dom m1 m3.
Proof.
  intros [Hl1 H1] [Hl2 H2]. split; [congruence|].
  intros r c. rewrite H2. apply H1.
Qed.

Lemma same_dom_sym {A} (m1 m2 : list (list A)) :
  same_dom m1 m2 -> same_dom m2 m1.
Proof. intros [Hl H]. split; [congruence|]. intros r c. by rewrite H. Qed.

Lemma setitem3_same_dom {A} (a a' : ndarray A) r c k v :
  setitem3 a r c k v = Some a' -> same_dom a a'.
Proof.
  intros H. split.
  - unfold setitem3 in H. repeat case_match; try done.
    injection H as <-. by rewrite length_insert.
  - intros r' c'. eapply getitem_setitem3_is_Some; eauto.
Qed.

Lemma setitem3_sim {A} (a b : ndarray A) r c k v :
  same_dom a b ->
  option_Forall2 same_dom (setitem3 a r c k v) (setitem3 b r c k v).
Proof.
  intros Hab.
  destruct (setitem3 a r c k v) as [a'|] eqn:Ha;
    destruct (setitem3 b r c k v) as [b'|] eqn:Hb.
  - constructor. apply setitem3_same_dom in Ha, Hb.
    eauto using same_dom_trans, same_dom_sym.
  - exfalso. assert (is_Some (setitem3 b r c k v)) as [? ?]; [|congruence].
    apply setitem3_is_Some, Hab, (setitem3_is_Some a r c k v). eauto.
  - exfalso. assert (is_Some (setitem3 a r c k v)) as [? ?]; [|congruence].
    apply setitem3_is_Some, Hab, (setitem3_is_Some b r c k v). eauto.
  - constructor.
Qed.

(** An array is determined by its height and its entries. *)
Lemma ndarray_ext {A} (a b : ndarray A) :
  length a = length b ->
  (forall r c k, getitem3 a r c k = getitem3 b r c k) ->
  a = b.
Proof.
  intros Hlen Hget. apply list_eq. intros r.
  destruct (a !! r) as [ra|] eqn:Ha; destruct (b !! r) as [rb|] eqn:Hb.
  - f_equal. apply list_eq. intros c.
    pose proof (fun k => Hget r c k) as Hk.
    unfold getitem3, getitem in Hk. rewrite Ha, Hb in Hk.
    destruct (ra !! c) as [[x0 x1 x2]|], (rb !! c) as [[y0 y1 y2]|];
      try done; try (specialize (Hk C0); done).
    pose proof (Hk C0). pose proof (Hk C1). pose proof (Hk C2).
    simpl in *. congruence.
  - apply lookup_lt_Some in Ha. apply lookup_ge_None in Hb. lia.
  - apply lookup_lt_Some in Hb. apply lookup_ge_None in Ha. lia.
  - done.
Qed.

Section LoopOrder.

Context {P : Type}.
Variable step : ndarray complex -> P -> option (ndarray complex).
Variable touched : P -> nat -> nat -> chan -> Prop.
Context `{forall p r c k, Decision (touched p r c k)}.
Variable target : nat -> nat -> chan -> option complex.

Hypothesis step_get : forall m p m' r c k,
  step m p = Some m' ->
  getitem3 m' r c k
  = if decide (touched p r c k) then target r c k else getitem3 m r c k.
Hypothesis step_dom : forall m p m', step m p = Some m' -> same_dom m m'.
Hypothesis step_sim : forall m m' p,
  same_dom m m' -> option_Forall2 same_dom (step m p) (step m' p).

Lemma loop_dom l : forall m m',
  for_each step l m = Some m' -> same_dom m m'.
Proof.
  induction l as [|p l IH]; intros m m' Hl; simpl in Hl.
  - injection Hl as <-. apply same_dom_refl.
  - destruct (step m p) as [m1|] eqn:H1; [|done].
    eauto using same_dom_trans.
Qed.

Lemma loop_is_Some l : forall m,
  is_Some (for_each step l m) <-> Forall (fun p => is_Some (step m p)) l.
Proof.
  induction l as [|p l IH]; intros m; simpl.
  - split; eauto.
  - rewrite Forall_cons_iff. destruct (step m p) as [m1|] eqn:H1.
    + rewrite IH. split.
      * intros Hall. split; [eauto|].
        eapply Forall_impl; [|exact Hall]. intros q Hq. simpl in Hq.
        pose proof (step_sim m m1 q (step_dom _ _ _ H1)) as Hs.
        destruct Hs; [eauto|]. by destruct Hq.
      * intros [_ Hall].
        eapply Forall_impl; [|exact Hall]. intros q Hq. simpl in Hq.
        pose proof (step_sim m m1 q (step_dom _ _ _ H1)) as Hs.
        destruct Hs; [eauto|]. by destruct Hq.
    + split; [intros [? ?]; done|]. intros [[? ?] _]; done.
Qed.

Lemma loop_get l : forall m m' r c k,
  for_each step l m = Some m' ->
  getitem3 m' r c k
  = if decide (Exists (fun p => touched p r c k) l) then target r c k
    else getitem3 m r c k.
Proof.
  induction l as [|p l IH]; intros m m' r c k Hl; simpl in Hl.
  - injection Hl as <-. rewrite decide_False; [done|].
    intros Hx. by apply Exists_nil in Hx.
  - destruct (step m p) as [m1|] eqn:H1; [|done].
    rewrite (IH _ _ _ _ _ Hl), (step_get _ _ _ r c k H1).
    repeat case_decide; try done; exfalso;
      rewrite Exists_cons in *; tauto.
Qed.

(** The result of the loop does not depend on the order of the
    positions. *)
Lemma loop_permutation l l' m :
  l ≡ₚ l' -> for_each step l m = for_each step l' m.
Proof.
  intros Hp.
  destruct (for_each step l m) as [m1|] eqn:H1;
    destruct (for_each step l' m) as [m2|] eqn:H2.
  - f_equal. apply ndarray_ext.
    + apply loop_dom in H1 as [? _], H2 as [? _]. congruence.
    + intros r c k.
      rewrite (loop_get _ _ _ r c k H1), (loop_get _ _ _ r c k H2).
      repeat case_decide; try done; exfalso.
      * rewrite Hp in *. tauto.
      * rewrite <- Hp in *. tauto.
  - exfalso. assert (is_Some (for_each step l' m)) as [? ?]; [|congruence].
    apply loop_is_Some. rewrite <- Hp. apply loop_is_Some. eauto.
  - exfalso. assert (is_Some (for_each step l m)) as [? ?]; [|congruence].
    apply loop_is_Some. rewrite Hp. apply loop_is_Some. eauto.
  - done.
Qed.

End LoopOrder.

Lemma for_each_preserves {A S} (body : S -> A -> option S)
    (Rel : S -> S -> Prop) :
  (forall s, Rel s s) ->
  (forall s1 s2 s3, Rel s1 s2 -> Rel s2 s3 -> Rel s1 s3) ->
  (forall s x s', body s x = Some s' -> Rel s s') ->
  forall l s s', for_each body l s = Some s' -> Rel s s'.
Proof.
  intros Hrefl Htrans Hbody. induction l as [|x l IH]; intros s s' H;
    simpl in H.
  - injection H as <-. apply Hrefl.
  - destruct (body s x) as [s1|] eqn:H1; [|done]. eauto.
Qed.

Lemma for_each_sim {A S} (body : S -> A -> option S)
    (Rel : S -> S -> Prop) :
  (forall s s' x, Rel s s' -> option_Forall2 Rel (body s x) (body s' x)) ->
  forall l s s', Rel s s' ->
    option_Forall2 Rel (for_each body l s) (for_each body l s').
Proof.
  intros Hbody. induction l as [|x l IH]; intros s s' H; simpl.
  - by constructor.
  - destruct (Hbody s s' x H); [eauto|constructor].
Qed.

Lemma for_each_ext {A S} (body body' : S -> A -> option S) l s :
  (forall s x, body s x = body' s x) ->
  for_each body l s = for_each body' l s.
Proof.
  intros H. revert s. induction l as [|x l IH]; intros s; simpl; [done|].
  rewrite H. destruct (body' s x); auto.
Qed.

(** The magnitude loop reads the locks channel by channel. *)
Lemma reconcile_magnitude_locks_ext orig final rng locks locks' idxs :
  (forall k, locks k = locks' k) ->
  reconcile_magnitude orig final rng locks idxs
  = reconcile_magnitude orig final rng locks' idxs.
Proof.
  intros H. unfold reconcile_magnitude. apply for_each_ext.
  intros m rc. unfold reconcile_pixel.
  destruct (getitem final rc.1 rc.2) as [px|]; cbn [mbind option_bind];
    [|done].
  apply for_each_ext. intros m' c_rgb. unfold reconcile_channel.
  by rewrite H.
Qed.

(** ** The magnitude loop, in any order *)

Lemma reconcile_channel_dom orig rng locks r c px blk m c_rgb m' :
  reconcile_channel orig rng locks r c px blk m c_rgb = Some m' ->
  same_dom m m'.
Proof.
  unfold reconcile_channel. intros H.
  repeat case_match; simplify_option_eq;
    eauto using same_dom_refl, setitem3_same_dom.
Qed.

Lemma reconcile_channel_sim orig rng locks r c px blk m m' c_rgb :
  same_dom m m' ->
  option_Forall2 same_dom
    (reconcile_channel orig rng locks r c px blk m c_rgb)
    (reconcile_channel orig rng locks r c px blk m' c_rgb).
Proof.
  unfold reconcile_channel. intros H.
  destruct (locks _); [by constructor|].
  destruct blk; [by apply setitem3_sim|].
  destruct (getitem3 orig r c _); simpl; [by apply setitem3_sim|constructor].
Qed.

Lemma reconcile_pixel_dom orig final rng locks m p m' :
  reconcile_pixel orig final rng locks m p = Some m' -> same_dom m m'.
Proof.
  unfold reconcile_pixel.
  destruct (getitem final p.1 p.2) as [px|]; cbn [mbind option_bind];
    [|done].
  apply for_each_preserves.
  - apply same_dom_refl.
  - apply @same_dom_trans.
  - intros ? ? ?. apply reconcile_channel_dom.
Qed.

Lemma reconcile_pixel_sim orig final rng locks m m' p :
  same_dom m m' ->
  option_Forall2 same_dom (reconcile_pixel orig final rng locks m p)
    (reconcile_pixel orig final rng locks m' p).
Proof.
  unfold reconcile_pixel. intros H.
  destruct (getitem final p.1 p.2) as [px|]; cbn [mbind option_bind];
    [|constructor].
  apply for_each_sim; [|done].
  intros ? ? ?. apply reconcile_channel_sim.
Qed.

Lemma reconcile_magnitude_permutation orig final rng locks l l' :
  l ≡ₚ l' ->
  reconcile_magnitude orig final rng locks l
  = reconcile_magnitude orig final rng locks l'.
Proof.
  unfold reconcile_magnitude.
  apply (loop_permutation (reconcile_pixel orig final rng locks)
           (fun p r c k => (r, c) = p /\ locks k = false)
           (pixel_target orig final rng)).
  - intros. by apply reconcile_pixel_get.
  - intros ? ? ?. apply reconcile_pixel_dom.
  - intros ? ? ?. apply reconcile_pixel_sim.
Qed.

(** ** The loop of the phase reconciler *)

Section PhaseLoop.

Variable cvt_bgr2hsv : pixel Z -> pixel Z.

Lemma reconcile_phase_pixel_get orig drawn ch m rc m' r' c' k' :
  reconcile_phase_pixel cvt_bgr2hsv orig drawn ch m rc = Some m' ->
  getitem3 m' r' c' k'
  = if decide ((r', c') = rc /\ k' = ch)
    then phase_target cvt_bgr2hsv orig drawn ch r' c'
    else getitem3 m r' c' k'.
Proof.
  destruct rc as [r c]. unfold reconcile_phase_pixel, phase_target. simpl.
  destruct (getitem drawn r c) as [px|] eqn:Hpx; simpl; [|done].
  destruct (getitem3 orig r c ch) as [z|] eqn:Hz; simpl; [|done].
  intros H. rewrite (getitem3_setitem3 _ _ _ _ _ _ _ _ _ H).
  destruct (decide ((r', c') = (r, c) /\ k' = ch)) as [[[= -> ->] ->]|Hne].
  - rewrite decide_True by auto. rewrite Hpx. simpl. by rewrite Hz.
  - rewrite decide_False; [done|]. intros (-> & -> & ->). auto.
Qed.

Lemma reconcile_phase_pixel_dom orig drawn ch m p m' :
  reconcile_phase_pixel cvt_bgr2hsv orig drawn ch m p = Some m' ->
  same_dom m m'.
Proof.
  unfold reconcile_phase_pixel. intros H.
  repeat case_match; simplify_option_eq; eauto using setitem3_same_dom.
Qed.

Lemma reconcile_phase_pixel_sim orig drawn ch m m' p :
  same_dom m m' ->
  option_Forall2 same_dom
    (reconcile_phase_pixel cvt_bgr2hsv orig drawn ch m p)
    (reconcile_phase_pixel cvt_bgr2hsv orig drawn ch m' p).
Proof.
  unfold reconcile_phase_pixel. intros H.
  destruct (getitem drawn p.1 p.2); simpl; [|constructor].
  destruct (getitem3 orig p.1 p.2 ch); simpl; [|constructor].
  by apply setitem3_sim.
Qed.

Lemma reconcile_phase_get orig drawn ch idxs m' r c k :
  reconcile_phase cvt_bgr2hsv orig drawn ch idxs = Some m' ->
  getitem3 m' r c k
  = if decide ((r, c) ∈ idxs /\ k = ch)
    then phase_target cvt_bgr2hsv orig drawn ch r c
    else getitem3 orig r c k.
Proof.
  unfold reconcile_phase. intros H.
  rewrite (loop_get (reconcile_phase_pixel cvt_bgr2hsv orig drawn ch)
             (fun p r c k => (r, c) = p /\ k = ch)
             (fun r c _ => phase_target cvt_bgr2hsv orig drawn ch r c)
             (fun m p m' r c k => reconcile_phase_pixel_get
                                    orig drawn ch m p m' r c k)
             idxs _ _ r c k H).
  destruct (decide ((r, c) ∈ idxs /\ k = ch)) as [[Hin ->]|Hne].
  - rewrite decide_True; [done|]. apply Exists_exists. exists (r, c).
    split; [by apply list_elem_of_In|done].
  - rewrite decide_False; [done|]. intros Hex. apply Hne.
    apply Exists_exists in Hex as (x & Hin & <- & ->).
    split; [by apply list_elem_of_In|done].
Qed.

Lemma reconcile_phase_defined orig drawn ch idxs m' r c :
  reconcile_phase cvt_bgr2hsv orig drawn ch idxs = Some m' ->
  (r, c) ∈ idxs ->
  is_Some (phase_target cvt_bgr2hsv orig drawn ch r c).
Proof.
  unfold reconcile_phase. generalize orig at 2 as m. intros m H Hin.
  revert m H. induction idxs as [|p l IH]; intros m H; simpl in H.
  - by apply elem_of_nil in Hin.
  - destruct (reconcile_phase_pixel _ orig drawn ch m p) as [m1|] eqn:H1;
      [|done].
    apply elem_of_cons in Hin as [<-|Hin]; [|eauto].
    unfold reconcile_phase_pixel, phase_target in *. simpl in *.
    destruct (getitem drawn r c); simpl in *; [|done].
    destruct (getitem3 orig r c ch); simpl in *; [eauto|done].
Qed.

Lemma reconcile_phase_permutation orig drawn ch l l' :
  l ≡ₚ l' ->
  reconcile_phase cvt_bgr2hsv orig drawn ch l
  = reconcile_phase cvt_bgr2hsv orig drawn ch l'.
Proof.
  unfold reconcile_phase.
  apply (loop_permutation
           (reconcile_phase_pixel cvt_bgr2hsv orig drawn ch)
           (fun p r c k => (r, c) = p /\ k = ch)
           (fun r c _ => phase_target cvt_bgr2hsv orig drawn ch r c)).
  - intros. by apply reconcile_phase_pixel_get.
  - intros ? ? ?. apply reconcile_phase_pixel_dom.
  - intros ? ? ?. apply reconcile_phase_pixel_sim.
Qed.

End PhaseLoop.

(** ** The two handlers *)

Section EditFacts.

Variable cvt_hsv2bgr : pixel Z -> pixel Z.
Variable cvt_bgr2hsv : pixel Z -> pixel Z.

Abbreviation drawing_finished := (drawing_finished cvt_hsv2bgr cvt_bgr2hsv).
Abbreviation reconcile := (reconcile cvt_bgr2hsv).
Abbreviation edit_target := (edit_target cvt_bgr2hsv).

Lemma phase_drawing_finished_Finalized st drawn ch st' :
  _process_phase_drawing_finished cvt_hsv2bgr cvt_bgr2hsv st drawn ch
  = (st', Finalized) ->
  exists orig base modified,
    frequency_image st = Some orig
    /\ phase_vis st ch = Some base
    /\ reconcile_phase cvt_bgr2hsv orig drawn ch
         (np_where (change_mask drawn base)) = Some modified
    /\ frequency_image st' = Some modified
    /\ same_caches st st'.
Proof.
  unfold _process_phase_drawing_finished. intros H.
  destruct (frequency_image st) as [orig|]; [|done].
  destruct (display_phase_vis st ch); [|done].
  destruct (phase_vis st ch) as [base|]; [|done].
  repeat case_match; try done.
  apply commit_spec in H as (? & ? & _).
  exists orig, base. eauto 10.
Qed.

Lemma drawing_finished_Finalized e st drawn st' :
  drawing_finished e st drawn = (st', Finalized) ->
  exists orig final base modified,
    frequency_image st = Some orig
    /\ displayed e st drawn = Some final
    /\ baseline e st = Some base
    /\ reconcile e st orig final (np_where (change_mask final base))
       = Some modified
    /\ frequency_image st' = Some modified
    /\ same_caches st st'.
Proof.
  destruct e as [|ch]; simpl; intros H.
  - apply freq_drawing_finished_Finalized in H
      as (orig & final & base & modified & ?). exists orig, final, base.
    eauto.
  - apply phase_drawing_finished_Finalized in H
      as (orig & base & modified & ? & ? & ? & ? & ?).
    exists orig, drawn, base. eauto 10.
Qed.

Lemma reconcile_get e st orig final idxs modified r c k :
  reconcile e st orig final idxs = Some modified ->
  getitem3 modified r c k
  = if decide ((r, c) ∈ idxs /\ writes e st k = true)
    then edit_target e st orig final r c k
    else getitem3 orig r c k.
Proof.
  destruct e as [|ch]; simpl; intros H.
  - unfold reconcile_magnitude in H.
    rewrite (reconcile_loop_get _ _ _ _ _ _ _ r c k H).
    destruct (lock_state st k); simpl;
      repeat case_decide; try done; exfalso; naive_solver.
  - rewrite (reconcile_phase_get _ _ _ _ _ _ r c k H).
    destruct (decide ((r, c) ∈ idxs /\ k = ch)) as [[Hin ->]|Hne].
    + rewrite decide_True; [done|]. split; [done|].
      by apply bool_decide_eq_true.
    + rewrite decide_False; [done|].
      intros [Hin Hk%bool_decide_eq_true]. auto.
Qed.

Lemma reconcile_defined e st orig final idxs modified r c k :
  reconcile e st orig final idxs = Some modified ->
  (r, c) ∈ idxs -> writes e st k = true ->
  is_Some (edit_target e st orig final r c k).
Proof.
  destruct e as [|ch]; simpl; intros H Hin Hw.
  - eapply reconcile_loop_defined; eauto. by apply negb_true_iff.
  - apply bool_decide_eq_true in Hw as ->.
    eapply reconcile_phase_defined; eauto.
Qed.

(** C2, as the code has it.  A committed edit leaves every entry of the
    spectrum outside the change mask as it was, and every channel the
    edit does not write: the locked channels for a magnitude edit, the
    two other channels for a phase edit (which does not read the
    locks). *)
Theorem edit_frame e st drawn st' orig final base r c k :
  drawing_finished e st drawn = (st', Finalized) ->
  frequency_image st = Some orig ->
  displayed e st drawn = Some final ->
  baseline e st = Some base ->
  (r, c) ∉ np_where (change_mask final base) \/ writes e st k = false ->
  exists modified,
    frequency_image st' = Some modified
    /\ length modified = length orig
    /\ getitem3 modified r c k = getitem3 orig r c k.
Proof.
  intros H Ho Hf Hb Hout.
  apply drawing_finished_Finalized in H
    as (orig' & final' & base' & modified & Ho' & Hf' & Hb' & Hrec & Hm & _).
  rewrite Ho in Ho'. rewrite Hf in Hf'. rewrite Hb in Hb'.
  injection Ho' as <-. injection Hf' as <-. injection Hb' as <-.
  exists modified. split; [done|]. split.
  - destruct e; simpl in Hrec.
    + unfold reconcile_magnitude in Hrec.
      eapply (for_each_preserves _ same_dom) in Hrec as [? _];
        eauto using same_dom_refl, same_dom_trans, reconcile_pixel_dom.
    + unfold reconcile_phase in Hrec.
      eapply (for_each_preserves _ same_dom) in Hrec as [? _];
        eauto using same_dom_refl, same_dom_trans, reconcile_phase_pixel_dom.
  - rewrite (reconcile_get _ _ _ _ _ _ r c k Hrec).
    rewrite decide_False; [done|].
    intros [Hin Hw]. destruct Hout as [Hout|Hout]; [done|congruence].
Qed.

(** C3. In a committed magnitude edit, at a changed pixel whose final
    display colour is near-black (the three channels below 5), every
    unlocked channel of the spectrum is exactly [0 + 0j]. *)
Theorem black_paint_zeroes st drawn st' orig final base r c k px :
  freq_drawing_finished cvt_hsv2bgr cvt_bgr2hsv st drawn
  = (st', Finalized) ->
  frequency_image st = Some orig ->
  display_normalized_spectrum st = Some final ->
  normalized_spectrum st = Some base ->
  (r, c) ∈ np_where (change_mask final base) ->
  lock_state st k = false ->
  getitem final r c = Some px ->
  (ch0 px < 5 /\ ch1 px < 5 /\ ch2 px < 5)%Z ->
  exists modified,
    frequency_image st' = Some modified
    /\ getitem3 modified r c k = Some (mkC 0 0).
Proof.
  intros H Ho Hf Hb Hin Hl Hpx (H0 & H1 & H2).
  apply freq_drawing_finished_Finalized in H
    as (orig' & final' & base' & modified & Ho' & Hf' & Hb' & Hrec & Hm & _).
  rewrite Ho in Ho'. rewrite Hf in Hf'. rewrite Hb in Hb'.
  injection Ho' as <-. injection Hf' as <-. injection Hb' as <-.
  exists modified. split; [done|].
  unfold reconcile_magnitude in Hrec.
  rewrite (reconcile_loop_get _ _ _ _ _ _ _ r c k Hrec).
  rewrite decide_True by auto.
  unfold pixel_target. rewrite Hpx. simpl.
  unfold px_all, px_map, black_tolerance. simpl.
  apply Z.ltb_lt in H0, H1, H2. rewrite H0, H1, H2. reflexivity.
Qed.

(** C6. When no channel of any pixel of the final visualization differs
    from the baseline by more than 10, finishing the stroke reports "no
    changes" and leaves the state, the spectrum with it, as it was. *)
Theorem small_edit_is_noop e st drawn orig wc final base :
  frequency_image st = Some orig ->
  working_copy e st = Some wc ->
  displayed e st drawn = Some final ->
  baseline e st = Some base ->
  shape final = shape base ->
  (forall r c p q k,
      getitem final r c = Some p -> getitem base r c = Some q ->
      (Z.abs (px_get k p - px_get k q) <= 10)%Z) ->
  drawing_finished e st drawn = (st, NoChanges).
Proof.
  intros Ho Hw Hf Hb Hs Hsmall.
  assert (np_any (change_mask final base) = false) as Hany.
  { apply not_true_is_false. intros Hany.
    apply np_any_true in Hany as (r & c & Hrc).
    apply change_mask_true in Hrc as (p & q & Hp & Hq & Hd).
    pose proof (Hsmall r c p q C0 Hp Hq).
    pose proof (Hsmall r c p q C1 Hp Hq).
    pose proof (Hsmall r c p q C2 Hp Hq).
    unfold differs in Hd. simpl in *. lia. }
  destruct e as [|ch]; simpl in *.
  - unfold freq_drawing_finished. rewrite Ho, Hf, Hb.
    rewrite bool_decide_true by done. simpl. by rewrite Hany.
  - injection Hf as <-.
    unfold _process_phase_drawing_finished. rewrite Ho, Hw, Hb.
    rewrite bool_decide_true by done. simpl. by rewrite Hany.
Qed.

(** C10. The loop of a commit writes at a changed position a value
    computed from the spectrum before the commit and from the final
    visualization alone, and its result is the same for every order of
    the changed positions. *)
Theorem commit_order_independent e st orig final idxs idxs' :
  idxs ≡ₚ idxs' ->
  reconcile e st orig final idxs = reconcile e st orig final idxs'
  /\ forall modified r c k,
       reconcile e st orig final idxs = Some modified ->
       (r, c) ∈ idxs -> writes e st k = true ->
       is_Some (getitem3 modified r c k)
       /\ getitem3 modified r c k = edit_target e st orig final r c k.
Proof.
  intros Hp. split.
  - destruct e; simpl.
    + by apply reconcile_magnitude_permutation.
    + by apply reconcile_phase_permutation.
  - intros modified r c k Hrec Hin Hw.
    rewrite (reconcile_get _ _ _ _ _ _ r c k Hrec).
    rewrite decide_True by done. split; [|done].
    eapply reconcile_defined; eauto.
Qed.

End EditFacts.

(** ** The theorems at work on the samples *)

Lemma sample_painted_commits :
  exists st',
    freq_drawing_finished sample_hsv2bgr sample_bgr2hsv sample_painted
      [[Px 50 100 200]]%Z = (st', Finalized)
    /\ frequency_image st' = Some sample_reconciled.
Proof.
  apply (freq_drawing_finished_commits _ _ sample_painted _
           sample_spectrum [[Px 200 100 50]]%Z [[Px 0 0 0]]%Z
           sample_reconciled); try reflexivity.
  - simpl. lra.
  - apply inverse_transform_is_Some. intros []; reflexivity.
Defined.

Lemma magnitude_edit_recombines_witness :
  exists st' z modified,
    freq_drawing_finished sample_hsv2bgr sample_bgr2hsv sample_painted
      [[Px 50 100 200]]%Z = (st', Finalized)
    /\ getitem3 sample_spectrum 0 0 C0 = Some z
    /\ frequency_image st' = Some modified
    /\ getitem3 modified 0 0 C0
       = Some (mkC (Rmax 0 (expm1 (50 / 255 * (1 - 0) + 0)) * cos (angle z))
                   (Rmax 0 (expm1 (50 / 255 * (1 - 0) + 0)) * sin (angle z))).
Proof.
  destruct sample_painted_commits as (st' & H & _).
  destruct (magnitude_edit_recombines _ _ sample_painted _ st'
              sample_spectrum [[Px 200 100 50]]%Z [[Px 0 0 0]]%Z
              0 0 C0 (Px 200 100 50)%Z H)
    as (z & modified & Hz & Hm & Hv); try reflexivity.
  - apply elem_of_np_where. reflexivity.
  - simpl. lia.
  - exists st', z, modified. auto.
Defined.

Lemma edit_frame_witness :
  exists st' modified,
    drawing_finished sample_hsv2bgr sample_bgr2hsv MagnitudeEdit
      sample_painted [[Px 50 100 200]]%Z = (st', Finalized)
    /\ lock_state sample_painted C1 = true
    /\ frequency_image st' = Some modified
    /\ length modified = length sample_spectrum
    /\ getitem3 modified 0 0 C1 = getitem3 sample_spectrum 0 0 C1.
Proof.
  destruct sample_painted_commits as (st' & H & _).
  destruct (edit_frame sample_hsv2bgr sample_bgr2hsv MagnitudeEdit
              sample_painted _ st' sample_spectrum
              [[Px 200 100 50]]%Z [[Px 0 0 0]]%Z 0 0 C1 H)
    as (modified & Hm & Hlen & Hg); try reflexivity.
  - right. reflexivity.
  - exists st', modified. auto.
Defined.

Lemma sample_blackened_commits :
  exists st',
    freq_drawing_finished sample_hsv2bgr sample_bgr2hsv sample_blackened
      [[Px 0 3 0]]%Z = (st', Finalized)
    /\ frequency_image st'
       = Some [[Px czero (mkC 1 0) czero]].
Proof.
  apply (freq_drawing_finished_commits _ _ sample_blackened _
           sample_spectrum [[Px 0 3 0]]%Z [[Px 90 80 70]]%Z);
    try reflexivity.
  - simpl. lra.
  - apply inverse_transform_is_Some. intros []; reflexivity.
Defined.

Lemma black_paint_zeroes_witness :
  exists st' modified,
    freq_drawing_finished sample_hsv2bgr sample_bgr2hsv sample_blackened
      [[Px 0 3 0]]%Z = (st', Finalized)
    /\ frequency_image st' = Some modified
    /\ getitem3 modified 0 0 C2 = Some (mkC 0 0).
Proof.
  destruct sample_blackened_commits as (st' & H & _).
  destruct (black_paint_zeroes _ _ sample_blackened _ st'
              sample_spectrum [[Px 0 3 0]]%Z [[Px 90 80 70]]%Z
              0 0 C2 (Px 0 3 0)%Z H)
    as (modified & Hm & Hv); try reflexivity.
  - apply elem_of_np_where. reflexivity.
  - simpl. lia.
  - exists st', modified. auto.
Defined.

Lemma small_edit_is_noop_witness :
  drawing_finished sample_hsv2bgr sample_bgr2hsv MagnitudeEdit sample_faint
    [[Px 60 80 100]]%Z = (sample_faint, NoChanges).
Proof.
  apply (small_edit_is_noop _ _ MagnitudeEdit sample_faint _
           sample_spectrum [[Px 100 80 60]]%Z [[Px 100 80 60]]%Z
           [[Px 90 80 70]]%Z); try reflexivity.
  intros [|r] [|c] p q k; simpl; try done; try (destruct r; done).
  intros [= <-] [= <-]. destruct k; simpl; lia.
Defined.

Lemma commit_order_independent_witness :
  reconcile sample_bgr2hsv MagnitudeEdit sample_painted
    [[Px czero czero czero; Px (mkC 1 0) (mkC 1 0) (mkC 1 0)]]
    [[Px 200 100 50; Px 0 0 0]]%Z [(0, 0); (0, 1)]%nat
  = reconcile sample_bgr2hsv MagnitudeEdit sample_painted
    [[Px czero czero czero; Px (mkC 1 0) (mkC 1 0) (mkC 1 0)]]
    [[Px 200 100 50; Px 0 0 0]]%Z [(0, 1); (0, 0)]%nat.
Proof.
  apply (commit_order_independent sample_bgr2hsv MagnitudeEdit
           sample_painted _ _ [(0, 0); (0, 1)]%nat [(0, 1); (0, 0)]%nat).
  apply perm_swap.
Defined.

(** C2 as stated fails for a phase edit: the stroke on the phase canvas of
    the blue channel is committed although the blue channel is locked, and
    the blue entry of the spectrum is rewritten. *)
Lemma phase_edit_rewrites_locked_channel :
  lock_state (phase_painted (mkC 1 0)) C0 = true
  /\ snd locked_phase_edit = Finalized
  /\ (frequency_image (fst locked_phase_edit)
        ≫= fun modified => getitem3 modified 0 0 C0)
     <> getitem3 (uniform_spectrum (mkC 1 0)) 0 0 C0.
Proof.
  split; [reflexivity|].
  destruct (phase_drawing_finished_commits sample_hsv2bgr sample_bgr2hsv
              (phase_painted (mkC 1 0)) green_stroke C0
              (uniform_spectrum (mkC 1 0)) green_stroke [[Px 1 1 0]]%Z
              [[Px (phase_value sample_bgr2hsv (Px 0 255 0)%Z (mkC 1 0))
                   (mkC 1 0) (mkC 1 0)]])
    as (st' & H & Hm); try reflexivity.
  { apply inverse_transform_is_Some. intros []; reflexivity. }
  unfold locked_phase_edit, drawing_finished. rewrite H. simpl.
  split; [reflexivity|]. rewrite Hm. simpl.
  unfold phase_value, cscale, cis. simpl.
  intros [= _ Him]. revert Him.
  assert (sin (60 / 179 * (2 * PI) - PI) < 0)%R as Hs.
  { apply sin_lt_0_var; pose proof PI_RGT_0; lra. }
  assert (cabs (mkC 1 0) = 1%R) as ->.
  { unfold cabs. simpl. replace (1 * 1 + 0 * 0)%R with 1%R by lra.
    apply sqrt_1. }
  lra.
Qed.

(** ** The radial filter *)

Lemma zero_where_nowhere (m : list (list bool)) c (a : ndarray complex) :
  length m = length a ->
  (forall r row mrow, a !! r = Some row -> m !! r = Some mrow ->
     length mrow = length row
     /\ forall x b, mrow !! x = Some b -> b = false) ->
  zero_where m c a = a.
Proof.
  intros Hlen Hrows. unfold zero_where. apply list_eq. intros r.
  rewrite lookup_zip_with.
  destruct (a !! r) as [row|] eqn:Ha; simpl; [|done].
  destruct (m !! r) as [mrow|] eqn:Hm; simpl.
  - f_equal. destruct (Hrows r row mrow Ha Hm) as [Hl Hf].
    apply list_eq. intros x. rewrite lookup_zip_with.
    destruct (row !! x) as [p|] eqn:Hp; simpl; [|done].
    destruct (mrow !! x) as [b|] eqn:Hb; simpl.
    + by rewrite (Hf x b Hb).
    + apply lookup_lt_Some in Hp. apply lookup_ge_None in Hb. lia.
  - apply lookup_lt_Some in Ha. apply lookup_ge_None in Hm. lia.
Qed.

Lemma dist_sq_le_max (h w y x : nat) :
  (y < h)%nat -> (x < w)%nat ->
  (dist_sq (h / 2) (w / 2) y x
   <= Z.of_nat (h / 2) ^ 2 + Z.of_nat (w / 2) ^ 2)%Z.
Proof.
  intros Hy Hx. unfold dist_sq.
  pose proof (Nat.div_mod_eq h 2) as Hh.
  pose proof (Nat.mod_upper_bound h 2 ltac:(lia)) as Hh2.
  pose proof (Nat.div_mod_eq w 2) as Hw.
  pose proof (Nat.mod_upper_bound w 2 ltac:(lia)) as Hw2.
  assert ((Z.of_nat y - Z.of_nat (h / 2)) ^ 2 <= Z.of_nat (h / 2) ^ 2)%Z
    by nia.
  assert ((Z.of_nat x - Z.of_nat (w / 2)) ^ 2 <= Z.of_nat (w / 2) ^ 2)%Z
    by nia.
  lia.
Qed.

Lemma dist_sq_nonneg cr cc y x : (0 <= dist_sq cr cc y x)%Z.
Proof. unfold dist_sq. nia. Qed.

(** No position of an h x w array is farther from the centre than
    [max_radius]. *)
Lemma dist_le_max_radius (h w y x : nat) :
  (y < h)%nat -> (x < w)%nat ->
  (sqrt (IZR (dist_sq (h / 2) (w / 2) y x)) <= max_radius h w)%R.
Proof.
  intros Hy Hx. unfold max_radius. apply sqrt_le_1_alt.
  apply IZR_le. by apply dist_sq_le_max.
Qed.

Lemma radial_mask_lookup h w rad r mrow x b :
  radial_mask h w rad !! r = Some mrow -> mrow !! x = Some b ->
  (r < h)%nat /\ (x < w)%nat
  /\ b = if Rle_dec (sqrt (IZR (dist_sq (h / 2) (w / 2) r x))) rad
         then true else false.
Proof.
  unfold radial_mask. rewrite list_lookup_fmap.
  destruct (seq 0 h !! r) as [y|] eqn:Hy; simpl; [|done].
  intros [= <-]. rewrite list_lookup_fmap.
  destruct (seq 0 w !! x) as [x'|] eqn:Hx; simpl; [|done].
  intros [= <-].
  apply lookup_seq in Hy as [-> ?]. apply lookup_seq in Hx as [-> ?].
  simpl. auto.
Qed.

Lemma radial_filtered_full (f : ndarray complex) :
  rectangular f -> radial_filtered 1 f = f.
Proof.
  intros Hrect. unfold radial_filtered.
  set (h := (shape f).1). set (w := (shape f).2).
  assert (forall c a, a = f ->
            zero_where (invert (radial_mask h w (1 * max_radius h w))) c a
            = f) as Hstep.
  { intros c a ->. apply zero_where_nowhere.
    - unfold invert, radial_mask. rewrite !length_fmap, length_seq. done.
    - intros r row mrow Hr Hm. unfold invert in Hm.
      rewrite list_lookup_fmap in Hm.
      destruct (radial_mask h w (1 * max_radius h w) !! r) as [mr|] eqn:Hmr;
        simpl in Hm; [|done].
      injection Hm as <-. split.
      + rewrite length_fmap.
        unfold radial_mask in Hmr. rewrite list_lookup_fmap in Hmr.
        destruct (seq 0 h !! r); simpl in Hmr; [|done].
        injection Hmr as <-. rewrite length_fmap, length_seq.
        unfold rectangular in Hrect. rewrite Forall_forall in Hrect.
        symmetry. apply Hrect.
        apply list_elem_of_In, list_elem_of_lookup. eauto.
      + intros x b. rewrite list_lookup_fmap.
        destruct (mr !! x) as [b'|] eqn:Hb; simpl; [|done].
        intros [= <-].
        destruct (radial_mask_lookup _ _ _ _ _ _ _ Hmr Hb) as (Hy & Hx & ->).
        destruct (Rle_dec _ _) as [_|Hn]; [done|].
        exfalso. apply Hn. rewrite Rmult_1_l.
        by apply dist_le_max_radius. }
  simpl. rewrite !Hstep; auto.
Qed.

Section FilterFacts.

Variable cvt_hsv2bgr : pixel Z -> pixel Z.
Variable cvt_bgr2hsv : pixel Z -> pixel Z.

Lemma frequency_image_compute_visualizations st :
  frequency_image (_compute_visualizations_from_frequency_data cvt_hsv2bgr st)
  = frequency_image st.
Proof.
  unfold _compute_visualizations_from_frequency_data, visualize.
  destruct (frequency_image st) as [f|] eqn:Hf; [|done].
  destruct (log_mag_range (log_magnitude f)); simpl; done.
Qed.

Lemma frequency_image_post_filter st :
  frequency_image (_post_filter_update cvt_hsv2bgr st) = frequency_image st.
Proof.
  unfold _post_filter_update.
  destruct (frequency_image st) as [f|] eqn:Hf; [|done].
  destruct (inverse_transform f); [|done].
  rewrite frequency_image_compute_visualizations. done.
Qed.

Lemma max_radius_le_half (h w : nat) :
  (max_radius h w <= sqrt ((INR h / 2) ^ 2 + (INR w / 2) ^ 2))%R.
Proof.
  unfold max_radius. apply sqrt_le_1_alt.
  rewrite !Z.pow_2_r, plus_IZR, !mult_IZR.
  assert (forall n : nat, (0 <= IZR (Z.of_nat (n / 2)) <= INR n / 2)%R)
    as Hhalf.
  { intros n. rewrite <- INR_IZR_INZ. split; [apply pos_INR|].
    pose proof (Nat.div_mod_eq n 2) as Hn.
    assert (2 * (n / 2) <= n)%nat as Hle by lia.
    apply le_INR in Hle. rewrite mult_INR in Hle.
    change (INR 2) with 2%R in Hle. lra. }
  pose proof (Hhalf h). pose proof (Hhalf w). nra.
Qed.

(** C9. With fraction 1.0 the radial low-pass filter leaves the spectrum as
    it is: no position of the array is farther from the centre than the
    radius [1.0 * sqrt((h//2)**2 + (w//2)**2)], which is itself at most
    [sqrt((h/2)^2 + (w/2)^2)], so the mask keeps every entry. *)
Theorem radial_filter_full_radius_is_identity st f :
  frequency_image st = Some f ->
  rectangular f ->
  frequency_image (apply_radial_filter cvt_hsv2bgr st 1) = Some f
  /\ forall y x, (y < fst (shape f))%nat -> (x < snd (shape f))%nat ->
       (sqrt (IZR (dist_sq (fst (shape f) / 2) (snd (shape f) / 2) y x))
        <= 1 * max_radius (fst (shape f)) (snd (shape f))
        <= sqrt ((INR (fst (shape f)) / 2) ^ 2
                 + (INR (snd (shape f)) / 2) ^ 2))%R.
Proof.
  intros Hf Hrect. split.
  - unfold apply_radial_filter. rewrite Hf.
    rewrite frequency_image_post_filter. simpl.
    by rewrite radial_filtered_full.
  - intros y x Hy Hx. rewrite Rmult_1_l. split.
    + by apply dist_le_max_radius.
    + apply max_radius_le_half.
Qed.

End FilterFacts.

(** ** The magnitude-threshold filter *)

Lemma getitem_slice_chan {A} (k : chan) (a : ndarray A) r c :
  getitem (slice_chan k a) r c = getitem3 a r c k.
Proof. unfold slice_chan, getitem3. apply getitem_fmap. Qed.

Lemma getitem3_zero_where m c (a : ndarray complex) r x k :
  getitem3 (zero_where m c a) r x k
  = match getitem3 a r x k, getitem m r x with
    | Some z, Some b => Some (if b && bool_decide (k = c) then czero else z)
    | _, _ => None
    end.
Proof.
  unfold zero_where, getitem3. rewrite getitem_zip_with.
  destruct (getitem a r x) as [p|]; simpl; [|done].
  destruct (getitem m r x) as [[]|]; simpl; [|done|done].
  rewrite px_get_set. destruct (decide (k = c)) as [->|Hne].
  - by rewrite bool_decide_true.
  - by rewrite bool_decide_false.
Qed.

Lemma getitem3_log_magnitude f r c k :
  getitem3 (log_magnitude f) r c k
  = (fun z => log1p (cabs z + epsilon)) <$> getitem3 f r c k.
Proof.
  unfold log_magnitude, getitem3. rewrite getitem_fmap.
  destruct (getitem f r c) as [[? ? ?]|]; simpl; [|done].
  by destruct k.
Qed.

Lemma magnitude_filtered_get thr mags f r c k z x :
  getitem3 f r c k = Some z ->
  getitem3 mags r c k = Some x ->
  getitem3 (magnitude_filtered thr mags f) r c k
  = Some (if Rlt_dec x thr then czero else z).
Proof.
  intros Hz Hx. unfold magnitude_filtered. simpl.
  set (below := fmap (fmap (px_map _)) mags).
  assert (forall k', getitem (slice_chan k' below) r c
            = (fun y => if Rlt_dec y thr then true else false)
                <$> getitem3 mags r c k') as Hb.
  { intros k'. rewrite getitem_slice_chan. unfold below, getitem3.
    rewrite getitem_fmap.
    destruct (getitem mags r c) as [[? ? ?]|]; simpl; [|done].
    by destruct k'. }
  unfold getitem3 in Hx.
  destruct (getitem mags r c) as [pm|] eqn:Hpm; simpl in Hx; [|done].
  injection Hx as <-.
  rewrite !getitem3_zero_where, !Hb, Hz. unfold getitem3. rewrite Hpm.
  simpl. f_equal.
  destruct k; simpl;
    repeat (rewrite ?bool_decide_true, ?bool_decide_false,
              ?andb_true_r, ?andb_false_r by done);
    repeat (destruct (Rlt_dec _ _); simpl; try done).
Qed.

Section MagnitudeFilterFacts.

Variable cvt_hsv2bgr : pixel Z -> pixel Z.

(** X25. The magnitude filter zeroes an entry exactly when the
    LogMagnitude the state holds for it (the attribute
    [magnitude_spectrum], computed at the last load or filter) is below
    [min + fraction * (max - min)] of the range the state holds, and
    leaves every other entry as it is.  When that attribute is the
    log-magnitude of the current spectrum, the test is on
    [log1p(|z| + epsilon)] of the current value. *)
Theorem magnitude_filter_thresholds_cache st f mags fraction :
  frequency_image st = Some f ->
  magnitude_spectrum st = Some mags ->
  (1e-9 <= snd (global_log_mag_range st) - fst (global_log_mag_range st))%R ->
  exists f',
    frequency_image (apply_magnitude_filter cvt_hsv2bgr st fraction) = Some f'
    /\ (forall r c k z x,
          getitem3 f r c k = Some z -> getitem3 mags r c k = Some x ->
          getitem3 f' r c k
          = Some (if Rlt_dec x
                       (fst (global_log_mag_range st)
                        + fraction * (snd (global_log_mag_range st)
                                      - fst (global_log_mag_range st)))
                  then mkC 0 0 else z))
    /\ (mags = log_magnitude f ->
        forall r c k z,
          getitem3 f r c k = Some z ->
          getitem3 f' r c k
          = Some (if Rlt_dec (log1p (cabs z + epsilon))
                       (fst (global_log_mag_range st)
                        + fraction * (snd (global_log_mag_range st)
                                      - fst (global_log_mag_range st)))
                  then mkC 0 0 else z)).
Proof.
  intros Hf Hm Hr. unfold apply_magnitude_filter. rewrite Hf, Hm.
  destruct (Rlt_dec _ _) as [Hlt|_]; [lra|].
  rewrite frequency_image_post_filter. simpl.
  eexists. split; [reflexivity|]. split.
  - intros r c k z x Hz Hx. by apply magnitude_filtered_get.
  - intros -> r c k z Hz. apply magnitude_filtered_get; [done|].
    rewrite getitem3_log_magnitude, Hz. done.
Qed.

End MagnitudeFilterFacts.

(** ** The session of [loaded_unit] *)

Lemma cis_0 : cis 0 = mkC 1 0.
Proof. unfold cis. by rewrite cos_0, sin_0. Qed.

Lemma complex_eq (a b : complex) : Re a = Re b -> Im a = Im b -> a = b.
Proof. destruct a, b. simpl. congruence. Qed.

(** the only term of a transform of length 1 *)
Lemma dft_term_0 s z :
  cadd czero (cmul z (cis (s * (2 * PI * 0 * 0 / 1)))) = z.
Proof.
  replace (s * (2 * PI * 0 * 0 / 1))%R with 0%R by (unfold Rdiv; ring).
  rewrite cis_0. apply complex_eq; simpl; ring.
Qed.

Lemma fft2_singleton z : Fft.fft2 [[z]] = Some [[z]].
Proof.
  unfold Fft.fft2, Fft.along_columns, Fft.along_rows, Fft.fft, Fft.dft.
  simpl. by rewrite !dft_term_0.
Qed.

Lemma ifft2_singleton z : Fft.ifft2 [[z]] = Some [[z]].
Proof.
  unfold Fft.ifft2, Fft.along_columns, Fft.along_rows, Fft.ifft, Fft.dft.
  simpl. rewrite !dft_term_0. do 3 f_equal.
  apply complex_eq; simpl; field.
Qed.

Lemma forward_unit_image :
  forward_transform unit_image = Some (uniform_spectrum (mkC 1 0)).
Proof.
  unfold forward_transform, forward_channel, unit_image.
  cbn [for_each all_chans slice_chan fmap list_fmap px_get ch0 ch1 ch2].
  rewrite !fft2_singleton. reflexivity.
Qed.

Lemma cabs_real x : (0 <= x)%R -> cabs (mkC x 0) = x.
Proof.
  intros Hx. unfold cabs. simpl.
  replace (x * x + 0 * 0)%R with (Rsqr x) by (unfold Rsqr; ring).
  by apply sqrt_Rsqr.
Qed.

Lemma epsilon_pos : (0 < epsilon)%R.
Proof. unfold epsilon. lra. Qed.

Lemma unit_log_mag_pos : (0 < unit_log_mag)%R.
Proof.
  unfold unit_log_mag, log1p. rewrite <- ln_1.
  apply ln_increasing; pose proof epsilon_pos; lra.
Qed.

Lemma Int_part_0 : Int_part 0 = 0%Z.
Proof. symmetry. apply Int_part_spec. lra. Qed.

Lemma astype_uint8_0 : astype_uint8 0 = 0%Z.
Proof.
  unfold astype_uint8, trunc. destruct (Rle_dec 0 0) as [_|Hn]; [|lra].
  by rewrite Int_part_0.
Qed.

(** A log-magnitude at the bottom of the range is shown as 0. *)
Lemma normalize_at_min lo hi :
  (lo <= hi)%R ->
  astype_uint8 ((clip lo lo hi - lo) / (hi - lo) * 255) = 0%Z.
Proof.
  intros Hle. unfold clip. rewrite Rmax_left by lra.
  rewrite Rmin_left by lra.
  replace ((lo - lo) / (hi - lo) * 255)%R with 0%R
    by (unfold Rdiv; ring).
  apply astype_uint8_0.
Qed.

Lemma loaded_unit_caches :
  frequency_image loaded_unit = Some (uniform_spectrum (mkC 1 0))
  /\ magnitude_spectrum loaded_unit
     = Some [[Px unit_log_mag unit_log_mag unit_log_mag]]
  /\ global_log_mag_range loaded_unit = (unit_log_mag, (unit_log_mag + 1)%R)
  /\ normalized_spectrum loaded_unit = Some [[Px 0 0 0]]%Z
  /\ forall k, lock_state loaded_unit k = false.
Proof.
  unfold loaded_unit, compute_frequency_domain.
  cbn [current_spatial_image with_spatial initial_state].
  rewrite forward_unit_image.
  assert (log_magnitude (uniform_spectrum (mkC 1 0))
          = [[Px unit_log_mag unit_log_mag unit_log_mag]]) as ->.
  { unfold log_magnitude, uniform_spectrum, unit_log_mag, px_map. simpl.
    rewrite cabs_real by lra. reflexivity. }
  unfold visualize, log_mag_range, np_min, np_max. simpl.
  rewrite !(Rmin_left unit_log_mag unit_log_mag) by lra.
  rewrite !(Rmax_left unit_log_mag unit_log_mag) by lra.
  destruct (Rlt_dec _ _) as [_|Hn];
    [|exfalso; apply Hn; pose proof epsilon_pos; lra].
  cbn [frequency_image magnitude_spectrum global_log_mag_range
       normalized_spectrum lock_state lock_b_check lock_g_check
       lock_r_check].
  split; [done|]. split; [done|]. split; [done|]. split.
  - unfold magnitude_visualization, normalize_for_display. simpl.
    destruct (Rlt_dec _ _) as [Hlt|_]; [exfalso; lra|].
    simpl. rewrite !normalize_at_min by lra. reflexivity.
  - by intros [].
Qed.

Lemma angle_pos_real x : (0 < x)%R -> angle (mkC x 0) = 0%R.
Proof.
  intros Hx. unfold angle, arctan2. simpl.
  destruct (Rlt_dec 0 x) as [_|Hn]; [|lra].
  replace (0 / x)%R with 0%R by (unfold Rdiv; ring). apply atan_0.
Qed.

Lemma bright_magnitude_pos : (0 < bright_magnitude)%R.
Proof.
  unfold bright_magnitude, expm1. pose proof unit_log_mag_pos.
  pose proof (exp_increasing 0 (unit_log_mag + 1) ltac:(lra)) as He.
  rewrite exp_0 in He. lra.
Qed.

(** the value the white stroke writes over an entry equal to 1 *)
Lemma bright_value :
  magnitude_value (unit_log_mag, (unit_log_mag + 1)%R) 255 (mkC 1 0)
  = mkC bright_magnitude 0.
Proof.
  unfold magnitude_value. cbn [fst snd].
  replace (255 / 255 * (unit_log_mag + 1 - unit_log_mag) + unit_log_mag)%R
    with (unit_log_mag + 1)%R by field.
  fold bright_magnitude. unfold py_max0.
  destruct (Rlt_dec 0 bright_magnitude) as [_|Hn];
    [|pose proof bright_magnitude_pos; lra].
  rewrite angle_pos_real by lra. rewrite cis_0.
  apply complex_eq; simpl; ring.
Qed.

Lemma bright_edit_commits :
  exists st',
    bright_edit = (st', Finalized)
    /\ frequency_image st' = Some (uniform_spectrum (mkC bright_magnitude 0))
    /\ same_caches brightened st'.
Proof.
  destruct loaded_unit_caches as (Hf & Hm & Hr & Hn & Hl).
  destruct (freq_drawing_finished_commits sample_hsv2bgr sample_bgr2hsv
              brightened [[Px 255 255 255]]%Z
              (uniform_spectrum (mkC 1 0)) [[Px 255 255 255]]%Z
              [[Px 0 0 0]]%Z
              (uniform_spectrum
                 (magnitude_value (unit_log_mag, (unit_log_mag + 1)%R) 255
                    (mkC 1 0))))
    as (st' & H & Hm'); try done.
  - cbn [brightened with_display global_log_mag_range]. rewrite Hr.
    simpl. lra.
  - cbn [brightened with_display global_log_mag_range]. rewrite Hr.
    rewrite (reconcile_magnitude_locks_ext _ _ _ _ (fun _ => false))
      by exact Hl.
    reflexivity.
  - rewrite bright_value in Hm'.
    exists st'. split; [done|]. split; [done|].
    unfold bright_edit in *.
    apply freq_drawing_finished_Finalized in H
      as (? & ? & ? & ? & _ & _ & _ & _ & _ & Hc). done.
Qed.

(** the log-magnitude of the entries the white stroke wrote *)
Lemma bright_log_mag_gt :
  (unit_log_mag + 1 < log1p (cabs (mkC bright_magnitude 0) + epsilon))%R.
Proof.
  rewrite cabs_real by (pose proof bright_magnitude_pos; lra).
  unfold log1p, bright_magnitude, expm1.
  rewrite <- (ln_exp (unit_log_mag + 1)) at 1.
  apply ln_increasing; [apply exp_pos|]. pose proof epsilon_pos. lra.
Qed.

(** C7 as stated fails after a magnitude commit: the spectrum has changed,
    the LogMagnitude matrix and the range are those of the spectrum before
    the commit, and the LogMagnitude matrix is not the log-magnitude of
    the new spectrum. *)
Lemma caches_stale_after_magnitude_commit :
  snd bright_edit = Finalized
  /\ frequency_image (fst bright_edit) <> frequency_image brightened
  /\ magnitude_spectrum (fst bright_edit) = magnitude_spectrum brightened
  /\ global_log_mag_range (fst bright_edit) = global_log_mag_range brightened
  /\ magnitude_spectrum (fst bright_edit)
     <> log_magnitude <$> frequency_image (fst bright_edit).
Proof.
  destruct bright_edit_commits as (st' & -> & Hf & Hm & Hr & _).
  destruct loaded_unit_caches as (Hf0 & Hm0 & _).
  cbn [fst snd]. split; [done|]. split.
  - rewrite Hf. cbn [brightened with_display frequency_image].
    rewrite Hf0. intros [= He]. pose proof bright_log_mag_gt.
    pose proof bright_magnitude_pos. pose proof unit_log_mag_pos.
    assert (0 < exp (unit_log_mag + 1) - 1 - 1)%R; [|unfold
      bright_magnitude, expm1 in He; lra].
    pose proof (exp_ineq1 (unit_log_mag + 1) ltac:(lra)). lra.
  - split; [done|]. split; [done|].
    rewrite Hm, Hf. cbn [brightened with_display magnitude_spectrum].
    rewrite Hm0. simpl. intros [= He _ _].
    pose proof bright_log_mag_gt. lra.
Qed.

Lemma bright_edit_caches :
  exists st',
    bright_edit = (st', Finalized)
    /\ frequency_image st' = Some (uniform_spectrum (mkC bright_magnitude 0))
    /\ magnitude_spectrum st'
       = Some [[Px unit_log_mag unit_log_mag unit_log_mag]]
    /\ global_log_mag_range st' = (unit_log_mag, (unit_log_mag + 1)%R).
Proof.
  destruct bright_edit_commits as (st' & H & Hf & Hm & Hr & _).
  destruct loaded_unit_caches as (_ & Hm0 & Hr0 & _).
  exists st'. split; [done|]. split; [done|].
  rewrite Hm, Hr. cbn [brightened with_display magnitude_spectrum
                       global_log_mag_range]. auto.
Qed.


(** ** Which transitions recompute the caches *)

Lemma row_entries_fmap {A B} (g : A -> B) (row : list (pixel A)) :
  (px_map g <$> row) ≫= (fun p => [ch0 p; ch1 p; ch2 p])
  = g <$> (row ≫= fun p => [ch0 p; ch1 p; ch2 p]).
Proof.
  induction row as [|p row IH]; [done|].
  rewrite fmap_cons, !bind_cons, fmap_app, IH. done.
Qed.

Lemma entries_fmap {A B} (g : A -> B) (a : ndarray A) :
  entries (fmap (M:=list) (fmap (M:=list) (px_map g)) a)
  = g <$> entries a.
Proof.
  unfold entries. induction a as [|row a IH]; [done|].
  rewrite fmap_cons. cbn [mjoin list_join].
  rewrite !bind_app, fmap_app.
  f_equal; [apply row_entries_fmap|exact IH].
Qed.

Lemma log_mag_range_is_Some (f : ndarray complex) :
  entries f <> [] -> is_Some (log_mag_range (log_magnitude f)).
Proof.
  intros Hne. unfold log_mag_range, np_min, np_max, log_magnitude.
  rewrite entries_fmap. destruct (entries f); [done|]. simpl.
  destruct (Rlt_dec _ _); eauto.
Qed.

Section CacheFacts.

Variable cvt_hsv2bgr : pixel Z -> pixel Z.
Variable cvt_bgr2hsv : pixel Z -> pixel Z.

Lemma visualize_caches f st st' :
  visualize cvt_hsv2bgr f (log_magnitude f) st = Some st' ->
  caches_of f st'.
Proof.
  unfold visualize, caches_of.
  destruct (log_mag_range (log_magnitude f)) as [rng|] eqn:Hr; [|done].
  intros [= <-]. simpl. auto.
Qed.

Lemma compute_frequency_domain_caches st f :
  frequency_image (compute_frequency_domain cvt_hsv2bgr st) = Some f ->
  caches_of f (compute_frequency_domain cvt_hsv2bgr st).
Proof.
  unfold compute_frequency_domain.
  destruct (current_spatial_image st) as [img|]; [|done].
  destruct (forward_transform img) as [f'|]; [|done].
  destruct (visualize cvt_hsv2bgr f' (log_magnitude f') st) as [st'|] eqn:Hv;
    [|done].
  intros Hf. pose proof (visualize_caches _ _ _ Hv) as Hc.
  destruct Hc as (Hf' & _). rewrite Hf' in Hf. injection Hf as <-.
  by apply visualize_caches in Hv.
Qed.

Lemma post_filter_update_caches st f :
  frequency_image st = Some f ->
  is_Some (inverse_transform f) ->
  entries f <> [] ->
  caches_of f (_post_filter_update cvt_hsv2bgr st).
Proof.
  intros Hf [res Hres] Hne. unfold _post_filter_update.
  rewrite Hf, Hres. unfold _compute_visualizations_from_frequency_data.
  cbn [with_result frequency_image]. rewrite Hf.
  destruct (log_mag_range_is_Some f Hne) as [rng Hr].
  destruct (visualize cvt_hsv2bgr f (log_magnitude f) _) as [st'|] eqn:Hv.
  - by apply visualize_caches in Hv.
  - unfold visualize in Hv. by rewrite Hr in Hv.
Qed.

Lemma drawing_finished_same_caches e st drawn st' msg :
  drawing_finished cvt_hsv2bgr cvt_bgr2hsv e st drawn = (st', msg) ->
  same_caches st st'.
Proof.
  assert (same_caches st st) as Hrefl by (unfold same_caches; auto 10).
  destruct e as [|ch]; simpl.
  - unfold freq_drawing_finished.
    repeat case_match; intros Heq; try (injection Heq as <- <-; done).
    by apply commit_spec in Heq as (_ & ? & _).
  - unfold _process_phase_drawing_finished.
    repeat case_match; intros Heq; try (injection Heq as <- <-; done).
    by apply commit_spec in Heq as (_ & ? & _).
Qed.

End CacheFacts.

(** ** Magnitude and angle of [m * exp(1j * phi)] *)

Lemma cabs_nonneg z : (0 <= cabs z)%R.
Proof. unfold cabs. apply sqrt_pos. Qed.

Lemma cabs_polar m phi :
  (0 <= m)%R -> cabs (mkC (m * cos phi) (m * sin phi)) = m.
Proof.
  intros Hm. unfold cabs. simpl.
  replace (m * cos phi * (m * cos phi) + m * sin phi * (m * sin phi))%R
    with (Rsqr m * (Rsqr (sin phi) + Rsqr (cos phi)))%R
    by (unfold Rsqr; ring).
  rewrite sin2_cos2, Rmult_1_r. by apply sqrt_Rsqr.
Qed.

Lemma polar_quotient m phi :
  (0 < m)%R -> cos phi <> 0%R ->
  (m * sin phi / (m * cos phi))%R = tan phi.
Proof. intros Hm Hc. unfold tan. field. split; lra. Qed.

Lemma angle_polar m phi :
  (0 < m)%R -> (- PI < phi <= PI)%R ->
  angle (mkC (m * cos phi) (m * sin phi)) = phi.
Proof.
  intros Hm [Hlo Hhi]. pose proof PI_RGT_0 as Hpi.
  unfold angle, arctan2. simpl.
  destruct (Rlt_dec phi (- (PI / 2))) as [Ha|Ha].
  - (* third quadrant *)
    assert (cos phi < 0)%R as Hc.
    { rewrite <- cos_neg. apply cos_lt_0; lra. }
    assert (sin phi < 0)%R as Hs by (apply sin_lt_0_var; lra).
    destruct (Rlt_dec 0 (m * cos phi)) as [Hx|_]; [nra|].
    destruct (Rlt_dec (m * cos phi) 0) as [_|Hx]; [|nra].
    destruct (Rle_dec 0 (m * sin phi)) as [Hy|_]; [nra|].
    rewrite polar_quotient by lra.
    rewrite <- (tan_pi_plus phi) by lra.
    rewrite atan_tan by lra. lra.
  - destruct (Rlt_dec phi (PI / 2)) as [Hb|Hb].
    + destruct (Req_dec phi (- (PI / 2))) as [->|Hne].
      * (* straight down *)
        rewrite cos_neg, sin_neg, cos_PI2, sin_PI2.
        rewrite Rmult_0_r.
        repeat (destruct (Rlt_dec _ _); try lra).
      * (* right half plane *)
        assert (0 < cos phi)%R as Hc by (apply cos_gt_0; lra).
        destruct (Rlt_dec 0 (m * cos phi)) as [_|Hx]; [|nra].
        rewrite polar_quotient by lra.
        apply atan_tan. lra.
    + destruct (Req_dec phi (PI / 2)) as [->|Hne].
      * (* straight up *)
        rewrite cos_PI2, sin_PI2, Rmult_0_r, Rmult_1_r.
        repeat (destruct (Rlt_dec _ _); try lra).
      * (* second quadrant *)
        assert (cos phi < 0)%R as Hc by (apply cos_lt_0; lra).
        assert (0 <= sin phi)%R as Hs by (apply sin_ge_0; lra).
        destruct (Rlt_dec 0 (m * cos phi)) as [Hx|_]; [nra|].
        destruct (Rlt_dec (m * cos phi) 0) as [_|Hx]; [|nra].
        destruct (Rle_dec 0 (m * sin phi)) as [_|Hy]; [|nra].
        rewrite polar_quotient by lra.
        assert (cos (phi - PI) <> 0)%R as Hc'.
        { replace (phi - PI)%R with (- (PI - phi))%R by ring.
          rewrite cos_neg, cos_pi_minus. lra. }
        replace (tan phi) with (tan (PI + (phi - PI)))
          by (f_equal; ring).
        rewrite (tan_pi_plus (phi - PI)) by exact Hc'.
        rewrite atan_tan by lra. lra.
Qed.

Lemma angle_czero : angle czero = 0%R.
Proof.
  unfold angle, arctan2, czero. simpl.
  repeat (destruct (Rlt_dec _ _); try lra).
Qed.

(** ** The phase edit *)

Section PhaseEditFacts.

Variable cvt_hsv2bgr : pixel Z -> pixel Z.
Variable cvt_bgr2hsv : pixel Z -> pixel Z.

(** C4, as the code has it.  In a committed phase edit, at a pixel of the
    change mask, the entry of the edited channel becomes
    [m * e^(i * phi)] with [m] the absolute value it had before the commit
    and [phi = hue / 179 * 2 pi - pi] for the hue of the painted pixel.
    Its absolute value is [m]; its angle is [phi] when [m] is not zero
    (for a hue from 1 to 179; hue 0 gives [-pi], the same direction as the
    angle [pi]).  An entry that was zero stays zero. *)
Theorem phase_edit_keeps_magnitude st drawn ch st' orig base r c px :
  _process_phase_drawing_finished cvt_hsv2bgr cvt_bgr2hsv st drawn ch
  = (st', Finalized) ->
  frequency_image st = Some orig ->
  phase_vis st ch = Some base ->
  (r, c) ∈ np_where (change_mask drawn base) ->
  getitem drawn r c = Some px ->
  exists z modified new,
    getitem3 orig r c ch = Some z
    /\ frequency_image st' = Some modified
    /\ getitem3 modified r c ch = Some new
    /\ let hue := ch0 (cvt_bgr2hsv px) in
       let phi := (IZR hue / 179 * (2 * PI) - PI)%R in
       new = mkC (cabs z * cos phi) (cabs z * sin phi)
       /\ cabs new = cabs z
       /\ ((0 < cabs z)%R -> (0 < hue <= 179)%Z -> angle new = phi)
       /\ (cabs z = 0%R -> new = mkC 0 0).
Proof.
  intros H Ho Hb Hin Hpx.
  apply phase_drawing_finished_Finalized in H
    as (orig' & base' & modified & Ho' & Hb' & Hrec & Hm & _).
  rewrite Ho in Ho'. rewrite Hb in Hb'.
  injection Ho' as <-. injection Hb' as <-.
  pose proof (reconcile_phase_get _ _ _ _ _ _ r c ch Hrec) as Hget.
  rewrite decide_True in Hget by auto.
  destruct (reconcile_phase_defined _ _ _ _ _ _ r c Hrec Hin) as [v Hv].
  rewrite Hv in Hget. unfold phase_target in Hv. rewrite Hpx in Hv.
  simpl in Hv.
  destruct (getitem3 orig r c ch) as [z|] eqn:Hz; simpl in Hv; [|done].
  injection Hv as <-.
  exists z, modified, (phase_value cvt_bgr2hsv px z).
  split; [done|]. split; [done|]. split; [done|].
  unfold phase_value, cscale, cis. simpl.
  pose proof (cabs_nonneg z) as Hz0. split; [done|]. split.
  - by apply cabs_polar.
  - split.
    + intros Hpos [Hh1 Hh2]. apply angle_polar; [done|].
      pose proof PI_RGT_0. apply IZR_lt in Hh1. apply IZR_le in Hh2.
      split.
      * assert (0 < IZR (ch0 (cvt_bgr2hsv px)) / 179 * (2 * PI))%R; [|lra].
        apply Rmult_lt_0_compat; lra.
      * assert (IZR (ch0 (cvt_bgr2hsv px)) / 179 * (2 * PI) <= 1 * (2 * PI))%R;
          [|lra].
        apply Rmult_le_compat_r; lra.
    + intros ->. apply complex_eq; simpl; ring.
Qed.

End PhaseEditFacts.

Lemma phase_painted_commits z :
  exists st',
    _process_phase_drawing_finished sample_hsv2bgr sample_bgr2hsv
      (phase_painted z) green_stroke C0 = (st', Finalized)
    /\ frequency_image st'
       = Some [[Px (phase_value sample_bgr2hsv (Px 0 255 0)%Z z) z z]].
Proof.
  apply (phase_drawing_finished_commits sample_hsv2bgr sample_bgr2hsv
           (phase_painted z) green_stroke C0
           (uniform_spectrum z) green_stroke [[Px 1 1 0]]%Z);
    try reflexivity.
  apply inverse_transform_is_Some. intros []; reflexivity.
Defined.

Lemma phase_edit_keeps_magnitude_witness :
  exists st' z modified new,
    _process_phase_drawing_finished sample_hsv2bgr sample_bgr2hsv
      (phase_painted (mkC 3 4)) green_stroke C0 = (st', Finalized)
    /\ getitem3 (uniform_spectrum (mkC 3 4)) 0 0 C0 = Some z
    /\ frequency_image st' = Some modified
    /\ getitem3 modified 0 0 C0 = Some new
    /\ cabs new = cabs z.
Proof.
  destruct (phase_painted_commits (mkC 3 4)) as (st' & H & _).
  destruct (phase_edit_keeps_magnitude sample_hsv2bgr sample_bgr2hsv
              (phase_painted (mkC 3 4)) green_stroke C0 st'
              (uniform_spectrum (mkC 3 4)) [[Px 1 1 0]]%Z 0 0
              (Px 0 255 0)%Z H)
    as (z & modified & new & Hz & Hm & Hn & _ & Habs & _); try reflexivity.
  - apply elem_of_np_where. reflexivity.
  - exists st', z, modified, new. auto.
Defined.

(** C4 as stated fails where the spectrum is zero: the green stroke (hue
    60) on the phase canvas of an all-zero spectrum is committed, the entry
    stays [0 + 0j], and its angle is 0, not the angle decoded from the
    hue. *)
Lemma phase_edit_on_zero_entry_keeps_no_angle :
  snd zero_phase_edit = Finalized
  /\ ch0 (sample_bgr2hsv (Px 0 255 0)%Z) = 60%Z
  /\ (frequency_image (fst zero_phase_edit)
        ≫= fun modified => getitem3 modified 0 0 C0) = Some czero
  /\ angle czero <> (60 / 179 * (2 * PI) - PI)%R.
Proof.
  destruct (phase_painted_commits czero) as (st' & H & Hm).
  unfold zero_phase_edit, drawing_finished. rewrite H. cbn [fst snd].
  split; [done|]. split; [reflexivity|]. split.
  - assert (phase_value sample_bgr2hsv (Px 0 255 0)%Z czero = czero) as Hv.
    { unfold phase_value, cscale, cis. simpl.
      assert (cabs czero = 0%R) as ->.
      { unfold cabs, czero. simpl.
        replace (0 * 0 + 0 * 0)%R with 0%R by ring. apply sqrt_0. }
      apply complex_eq; simpl; ring. }
    rewrite Hm, Hv. reflexivity.
  - rewrite angle_czero. pose proof PI_RGT_0. lra.
Qed.

(** ** The filters and the caches on the samples *)

Lemma radial_filter_full_radius_is_identity_witness :
  frequency_image
    (apply_radial_filter sample_hsv2bgr
       (with_frequency (Some square_spectrum)
          (initial_state false false false)) 1)
  = Some square_spectrum.
Proof.
  apply (radial_filter_full_radius_is_identity sample_hsv2bgr
           (with_frequency (Some square_spectrum)
              (initial_state false false false)) square_spectrum).
  - reflexivity.
  - unfold rectangular, square_spectrum. simpl. repeat constructor.
Defined.

Lemma magnitude_filter_thresholds_cache_witness :
  exists f',
    frequency_image (apply_magnitude_filter sample_hsv2bgr loaded_unit (1 / 2))
    = Some f'
    /\ forall r c k z,
         getitem3 (uniform_spectrum (mkC 1 0)) r c k = Some z ->
         getitem3 f' r c k
         = Some (if Rlt_dec (log1p (cabs z + epsilon))
                      (fst (global_log_mag_range loaded_unit)
                       + 1 / 2 * (snd (global_log_mag_range loaded_unit)
                                  - fst (global_log_mag_range loaded_unit)))
                 then mkC 0 0 else z).
Proof.
  destruct loaded_unit_caches as (Hf & Hm & Hr & _).
  destruct (magnitude_filter_thresholds_cache sample_hsv2bgr loaded_unit
              (uniform_spectrum (mkC 1 0))
              [[Px unit_log_mag unit_log_mag unit_log_mag]] (1 / 2) Hf Hm)
    as (f' & Hf' & _ & Hcur).
  - rewrite Hr. simpl. lra.
  - exists f'. split; [done|]. apply Hcur.
    unfold log_magnitude, uniform_spectrum, unit_log_mag, px_map. simpl.
    rewrite cabs_real by lra. reflexivity.
Defined.

(** ** Sums of complex numbers *)

Lemma cis_plus a b : cis (a + b) = cmul (cis a) (cis b).
Proof.
  unfold cis, cmul. simpl. rewrite cos_plus, sin_plus.
  apply complex_eq; simpl; ring.
Qed.

Lemma cadd_czero_l z : cadd czero z = z.
Proof. apply complex_eq; simpl; ring. Qed.

Lemma cadd_czero_r z : cadd z czero = z.
Proof. apply complex_eq; simpl; ring. Qed.

Lemma cmul_czero_l z : cmul czero z = czero.
Proof. apply complex_eq; simpl; ring. Qed.

Lemma cmul_assoc a b c : cmul (cmul a b) c = cmul a (cmul b c).
Proof. apply complex_eq; simpl; ring. Qed.

Lemma cmul_comm a b : cmul a b = cmul b a.
Proof. apply complex_eq; simpl; ring. Qed.

Lemma cmul_cadd_l a b c : cmul (cadd a b) c = cadd (cmul a c) (cmul b c).
Proof. apply complex_eq; simpl; ring. Qed.

Lemma cscale_cadd m a b : cscale m (cadd a b) = cadd (cscale m a) (cscale m b).
Proof. apply complex_eq; simpl; ring. Qed.

Lemma cscale_cmul m a b : cscale m (cmul a b) = cmul (cscale m a) b.
Proof. apply complex_eq; simpl; ring. Qed.

Lemma csum_ext f g n :
  (forall i, (i < n)%nat -> f i = g i) -> Fft.csum f n = Fft.csum g n.
Proof.
  induction n as [|n IH]; intros H; simpl; [done|].
  rewrite IH by (intros; apply H; lia). rewrite H by lia. done.
Qed.

Lemma csum_czero n : Fft.csum (fun _ => czero) n = czero.
Proof.
  induction n as [|n IH]; simpl; [done|]. rewrite IH. apply cadd_czero_l.
Qed.

Lemma csum_cadd f g n :
  Fft.csum (fun i => cadd (f i) (g i)) n
  = cadd (Fft.csum f n) (Fft.csum g n).
Proof.
  induction n as [|n IH]; simpl.
  - by rewrite cadd_czero_l.
  - rewrite IH. apply complex_eq; simpl; ring.
Qed.

Lemma csum_cmul_r f c n :
  Fft.csum (fun i => cmul (f i) c) n = cmul (Fft.csum f n) c.
Proof.
  induction n as [|n IH]; simpl.
  - by rewrite cmul_czero_l.
  - by rewrite IH, cmul_cadd_l.
Qed.

Lemma csum_cscale m f n :
  Fft.csum (fun i => cscale m (f i)) n = cscale m (Fft.csum f n).
Proof.
  induction n as [|n IH]; simpl.
  - apply complex_eq; simpl; ring.
  - by rewrite IH, cscale_cadd.
Qed.

Lemma csum_exchange (f : nat -> nat -> complex) n m :
  Fft.csum (fun i => Fft.csum (fun j => f i j) m) n
  = Fft.csum (fun j => Fft.csum (fun i => f i j) n) m.
Proof.
  induction n as [|n IH]; simpl.
  - by rewrite csum_czero.
  - by rewrite IH, csum_cadd.
Qed.

(** a sum with one term that is not zero *)
Lemma csum_single f n j :
  (j < n)%nat -> (forall i, (i < n)%nat -> i <> j -> f i = czero) ->
  Fft.csum f n = f j.
Proof.
  induction n as [|n IH]; intros Hj Hz; [lia|]. simpl.
  destruct (decide (j = n)) as [->|Hne].
  - rewrite (csum_ext f (fun _ => czero)) by (intros; apply Hz; lia).
    by rewrite csum_czero, cadd_czero_l.
  - rewrite IH by (try lia; intros; apply Hz; lia).
    rewrite (Hz n) by lia. apply cadd_czero_r.
Qed.

(** ** Roots of unity *)

Lemma cis_2PI_nat (k : nat) : cis (2 * INR k * PI) = mkC 1 0.
Proof.
  unfold cis.
  replace (2 * INR k * PI)%R with (0 + 2 * INR k * PI)%R by ring.
  by rewrite cos_period, sin_period, cos_0, sin_0.
Qed.

Lemma cis_neg a : cis (- a) = mkC (cos a) (- sin a).
Proof. unfold cis. by rewrite cos_neg, sin_neg. Qed.

(** [cos] is 1 nowhere strictly between 0 and 2 pi *)
Lemma cos_lt_1 x : (0 < x < 2 * PI)%R -> (cos x < 1)%R.
Proof.
  intros Hx. replace x with (2 * (x / 2))%R by field.
  rewrite cos_2a_sin.
  assert (0 < sin (x / 2))%R by (apply sin_gt_0; lra).
  nra.
Qed.

Lemma cos_lt_1_sym x : (- (2 * PI) < x < 2 * PI)%R -> x <> 0%R ->
  (cos x < 1)%R.
Proof.
  intros Hx Hne. destruct (Rlt_dec 0 x).
  - apply cos_lt_1. lra.
  - rewrite <- cos_neg. apply cos_lt_1. lra.
Qed.

(** the geometric sum of the powers of [cis theta] *)
Lemma geometric_cis theta n :
  cmul (mkC (1 - cos theta) (- sin theta))
       (Fft.csum (fun k => cis (INR k * theta)) n)
  = mkC (1 - cos (INR n * theta)) (- sin (INR n * theta)).
Proof.
  induction n as [|n IH].
  - simpl. rewrite Rmult_0_l, cos_0, sin_0.
    apply complex_eq; simpl; ring.
  - cbn [Fft.csum].
    replace (cmul (mkC (1 - cos theta) (- sin theta))
               (cadd (Fft.csum (fun k => cis (INR k * theta)) n)
                     (cis (INR n * theta))))
      with (cadd (cmul (mkC (1 - cos theta) (- sin theta))
                       (Fft.csum (fun k => cis (INR k * theta)) n))
                 (cmul (mkC (1 - cos theta) (- sin theta))
                       (cis (INR n * theta))))
      by (apply complex_eq; simpl; ring).
    rewrite IH. rewrite S_INR.
    replace ((INR n + 1) * theta)%R with (INR n * theta + theta)%R by ring.
    rewrite cos_plus, sin_plus. apply complex_eq; simpl; ring.
Qed.

(** The sum of the [N] powers of a root of unity: [N] for the trivial
    root, 0 for the others. *)
Lemma roots_sum (N j n : nat) :
  (j < N)%nat -> (n < N)%nat ->
  Fft.csum (fun k => cis (INR k * (2 * PI * (INR j - INR n) / INR N))) N
  = if decide (j = n) then mkC (INR N) 0 else czero.
Proof.
  intros Hj Hn.
  assert (0 < INR N)%R as HN by (apply lt_0_INR; lia).
  destruct (decide (j = n)) as [->|Hne].
  - rewrite (csum_ext _ (fun _ => mkC 1 0)).
    + clear. induction N as [|N IH]; [done|].
      cbn [Fft.csum]. rewrite IH, S_INR.
      apply complex_eq; simpl; ring.
    + intros k _. replace (INR k * (2 * PI * (INR n - INR n) / INR N))%R
        with 0%R by (unfold Rdiv; ring).
      apply cis_0.
  - set (theta := (2 * PI * (INR j - INR n) / INR N)%R).
    pose proof (geometric_cis theta N) as Hg.
    assert (INR N * theta = 2 * INR j * PI + - (2 * INR n * PI))%R as HNt
      by (unfold theta; field; lra).
    assert (cis (INR N * theta) = mkC 1 0) as Hone.
    { rewrite HNt, cis_plus, cis_2PI_nat, cis_neg.
      pose proof (cis_2PI_nat n) as Hc. unfold cis in Hc.
      injection Hc as -> ->. apply complex_eq; simpl; ring. }
    unfold cis in Hone. injection Hone as Hc Hs. rewrite Hc, Hs in Hg.
    assert (cos theta < 1)%R as Hlt.
    { pose proof PI_RGT_0 as Hpi.
      assert (INR j < INR N)%R by (apply lt_INR; lia).
      assert (INR n < INR N)%R by (apply lt_INR; lia).
      pose proof (pos_INR j). pose proof (pos_INR n).
      assert (INR j <> INR n) by (intros ?%INR_eq; done).
      assert (- 1 < (INR j - INR n) / INR N < 1)%R as [Hlo Hhi].
      { split.
        - apply Rmult_lt_reg_r with (INR N); [done|].
          unfold Rdiv. rewrite Rmult_assoc, Rinv_l by lra. lra.
        - apply Rmult_lt_reg_r with (INR N); [done|].
          unfold Rdiv. rewrite Rmult_assoc, Rinv_l by lra. lra. }
      assert ((INR j - INR n) / INR N <> 0)%R as Hnz.
      { intros Hz. apply Rmult_eq_compat_r with (r := INR N) in Hz.
        unfold Rdiv in Hz. rewrite Rmult_assoc, Rinv_l in Hz by lra. lra. }
      replace theta with (2 * PI * ((INR j - INR n) / INR N))%R
        by (unfold theta, Rdiv; ring).
      apply cos_lt_1_sym; [split; nra|]. nra. }
    destruct (Fft.csum (fun k => cis (INR k * theta)) N) as [sr si].
    unfold cmul in Hg. simpl in Hg. injection Hg as Hre Him.
    unfold czero.
    assert (sr = 0%R /\ si = 0%R) as [-> ->]; [|done].
    set (a := (1 - cos theta)%R) in *. set (b := sin theta) in *.
    assert (0 < a)%R by (unfold a; lra).
    pose proof (f_equal (Rmult a) Him) as Ha.
    pose proof (f_equal (Rmult b) Hre) as Hb.
    assert ((a * a + b * b) * si = 0)%R as Hsi by lra.
    assert (0 < a * a + b * b)%R by nra.
    assert (si = 0%R) as ->.
    { apply Rmult_integral in Hsi as [?|?]; [lra|done]. }
    split; [|done].
    assert (a * sr = 0)%R as Hsr by lra.
    apply Rmult_integral in Hsr as [?|?]; [lra|done].
Qed.

(** ** The transform pair *)

Lemma csum_cmul_l c f n :
  Fft.csum (fun i => cmul c (f i)) n = cmul c (Fft.csum f n).
Proof.
  rewrite (csum_ext _ (fun i => cmul (f i) c)) by (intros; apply cmul_comm).
  rewrite csum_cmul_r. apply cmul_comm.
Qed.

(** The inverse transform of the transform of [f 0, ..., f (N - 1)], as
    sums. *)
Lemma dft_inversion_sum (f : nat -> complex) (N j : nat) :
  (j < N)%nat ->
  cscale (/ INR N)
    (Fft.csum (fun k =>
       cmul (Fft.csum (fun n =>
               cmul (f n) (cis (-1 * (2 * PI * INR k * INR n / INR N)))) N)
            (cis (1 * (2 * PI * INR j * INR k / INR N)))) N)
  = f j.
Proof.
  intros Hj.
  assert (0 < INR N)%R as HN by (apply lt_0_INR; lia).
  rewrite (csum_ext _ (fun k => Fft.csum (fun n =>
             cmul (f n)
               (cis (INR k * (2 * PI * (INR j - INR n) / INR N)))) N)).
  2:{ intros k _. rewrite <- csum_cmul_r. apply csum_ext. intros n _.
      rewrite cmul_assoc, <- cis_plus. do 2 f_equal. field. lra. }
  rewrite csum_exchange.
  rewrite (csum_ext _ (fun n =>
             cmul (f n) (if decide (j = n) then mkC (INR N) 0 else czero))).
  2:{ intros n Hn. rewrite csum_cmul_l. f_equal. by apply roots_sum. }
  rewrite (csum_single _ N j Hj).
  - rewrite decide_True by done. apply complex_eq; simpl; field; lra.
  - intros i _ Hne. rewrite decide_False by done.
    apply complex_eq; simpl; ring.
Qed.

Lemma length_dft s x : length (Fft.dft s x) = length x.
Proof. unfold Fft.dft. by rewrite length_fmap, length_seq. Qed.

Lemma length_fft x : length (Fft.fft x) = length x.
Proof. apply length_dft. Qed.

Lemma length_ifft x : length (Fft.ifft x) = length x.
Proof. unfold Fft.ifft. by rewrite length_fmap, length_dft. Qed.

Lemma dft_lookup s x k :
  (k < length x)%nat ->
  Fft.dft s x !! k
  = Some (Fft.csum (fun n =>
            cmul (default czero (x !! n))
                 (cis (s * (2 * PI * INR k * INR n / INR (length x)))))
            (length x)).
Proof.
  intros Hk. unfold Fft.dft. rewrite list_lookup_fmap.
  rewrite lookup_seq_lt by done. reflexivity.
Qed.

Lemma entry_lookup a r row c :
  a !! r = Some row -> entry a r c = default czero (row !! c).
Proof. intros H. unfold entry, getitem. by rewrite H. Qed.

Lemma has_width_lookup {A} w (a : list (list A)) r row :
  has_width w a -> a !! r = Some row -> length row = w.
Proof.
  unfold has_width. rewrite Forall_forall. intros H Hr. apply H.
  apply list_elem_of_In, list_elem_of_lookup. eauto.
Qed.

Lemma has_width_along_rows f w a :
  (forall x, length (f x) = length x) ->
  has_width w a -> has_width w (Fft.along_rows f a).
Proof.
  intros Hf. unfold has_width, Fft.along_rows.
  induction 1 as [|row a Hrow _ IH]; simpl; constructor; [|done].
  by rewrite Hf.
Qed.

Lemma entry_along_rows f a r c row :
  a !! r = Some row ->
  entry (Fft.along_rows f a) r c = default czero (f row !! c).
Proof.
  intros Hr. apply entry_lookup. unfold Fft.along_rows.
  by rewrite list_lookup_fmap, Hr.
Qed.

Lemma column_fmap w (a : list (list complex)) c :
  has_width w a -> (c < w)%nat ->
  Fft.column a c = (fun row => default czero (row !! c)) <$> a.
Proof.
  unfold has_width, Fft.column. intros H Hc.
  induction H as [|row a Hrow _ IH]; [done|].
  rewrite fmap_cons. cbn [omap list_omap].
  destruct (row !! c) as [x|] eqn:Hx.
  - simpl. f_equal. exact IH.
  - apply lookup_ge_None in Hx. lia.
Qed.

Lemma column_lookup w (a : list (list complex)) c n :
  has_width w a -> (c < w)%nat ->
  default czero (Fft.column a c !! n) = entry a n c.
Proof.
  intros H Hc. rewrite (column_fmap w) by done.
  rewrite list_lookup_fmap. unfold entry, getitem.
  by destruct (a !! n).
Qed.

Lemma length_column w (a : list (list complex)) c :
  has_width w a -> (c < w)%nat -> length (Fft.column a c) = length a.
Proof. intros. rewrite (column_fmap w) by done. apply length_fmap. Qed.

Lemma shape_has_width {A} w (a : list (list A)) :
  has_width w a -> a <> [] -> shape a = (length a, w).
Proof.
  intros H Hne. destruct a as [|row a]; [done|].
  unfold shape. f_equal. by inversion H.
Qed.

Lemma along_columns_lookup f (a : list (list complex)) r :
  (r < length a)%nat ->
  Fft.along_columns f a !! r
  = Some ((fun c => default czero (f (Fft.column a c) !! r))
            <$> seq 0 (snd (shape a))).
Proof.
  intros Hr. unfold Fft.along_columns. rewrite list_lookup_fmap.
  rewrite lookup_seq_lt by done. reflexivity.
Qed.

Lemma length_along_columns f (a : list (list complex)) :
  length (Fft.along_columns f a) = length a.
Proof. unfold Fft.along_columns. by rewrite length_fmap, length_seq. Qed.

Lemma has_width_along_columns f w (a : list (list complex)) :
  has_width w a -> a <> [] -> has_width w (Fft.along_columns f a).
Proof.
  intros H Hne. unfold has_width. rewrite Forall_forall. intros row Hin.
  apply list_elem_of_In, list_elem_of_lookup in Hin as [r Hr].
  assert (r < length a)%nat as Hlt.
  { apply lookup_lt_Some in Hr. by rewrite length_along_columns in Hr. }
  rewrite along_columns_lookup in Hr by done. injection Hr as <-.
  rewrite length_fmap, length_seq.
  destruct a as [|row a]; [done|]. by inversion H.
Qed.

Lemma entry_along_columns f w (a : list (list complex)) r c :
  has_width w a -> (r < length a)%nat -> (c < w)%nat ->
  entry (Fft.along_columns f a) r c
  = default czero (f (Fft.column a c) !! r).
Proof.
  intros H Hr Hc.
  assert (a <> []) as Hne by (intros ->; simpl in Hr; lia).
  rewrite (entry_lookup _ _ _ _ (along_columns_lookup f a r Hr)).
  rewrite list_lookup_fmap, (shape_has_width w a) by done. simpl.
  by rewrite lookup_seq_lt.
Qed.

(** ** The two-dimensional transform pair *)

Lemma zero_size_false {A} w (a : list (list A)) :
  has_width w a -> (0 < length a)%nat -> (0 < w)%nat ->
  Fft.zero_size a = false.
Proof.
  intros H Hh Hw. unfold Fft.zero_size.
  rewrite (shape_has_width w a) by (try done; intros ->; simpl in Hh; lia).
  destruct (length a); [lia|]. destruct w; [lia|]. done.
Qed.

Lemma ifft_lookup x k :
  (k < length x)%nat ->
  default czero (Fft.ifft x !! k)
  = cscale (/ INR (length x))
      (Fft.csum (fun n =>
         cmul (default czero (x !! n))
              (cis (1 * (2 * PI * INR k * INR n / INR (length x)))))
         (length x)).
Proof.
  intros Hk. unfold Fft.ifft.
  by rewrite list_lookup_fmap, dft_lookup.
Qed.

Lemma fft_lookup x k :
  (k < length x)%nat ->
  default czero (Fft.fft x !! k)
  = Fft.csum (fun n =>
      cmul (default czero (x !! n))
           (cis (-1 * (2 * PI * INR k * INR n / INR (length x)))))
      (length x).
Proof. intros Hk. unfold Fft.fft. by rewrite dft_lookup. Qed.

Section Inversion.

Variable a : list (list complex).
Variables h w : nat.
Hypothesis a_width : has_width w a.
Hypothesis a_height : length a = h.
Hypothesis h_pos : (0 < h)%nat.
Hypothesis w_pos : (0 < w)%nat.

Let R := Fft.along_rows Fft.fft a.
Let F := Fft.along_columns Fft.fft R.
Let G := Fft.along_rows Fft.ifft F.

Lemma R_shape : has_width w R /\ length R = h /\ R <> [].
Proof.
  assert (length R = h) as Hl
    by (unfold R, Fft.along_rows; by rewrite length_fmap).
  split; [|split; [done|]].
  - apply has_width_along_rows; [apply length_fft|done].
  - intros HR. rewrite HR in Hl. simpl in Hl. lia.
Qed.

Lemma F_shape : has_width w F /\ length F = h /\ F <> [].
Proof.
  destruct R_shape as (HRw & HRl & HRne).
  assert (length F = h) as Hl
    by (unfold F; by rewrite length_along_columns).
  split; [|split; [done|]].
  - by apply has_width_along_columns.
  - intros HF. rewrite HF in Hl. simpl in Hl. lia.
Qed.

Lemma G_shape : has_width w G /\ length G = h /\ G <> [].
Proof.
  destruct F_shape as (HFw & HFl & HFne).
  assert (length G = h) as Hl
    by (unfold G, Fft.along_rows; by rewrite length_fmap).
  split; [|split; [done|]].
  - apply has_width_along_rows; [apply length_ifft|done].
  - intros HG. rewrite HG in Hl. simpl in Hl. lia.
Qed.

Lemma R_entry n l :
  (n < h)%nat -> (l < w)%nat ->
  entry R n l
  = Fft.csum (fun m =>
      cmul (entry a n m) (cis (-1 * (2 * PI * INR l * INR m / INR w)))) w.
Proof.
  intros Hn Hl.
  destruct (lookup_lt_is_Some_2 a n) as [row Hrow]; [lia|].
  pose proof (has_width_lookup _ _ _ _ a_width Hrow) as Hlen.
  unfold R. rewrite (entry_along_rows _ _ _ _ _ Hrow).
  rewrite fft_lookup by lia. rewrite Hlen.
  apply csum_ext. intros m _. by rewrite (entry_lookup _ _ _ _ Hrow).
Qed.

Lemma F_entry k l :
  (k < h)%nat -> (l < w)%nat ->
  entry F k l
  = Fft.csum (fun n =>
      cmul (entry R n l) (cis (-1 * (2 * PI * INR k * INR n / INR h)))) h.
Proof.
  intros Hk Hl. destruct R_shape as (HRw & HRl & _).
  unfold F. rewrite (entry_along_columns _ w) by (try done; lia).
  rewrite fft_lookup by (rewrite (length_column w); try done; lia).
  rewrite (length_column w), HRl by done.
  apply csum_ext. intros n _. by rewrite (column_lookup w).
Qed.

Lemma G_entry k c :
  (k < h)%nat -> (c < w)%nat ->
  entry G k c
  = cscale (/ INR w)
      (Fft.csum (fun l =>
         cmul (entry F k l)
              (cis (1 * (2 * PI * INR c * INR l / INR w)))) w).
Proof.
  intros Hk Hc. destruct F_shape as (HFw & HFl & _).
  destruct (lookup_lt_is_Some_2 F k) as [row Hrow]; [lia|].
  pose proof (has_width_lookup _ _ _ _ HFw Hrow) as Hlen.
  unfold G. rewrite (entry_along_rows _ _ _ _ _ Hrow).
  rewrite ifft_lookup by lia. rewrite Hlen. f_equal.
  apply csum_ext. intros l _. by rewrite (entry_lookup _ _ _ _ Hrow).
Qed.

(** undoing the transform along the rows first *)
Lemma G_entry_columns k c :
  (k < h)%nat -> (c < w)%nat ->
  entry G k c
  = Fft.csum (fun n =>
      cmul (entry a n c) (cis (-1 * (2 * PI * INR k * INR n / INR h)))) h.
Proof.
  intros Hk Hc. rewrite G_entry by done.
  rewrite (csum_ext _ (fun l => Fft.csum (fun n =>
     cmul (cmul (entry R n l) (cis (1 * (2 * PI * INR c * INR l / INR w))))
          (cis (-1 * (2 * PI * INR k * INR n / INR h)))) h)).
  2:{ intros l Hl. rewrite F_entry by done. rewrite <- csum_cmul_r.
      apply csum_ext. intros n _.
      rewrite !cmul_assoc. f_equal. apply cmul_comm. }
  rewrite csum_exchange, <- csum_cscale.
  apply csum_ext. intros n Hn.
  rewrite csum_cmul_r, cscale_cmul. f_equal.
  rewrite (csum_ext _ (fun l =>
     cmul (Fft.csum (fun m =>
             cmul (entry a n m)
                  (cis (-1 * (2 * PI * INR l * INR m / INR w)))) w)
          (cis (1 * (2 * PI * INR c * INR l / INR w))))).
  2:{ intros l Hl. by rewrite R_entry. }
  by apply (dft_inversion_sum (entry a n)).
Qed.

Lemma out_entry r c :
  (r < h)%nat -> (c < w)%nat ->
  default czero (Fft.ifft (Fft.column G c) !! r) = entry a r c.
Proof.
  intros Hr Hc. destruct G_shape as (HGw & HGl & _).
  rewrite ifft_lookup by (rewrite (length_column w); try done; lia).
  rewrite (length_column w), HGl by done.
  rewrite (csum_ext _ (fun k =>
     cmul (Fft.csum (fun n =>
             cmul (entry a n c)
                  (cis (-1 * (2 * PI * INR k * INR n / INR h)))) h)
          (cis (1 * (2 * PI * INR r * INR k / INR h))))).
  2:{ intros k Hk. rewrite (column_lookup w) by done.
      by rewrite G_entry_columns. }
  by apply (dft_inversion_sum (fun n => entry a n c)).
Qed.

(** [ifft2] undoes [fft2]. *)
Lemma ifft2_fft2 :
  Fft.fft2 a = Some F /\ Fft.ifft2 F = Some a.
Proof.
  destruct F_shape as (HFw & HFl & HFne).
  destruct G_shape as (HGw & HGl & HGne).
  split.
  - unfold Fft.fft2. rewrite (zero_size_false w) by (try done; lia). done.
  - unfold Fft.ifft2. rewrite (zero_size_false w) by (try done; lia).
    f_equal. fold G. apply list_eq. intros r.
    destruct (decide (r < h)%nat) as [Hr|Hr].
    + rewrite along_columns_lookup by lia.
      destruct (lookup_lt_is_Some_2 a r) as [row Hrow]; [lia|].
      pose proof (has_width_lookup _ _ _ _ a_width Hrow) as Hlen.
      rewrite Hrow. f_equal. rewrite (shape_has_width w G) by done.
      simpl. apply list_eq. intros c. rewrite list_lookup_fmap.
      destruct (decide (c < w)%nat) as [Hc|Hc].
      * rewrite lookup_seq_lt by done. simpl. rewrite out_entry by done.
        rewrite (entry_lookup _ _ _ _ Hrow).
        destruct (lookup_lt_is_Some_2 row c) as [x Hx]; [lia|].
        by rewrite Hx.
      * rewrite lookup_seq_ge by lia. simpl. symmetry.
        apply lookup_ge_None. lia.
    + rewrite !(proj2 (lookup_ge_None _ _)); [done|lia|].
      rewrite length_along_columns. lia.
Qed.

End Inversion.

(** ** Shifting the spectrum and back *)

Lemma length_fftshift1 {A} (l : list A) :
  length (Fft.fftshift1 l) = length l.
Proof.
  unfold Fft.fftshift1. rewrite length_app, length_drop, length_take.
  assert (length l / 2 <= length l)%nat by (apply Nat.Div0.div_le_upper_bound; lia).
  lia.
Qed.

Lemma ifftshift1_fftshift1 {A} (l : list A) :
  Fft.ifftshift1 (Fft.fftshift1 l) = l.
Proof.
  unfold Fft.ifftshift1. rewrite length_fftshift1. unfold Fft.fftshift1.
  set (n := length l).
  assert (n / 2 <= n)%nat as Hle
    by (apply Nat.Div0.div_le_upper_bound; lia).
  assert (length (drop (n - n / 2) l) = (n / 2)%nat) as Hd
    by (rewrite length_drop; fold n; lia).
  rewrite drop_app_length', take_app_length' by done.
  apply take_drop.
Qed.

Lemma fmap_fftshift1 {A B} (f : A -> B) (l : list A) :
  f <$> Fft.fftshift1 l = Fft.fftshift1 (f <$> l).
Proof.
  unfold Fft.fftshift1. by rewrite fmap_app, fmap_drop, fmap_take, length_fmap.
Qed.

Lemma ifftshift_fftshift {A} (a : list (list A)) :
  Fft.ifftshift (Fft.fftshift a) = a.
Proof.
  unfold Fft.ifftshift, Fft.fftshift.
  rewrite fmap_fftshift1, ifftshift1_fftshift1, <- list_fmap_compose.
  rewrite <- (list_fmap_id a) at 2. apply list_fmap_ext.
  intros _ row _. simpl. apply ifftshift1_fftshift1.
Qed.

Lemma has_width_fftshift {A} w (a : list (list A)) :
  has_width w a -> has_width w (Fft.fftshift a).
Proof.
  unfold has_width, Fft.fftshift, Fft.fftshift1 at 1. intros H.
  assert (Forall (fun row => length row = w) (Fft.fftshift1 <$> a)) as H'.
  { rewrite Forall_fmap. eapply Forall_impl; [|exact H].
    intros row Hrow. simpl. by rewrite length_fftshift1. }
  apply Forall_app. split; [by apply Forall_drop|by apply Forall_take].
Qed.

Lemma length_fftshift {A} (a : list (list A)) :
  length (Fft.fftshift a) = length a.
Proof. unfold Fft.fftshift. by rewrite length_fftshift1, length_fmap. Qed.

(** ** Channels of an array *)

Lemma list2_ext {A} (a b : list (list A)) :
  length a = length b ->
  (forall r c, getitem a r c = getitem b r c) ->
  a = b.
Proof.
  intros Hlen Hget. apply list_eq. intros r.
  destruct (a !! r) as [ra|] eqn:Ha; destruct (b !! r) as [rb|] eqn:Hb.
  - f_equal. apply list_eq. intros c.
    specialize (Hget r c). unfold getitem in Hget. by rewrite Ha, Hb in Hget.
  - apply lookup_lt_Some in Ha. apply lookup_ge_None in Hb. lia.
  - apply lookup_lt_Some in Hb. apply lookup_ge_None in Ha. lia.
  - done.
Qed.

Lemma getitem_is_Some {A} w (a : list (list A)) r c :
  has_width w a ->
  is_Some (getitem a r c) <-> (r < length a)%nat /\ (c < w)%nat.
Proof.
  intros H. unfold getitem. destruct (a !! r) as [row|] eqn:Hr.
  - rewrite lookup_lt_is_Some, (has_width_lookup _ _ _ _ H Hr).
    apply lookup_lt_Some in Hr. tauto.
  - apply lookup_ge_None in Hr. split; [intros [? ?]; done|lia].
Qed.

Lemma has_width_fmap {A B} (g : A -> B) w (a : list (list A)) :
  has_width w a -> has_width w (fmap (M:=list) (fmap (M:=list) g) a).
Proof.
  unfold has_width. intros H. rewrite Forall_fmap.
  eapply Forall_impl; [|exact H]. intros row Hrow. simpl.
  by rewrite length_fmap.
Qed.

Lemma has_width_slice_chan {A} k w (a : ndarray A) :
  has_width w a -> has_width w (slice_chan k a).
Proof. apply has_width_fmap. Qed.

Lemma length_slice_chan {A} k (a : ndarray A) :
  length (slice_chan k a) = length a.
Proof. unfold slice_chan. apply length_fmap. Qed.

Lemma has_width_full {A} h w (v : A) : has_width w (full h w v).
Proof.
  unfold has_width, full. apply Forall_replicate. apply length_replicate.
Qed.

Lemma length_full {A} h w (v : A) : length (full h w v) = h.
Proof. unfold full. apply length_replicate. Qed.

Lemma assign_chan_shape {A} k w (s : list (list A)) (a : ndarray A) :
  has_width w a -> has_width w s -> length s = length a ->
  has_width w (assign_chan k s a) /\ length (assign_chan k s a) = length a.
Proof.
  intros Ha Hs Hlen. unfold assign_chan. split.
  - unfold has_width. rewrite Forall_forall. intros row Hin.
    apply list_elem_of_In, list_elem_of_lookup in Hin as [r Hr].
    rewrite lookup_zip_with in Hr.
    destruct (a !! r) as [ra|] eqn:Hra; simpl in Hr; [|done].
    destruct (s !! r) as [rs|] eqn:Hrs; simpl in Hr; [|done].
    injection Hr as <-. rewrite length_zip_with.
    rewrite (has_width_lookup _ _ _ _ Ha Hra).
    rewrite (has_width_lookup _ _ _ _ Hs Hrs). lia.
  - rewrite length_zip_with. lia.
Qed.

Lemma getitem3_assign_chan {A} k (s : list (list A)) (a : ndarray A) r c k' :
  getitem3 (assign_chan k s a) r c k'
  = match getitem a r c, getitem s r c with
    | Some p, Some v => Some (if decide (k' = k) then v else px_get k' p)
    | _, _ => None
    end.
Proof.
  unfold getitem3, assign_chan. rewrite getitem_zip_with.
  destruct (getitem a r c); simpl; [|done].
  destruct (getitem s r c); simpl; [|done].
  by rewrite px_get_set.
Qed.

Lemma slice_assign_eq {A} k w (s : list (list A)) (a : ndarray A) :
  has_width w a -> has_width w s -> length s = length a ->
  slice_chan k (assign_chan k s a) = s.
Proof.
  intros Ha Hs Hlen.
  destruct (assign_chan_shape k w s a Ha Hs Hlen) as [_ Hl].
  apply list2_ext; [rewrite length_slice_chan; lia|].
  intros r c. rewrite getitem_slice_chan, getitem3_assign_chan.
  destruct (getitem s r c) as [v|] eqn:Hv.
  - assert (is_Some (getitem a r c)) as [p ->].
    { apply (getitem_is_Some w); [done|]. rewrite <- Hlen.
      apply (getitem_is_Some w s); eauto. }
    by rewrite decide_True.
  - by destruct (getitem a r c).
Qed.

Lemma slice_assign_ne {A} k k' w (s : list (list A)) (a : ndarray A) :
  k' <> k ->
  has_width w a -> has_width w s -> length s = length a ->
  slice_chan k' (assign_chan k s a) = slice_chan k' a.
Proof.
  intros Hne Ha Hs Hlen.
  destruct (assign_chan_shape k w s a Ha Hs Hlen) as [_ Hl].
  apply list2_ext; [rewrite !length_slice_chan; lia|].
  intros r c. rewrite !getitem_slice_chan, getitem3_assign_chan.
  unfold getitem3.
  destruct (getitem a r c) as [p|] eqn:Hp; [|done].
  assert (is_Some (getitem s r c)) as [v ->].
  { apply (getitem_is_Some w); [done|]. rewrite Hlen.
    apply (getitem_is_Some w a); eauto. }
  by rewrite decide_False.
Qed.

(** The three channels assigned one after the other, as the loops over
    [range(3)] do, can be read back. *)
Lemma slice_assigned {A} h w (s : chan -> list (list A)) (v : A) k :
  (forall c, has_width w (s c) /\ length (s c) = h) ->
  let a := assign_chan C2 (s C2)
             (assign_chan C1 (s C1) (assign_chan C0 (s C0) (full h w v))) in
  slice_chan k a = s k /\ has_width w a /\ length a = h.
Proof.
  intros Hs a.
  pose proof (has_width_full h w v) as Hw0.
  pose proof (length_full h w v) as Hl0.
  destruct (Hs C0) as [Hw_0 Hl_0], (Hs C1) as [Hw_1 Hl_1],
    (Hs C2) as [Hw_2 Hl_2].
  destruct (assign_chan_shape C0 w (s C0) (full h w v) Hw0 Hw_0)
    as [Hw1 Hl1]; [congruence|].
  destruct (assign_chan_shape C1 w (s C1) _ Hw1 Hw_1) as [Hw2 Hl2];
    [congruence|].
  destruct (assign_chan_shape C2 w (s C2) _ Hw2 Hw_2) as [Hw3 Hl3];
    [congruence|].
  subst a. split; [|split; [done|congruence]].
  destruct k.
  - rewrite (slice_assign_ne _ _ w), (slice_assign_ne _ _ w)
      by (try done; congruence).
    apply (slice_assign_eq _ w); try done; congruence.
  - rewrite (slice_assign_ne _ _ w) by (try done; congruence).
    apply (slice_assign_eq _ w); try done; congruence.
  - apply (slice_assign_eq _ w); try done; congruence.
Qed.

(** ** The round trip *)

Lemma Int_part_IZR v : Int_part (IZR v) = v.
Proof. symmetry. apply Int_part_spec. lra. Qed.

(** An 8-bit sample survives [np.abs], the clip and the cast. *)
Lemma quantize_sample v :
  (0 <= v <= 255)%Z ->
  astype_uint8 (clip (cabs (mkC (IZR v) 0)) 0 255) = v.
Proof.
  intros [Hlo Hhi]. apply IZR_le in Hlo, Hhi.
  rewrite cabs_real by done. unfold clip.
  rewrite Rmax_left, Rmin_left by lra.
  unfold astype_uint8, trunc.
  destruct (Rle_dec 0 (IZR v)) as [_|Hn]; [|lra].
  rewrite Int_part_IZR. apply Z.mod_small.
  split; [by apply le_IZR|]. apply lt_IZR. lra.
Qed.

(** The cast is the only lossy step: whatever float within 1 of an 8-bit
    sample is clipped and cast, the result is that sample or the one below
    it. *)
Lemma quantize_tolerance v x :
  (0 <= v <= 255)%Z ->
  (Rabs (x - IZR v) < 1)%R ->
  (Z.abs (astype_uint8 (clip x 0 255) - v) <= 1)%Z.
Proof.
  intros [Hlo Hhi] Hx. apply IZR_le in Hlo, Hhi.
  apply Rabs_def2 in Hx. destruct Hx as [Hx1 Hx2].
  set (y := clip x 0 255%R).
  assert (0 <= y <= 255 /\ -1 < y - IZR v < 1)%R as [Hy Hyv].
  { unfold y, clip, Rmin, Rmax.
    repeat (destruct (Rle_dec _ _)); lra. }
  unfold astype_uint8, trunc.
  destruct (Rle_dec 0 y) as [_|Hn]; [|lra].
  destruct (base_Int_part y) as [Hi1 Hi2].
  assert (0 <= Int_part y <= 255)%Z as Hr.
  { split.
    - apply Z.lt_succ_r, lt_IZR. rewrite succ_IZR. lra.
    - apply le_IZR. lra. }
  rewrite Z.mod_small by lia.
  assert (v - 1 <= Int_part y <= v)%Z as Hd.
  { split.
    - apply Z.lt_succ_r, lt_IZR. rewrite succ_IZR, minus_IZR. lra.
    - apply Z.lt_succ_r, lt_IZR. rewrite succ_IZR. lra. }
  lia.
Qed.

Lemma entries_nonempty {A} w (f : ndarray A) :
  has_width w f -> (0 < length f)%nat -> (0 < w)%nat -> entries f <> [].
Proof.
  intros H Hh Hw. destruct f as [|row f]; [simpl in Hh; lia|].
  inversion H as [|? ? Hrow _]; subst.
  destruct row as [|p row]; [simpl in Hw; lia|]. done.
Qed.

Lemma valid_image_shape (img : ndarray Z) :
  valid_image img ->
  has_width (snd (shape img)) img
  /\ (0 < length img)%nat /\ (0 < snd (shape img))%nat.
Proof.
  intros (Hrect & Hz & _). split; [exact Hrect|].
  unfold Fft.zero_size in Hz. destruct img as [|row img]; [done|].
  simpl in *. destruct (length row); [done|]. lia.
Qed.

Section RoundTrip.

Variable img : ndarray Z.
Hypothesis img_valid : valid_image img.

Let h := length img.
Let w := snd (shape img).

(** channel [c] as floats, its transform, and the transform shifted *)
Let X (c : chan) : list (list complex) :=
  fmap (M:=list) (fmap (M:=list) (fun v : Z => mkC (IZR v) 0))
       (slice_chan c img).
Let Fc (c : chan) := Fft.along_columns Fft.fft (Fft.along_rows Fft.fft (X c)).
Let S (c : chan) := Fft.fftshift (Fc c).

(** the spectrum, and the image computed back from it *)
Let spectrum : ndarray complex :=
  assign_chan C2 (S C2)
    (assign_chan C1 (S C1) (assign_chan C0 (S C0) (full h w czero))).
Let Y (c : chan) : list (list R) :=
  fmap (M:=list) (fmap (M:=list) cabs) (X c).
Let back : ndarray R :=
  assign_chan C2 (Y C2)
    (assign_chan C1 (Y C1) (assign_chan C0 (Y C0) (full h w 0%R))).

Lemma X_shape c : has_width w (X c) /\ length (X c) = h.
Proof.
  destruct (valid_image_shape img img_valid) as (Hw & _).
  split.
  - by apply has_width_fmap, has_width_slice_chan.
  - unfold X. by rewrite length_fmap, length_slice_chan.
Qed.

Lemma transform_pair c :
  Fft.fft2 (X c) = Some (Fc c) /\ Fft.ifft2 (Fc c) = Some (X c)
  /\ has_width w (Fc c) /\ length (Fc c) = h.
Proof.
  destruct (valid_image_shape img img_valid) as (_ & Hh & Hw).
  destruct (X_shape c) as [HXw HXl].
  destruct (ifft2_fft2 (X c) h w HXw HXl Hh Hw) as [Hf Hi].
  destruct (F_shape (X c) h w HXw HXl Hh Hw) as (HFw & HFl & _).
  done.
Qed.

Lemma S_shape c : has_width w (S c) /\ length (S c) = h.
Proof.
  destruct (transform_pair c) as (_ & _ & HFw & HFl). unfold S. split.
  - by apply has_width_fftshift.
  - by rewrite length_fftshift.
Qed.

Lemma forward_transform_spectrum : forward_transform img = Some spectrum.
Proof.
  unfold forward_transform, forward_channel. fold (X C0) (X C1) (X C2).
  cbn [for_each all_chans].
  fold (X C0) (X C1) (X C2).
  destruct (transform_pair C0) as (-> & _).
  destruct (transform_pair C1) as (-> & _).
  destruct (transform_pair C2) as (-> & _).
  reflexivity.
Qed.

Lemma spectrum_channels c :
  slice_chan c spectrum = S c /\ has_width w spectrum
  /\ length spectrum = h.
Proof. apply (slice_assigned h w S czero c). apply S_shape. Qed.

Lemma inverse_channel_spectrum c :
  inverse_channel spectrum c = Some (Y c).
Proof.
  unfold inverse_channel. destruct (spectrum_channels c) as (-> & _).
  unfold S. rewrite ifftshift_fftshift.
  destruct (transform_pair c) as (_ & -> & _). reflexivity.
Qed.

Lemma Y_shape c : has_width w (Y c) /\ length (Y c) = h.
Proof.
  destruct (X_shape c) as [HXw HXl]. unfold Y. split.
  - by apply has_width_fmap.
  - by rewrite length_fmap.
Qed.

Lemma spectrum_shape : shape spectrum = (h, w).
Proof.
  destruct (valid_image_shape img img_valid) as (_ & Hh & Hw).
  destruct (spectrum_channels C0) as (_ & Hsw & Hsl).
  rewrite (shape_has_width w) by (try done; intros He; rewrite He in Hsl;
                                  simpl in Hsl; lia).
  by rewrite Hsl.
Qed.

Lemma inverse_transform_spectrum :
  inverse_transform spectrum
  = Some (fmap (M:=list) (fmap (M:=list)
            (px_map (fun x => astype_uint8 (clip x 0 255)))) back).
Proof.
  unfold inverse_transform. rewrite spectrum_shape.
  cbn [for_each all_chans fst snd mbind option_bind].
  rewrite !inverse_channel_spectrum. reflexivity.
Qed.

Lemma back_is_img :
  fmap (M:=list) (fmap (M:=list)
    (px_map (fun x => astype_uint8 (clip x 0 255)))) back = img.
Proof.
  destruct img_valid as (_ & _ & Hrange).
  pose proof (fun c => slice_assigned h w Y 0%R c Y_shape) as Hback.
  apply ndarray_ext.
  - rewrite length_fmap. destruct (Hback C0) as (_ & _ & Hl).
    fold back in Hl. by rewrite Hl.
  - intros r c k.
    assert (forall {A B} (g : A -> B) (a : ndarray A),
              getitem3 (fmap (M:=list) (fmap (M:=list) (px_map g)) a) r c k
              = g <$> getitem3 a r c k) as Hmap.
    { intros A B g a. unfold getitem3. rewrite getitem_fmap.
      destruct (getitem a r c) as [[? ? ?]|]; simpl; [|done].
      by destruct k. }
    rewrite Hmap. rewrite <- (getitem_slice_chan k back).
    destruct (Hback k) as (Hk & _). fold back in Hk. rewrite Hk.
    unfold Y, X. rewrite !getitem_fmap, getitem_slice_chan.
    destruct (getitem3 img r c k) as [v|] eqn:Hv; simpl; [|done].
    f_equal. apply quantize_sample. eauto.
Qed.

Lemma round_trip_exact :
  exists f,
    forward_transform img = Some f
    /\ inverse_transform f = Some img
    /\ entries f <> [].
Proof.
  exists spectrum. split; [apply forward_transform_spectrum|]. split.
  - rewrite inverse_transform_spectrum. f_equal. apply back_is_img.
  - destruct (valid_image_shape img img_valid) as (_ & Hh & Hw).
    destruct (spectrum_channels C0) as (_ & Hsw & Hsl).
    apply (entries_nonempty w); [done|lia|done].
Qed.

End RoundTrip.

(** ** The round trip on a sample *)

Lemma sample_image_valid : valid_image sample_image.
Proof.
  split; [|split].
  - unfold rectangular, sample_image. simpl. repeat constructor.
  - reflexivity.
  - intros r c k v.
    destruct r as [|[|r]]; destruct c as [|[|c]]; destruct k;
      cbn; intros Hv; inversion Hv; lia.
Defined.

(** ** Bresenham's line *)

(** More fuel does not change a run that has reached its [break]. *)
Lemma bresenham_loop_fuel fuel fuel' dx dy sx sy x1 y1 x0 y0 err l :
  bresenham_loop fuel dx dy sx sy x1 y1 x0 y0 err = Some l ->
  (fuel <= fuel')%nat ->
  bresenham_loop fuel' dx dy sx sy x1 y1 x0 y0 err = Some l.
Proof.
  revert fuel' x0 y0 err l.
  induction fuel as [|fuel IH]; intros fuel' x0 y0 err l; [done|].
  destruct fuel' as [|fuel']; [lia|]. intros Hl Hle. simpl in *.
  destruct ((x0 =? x1) && (y0 =? y1))%Z; [done|].
  destruct (bresenham_loop fuel _ _ _ _ _ _ _ _ _) as [l'|] eqn:Hrec;
    [|done].
  rewrite (IH _ _ _ _ _ Hrec) by lia. done.
Qed.

Section BresenhamRun.

(** the start, the end, and what the generator computes from them *)
Variables xs ys x1 y1 : Z.

Let dx := Z.abs (x1 - xs).
Let dy := Z.abs (y1 - ys).
Let sx : Z := if (xs <? x1)%Z then 1%Z else (-1)%Z.
Let sy : Z := if (ys <? y1)%Z then 1%Z else (-1)%Z.

(** the state after [i] steps along x and [j] steps along y *)
Let X (i : Z) : Z := (xs + i * sx)%Z.
Let Y (j : Z) : Z := (ys + j * sy)%Z.
Let E (i j : Z) : Z := (dx - dy - i * dy + j * dx)%Z.

Lemma X_end : X dx = x1.
Proof. unfold X, dx, sx. destruct (Z.ltb_spec xs x1); lia. Qed.

Lemma Y_end : Y dy = y1.
Proof. unfold Y, dy, sy. destruct (Z.ltb_spec ys y1); lia. Qed.

Lemma X_inj i : (0 <= i <= dx)%Z -> X i = x1 -> i = dx.
Proof. unfold X, dx, sx. destruct (Z.ltb_spec xs x1); lia. Qed.

Lemma Y_inj j : (0 <= j <= dy)%Z -> Y j = y1 -> j = dy.
Proof. unfold Y, dy, sy. destruct (Z.ltb_spec ys y1); lia. Qed.

Lemma X_between i : (0 <= i <= dx)%Z -> between xs x1 (X i).
Proof. unfold between, X, dx, sx. destruct (Z.ltb_spec xs x1); lia. Qed.

Lemma Y_between j : (0 <= j <= dy)%Z -> between ys y1 (Y j).
Proof. unfold between, Y, dy, sy. destruct (Z.ltb_spec ys y1); lia. Qed.

(** One iteration from the state [(i, j)] short of the end: the step it
    takes, which stays within the rectangle. *)
Lemma bresenham_step i j :
  (0 <= i <= dx)%Z -> (0 <= j <= dy)%Z -> (i < dx \/ j < dy)%Z ->
  let i' := (if (2 * E i j >? - dy)%Z then i + 1 else i)%Z in
  let j' := (if (2 * E i j <? dx)%Z then j + 1 else j)%Z in
  (i' <= dx /\ j' <= dy /\ i + j < i' + j')%Z
  /\ forall fuel,
       bresenham_loop (S fuel) dx dy sx sy x1 y1 (X i) (Y j) (E i j)
       = cons (X i, Y j)
           <$> bresenham_loop fuel dx dy sx sy x1 y1 (X i') (Y j')
                 (E i' j').
Proof.
  intros Hi Hj Hnot.
  assert (0 <= dx /\ 0 <= dy)%Z as [Hdx Hdy] by (unfold dx, dy; lia).
  assert (((X i =? x1) && (Y j =? y1))%Z = false) as Hend.
  { apply andb_false_iff.
    destruct Hnot as [H|H]; [left|right]; apply Z.eqb_neq; intros He.
    - apply X_inj in He; lia.
    - apply Y_inj in He; lia. }
  set (step_x := (2 * E i j >? - dy)%Z).
  set (step_y := (2 * E i j <? dx)%Z).
  assert (step_x = true -> i < dx)%Z as Hsx.
  { unfold step_x. intros H. apply Z.gtb_lt in H. unfold E in H.
    destruct (Z.eq_dec i dx) as [->|]; [|lia].
    assert (j < dy)%Z by lia. nia. }
  assert (step_y = true -> j < dy)%Z as Hsy.
  { unfold step_y. intros H. apply Z.ltb_lt in H. unfold E in H.
    destruct (Z.eq_dec j dy) as [->|]; [|lia].
    assert (i < dx)%Z by lia. nia. }
  assert (step_x = true \/ step_y = true) as Hsome.
  { unfold step_x, step_y.
    destruct (Z.gtb_spec (2 * E i j) (- dy)); [by left|].
    destruct (Z.ltb_spec (2 * E i j) dx); [by right|]. lia. }
  split.
  - destruct step_x, step_y;
      try (specialize (Hsx eq_refl)); try (specialize (Hsy eq_refl));
      first [lia | by destruct Hsome].
  - intros fuel. cbn [bresenham_loop]. rewrite Hend.
    fold step_x step_y. f_equal. f_equal.
    + unfold X. destruct step_x; lia.
    + unfold Y. destruct step_y; lia.
    + unfold E. destruct step_x, step_y; lia.
Qed.

(** The run from the state [(i, j)]: it ends, at the end point, and
    every point it yields is next to the one before. *)
Lemma bresenham_run fuel i j :
  (0 <= i <= dx)%Z -> (0 <= j <= dy)%Z ->
  (Z.to_nat ((dx - i) + (dy - j)) < fuel)%nat ->
  exists l,
    bresenham_loop fuel dx dy sx sy x1 y1 (X i) (Y j) (E i j)
    = Some ((X i, Y j) :: l)
    /\ list.last ((X i, Y j) :: l) = Some (x1, y1)
    /\ connected ((X i, Y j) :: l)
    /\ Forall (fun p => between xs x1 (fst p) /\ between ys y1 (snd p))
         ((X i, Y j) :: l)
    /\ (length l <= Z.to_nat ((dx - i) + (dy - j)))%nat.
Proof.
  revert i j. induction fuel as [|fuel IH]; intros i j Hi Hj Hfuel; [lia|].
  destruct (decide (i < dx \/ j < dy)%Z) as [Hnot|Hend].
  - destruct (bresenham_step i j Hi Hj Hnot) as [Hnext Hstep].
    set (i' := (if (2 * E i j >? - dy)%Z then i + 1 else i)%Z) in *.
    set (j' := (if (2 * E i j <? dx)%Z then j + 1 else j)%Z) in *.
    assert (i <= i' <= i + 1 /\ j <= j' <= j + 1)%Z as [Hi' Hj'].
    { unfold i', j'.
      destruct (2 * E i j >? - dy)%Z, (2 * E i j <? dx)%Z; lia. }
    destruct Hnext as (Hix & Hjx & Hlt).
    rewrite Hstep.
    destruct (IH i' j') as (l & -> & Hlast & Hconn & Hbox & Hlen);
      [lia|lia|lia|].
    exists ((X i', Y j') :: l). split; [done|]. split; [done|].
    split; [|split].
    + split; [|done]. unfold adjacent, X, Y, sx, sy. simpl.
      destruct (Z.ltb_spec xs x1), (Z.ltb_spec ys y1);
        (split; [lia|split; [lia|]]); intros [= Hx Hy]; lia.
    + constructor; [|done]. simpl. split.
      * by apply X_between.
      * by apply Y_between.
    + simpl. lia.
  - assert (i = dx /\ j = dy) as [-> ->] by lia.
    exists []. cbn [bresenham_loop]. rewrite X_end, Y_end, !Z.eqb_refl.
    simpl. split; [done|]. split; [done|]. split; [done|]. split; [|lia].
    constructor; [|done]. simpl. rewrite <- X_end at 2. rewrite <- Y_end at 2.
    split; [apply X_between|apply Y_between]; unfold dx, dy; lia.
Qed.


(** When x is the major axis every iteration steps along x, so the run
    from [(i, j)] yields one point for each x still to go. *)
Lemma bresenham_count_x fuel i j :
  (dy <= dx)%Z -> (0 <= i <= dx)%Z -> (0 <= j <= dy)%Z ->
  (dx = 0 \/ - dy < 2 * E i j < 3 * dx - 2 * dy)%Z ->
  (Z.to_nat (dx - i) < fuel)%nat ->
  exists l,
    bresenham_loop fuel dx dy sx sy x1 y1 (X i) (Y j) (E i j) = Some l
    /\ length l = S (Z.to_nat (dx - i)).
Proof.
  intros Hmajor. revert i j.
  induction fuel as [|fuel IH]; intros i j Hi Hj Hinv Hfuel; [lia|].
  assert (0 <= dx /\ 0 <= dy)%Z as [Hdx Hdy] by (unfold dx, dy; lia).
  destruct (Z.eq_dec i dx) as [->|Hne].
  - assert (j = dy) as ->.
    { destruct Hinv as [H0|Hinv]; [lia|]. unfold E in Hinv.
      destruct (Z.eq_dec j dy); [done|]. assert (j < dy)%Z by lia. nia. }
    exists [(X dx, Y dy)]. cbn [bresenham_loop].
    rewrite X_end, Y_end, !Z.eqb_refl. simpl. split; [done|].
    by rewrite Z.sub_diag.
  - destruct Hinv as [H0|Hinv]; [lia|].
    destruct (bresenham_step i j Hi Hj ltac:(lia)) as [Hnext Hstep].
    rewrite Hstep. clear Hstep.
    destruct (Z.gtb_spec (2 * E i j) (- dy)) as [_|Hno]; [|lia].
    set (j' := (if (2 * E i j <? dx)%Z then j + 1 else j)%Z) in *.
    destruct Hnext as (Hix & Hjx & Hlt).
    destruct (IH (i + 1)%Z j') as (l & -> & Hlen); [lia| |  |lia|].
    + unfold j'. destruct (2 * E i j <? dx)%Z; lia.
    + right. unfold j'. destruct (Z.ltb_spec (2 * E i j) dx).
      * replace (E (i + 1) (j + 1)) with (E i j - dy + dx)%Z
          by (unfold E; lia). lia.
      * replace (E (i + 1) j) with (E i j - dy)%Z by (unfold E; lia). lia.
    + eexists. split; [done|]. simpl. rewrite Hlen.
      replace (dx - i)%Z with (Z.succ (dx - (i + 1))) by lia.
      rewrite Z2Nat.inj_succ by lia. done.
Qed.

(** The same with y as the major axis. *)
Lemma bresenham_count_y fuel i j :
  (dx < dy)%Z -> (0 <= i <= dx)%Z -> (0 <= j <= dy)%Z ->
  (2 * dx - 3 * dy < 2 * E i j < dx)%Z ->
  (Z.to_nat (dy - j) < fuel)%nat ->
  exists l,
    bresenham_loop fuel dx dy sx sy x1 y1 (X i) (Y j) (E i j) = Some l
    /\ length l = S (Z.to_nat (dy - j)).
Proof.
  intros Hmajor. revert i j.
  induction fuel as [|fuel IH]; intros i j Hi Hj Hinv Hfuel; [lia|].
  assert (0 <= dx /\ 0 <= dy)%Z as [Hdx Hdy] by (unfold dx, dy; lia).
  destruct (Z.eq_dec j dy) as [->|Hne].
  - assert (i = dx) as ->.
    { unfold E in Hinv.
      destruct (Z.eq_dec i dx); [done|]. assert (i < dx)%Z by lia. nia. }
    exists [(X dx, Y dy)]. cbn [bresenham_loop].
    rewrite X_end, Y_end, !Z.eqb_refl. simpl. split; [done|].
    by rewrite Z.sub_diag.
  - destruct (bresenham_step i j Hi Hj ltac:(lia)) as [Hnext Hstep].
    rewrite Hstep. clear Hstep.
    destruct (Z.ltb_spec (2 * E i j) dx) as [_|Hno]; [|lia].
    set (i' := (if (2 * E i j >? - dy)%Z then i + 1 else i)%Z) in *.
    destruct Hnext as (Hix & Hjx & Hlt).
    destruct (IH i' (j + 1)%Z) as (l & -> & Hlen); [|lia| |lia|].
    + unfold i'. destruct (2 * E i j >? - dy)%Z; lia.
    + unfold i'. destruct (Z.gtb_spec (2 * E i j) (- dy)).
      * replace (E (i + 1) (j + 1)) with (E i j - dy + dx)%Z
          by (unfold E; lia). lia.
      * replace (E i (j + 1)) with (E i j + dx)%Z by (unfold E; lia). lia.
    + eexists. split; [done|]. simpl. rewrite Hlen.
      replace (dy - j)%Z with (Z.succ (dy - (j + 1))) by lia.
      rewrite Z2Nat.inj_succ by lia. done.
Qed.

End BresenhamRun.

Lemma bresenham_line_spec (x0 y0 x1 y1 : Z) (fuel : nat) :
  (Z.to_nat (Z.abs (x1 - x0) + Z.abs (y1 - y0)) < fuel)%nat ->
  exists l,
    bresenham_line fuel x0 y0 x1 y1 = Some ((x0, y0) :: l)
    /\ list.last ((x0, y0) :: l) = Some (x1, y1)
    /\ connected ((x0, y0) :: l)
    /\ Forall (fun p => between x0 x1 (fst p) /\ between y0 y1 (snd p))
         ((x0, y0) :: l).
Proof.
  intros Hfuel.
  destruct (bresenham_run x0 y0 x1 y1 fuel 0 0)
    as (l & Hl & Hlast & Hconn & Hbox & _); [lia|lia|by rewrite !Z.sub_0_r|].
  rewrite !Z.mul_0_l, !Z.add_0_r, Z.sub_0_r in *.
  exists l. done.
Qed.

Lemma bresenham_points_spec (x0 y0 x1 y1 : Z) (fuel : nat) :
  (Z.to_nat (Z.abs (x1 - x0) + Z.abs (y1 - y0)) < fuel)%nat ->
  bresenham_line fuel x0 y0 x1 y1 = Some (bresenham_points x0 y0 x1 y1).
Proof.
  intros Hfuel. unfold bresenham_points.
  destruct (bresenham_line_spec x0 y0 x1 y1
              (S (Z.to_nat (Z.abs (x1 - x0) + Z.abs (y1 - y0)))))
    as (l & Hl & _); [lia|].
  rewrite Hl. simpl.
  apply (bresenham_loop_fuel _ _ _ _ _ _ _ _ _ _ _ _ Hl). lia.
Qed.

(** X1. The generator always ends: whatever the two end points, once the
    loop may run for more than [|x1 - x0| + |y1 - y0|] iterations it
    reaches its [break], and the points it has yielded by then start with
    [(x0, y0)] and end with [(x1, y1)]. *)
Theorem bresenham_line_reaches_end (x0 y0 x1 y1 : Z) (fuel : nat) :
  (Z.to_nat (Z.abs (x1 - x0) + Z.abs (y1 - y0)) < fuel)%nat ->
  bresenham_line fuel x0 y0 x1 y1 = Some (bresenham_points x0 y0 x1 y1)
  /\ head (bresenham_points x0 y0 x1 y1) = Some (x0, y0)
  /\ list.last (bresenham_points x0 y0 x1 y1) = Some (x1, y1).
Proof.
  intros Hfuel.
  pose proof (bresenham_points_spec x0 y0 x1 y1 fuel Hfuel) as Hpts.
  destruct (bresenham_line_spec x0 y0 x1 y1 fuel Hfuel)
    as (l & Hl & Hlast & _).
  rewrite Hl in Hpts. injection Hpts as <-. done.
Qed.

(** X2. The points of a line form a path inside the rectangle spanned by
    its end points: each point differs from the one before it by at most
    1 in x and in y (and is not the same point), and every point has its
    x between [x0] and [x1] and its y between [y0] and [y1]. *)
Theorem bresenham_line_is_a_path (x0 y0 x1 y1 : Z) :
  connected (bresenham_points x0 y0 x1 y1)
  /\ Forall (fun p => between x0 x1 (fst p) /\ between y0 y1 (snd p))
       (bresenham_points x0 y0 x1 y1).
Proof.
  pose proof (bresenham_points_spec x0 y0 x1 y1 _ (Nat.lt_succ_diag_r _))
    as Hpts.
  destruct (bresenham_line_spec x0 y0 x1 y1 _ (Nat.lt_succ_diag_r _))
    as (l & Hl & _ & Hconn & Hbox).
  rewrite Hl in Hpts. injection Hpts as <-. done.
Qed.

(** X3. A line has exactly [max(|x1 - x0|, |y1 - y0|) + 1] points: one
    for each step along its longer side, and a single point when the two
    ends are the same. *)
Theorem bresenham_line_length (x0 y0 x1 y1 : Z) :
  length (bresenham_points x0 y0 x1 y1)
  = S (Z.to_nat (Z.max (Z.abs (x1 - x0)) (Z.abs (y1 - y0)))).
Proof.
  set (dx := Z.abs (x1 - x0)). set (dy := Z.abs (y1 - y0)).
  pose proof (bresenham_points_spec x0 y0 x1 y1 _ (Nat.lt_succ_diag_r _))
    as Hpts.
  fold dx dy in Hpts. unfold bresenham_line in Hpts. fold dx dy in Hpts.
  assert (0 <= dx /\ 0 <= dy)%Z as [Hdx Hdy] by (unfold dx, dy; lia).
  destruct (Z.le_gt_cases dy dx) as [Hmajor|Hmajor].
  - destruct (bresenham_count_x x0 y0 x1 y1 (S (Z.to_nat (dx + dy))) 0 0)
      as (l & Hl & Hlen); fold dx dy; try lia.
    rewrite !Z.mul_0_l, !Z.add_0_r, Z.sub_0_r in *. fold dx dy in Hl.
    rewrite Hl in Hpts. injection Hpts as <-.
    rewrite Hlen. fold dx. do 2 f_equal. lia.
  - destruct (bresenham_count_y x0 y0 x1 y1 (S (Z.to_nat (dx + dy))) 0 0)
      as (l & Hl & Hlen); fold dx dy; try lia.
    rewrite !Z.mul_0_l, !Z.add_0_r, Z.sub_0_r in *. fold dx dy in Hl.
    rewrite Hl in Hpts. injection Hpts as <-.
    rewrite Hlen. fold dy. do 2 f_equal. lia.
Qed.

(** ** The filters, entry by entry *)

Lemma rectangular_has_width {A} (a : list (list A)) :
  rectangular a <-> has_width (snd (shape a)) a.
Proof. done. Qed.

Lemma has_width_shape {A} w (a : list (list A)) :
  has_width w a -> a <> [] -> snd (shape a) = w.
Proof. intros H Hne. by rewrite (shape_has_width w a H Hne). Qed.

Lemma getitem_lt {A} (a : list (list A)) r c x :
  rectangular a -> getitem a r c = Some x ->
  (r < fst (shape a))%nat /\ (c < snd (shape a))%nat.
Proof.
  intros Hrect Hx.
  apply (getitem_is_Some _ a r c) in Hrect. simpl. apply Hrect. eauto.
Qed.

Lemma getitem3_lt {A} (a : ndarray A) r c k x :
  rectangular a -> getitem3 a r c k = Some x ->
  (r < fst (shape a))%nat /\ (c < snd (shape a))%nat.
Proof.
  intros Hrect. unfold getitem3.
  destruct (getitem a r c) as [p|] eqn:Hp; [|done]. intros _.
  by apply (getitem_lt a r c p).
Qed.

Lemma getitem_radial_mask h w rad r c :
  (r < h)%nat -> (c < w)%nat ->
  getitem (radial_mask h w rad) r c
  = Some (if Rle_dec (sqrt (IZR (dist_sq (h / 2) (w / 2) r c))) rad
          then true else false).
Proof.
  intros Hr Hc. unfold getitem, radial_mask.
  rewrite list_lookup_fmap, lookup_seq_lt by done. simpl.
  rewrite list_lookup_fmap, lookup_seq_lt by done. done.
Qed.

Lemma radial_mask_shape h w rad :
  has_width w (radial_mask h w rad) /\ length (radial_mask h w rad) = h.
Proof.
  unfold radial_mask. split.
  - unfold has_width. rewrite Forall_fmap. apply Forall_forall.
    intros y _. simpl. by rewrite length_fmap, length_seq.
  - by rewrite length_fmap, length_seq.
Qed.

Lemma zero_where_shape w m c (a : ndarray complex) :
  has_width w a -> has_width w m -> length m = length a ->
  has_width w (zero_where m c a) /\ length (zero_where m c a) = length a.
Proof.
  intros Ha Hm Hlen. unfold zero_where. split.
  - unfold has_width. rewrite Forall_forall. intros row Hin.
    apply list_elem_of_In, list_elem_of_lookup in Hin as [r Hr].
    rewrite lookup_zip_with in Hr.
    destruct (a !! r) as [ra|] eqn:Hra; simpl in Hr; [|done].
    destruct (m !! r) as [mr|] eqn:Hmr; simpl in Hr; [|done].
    injection Hr as <-. rewrite length_zip_with.
    rewrite (has_width_lookup _ _ _ _ Ha Hra).
    rewrite (has_width_lookup _ _ _ _ Hm Hmr). lia.
  - rewrite length_zip_with. lia.
Qed.

Lemma same_shape {A B} w (a : list (list A)) (b : list (list B)) :
  has_width w a -> has_width w b -> length a = length b ->
  shape a = shape b.
Proof.
  intros Ha Hb Hlen. destruct a as [|ra a], b as [|rb b]; try done.
  rewrite (shape_has_width w (ra :: a)), (shape_has_width w (rb :: b))
    by done.
  by rewrite Hlen.
Qed.

(** The radial filter keeps the shape of the spectrum. *)
Lemma radial_filtered_shape rho (f : ndarray complex) :
  rectangular f ->
  length (radial_filtered rho f) = length f
  /\ shape (radial_filtered rho f) = shape f
  /\ rectangular (radial_filtered rho f).
Proof.
  intros Hrect. apply rectangular_has_width in Hrect.
  set (w := snd (shape f)) in *.
  unfold radial_filtered. fold w. set (h := fst (shape f)).
  set (m := invert (radial_mask h w (rho * max_radius h w))).
  assert (has_width w m /\ length m = length f) as [Hmw Hml].
  { destruct (radial_mask_shape h w (rho * max_radius h w)) as [H1 H2].
    unfold m, invert. split.
    - by apply has_width_fmap.
    - by rewrite length_fmap. }
  cbn [foldl all_chans].
  destruct (zero_where_shape w m C0 f Hrect Hmw Hml) as [H0w H0l].
  destruct (zero_where_shape w m C1 _ H0w Hmw ltac:(lia)) as [H1w H1l].
  destruct (zero_where_shape w m C2 _ H1w Hmw ltac:(lia)) as [H2w H2l].
  assert (shape (zero_where m C2 (zero_where m C1 (zero_where m C0 f)))
          = shape f) as Hs by (apply (same_shape w); [done|done|lia]).
  split; [lia|]. split; [done|].
  apply rectangular_has_width. by rewrite Hs.
Qed.

(** What the radial filter leaves at a position: the entry, or zero
    when the position is farther from the centre than the radius. *)
Lemma radial_filtered_get rho (f : ndarray complex) r c k :
  rectangular f ->
  getitem3 (radial_filtered rho f) r c k
  = (fun z =>
       if Rle_dec (sqrt (IZR (dist_sq (fst (shape f) / 2)
                                (snd (shape f) / 2) r c)))
                  (rho * max_radius (fst (shape f)) (snd (shape f)))
       then z else czero) <$> getitem3 f r c k.
Proof.
  intros Hrect. unfold radial_filtered. cbn [foldl all_chans].
  set (h := fst (shape f)). set (w := snd (shape f)).
  rewrite !getitem3_zero_where.
  destruct (getitem3 f r c k) as [z|] eqn:Hz; [|done].
  destruct (getitem3_lt f r c k z Hrect Hz) as [Hr Hc].
  unfold invert. rewrite getitem_fmap, getitem_radial_mask by done.
  simpl. f_equal.
  destruct (Rle_dec _ _); simpl; [done|].
  destruct k; simpl; done.
Qed.

(** The Gaussian filter scales each entry by its weight. *)
Lemma gaussian_filtered_get sigma (f : ndarray complex) r c k :
  getitem3 (gaussian_filtered sigma f) r c k
  = cscale (exp (- IZR (dist_sq (fst (shape f) / 2) (snd (shape f) / 2)
                          r c)
                 / (2 * (sigma * sigma))))
      <$> getitem3 f r c k.
Proof.
  unfold gaussian_filtered, getitem3, getitem.
  rewrite list_lookup_imap.
  destruct (f !! r) as [row|]; simpl; [|done].
  rewrite list_lookup_imap.
  destruct (row !! c) as [[z0 z1 z2]|]; simpl; [|done].
  by destruct k.
Qed.

Lemma gaussian_filtered_shape sigma (f : ndarray complex) :
  length (gaussian_filtered sigma f) = length f
  /\ shape (gaussian_filtered sigma f) = shape f
  /\ (rectangular f -> rectangular (gaussian_filtered sigma f)).
Proof.
  assert (shape (gaussian_filtered sigma f) = shape f) as Hs.
  { unfold gaussian_filtered, shape. rewrite length_imap.
    destruct f as [|row f]; [done|]. simpl. by rewrite length_imap. }
  split; [|split; [done|]].
  - unfold gaussian_filtered. by rewrite length_imap.
  - unfold rectangular. rewrite Hs. unfold gaussian_filtered.
    rewrite !Forall_forall. intros Hrect row Hin.
    apply list_elem_of_In, list_elem_of_lookup in Hin as [r Hr].
    rewrite list_lookup_imap in Hr.
    destruct (f !! r) as [row'|] eqn:Hrow; simpl in Hr; [|done].
    injection Hr as <-. rewrite length_imap. apply Hrect.
    apply list_elem_of_In, list_elem_of_lookup. eauto.
Qed.

Lemma max_radius_nonneg h w : (0 <= max_radius h w)%R.
Proof. unfold max_radius. apply sqrt_pos. Qed.

Lemma cabs_czero : cabs czero = 0%R.
Proof. unfold cabs, czero. simpl. rewrite Rmult_0_l, Rplus_0_l. apply sqrt_0. Qed.

Lemma cabs_cscale g z : (0 <= g)%R -> cabs (cscale g z) = (g * cabs z)%R.
Proof.
  intros Hg. unfold cabs, cscale. simpl.
  replace (g * Re z * (g * Re z) + g * Im z * (g * Im z))%R
    with (g * g * (Re z * Re z + Im z * Im z))%R by ring.
  rewrite sqrt_mult_alt by nra.
  by rewrite sqrt_square.
Qed.

Lemma magnitude_filtered_shape w thr (mags : ndarray R)
    (f : ndarray complex) :
  has_width w f -> has_width w mags -> length mags = length f ->
  has_width w (magnitude_filtered thr mags f)
  /\ length (magnitude_filtered thr mags f) = length f.
Proof.
  intros Hf Hm Hlen. unfold magnitude_filtered. cbn [foldl all_chans].
  set (below := fmap (fmap (px_map _)) mags).
  assert (forall k, has_width w (slice_chan k below)
                    /\ length (slice_chan k below) = length f) as Hb.
  { intros k. split.
    - apply has_width_slice_chan. unfold below. by apply has_width_fmap.
    - rewrite length_slice_chan. unfold below. by rewrite length_fmap. }
  destruct (Hb C0) as [Hw0 Hl0]. destruct (Hb C1) as [Hw1 Hl1].
  destruct (Hb C2) as [Hw2 Hl2].
  destruct (zero_where_shape w _ C0 f Hf Hw0 Hl0) as [H0w H0l].
  destruct (zero_where_shape w _ C1 _ H0w Hw1 ltac:(lia)) as [H1w H1l].
  destruct (zero_where_shape w _ C2 _ H1w Hw2 ltac:(lia)) as [H2w H2l].
  split; [done|lia].
Qed.

Lemma cscale_0 z : cscale 0 z = czero.
Proof. unfold cscale, czero. f_equal; ring. Qed.

Lemma cscale_1 z : cscale 1 z = z.
Proof. destruct z. unfold cscale. simpl. f_equal; ring. Qed.

Lemma cscale_czero g : cscale g czero = czero.
Proof. unfold cscale, czero. simpl. f_equal; ring. Qed.

(** the smallest entry of an array is below every entry *)
Lemma foldl_Rmin_le x l : (foldl Rmin x l <= x)%R
  /\ forall y, y ∈ l -> (foldl Rmin x l <= y)%R.
Proof.
  revert x. induction l as [|a l IH]; intros x; simpl.
  - split; [lra|]. intros y Hy. by apply elem_of_nil in Hy.
  - destruct (IH (Rmin x a)) as [H1 H2].
    pose proof (Rmin_l x a). pose proof (Rmin_r x a).
    split; [lra|]. intros y Hy. apply elem_of_cons in Hy as [->|Hy].
    + lra.
    + by apply H2.
Qed.

Lemma np_min_le (a : ndarray R) m x :
  np_min a = Some m -> x ∈ entries a -> (m <= x)%R.
Proof.
  unfold np_min. destruct (entries a) as [|y l]; [done|].
  intros [= <-] Hx. destruct (foldl_Rmin_le y l) as [H1 H2].
  apply elem_of_cons in Hx as [->|Hx]; [done|by apply H2].
Qed.

Lemma elem_of_entries {A} (a : ndarray A) r c k x :
  getitem3 a r c k = Some x -> x ∈ entries a.
Proof.
  unfold getitem3, getitem, entries.
  destruct (a !! r) as [row|] eqn:Hrow; [|done].
  destruct (row !! c) as [p|] eqn:Hp; [|done]. simpl. intros [= <-].
  apply list_elem_of_bind. exists p. split.
  - destruct k; simpl; rewrite !elem_of_cons; auto.
  - apply list_elem_of_join. exists row. split.
    + by apply list_elem_of_lookup_2 in Hp.
    + by apply list_elem_of_lookup_2 in Hrow.
Qed.

Lemma log_mag_range_fst mags rng :
  log_mag_range mags = Some rng -> np_min mags = Some (fst rng).
Proof.
  unfold log_mag_range.
  destruct (np_min mags) as [lo|]; [|done].
  destruct (np_max mags) as [hi|]; [|done].
  destruct (Rlt_dec _ _); by intros [= <-].
Qed.

Section FilterLaws.

Variable cvt_hsv2bgr : pixel Z -> pixel Z.

Lemma apply_radial_filter_frequency st f rho :
  frequency_image st = Some f ->
  frequency_image (apply_radial_filter cvt_hsv2bgr st rho)
  = Some (radial_filtered rho f).
Proof.
  intros Hf. unfold apply_radial_filter. rewrite Hf.
  by rewrite frequency_image_post_filter.
Qed.

Lemma apply_gaussian_filter_frequency st f s :
  frequency_image st = Some f ->
  frequency_image (apply_gaussian_filter cvt_hsv2bgr st s)
  = Some (let sigma_pixels :=
            (s * max_radius (fst (shape f)) (snd (shape f)))%R in
          if Rlt_dec sigma_pixels 1e-6 then f
          else gaussian_filtered sigma_pixels f).
Proof.
  intros Hf. unfold apply_gaussian_filter. rewrite Hf. simpl.
  destruct (Rlt_dec _ _); [done|].
  by rewrite frequency_image_post_filter.
Qed.

(** X4. Radial low-pass filters compose to the tighter of the two:
    filtering with fraction [a] and then with fraction [b] leaves the
    spectrum that one filter with fraction [min(a, b)] leaves.  In
    particular a second pass with the same fraction changes nothing. *)
Theorem radial_filters_compose st f a b :
  frequency_image st = Some f ->
  rectangular f ->
  frequency_image
    (apply_radial_filter cvt_hsv2bgr
       (apply_radial_filter cvt_hsv2bgr st a) b)
  = frequency_image (apply_radial_filter cvt_hsv2bgr st (Rmin a b)).
Proof.
  intros Hf Hrect.
  rewrite (apply_radial_filter_frequency _ (radial_filtered a f))
    by by apply apply_radial_filter_frequency.
  rewrite (apply_radial_filter_frequency _ f) by done.
  f_equal.
  destruct (radial_filtered_shape a f Hrect) as (Hla & Hsa & Hra).
  destruct (radial_filtered_shape b _ Hra) as (Hlb & _ & _).
  destruct (radial_filtered_shape (Rmin a b) f Hrect) as (Hlm & _ & _).
  apply ndarray_ext; [lia|]. intros r c k.
  rewrite !radial_filtered_get by done. rewrite Hsa.
  destruct (getitem3 f r c k) as [z|]; simpl; [|done]. f_equal.
  pose proof (max_radius_nonneg (fst (shape f)) (snd (shape f))) as Hmax.
  set (R := max_radius _ _) in *. set (d := sqrt _).
  assert (Rmin a b * R = Rmin (a * R) (b * R))%R as ->.
  { unfold Rmin. destruct (Rle_dec a b), (Rle_dec (a * R) (b * R));
      try done; nra. }
  unfold Rmin.
  destruct (Rle_dec d (b * R)), (Rle_dec d (a * R)),
    (Rle_dec (a * R) (b * R)); try done; try lra;
    destruct (Rle_dec d _); try done; lra.
Qed.

(** X5. The radial and the Gaussian low-pass filter commute: either
    order leaves the same spectrum. *)
Theorem radial_and_gaussian_filters_commute st f a s :
  frequency_image st = Some f ->
  rectangular f ->
  frequency_image
    (apply_gaussian_filter cvt_hsv2bgr
       (apply_radial_filter cvt_hsv2bgr st a) s)
  = frequency_image
      (apply_radial_filter cvt_hsv2bgr
         (apply_gaussian_filter cvt_hsv2bgr st s) a).
Proof.
  intros Hf Hrect.
  destruct (radial_filtered_shape a f Hrect) as (Hla & Hsa & Hra).
  rewrite (apply_gaussian_filter_frequency _ (radial_filtered a f))
    by by apply apply_radial_filter_frequency.
  erewrite apply_radial_filter_frequency
    by by apply apply_gaussian_filter_frequency.
  f_equal. cbv zeta. rewrite Hsa.
  destruct (Rlt_dec _ _) as [Hsmall|Hbig]; [done|].
  set (sigma := (s * max_radius _ _)%R).
  destruct (gaussian_filtered_shape sigma f) as (Hlg & Hsg & Hrg).
  destruct (gaussian_filtered_shape sigma (radial_filtered a f))
    as (Hlg' & _ & _).
  destruct (radial_filtered_shape a _ (Hrg Hrect)) as (Hla' & _ & _).
  apply ndarray_ext; [lia|]. intros r c k.
  rewrite gaussian_filtered_get, !radial_filtered_get by auto.
  rewrite gaussian_filtered_get, Hsa, Hsg.
  destruct (getitem3 f r c k) as [z|]; simpl; [|done]. f_equal.
  destruct (Rle_dec _ _); [done|]. apply cscale_czero.
Qed.

(** X6. No filter amplifies a bin or turns its phase: after any of the
    three filters the spectrum has the shape it had, and every entry is
    the old entry times a real factor between 0 and 1. *)
Theorem filters_only_attenuate (k : filter) st f :
  frequency_image st = Some f ->
  rectangular f ->
  (forall mags, magnitude_spectrum st = Some mags ->
                rectangular mags /\ shape mags = shape f) ->
  exists f',
    frequency_image (apply_filter cvt_hsv2bgr k st) = Some f'
    /\ shape f' = shape f
    /\ forall r c ch z,
         getitem3 f r c ch = Some z ->
         exists g, (0 <= g <= 1)%R
                   /\ getitem3 f' r c ch = Some (cscale g z).
Proof.
  intros Hf Hrect Hmags. destruct k as [rho|thr|s]; simpl.
  - exists (radial_filtered rho f).
    split; [by apply apply_radial_filter_frequency|].
    destruct (radial_filtered_shape rho f Hrect) as (_ & Hs & _).
    split; [done|]. intros r c ch z Hz.
    rewrite radial_filtered_get, Hz by done. simpl.
    destruct (Rle_dec _ _) as [Hin|Hout].
    + exists 1%R. rewrite cscale_1. split; [lra|done].
    + exists 0%R. rewrite cscale_0. split; [lra|done].
  - unfold apply_magnitude_filter. rewrite Hf.
    destruct (magnitude_spectrum st) as [mags|] eqn:Hm.
    2:{ exists f. split; [done|]. split; [done|]. intros r c ch z Hz.
        exists 1%R. rewrite cscale_1. split; [lra|done]. }
    destruct (Rlt_dec _ _) as [Hzero|Hwide].
    { exists f. split; [done|]. split; [done|]. intros r c ch z Hz.
      exists 1%R. rewrite cscale_1. split; [lra|done]. }
    rewrite frequency_image_post_filter. cbn [with_frequency frequency_image].
    eexists. split; [done|].
    destruct (Hmags mags eq_refl) as [Hmrect Hmshape].
    assert (has_width (snd (shape f)) mags) as Hmw
      by (rewrite <- Hmshape; exact Hmrect).
    clear Hmrect. rename Hmw into Hmrect.
    assert (has_width (snd (shape f)) f) as Hfw by exact Hrect.
    clear Hrect. rename Hfw into Hrect.
    assert (length mags = length f) as Hlen
      by (by injection Hmshape as ? ?).
    destruct (magnitude_filtered_shape _
                (fst (global_log_mag_range st)
                 + thr * (snd (global_log_mag_range st)
                          - fst (global_log_mag_range st)))%R
                mags f Hrect Hmrect Hlen) as [Hw Hl].
    split; [by apply (same_shape (snd (shape f)))|].
    intros r c ch z Hz.
    assert (is_Some (getitem3 mags r c ch)) as [x Hx].
    { unfold getitem3 in *.
      destruct (getitem f r c) as [p|] eqn:Hp; [|done].
      assert (is_Some (getitem mags r c)) as [q ->]; [|by eexists].
      apply (getitem_is_Some _ _ _ _ Hmrect). rewrite Hlen.
      apply (getitem_is_Some _ _ _ _ Hrect). eauto. }
    rewrite (magnitude_filtered_get _ _ _ _ _ _ z x) by done.
    destruct (Rlt_dec _ _) as [Hbelow|Habove].
    + exists 0%R. rewrite cscale_0. split; [lra|done].
    + exists 1%R. rewrite cscale_1. split; [lra|done].
  - eexists. split; [by apply apply_gaussian_filter_frequency|].
    cbv zeta. destruct (Rlt_dec _ _) as [Hsmall|Hbig].
    + split; [done|]. intros r c ch z Hz.
      exists 1%R. rewrite cscale_1. split; [lra|done].
    + set (sigma := (s * max_radius _ _)%R) in *.
      destruct (gaussian_filtered_shape sigma f) as (_ & Hs & _).
      split; [done|]. intros r c ch z Hz.
      rewrite gaussian_filtered_get, Hz. cbn [fmap option_fmap option_map].
      eexists. split; [|done].
      split; [left; apply exp_pos|].
      rewrite <- exp_0. 
      assert (- IZR (dist_sq (fst (shape f) / 2) (snd (shape f) / 2) r c)
              / (2 * (sigma * sigma)) <= 0)%R as Hle.
      { pose proof (dist_sq_nonneg (fst (shape f) / 2)
                      (snd (shape f) / 2) r c) as Hd.
        apply IZR_le in Hd.
        assert (0 < 2 * (sigma * sigma))%R by nra.
        unfold Rdiv. 
        assert (0 < / (2 * (sigma * sigma)))%R
          by by apply Rinv_0_lt_compat.
        nra. }
      destruct Hle as [Hlt|Heq].
      * left. by apply exp_increasing.
      * right. by rewrite Heq.
Qed.

End FilterLaws.

Lemma dist_sq_centre cr cc : dist_sq cr cc cr cc = 0%Z.
Proof. unfold dist_sq. rewrite !Z.sub_diag. done. Qed.

Lemma max_radius_tiny h w : (h <= 1)%nat -> (w <= 1)%nat -> max_radius h w = 0%R.
Proof.
  intros Hh Hw. unfold max_radius.
  assert (h / 2 = 0 /\ w / 2 = 0)%nat as [-> ->].
  { split; apply Nat.div_small; lia. }
  simpl. apply sqrt_0.
Qed.

Section FilterEdges.

Variable cvt_hsv2bgr : pixel Z -> pixel Z.

(** X7. The low-pass filters keep the centre bin: after the radial
    filter with a fraction that is not negative, and after the Gaussian
    filter with any fraction, the entry at [(h // 2, w // 2)] of every
    channel is the one the spectrum had. *)
Theorem low_pass_filters_keep_centre st f rho s ch :
  frequency_image st = Some f ->
  rectangular f ->
  (0 <= rho)%R ->
  let centre (st' : AppState) :=
    f' ← frequency_image st';
    getitem3 f' (fst (shape f) / 2) (snd (shape f) / 2) ch in
  centre (apply_radial_filter cvt_hsv2bgr st rho) = centre st
  /\ centre (apply_gaussian_filter cvt_hsv2bgr st s) = centre st.
Proof.
  intros Hf Hrect Hrho centre. unfold centre. split.
  - rewrite (apply_radial_filter_frequency _ _ f) by done.
    rewrite Hf. cbn [mbind option_bind].
    rewrite radial_filtered_get by done.
    destruct (getitem3 f _ _ ch) as [z|]; [|done].
    cbn [fmap option_fmap option_map]. f_equal.
    rewrite dist_sq_centre, sqrt_0.
    pose proof (max_radius_nonneg (fst (shape f)) (snd (shape f))).
    destruct (Rle_dec _ _) as [_|Hn]; [done|]. exfalso. apply Hn. nra.
  - rewrite (apply_gaussian_filter_frequency _ _ f) by done.
    rewrite Hf. cbn [mbind option_bind]. cbv zeta.
    destruct (Rlt_dec _ _); [done|].
    rewrite gaussian_filtered_get.
    destruct (getitem3 f _ _ ch) as [z|]; [|done].
    cbn [fmap option_fmap option_map]. f_equal.
    rewrite dist_sq_centre.
    replace (- 0 / _)%R with 0%R by (unfold Rdiv; ring).
    rewrite exp_0. apply cscale_1.
Qed.

(** X8. A spectrum of at most one row and one column is left alone by
    both low-pass filters, whatever the fraction: its [max_radius] is 0,
    so the Gaussian filter stops at its sigma test without touching the
    state and the radial filter keeps the only entry. *)
Theorem low_pass_filters_on_single_bin st f rho s :
  frequency_image st = Some f ->
  rectangular f ->
  (fst (shape f) <= 1)%nat -> (snd (shape f) <= 1)%nat ->
  apply_gaussian_filter cvt_hsv2bgr st s = st
  /\ frequency_image (apply_radial_filter cvt_hsv2bgr st rho) = Some f.
Proof.
  intros Hf Hrect Hh Hw.
  pose proof (max_radius_tiny _ _ Hh Hw) as Hmax. split.
  - unfold apply_gaussian_filter. rewrite Hf. cbv zeta. rewrite Hmax.
    destruct (Rlt_dec _ _) as [_|Hn]; [done|]. exfalso. apply Hn. lra.
  - rewrite (apply_radial_filter_frequency _ _ f) by done. f_equal.
    destruct (radial_filtered_shape rho f Hrect) as (Hl & _ & _).
    apply ndarray_ext; [done|]. intros r c k.
    rewrite radial_filtered_get by done.
    destruct (getitem3 f r c k) as [z|] eqn:Hz; [|done].
    cbn [fmap option_fmap option_map]. f_equal.
    destruct (getitem3_lt f r c k z Hrect Hz) as [Hr Hc].
    assert (r = 0 /\ c = 0)%nat as [-> ->] by lia.
    assert (fst (shape f) / 2 = 0 /\ snd (shape f) / 2 = 0)%nat as [-> ->].
    { split; apply Nat.div_small; lia. }
    rewrite dist_sq_centre, sqrt_0, Hmax.
    destruct (Rle_dec _ _) as [_|Hn]; [done|]. exfalso. apply Hn. lra.
Qed.

(** X9. With caches that belong to the spectrum (as after a load, a
    filter or a phase commit) the magnitude filter with a fraction of 0
    or less keeps every bin: no log-magnitude is below the global
    minimum. *)
Theorem magnitude_filter_at_zero_keeps_all st f fraction :
  magnitude_caches_of f st ->
  (fraction <= 0)%R ->
  frequency_image (apply_magnitude_filter cvt_hsv2bgr st fraction) = Some f.
Proof.
  intros (Hf & Hm & Hr & _) Hfrac. unfold apply_magnitude_filter.
  rewrite Hf, Hm. cbv zeta.
  destruct (Rlt_dec _ _) as [Hzero|Hwide]; [done|].
  rewrite frequency_image_post_filter. cbn [with_frequency frequency_image].
  f_equal. set (thr := (_ + _ * _)%R).
  assert (thr <= fst (global_log_mag_range st))%R as Hthr
    by (unfold thr; nra).
  apply log_mag_range_fst in Hr.
  unfold magnitude_filtered. cbn [foldl all_chans].
  set (below := fmap (fmap (px_map _)) (log_magnitude f)).
  assert (forall k a, a = f -> zero_where (slice_chan k below) k a = f)
    as Hstep.
  { intros k a ->. apply zero_where_nowhere.
    - rewrite length_slice_chan. unfold below, log_magnitude.
      by rewrite !length_fmap.
    - intros r row mrow Hrow Hmrow. unfold slice_chan, below, log_magnitude
        in Hmrow.
      rewrite !list_lookup_fmap, Hrow in Hmrow. simpl in Hmrow.
      injection Hmrow as <-. split; [by rewrite !length_fmap|].
      intros x b. rewrite !list_lookup_fmap.
      destruct (row !! x) as [p|] eqn:Hp; simpl; [|done].
      intros [= <-].
      assert (getitem3 (log_magnitude f) r x k
              = Some (log1p (cabs (px_get k p) + epsilon))) as Hget.
      { rewrite getitem3_log_magnitude. unfold getitem3, getitem.
        by rewrite Hrow, Hp. }
      apply elem_of_entries in Hget.
      pose proof (np_min_le _ _ _ Hr Hget) as Hle.
      destruct k; simpl in *; destruct (Rlt_dec _ _); try done; lra. }
  rewrite !Hstep; auto.
Qed.

End FilterEdges.

(** ** The visualizations *)

Lemma Int_part_le x y : (x <= y)%R -> (Int_part x <= Int_part y)%Z.
Proof.
  intros Hxy. destruct (base_Int_part x) as [Hx1 Hx2].
  destruct (base_Int_part y) as [Hy1 Hy2].
  apply Z.lt_succ_r, lt_IZR. rewrite succ_IZR. lra.
Qed.

Lemma Int_part_bounds x (n : Z) :
  (0 <= x <= IZR n)%R -> (0 <= Int_part x <= n)%Z.
Proof.
  intros [Hlo Hhi]. destruct (base_Int_part x) as [H1 H2]. split.
  - apply Z.lt_succ_r, lt_IZR. rewrite succ_IZR. lra.
  - apply le_IZR. lra.
Qed.

(** the cast of a float of [0, 255] does not wrap *)
Lemma astype_uint8_small x :
  (0 <= x <= 255)%R -> astype_uint8 x = Int_part x.
Proof.
  intros Hx. unfold astype_uint8, trunc.
  destruct (Rle_dec 0 x) as [_|Hn]; [|lra].
  apply Z.mod_small. pose proof (Int_part_bounds x 255 Hx). lia.
Qed.

(** one sample of [normalize_for_display] when the range is not zero *)
Lemma normalized_sample_bounds lo hi x :
  (1e-9 <= hi - lo)%R ->
  (0 <= (clip x lo hi - lo) / (hi - lo) * 255 <= 255)%R.
Proof.
  intros Hrange.
  assert (lo <= clip x lo hi <= hi)%R as Hclip.
  { unfold clip, Rmin, Rmax. repeat destruct (Rle_dec _ _); lra. }
  assert (0 < hi - lo)%R as Hpos by lra.
  assert (0 <= (clip x lo hi - lo) / (hi - lo) <= 1)%R as Hn.
  { pose proof (Rinv_0_lt_compat _ Hpos) as Hinv.
    pose proof (Rinv_r (hi - lo) ltac:(lra)) as Hone.
    unfold Rdiv. split; nra. }
  lra.
Qed.

Lemma clip_le lo hi x y : (x <= y)%R -> (clip x lo hi <= clip y lo hi)%R.
Proof.
  intros Hxy. unfold clip, Rmin, Rmax. repeat destruct (Rle_dec _ _); lra.
Qed.

(** X10. [normalize_for_display] maps into 0..255 and keeps the order of
    the samples: a sample that is not above another one is not shown
    brighter.  When the range is at least 1e-9 every sample at or below
    [min_val] is shown as 0 and every sample at or above [max_val] as
    255. *)
Theorem normalize_for_display_is_monotone img lo hi r c r' c' x y :
  getitem img r c = Some x ->
  getitem img r' c' = Some y ->
  (x <= y)%R ->
  exists u v,
    getitem (normalize_for_display img lo hi) r c = Some u
    /\ getitem (normalize_for_display img lo hi) r' c' = Some v
    /\ (0 <= u <= v)%Z /\ (v <= 255)%Z
    /\ ((1e-9 <= hi - lo)%R -> (x <= lo)%R -> u = 0%Z)
    /\ ((1e-9 <= hi - lo)%R -> (hi <= y)%R -> v = 255%Z).
Proof.
  intros Hx Hy Hxy. unfold normalize_for_display. cbv zeta.
  destruct (Rlt_dec (hi - lo) 1e-9) as [Hzero|Hwide].
  - exists 0%Z, 0%Z. rewrite !getitem_fmap, Hx, Hy. simpl.
    repeat split; try done; try lia; intros; lra.
  - assert (1e-9 <= hi - lo)%R as Hrange by lra.
    rewrite !getitem_fmap, Hx, Hy. cbn [fmap option_fmap option_map].
    eexists _, _. split; [done|]. split; [done|].
    pose proof (normalized_sample_bounds lo hi x Hrange) as Hbx.
    pose proof (normalized_sample_bounds lo hi y Hrange) as Hby.
    rewrite !astype_uint8_small by done.
    pose proof (Int_part_bounds _ 255 Hbx).
    pose proof (Int_part_bounds _ 255 Hby).
    assert ((clip x lo hi - lo) / (hi - lo) * 255
            <= (clip y lo hi - lo) / (hi - lo) * 255)%R as Hmono.
    { pose proof (clip_le lo hi x y Hxy).
      apply Rmult_le_compat_r; [lra|].
      apply Rmult_le_compat_r; [|lra].
      left. apply Rinv_0_lt_compat. lra. }
    apply Int_part_le in Hmono.
    split; [lia|]. split; [lia|]. split.
    + intros _ Hlow.
      assert (clip x lo hi = lo) as ->.
      { unfold clip, Rmin, Rmax. repeat destruct (Rle_dec _ _); lra. }
      replace ((lo - lo) / (hi - lo) * 255)%R with 0%R
        by (unfold Rdiv; ring).
      apply Int_part_0.
    + intros _ Hhigh.
      assert (clip y lo hi = hi) as ->.
      { unfold clip, Rmin, Rmax. repeat destruct (Rle_dec _ _); lra. }
      replace ((hi - lo) / (hi - lo) * 255)%R with (IZR 255)
        by (field; lra).
      apply Int_part_IZR.
Qed.

Lemma atan_nonpos x : (x <= 0)%R -> (atan x <= 0)%R.
Proof.
  intros [Hlt| ->]; [|rewrite atan_0; lra].
  left. rewrite <- atan_0. by apply atan_increasing.
Qed.

Lemma atan_pos x : (0 < x)%R -> (0 < atan x)%R.
Proof. intros Hx. rewrite <- atan_0. by apply atan_increasing. Qed.

(** [np.angle] lies in (-pi, pi] *)
Lemma angle_range z : (- PI < angle z <= PI)%R.
Proof.
  unfold angle, arctan2. pose proof PI_RGT_0 as Hpi.
  set (y := Im z). set (x := Re z).
  pose proof (atan_bound (y / x)) as [Hlo Hhi].
  destruct (Rlt_dec 0 x) as [Hx|Hx]; [lra|].
  destruct (Rlt_dec x 0) as [Hx'|Hx'].
  - assert (/ x < 0)%R as Hinv by by apply Rinv_lt_0_compat.
    destruct (Rle_dec 0 y) as [Hy|Hy].
    + assert (y / x <= 0)%R as Hq by (unfold Rdiv; nra).
      pose proof (atan_nonpos _ Hq). lra.
    + assert (0 < y / x)%R as Hq by (unfold Rdiv; nra).
      pose proof (atan_pos _ Hq). lra.
  - destruct (Rlt_dec 0 y); [lra|]. destruct (Rlt_dec y 0); lra.
Qed.

(** the hue of a phase: an OpenCV hue, 0..179 *)
Lemma hue_range phase :
  (- PI < phase <= PI)%R ->
  (0 <= astype_uint8 ((phase + PI) / (2 * PI) * 179) <= 179)%Z.
Proof.
  intros Hphase. pose proof PI_RGT_0 as Hpi.
  assert (0 <= (phase + PI) / (2 * PI) * 179 <= IZR 179)%R as Hb.
  { assert (0 < 2 * PI)%R as Hpos by lra.
    pose proof (Rinv_0_lt_compat _ Hpos) as Hinv.
    pose proof (Rinv_r (2 * PI) ltac:(lra)) as Hone.
    unfold Rdiv. split; nra. }
  rewrite astype_uint8_small by lra.
  by apply Int_part_bounds.
Qed.

Lemma normalize_for_display_range img lo hi r c v :
  getitem (normalize_for_display img lo hi) r c = Some v ->
  (0 <= v <= 255)%Z.
Proof.
  unfold normalize_for_display. cbv zeta.
  destruct (Rlt_dec (hi - lo) 1e-9) as [Hzero|Hwide];
    rewrite getitem_fmap;
    destruct (getitem img r c) as [x|]; simpl; try done; intros [= <-].
  - lia.
  - pose proof (normalized_sample_bounds lo hi x ltac:(lra)) as Hb.
    rewrite astype_uint8_small by done.
    by apply Int_part_bounds.
Qed.

Lemma phase_visualization_hsv_entry f mag rng c_bgr r c p :
  getitem (phase_visualization (fun hsv => hsv) f mag rng c_bgr) r c
  = Some p ->
  (0 <= ch0 p <= 179)%Z /\ ch1 p = 255%Z /\ (1 <= ch2 p <= 255)%Z.
Proof.
  unfold phase_visualization. cbv zeta. rewrite getitem_zip_with.
  destruct (getitem (slice_chan c_bgr f) r c) as [z|]; [|done].
  destruct (getitem (normalize_for_display _ _ _) r c) as [v|] eqn:Hv;
    [|done].
  intros [= <-]. cbn [ch0 ch1 ch2].
  apply normalize_for_display_range in Hv.
  split; [apply hue_range, angle_range|]. split; [done|]. lia.
Qed.

(** X11. The HSV pixels of a phase visualization are valid 8-bit OpenCV
    pixels: with the conversion to BGR left out, every pixel of
    [phase_visualization] has a hue in 0..179, saturation 255 and a value
    in 1..255, never 0. *)
Theorem phase_visualization_hsv_range f mag rng c_bgr :
  Forall (Forall (fun p =>
            (0 <= ch0 p <= 179)%Z /\ ch1 p = 255%Z
            /\ (1 <= ch2 p <= 255)%Z))
    (phase_visualization (fun hsv => hsv) f mag rng c_bgr).
Proof.
  apply Forall_forall. intros row Hrow.
  apply list_elem_of_In, list_elem_of_lookup in Hrow as [r Hr].
  apply Forall_forall. intros p Hp.
  apply list_elem_of_In, list_elem_of_lookup in Hp as [c Hc].
  apply (phase_visualization_hsv_entry f mag rng c_bgr r c).
  unfold getitem. by rewrite Hr.
Qed.

(** ** Painting on an array *)

Lemma getitem_setitem {A} (a : list (list A)) r c p r' c' :
  is_Some (getitem a r c) ->
  getitem (setitem a r c p) r' c'
  = if decide (r' = r /\ c' = c) then Some p else getitem a r' c'.
Proof.
  unfold setitem. intros [q Hq]. unfold getitem in Hq.
  destruct (a !! r) as [row|] eqn:Hr; [|done].
  apply getitem_insert; eauto.
Qed.

Lemma setitem_shape {A} (a : list (list A)) r c p :
  length (setitem a r c p) = length a
  /\ shape (setitem a r c p) = shape a
  /\ forall w, has_width w a -> has_width w (setitem a r c p).
Proof.
  unfold setitem. destruct (a !! r) as [row|] eqn:Hr; [|done].
  split; [by rewrite length_insert|]. split.
  - unfold shape. rewrite length_insert. f_equal.
    destruct a as [|row0 a]; [done|]. destruct r; simpl in *; [|done].
    injection Hr as ->. by rewrite length_insert.
  - intros w Hw. unfold has_width in *. rewrite Forall_forall in *.
    intros row' Hin.
    apply list_elem_of_In, list_elem_of_lookup in Hin as [i Hi].
    destruct (decide (i = r)) as [->|Hne].
    + rewrite list_lookup_insert_eq in Hi by (eapply lookup_lt_Some; eauto).
      injection Hi as <-. rewrite length_insert. apply Hw.
      apply list_elem_of_In, list_elem_of_lookup. eauto.
    + rewrite list_lookup_insert_ne in Hi by done. apply Hw.
      apply list_elem_of_In, list_elem_of_lookup. eauto.
Qed.

Lemma in_bounds_spec h w x y :
  in_bounds h w x y = true
  <-> (0 <= y < Z.of_nat h /\ 0 <= x < Z.of_nat w)%Z.
Proof.
  unfold in_bounds. rewrite !andb_true_iff, !Z.leb_le, !Z.ltb_lt. lia.
Qed.

Section PaintLoop.

Context {A : Type}.

(** the paint of a position, idempotent: painting what has been painted
    changes nothing *)
Variable paint : nat -> nat -> A -> A.
Hypothesis paint_idem : forall r c p, paint r c (paint r c p) = paint r c p.

Variables h w : nat.

Let step (a : list (list A)) (xy : Z * Z) : list (list A) :=
  if in_bounds h w (fst xy) (snd xy)
  then paint_at (paint (Z.to_nat (snd xy)) (Z.to_nat (fst xy))) a xy
  else a.

Lemma paint_step_get a xy r c :
  has_width w a -> length a = h ->
  getitem (step a xy) r c
  = (fun p => if decide (xy = (Z.of_nat c, Z.of_nat r))
              then paint r c p else p) <$> getitem a r c.
Proof.
  intros Hw Hh. unfold step. destruct xy as [x y]. simpl.
  destruct (in_bounds h w x y) eqn:Hin.
  - apply in_bounds_spec in Hin as [Hy Hx].
    unfold paint_at. simpl.
    assert (is_Some (getitem a (Z.to_nat y) (Z.to_nat x))) as [q Hq].
    { apply (getitem_is_Some w); [done|]. lia. }
    rewrite Hq, getitem_setitem by eauto.
    destruct (decide (r = Z.to_nat y /\ c = Z.to_nat x)) as [[-> ->]|Hne].
    + rewrite Hq. simpl. rewrite decide_True; [done|].
      rewrite !Z2Nat.id by lia. done.
    + destruct (getitem a r c) as [p|]; simpl; [|done].
      rewrite decide_False; [done|]. intros [= -> ->].
      apply Hne. by rewrite !Nat2Z.id.
  - destruct (getitem a r c) as [p|] eqn:Hp; simpl; [|done].
    rewrite decide_False; [done|]. intros [= -> ->].
    assert (in_bounds h w (Z.of_nat c) (Z.of_nat r) = true) as Hin'.
    { apply in_bounds_spec.
      assert (r < length a /\ c < w)%nat as [? ?]
        by (apply (getitem_is_Some w a r c Hw); eauto).
      lia. }
    congruence.
Qed.

Lemma paint_step_shape a xy :
  has_width w a -> length a = h ->
  has_width w (step a xy) /\ length (step a xy) = h
  /\ shape (step a xy) = shape a.
Proof.
  intros Hw Hh. unfold step.
  destruct (in_bounds h w (fst xy) (snd xy)); [|done].
  unfold paint_at. destruct (getitem a _ _); [|done].
  destruct (setitem_shape a (Z.to_nat (snd xy)) (Z.to_nat (fst xy))
              (paint (Z.to_nat (snd xy)) (Z.to_nat (fst xy)) a0))
    as (Hl & Hs & Hwd).
  split; [by apply Hwd|]. split; [lia|done].
Qed.

Lemma paint_loop_spec pts a :
  has_width w a -> length a = h ->
  (has_width w (foldl step a pts) /\ length (foldl step a pts) = h
   /\ shape (foldl step a pts) = shape a)
  /\ forall r c,
       getitem (foldl step a pts) r c
       = painted paint pts r c <$> getitem a r c.
Proof.
  revert a. induction pts as [|xy pts IH]; intros a Hw Hh.
  - split; [simpl; done|]. intros r c. unfold painted.
    cbn [foldl]. destruct (getitem a r c); [|done].
    cbn [fmap option_fmap option_map].
    by destruct (decide _) as [Hin%elem_of_nil|].
  - simpl. destruct (paint_step_shape a xy Hw Hh) as (Hw' & Hh' & Hs').
    destruct (IH (step a xy) Hw' Hh') as [(Hw'' & Hh'' & Hs'') Hget].
    split; [split; [done|split; [done|congruence]]|].
    intros r c. rewrite Hget, paint_step_get by done.
    destruct (getitem a r c) as [p|]; simpl; [|done]. f_equal.
    unfold painted.
    destruct (decide (xy = (Z.of_nat c, Z.of_nat r))) as [->|Hne].
    + rewrite (decide_True (P := _ ∈ _ :: _)) by (apply elem_of_cons; auto).
      destruct (decide (_ ∈ pts)); [apply paint_idem|done].
    + destruct (decide (_ ∈ pts)) as [Hin|Hout].
      * rewrite decide_True; [done|]. apply elem_of_cons; auto.
      * rewrite decide_False; [done|].
        intros [?|?]%elem_of_cons; done.
Qed.

End PaintLoop.

(** [paint_points] on a rectangular array: the shape stays, and a pixel
    is painted when the points hold its position. *)
Lemma paint_points_spec {A} (paint : A -> A) pts (a : list (list A)) :
  (forall p, paint (paint p) = paint p) ->
  rectangular a ->
  (rectangular (paint_points paint pts a)
   /\ length (paint_points paint pts a) = length a
   /\ shape (paint_points paint pts a) = shape a)
  /\ forall r c,
       getitem (paint_points paint pts a) r c
       = painted (fun _ _ => paint) pts r c <$> getitem a r c.
Proof.
  intros Hidem Hrect. unfold paint_points.
  destruct (shape a) as [h w] eqn:Hs.
  assert (has_width w a) as Hw.
  { change (has_width (snd (shape a)) a) in Hrect. by rewrite Hs in Hrect. }
  assert (length a = h) as Hh by (by injection Hs as ? ?).
  destruct (paint_loop_spec (fun _ _ => paint) (fun _ _ => Hidem) h w
              pts a Hw Hh) as [(Hw' & Hh' & Hs') Hget].
  split; [|exact Hget]. split; [|split; [lia|congruence]].
  change (has_width (snd (shape (foldl
    (fun a0 xy => if in_bounds h w (fst xy) (snd xy)
                  then paint_at paint a0 xy else a0) a pts)))
    (foldl (fun a0 xy => if in_bounds h w (fst xy) (snd xy)
                         then paint_at paint a0 xy else a0) a pts)).
  rewrite Hs', Hs. exact Hw'.
Qed.

Lemma paint_where_get {A} mask (paint : nat -> nat -> A -> A)
    (a : list (list A)) r c :
  getitem (paint_where mask paint a) r c
  = (fun p => match getitem mask r c with
              | Some m => if (0 <? m)%Z then paint r c p else p
              | None => p
              end) <$> getitem a r c.
Proof.
  unfold paint_where, getitem. rewrite list_lookup_imap.
  destruct (a !! r) as [row|]; simpl; [|done].
  rewrite list_lookup_imap. by destruct (row !! c).
Qed.

Lemma paint_where_shape {A} mask (paint : nat -> nat -> A -> A)
    (a : list (list A)) :
  length (paint_where mask paint a) = length a
  /\ shape (paint_where mask paint a) = shape a.
Proof.
  unfold paint_where, shape. rewrite length_imap. split; [done|].
  destruct a as [|row a]; [done|]. simpl. by rewrite length_imap.
Qed.

(** ** The live drawing handlers *)

Lemma with_display_same st d :
  display_normalized_spectrum st = Some d -> with_display (Some d) st = st.
Proof. destruct st. simpl. by intros ->. Qed.

Lemma with_spatial_same st img :
  current_spatial_image st = Some img -> with_spatial (Some img) st = st.
Proof. destruct st. simpl. by intros ->. Qed.

Lemma with_display_phase_vis_same st k d :
  display_phase_vis st k = Some d ->
  with_display_phase_vis k (Some d) st = st.
Proof. destruct st, k; simpl; by intros ->. Qed.

Lemma freq_target_idem st color p :
  freq_target st color (freq_target st color p) = freq_target st color p.
Proof.
  unfold freq_target. cbv zeta.
  destruct (_ && _ && _), (lock_r_check st), (lock_g_check st),
    (lock_b_check st); reflexivity.
Qed.

Lemma freq_target_get st color p ch :
  px_get ch (freq_target st color p)
  = if lock_state st (map_rgb_to_bgr_idx ch) then px_get ch p
    else if ((q_red color <? 5) && (q_green color <? 5)
             && (q_blue color <? 5))%Z then 0%Z
    else px_get ch (Px (q_red color) (q_green color) (q_blue color)).
Proof.
  unfold freq_target. cbv zeta.
  destruct (_ && _ && _), ch; simpl;
    destruct (lock_r_check st), (lock_g_check st), (lock_b_check st);
    reflexivity.
Qed.

(** a point outside the array paints nothing *)
Lemma paint_points_outside {A} (paint : A -> A) (a : list (list A)) x y :
  in_bounds (fst (shape a)) (snd (shape a)) x y = false ->
  paint_points paint [(x, y)] a = a.
Proof.
  unfold paint_points. destruct (shape a) as [h w]. simpl. by intros ->.
Qed.

Section StrokeFacts.

Variable cvt_hsv2bgr : pixel Z -> pixel Z.
Variable cv2_line_mask : nat -> nat -> QPoint -> QPoint -> Z -> list (list Z).
Variable cv2_circle_mask : nat -> nat -> QPoint -> Z -> list (list Z).

(** What any stroke on the frequency canvas does: it replaces the
    display copy, keeps its shape, and every pixel is the one before or
    its [freq_target]. *)
Lemma handle_freq_stroke_spec canvas st s color d :
  display_normalized_spectrum st = Some d ->
  rectangular d ->
  exists d',
    handle_freq_stroke cv2_line_mask cv2_circle_mask canvas st s color
    = with_display (Some d') st
    /\ shape d' = shape d
    /\ forall r c, exists b : bool,
         getitem d' r c
         = (fun p => if b then freq_target st color p else p)
             <$> getitem d r c.
Proof.
  intros Hd Hrect.
  assert (forall pts,
    shape (paint_points (freq_target st color) pts d) = shape d
    /\ forall r c, exists b : bool,
         getitem (paint_points (freq_target st color) pts d) r c
         = (fun p => if b then freq_target st color p else p)
             <$> getitem d r c) as Hpoints.
  { intros pts.
    destruct (paint_points_spec (freq_target st color) pts d
                (freq_target_idem st color) Hrect) as [(_ & _ & Hs) Hget].
    split; [done|]. intros r c. rewrite Hget. unfold painted.
    destruct (decide _); [by exists true|by exists false]. }
  assert (forall mask,
    shape (paint_where mask (fun _ _ => freq_target st color) d) = shape d
    /\ forall r c, exists b : bool,
         getitem (paint_where mask (fun _ _ => freq_target st color) d) r c
         = (fun p => if b then freq_target st color p else p)
             <$> getitem d r c) as Hmask.
  { intros mask. split; [apply paint_where_shape|]. intros r c.
    rewrite paint_where_get.
    destruct (getitem mask r c) as [m|]; [|by exists false].
    destruct (0 <? m)%Z; [by exists true|by exists false]. }
  assert (exists d', st = with_display (Some d') st /\ shape d' = shape d
    /\ forall r c, exists b : bool,
         getitem d' r c
         = (fun p => if b then freq_target st color p else p)
             <$> getitem d r c) as Hsame.
  { exists d. split; [by rewrite with_display_same|]. split; [done|].
    intros r c. exists false. by destruct (getitem d r c). }
  destruct s as [p|p1 p2|p radius]; simpl.
  - unfold handle_freq_point_drawn. rewrite Hd.
    eexists. split; [done|]. apply Hpoints.
  - unfold handle_freq_line_drawn. rewrite Hd.
    destruct (effective_pen_width _ _) as [thickness|]; [|exact Hsame].
    destruct (thickness =? 1)%Z.
    + eexists. split; [done|]. apply Hpoints.
    + eexists. split; [done|]. apply Hmask.
  - unfold handle_freq_circle_drawn. rewrite Hd.
    eexists. split; [done|]. apply Hmask.
Qed.

(** X12. Strokes on the frequency canvas respect the channel locks.
    Whatever is drawn (a point, a thin or a thick line, a disc) only the
    display copy of the magnitude visualization changes; it keeps its
    shape; a locked channel keeps its value at every pixel; and any
    other sample is the one before or the pen's component, 0 for a pen
    with the three components below 5. *)
Theorem freq_strokes_respect_locks canvas st s color d :
  display_normalized_spectrum st = Some d ->
  rectangular d ->
  exists d',
    handle_freq_stroke cv2_line_mask cv2_circle_mask canvas st s color
    = with_display (Some d') st
    /\ shape d' = shape d
    /\ (forall r c k,
          lock_state st k = true ->
          getitem3 d' r c (map_bgr_to_rgb_idx k)
          = getitem3 d r c (map_bgr_to_rgb_idx k))
    /\ (forall r c ch v,
          getitem3 d' r c ch = Some v ->
          getitem3 d r c ch = Some v
          \/ (lock_state st (map_rgb_to_bgr_idx ch) = false
              /\ v = if ((q_red color <? 5) && (q_green color <? 5)
                         && (q_blue color <? 5))%Z then 0%Z
                     else px_get ch (Px (q_red color) (q_green color)
                                       (q_blue color)))).
Proof.
  intros Hd Hrect.
  destruct (handle_freq_stroke_spec canvas st s color d Hd Hrect)
    as (d' & Hst & Hs & Hget).
  exists d'. split; [done|]. split; [done|]. split.
  - intros r c k Hlock. destruct (Hget r c) as [b Hb].
    unfold getitem3. rewrite Hb.
    destruct (getitem d r c) as [p|]; simpl; [|done]. f_equal.
    destruct b; [|done]. rewrite freq_target_get.
    assert (map_rgb_to_bgr_idx (map_bgr_to_rgb_idx k) = k) as ->
      by by destruct k.
    by rewrite Hlock.
  - intros r c ch v. destruct (Hget r c) as [b Hb].
    unfold getitem3. rewrite Hb.
    destruct (getitem d r c) as [p|]; simpl; [|done]. intros [= <-].
    destruct b; [|by left]. rewrite freq_target_get.
    destruct (lock_state st _); [by left|]. by right.
Qed.

(** X13. A point outside the image changes nothing, on any canvas: the
    bounds test of the point handlers also keeps negative coordinates
    from reaching the arrays. *)
Theorem points_outside_are_ignored st p color k :
  (forall img, current_spatial_image st = Some img ->
     in_bounds (fst (shape img)) (snd (shape img)) (pt_x p) (pt_y p)
     = false ->
     handle_spatial_point_drawn st p color = st)
  /\ (forall d, display_normalized_spectrum st = Some d ->
        in_bounds (fst (shape d)) (snd (shape d)) (pt_x p) (pt_y p)
        = false ->
        handle_freq_point_drawn st p color = st)
  /\ (forall d, display_phase_vis st k = Some d ->
        in_bounds (fst (shape d)) (snd (shape d)) (pt_x p) (pt_y p)
        = false ->
        handle_phase_point_drawn cvt_hsv2bgr st p color k = st)
  /\ forall h w,
       in_bounds h w (pt_x p) (pt_y p) = false
       <-> (pt_x p < 0 \/ pt_y p < 0 \/ Z.of_nat w <= pt_x p
            \/ Z.of_nat h <= pt_y p)%Z.
Proof.
  split; [|split; [|split]].
  - intros img Himg Hout. unfold handle_spatial_point_drawn.
    rewrite Himg, paint_points_outside by done.
    by apply with_spatial_same.
  - intros d Hd Hout. unfold handle_freq_point_drawn.
    rewrite Hd, paint_points_outside by done.
    by apply with_display_same.
  - intros d Hd Hout. unfold handle_phase_point_drawn. rewrite Hd.
    destruct (display_normalized_spectrum st); [|done].
    rewrite paint_points_outside by done.
    by apply with_display_phase_vis_same.
  - intros h w. rewrite <- not_true_iff_false, in_bounds_spec. lia.
Qed.

End StrokeFacts.

(** ** Shapes through the engine *)

Lemma length_ifftshift1 {A} (l : list A) :
  length (Fft.ifftshift1 l) = length l.
Proof.
  unfold Fft.ifftshift1. rewrite length_app, length_drop, length_take.
  assert (length l / 2 <= length l)%nat
    by (apply Nat.Div0.div_le_upper_bound; lia).
  lia.
Qed.

Lemma has_width_ifftshift {A} w (a : list (list A)) :
  has_width w a -> has_width w (Fft.ifftshift a).
Proof.
  unfold has_width, Fft.ifftshift, Fft.ifftshift1 at 1. intros H.
  assert (Forall (fun row => length row = w) (Fft.ifftshift1 <$> a)) as H'.
  { rewrite Forall_fmap. eapply Forall_impl; [|exact H].
    intros row Hrow. simpl. by rewrite length_ifftshift1. }
  apply Forall_app. split; [by apply Forall_drop|by apply Forall_take].
Qed.

Lemma length_ifftshift {A} (a : list (list A)) :
  length (Fft.ifftshift a) = length a.
Proof. unfold Fft.ifftshift. by rewrite length_ifftshift1, length_fmap. Qed.

(** The inverse transform of a spectrum with at least one row and one
    column is computed, and has the shape of the spectrum. *)
Lemma inverse_transform_shape w (f : ndarray complex) :
  has_width w f -> (0 < length f)%nat -> (0 < w)%nat ->
  exists res,
    inverse_transform f = Some res
    /\ has_width w res /\ length res = length f.
Proof.
  intros Hw Hh Hpos.
  assert (shape f = (length f, w)) as Hs.
  { apply shape_has_width; [done|]. intros ->. simpl in Hh. lia. }
  set (S c := Fft.ifftshift (slice_chan c f)).
  assert (forall c, has_width w (S c) /\ length (S c) = length f) as HS.
  { intros c. unfold S. split.
    - by apply has_width_ifftshift, has_width_slice_chan.
    - by rewrite length_ifftshift, length_slice_chan. }
  set (Y c := fmap (M:=list) (fmap (M:=list) cabs)
                (Fft.along_columns Fft.ifft (Fft.along_rows Fft.ifft (S c)))).
  assert (forall c, inverse_channel f c = Some (Y c)) as Hinv.
  { intros c. unfold inverse_channel, Fft.ifft2. fold (S c).
    destruct (HS c) as [HSw HSl].
    rewrite (zero_size_false w) by (try done; lia). reflexivity. }
  assert (forall c, has_width w (Y c) /\ length (Y c) = length f) as HY.
  { intros c. destruct (HS c) as [HSw HSl]. unfold Y.
    assert (has_width w (Fft.along_rows Fft.ifft (S c))) as Hr
      by (apply has_width_along_rows; [apply length_ifft|done]).
    assert (length (Fft.along_rows Fft.ifft (S c)) = length f) as Hrl
      by (unfold Fft.along_rows; by rewrite length_fmap).
    split.
    - apply has_width_fmap, has_width_along_columns; [done|].
      intros He. rewrite He in Hrl. simpl in Hrl. lia.
    - by rewrite length_fmap, length_along_columns. }
  unfold inverse_transform. rewrite Hs.
  cbn [for_each all_chans fst snd mbind option_bind].
  rewrite !Hinv. eexists. split; [reflexivity|].
  destruct (slice_assigned (length f) w Y 0%R C0 HY) as (_ & Haw & Hal).
  split.
  - by apply has_width_fmap.
  - by rewrite length_fmap.
Qed.

Lemma same_dom_shape {A} (m m' : list (list A)) :
  same_dom m m' -> shape m' = shape m.
Proof.
  intros [Hlen Hdom]. unfold shape. rewrite Hlen. f_equal.
  destruct m as [|row m], m' as [|row' m']; try done.
  apply Nat.le_antisymm.
  - destruct (decide (length row' <= length row)%nat); [done|].
    assert (is_Some (getitem (row' :: m') 0 (length row))) as Hs
      by (apply lookup_lt_is_Some; lia).
    apply Hdom in Hs. simpl in Hs. apply lookup_lt_is_Some in Hs. lia.
  - destruct (decide (length row <= length row')%nat); [done|].
    assert (is_Some (getitem (row :: m) 0 (length row'))) as Hs
      by (apply lookup_lt_is_Some; lia).
    apply Hdom in Hs. simpl in Hs. apply lookup_lt_is_Some in Hs. lia.
Qed.

Lemma same_dom_has_width {A} w (m m' : list (list A)) :
  same_dom m m' -> has_width w m -> has_width w m'.
Proof.
  intros [Hlen Hdom] Hw. unfold has_width. rewrite Forall_forall.
  intros row Hin. apply list_elem_of_In, list_elem_of_lookup in Hin as [r Hr].
  assert (r < length m)%nat as Hlt
    by (apply lookup_lt_Some in Hr; lia).
  apply Nat.le_antisymm.
  - destruct (decide (length row <= w)%nat); [done|].
    assert (is_Some (getitem m' r w)) as Hs.
    { unfold getitem. rewrite Hr. apply lookup_lt_is_Some. lia. }
    apply Hdom, (getitem_is_Some w) in Hs; [lia|done].
  - destruct (decide (w <= length row)%nat); [done|].
    assert (is_Some (getitem m r (length row))) as Hs
      by (apply (getitem_is_Some w); [done|lia]).
    apply Hdom in Hs. unfold getitem in Hs. rewrite Hr in Hs.
    apply lookup_lt_is_Some in Hs. lia.
Qed.

(** The magnitude visualization has the shape of the log-magnitude. *)
Lemma magnitude_visualization_shape w (mag : ndarray R) rng :
  has_width w mag -> mag <> [] ->
  has_width w (magnitude_visualization mag rng)
  /\ length (magnitude_visualization mag rng) = length mag.
Proof.
  intros Hw Hne. unfold magnitude_visualization.
  rewrite (shape_has_width w mag Hw Hne). cbn [fst snd foldl all_chans].
  set (s c := normalize_for_display (slice_chan c mag) (fst rng) (snd rng)).
  assert (forall c, has_width w (s c) /\ length (s c) = length mag) as Hs.
  { intros c. unfold s, normalize_for_display. cbv zeta.
    destruct (Rlt_dec _ _); split;
      try (by apply has_width_fmap, has_width_slice_chan);
      by rewrite length_fmap, length_slice_chan. }
  pose proof (has_width_full (length mag) w 0%Z) as Hw0.
  pose proof (length_full (length mag) w 0%Z) as Hl0.
  destruct (Hs C0) as [Hw_0 Hl_0], (Hs C1) as [Hw_1 Hl_1],
    (Hs C2) as [Hw_2 Hl_2].
  destruct (assign_chan_shape (map_bgr_to_rgb_idx C0) w (s C0) _ Hw0 Hw_0)
    as [Hw1 Hl1]; [congruence|].
  destruct (assign_chan_shape (map_bgr_to_rgb_idx C1) w (s C1) _ Hw1 Hw_1)
    as [Hw2 Hl2]; [congruence|].
  destruct (assign_chan_shape (map_bgr_to_rgb_idx C2) w (s C2) _ Hw2 Hw_2)
    as [Hw3 Hl3]; [congruence|].
  split; [exact Hw3|].
  etrans; [exact Hl3|]. etrans; [exact Hl2|]. etrans; [exact Hl1|].
  exact Hl0.
Qed.

Lemma log_magnitude_shape w (f : ndarray complex) :
  has_width w f ->
  has_width w (log_magnitude f) /\ length (log_magnitude f) = length f.
Proof.
  intros Hw. unfold log_magnitude. split.
  - by apply has_width_fmap.
  - by rewrite length_fmap.
Qed.

(** the range the state holds is never narrower than [epsilon] *)
Lemma log_mag_range_wide mags rng :
  log_mag_range mags = Some rng -> ~ (snd rng - fst rng < 1e-9)%R.
Proof.
  unfold log_mag_range.
  destruct (np_min mags) as [lo|]; [|done].
  destruct (np_max mags) as [hi|]; [|done].
  unfold epsilon.
  destruct (Rlt_dec _ _) as [Hn|Hw]; intros [= <-]; simpl; lra.
Qed.

(** The loop of a magnitude commit runs to its end when the changed
    positions lie in the display copy and in the spectrum. *)
Lemma reconcile_magnitude_is_Some orig final rng locks idxs :
  (forall r c, (r, c) ∈ idxs ->
     is_Some (getitem final r c) /\ is_Some (getitem orig r c)) ->
  is_Some (reconcile_magnitude orig final rng locks idxs).
Proof.
  intros Hidx. unfold reconcile_magnitude.
  assert (forall m, same_dom orig m ->
            is_Some (for_each (reconcile_pixel orig final rng locks)
                       idxs m)) as Hloop.
  { induction idxs as [|[r c] idxs IH]; intros m Hm; [by eexists|].
    cbn [for_each].
    destruct (Hidx r c) as [[px Hpx] [z Hz]]; [apply elem_of_cons; auto|].
    assert (is_Some (reconcile_pixel orig final rng locks m (r, c)))
      as [m1 Hm1].
    { unfold reconcile_pixel. cbn [fst snd]. rewrite Hpx.
      cbn [mbind option_bind].
      set (blk := px_all _).
      assert (forall m0 c_rgb, same_dom orig m0 ->
                exists m0', reconcile_channel orig rng locks r c px blk m0
                              c_rgb = Some m0' /\ same_dom orig m0')
        as Hch.
      { intros m0 c_rgb Hm0. unfold reconcile_channel.
        assert (is_Some (getitem m0 r c)) as Hm0rc
          by (apply Hm0; eauto).
        destruct (locks _); [eauto|].
        destruct blk.
        - apply (setitem3_is_Some _ _ _ (map_rgb_to_bgr_idx c_rgb) czero)
            in Hm0rc as [m0' Hm0'].
          exists m0'. split; [done|].
          eapply same_dom_trans; [exact Hm0|].
          by eapply setitem3_same_dom.
        - unfold getitem3. rewrite Hz. cbn [fmap option_fmap option_map
            mbind option_bind].
          apply (setitem3_is_Some _ _ _ (map_rgb_to_bgr_idx c_rgb)
                   (magnitude_value rng (px_get c_rgb px)
                      (px_get (map_rgb_to_bgr_idx c_rgb) z)))
            in Hm0rc as [m0' Hm0'].
          exists m0'. split; [done|].
          eapply same_dom_trans; [exact Hm0|].
          by eapply setitem3_same_dom. }
      cbn [for_each all_chans].
      destruct (Hch m C0 Hm) as (m1 & -> & Hd1).
      destruct (Hch m1 C1 Hd1) as (m2 & -> & Hd2).
      destruct (Hch m2 C2 Hd2) as (m3 & -> & Hd3). eauto. }
    rewrite Hm1. apply IH.
    - intros r' c' Hin. apply Hidx, elem_of_cons. auto.
    - eapply same_dom_trans; [exact Hm|].
      by eapply reconcile_pixel_dom. }
  apply Hloop, same_dom_refl.
Qed.

(** ** A stroke, then its commit *)

Lemma rectangular_of_has_width {A} w (a : list (list A)) :
  has_width w a -> rectangular a.
Proof.
  intros Hw. destruct a as [|row a]; [constructor|].
  change (has_width (snd (shape (row :: a))) (row :: a)).
  by rewrite (has_width_shape w).
Qed.

Section StrokeCommit.

Variable cvt_hsv2bgr : pixel Z -> pixel Z.
Variable cvt_bgr2hsv : pixel Z -> pixel Z.

(** X14. One point painted on the frequency canvas and the release that
    follows, with no channel locked and caches that belong to the
    spectrum: when the painted pixel differs from the baseline by more
    than 10 in some channel the edit is committed, the bin under the
    point becomes [0 + 0j] in every channel for a pen with the three
    components below 5 and gets the magnitude of the pen's component
    with its old phase otherwise, and every other bin stays as it
    was. *)
Theorem point_stroke_commits_one_bin st f p color drawn q :
  caches_of f st ->
  rectangular f ->
  (forall k, lock_state st k = false) ->
  in_bounds (fst (shape f)) (snd (shape f)) (pt_x p) (pt_y p) = true ->
  (base ← normalized_spectrum st;
   getitem base (Z.to_nat (pt_y p)) (Z.to_nat (pt_x p))) = Some q ->
  differs (freq_target st color q) q ->
  exists st' modified,
    freq_drawing_finished cvt_hsv2bgr cvt_bgr2hsv
      (handle_freq_point_drawn st p color) drawn = (st', Finalized)
    /\ frequency_image st' = Some modified
    /\ forall r c k,
         getitem3 modified r c k
         = if decide (r = Z.to_nat (pt_y p) /\ c = Z.to_nat (pt_x p))
           then
             (fun z =>
                if ((q_red color <? 5) && (q_green color <? 5)
                    && (q_blue color <? 5))%Z
                then czero
                else magnitude_value (global_log_mag_range st)
                       (px_get (map_bgr_to_rgb_idx k)
                          (Px (q_red color) (q_green color) (q_blue color)))
                       z) <$> getitem3 f r c k
           else getitem3 f r c k.
Proof.
  intros (Hf & Hm & Hr & Hn & Hd) Hrect Hlocks Hin Hq Hdiff.
  set (rng := global_log_mag_range st) in *.
  set (r0 := Z.to_nat (pt_y p)) in *. set (c0 := Z.to_nat (pt_x p)) in *.
  set (base := magnitude_visualization (log_magnitude f) rng) in *.
  rewrite Hn in Hq. cbn [mbind option_bind] in Hq.
  apply in_bounds_spec in Hin as [Hy Hx].
  set (w := snd (shape f)) in *.
  assert (has_width w f) as Hfw by exact Hrect.
  assert (f <> []) as Hfne by (intros ->; simpl in Hy; lia).
  assert (fst (shape f) = length f) as Hfh by done.
  destruct (log_magnitude_shape w f Hfw) as [Hmw Hml].
  assert (log_magnitude f <> []) as Hmne.
  { intros He. rewrite He in Hml. destruct f; done. }
  destruct (magnitude_visualization_shape w _ rng Hmw Hmne) as [Hbw Hbl].
  fold base in Hbw, Hbl.
  pose proof (rectangular_of_has_width w base Hbw) as Hbrect.
  (* the stroke *)
  unfold handle_freq_point_drawn. rewrite Hd, Hn.
  set (d1 := paint_points (freq_target st color) [(pt_x p, pt_y p)] base).
  destruct (paint_points_spec (freq_target st color) [(pt_x p, pt_y p)] base
              (freq_target_idem st color) Hbrect)
    as [(Hd1rect & Hd1l & Hd1s) Hd1get].
  fold d1 in Hd1rect, Hd1l, Hd1s, Hd1get.
  assert (forall r c,
    getitem d1 r c
    = (fun px => if decide (r = r0 /\ c = c0)
                 then freq_target st color px else px)
        <$> getitem base r c) as Hd1.
  { intros r c. rewrite Hd1get. unfold painted.
    destruct (getitem base r c) as [px|]; [|done]. simpl. f_equal.
    destruct (decide (r = r0 /\ c = c0)) as [[-> ->]|Hne].
    - rewrite decide_True; [done|]. unfold r0, c0.
      rewrite !Z2Nat.id by lia. apply elem_of_cons. auto.
    - rewrite decide_False; [done|].
      intros [[= Hc Hr']|Hnil]%elem_of_cons;
        [|by apply elem_of_nil in Hnil].
      apply Hne. unfold r0, c0. rewrite <- Hc, <- Hr', !Nat2Z.id. done. }
  (* where the display copy differs from the baseline *)
  assert (forall r c,
    (r, c) ∈ np_where (change_mask d1 base) <-> r = r0 /\ c = c0) as Hmask.
  { intros r c. rewrite elem_of_np_where, change_mask_true. split.
    - intros (px & px' & Hpx & Hpx' & Hdf). rewrite Hd1, Hpx' in Hpx.
      simpl in Hpx. injection Hpx as <-.
      destruct (decide (r = r0 /\ c = c0)); [done|].
      unfold differs in Hdf. lia.
    - intros [-> ->]. exists (freq_target st color q), q.
      rewrite Hd1, Hq. simpl. rewrite decide_True by done. done. }
  set (st1 := with_display (Some d1) st).
  assert (is_Some (reconcile_magnitude f d1 rng (lock_state st1)
                     (np_where (change_mask d1 base))))
    as [modified Hmod].
  { apply reconcile_magnitude_is_Some. intros r c Hrc.
    apply Hmask in Hrc as [-> ->]. rewrite Hd1, Hq. split; [by eexists|].
    apply (getitem_is_Some w); [done|]. unfold r0, c0. lia. }
  assert (same_dom f modified) as Hdom.
  { unfold reconcile_magnitude in Hmod.
    eapply (for_each_preserves _ same_dom) in Hmod;
      eauto using same_dom_refl, same_dom_trans, reconcile_pixel_dom. }
  destruct (freq_drawing_finished_commits cvt_hsv2bgr cvt_bgr2hsv st1 drawn
              f d1 base modified) as (st' & Hfin & Hfreq); try done.
  - apply np_any_true. exists r0, c0.
    apply elem_of_np_where, Hmask. done.
  - pose proof (log_mag_range_wide _ _ Hr). cbn [st1 with_display
      global_log_mag_range]. fold rng. lra.
  - destruct (inverse_transform_shape w modified) as (res & -> & _);
      [by apply (same_dom_has_width w f)| | |by eexists].
    + destruct Hdom as [-> _]. lia.
    + unfold w. lia.
  - exists st', modified. split; [done|]. split; [done|].
    intros r c k. unfold reconcile_magnitude in Hmod.
    rewrite (reconcile_loop_get _ _ _ _ _ _ _ r c k Hmod).
    destruct (decide (r = r0 /\ c = c0)) as [[-> ->]|Hne].
    + rewrite decide_True by (split; [by apply Hmask|apply Hlocks]).
      unfold pixel_target. rewrite Hd1, Hq. simpl.
      rewrite decide_True by done.
      unfold channel_target, freq_target. cbv zeta.
      pose proof (Hlocks C0) as Hl0. pose proof (Hlocks C1) as Hl1.
      pose proof (Hlocks C2) as Hl2. simpl in Hl0, Hl1, Hl2.
      rewrite Hl0, Hl1, Hl2. simpl.
      assert (is_Some (getitem3 f r0 c0 k)) as [z Hz].
      { unfold getitem3.
        assert (is_Some (getitem f r0 c0)) as [pz ->]; [|by eexists].
        apply (getitem_is_Some w); [done|]. unfold r0, c0. lia. }
      rewrite Hz. simpl.
      destruct (_ && _ && _) eqn:Hblack; simpl.
      * reflexivity.
      * unfold px_all, px_map, black_tolerance. simpl.
        rewrite Hblack. simpl. by destruct k.
    + rewrite decide_False; [done|]. intros [Hin' _].
      by apply Hmask in Hin'.
Qed.

End StrokeCommit.

(** ** Pen widths, thin lines and hues *)

Lemma py_round_near x : (Rabs (IZR (py_round x) - x) <= 1 / 2)%R.
Proof.
  unfold py_round. cbv zeta. destruct (base_Int_part x) as [H1 H2].
  set (n := Int_part x) in *.
  destruct (Rlt_dec (x - IZR n) (1 / 2)) as [Hlo|Hlo].
  - apply Rabs_le. lra.
  - destruct (Rlt_dec (1 / 2) (x - IZR n)) as [Hhi|Hhi].
    + rewrite plus_IZR. apply Rabs_le. lra.
    + destruct (Z.even n); [|rewrite plus_IZR]; apply Rabs_le; lra.
Qed.

Lemma py_round_ge_floor x : (Int_part x <= py_round x <= Int_part x + 1)%Z.
Proof.
  unfold py_round. cbv zeta.
  repeat (destruct (Rlt_dec _ _)); try lia. destruct (Z.even _); lia.
Qed.

(** rounding gives 1 or less exactly below one and a half *)
Lemma py_round_le_1 x : (py_round x <= 1)%Z <-> (x < 3 / 2)%R.
Proof.
  destruct (base_Int_part x) as [H1 H2].
  pose proof (py_round_ge_floor x) as Hfl.
  split.
  - intros Hle. destruct (Rlt_dec x (3 / 2)) as [|Hge]; [done|].
    exfalso.
    assert (1 <= Int_part x)%Z as Hn.
    { apply Z.lt_succ_r, lt_IZR. rewrite succ_IZR. simpl. lra. }
    assert (Int_part x = 1%Z) as Hn1 by lia.
    revert Hle. unfold py_round. cbv zeta. rewrite Hn1 in *.
    destruct (Rlt_dec (x - 1) (1 / 2)); [lra|].
    destruct (Rlt_dec (1 / 2) (x - 1)); simpl; lia.
  - intros Hlt.
    assert (Int_part x < 2)%Z as Hn by (apply lt_IZR; lra).
    destruct (Z.eq_dec (Int_part x) 1%Z) as [Hn1|]; [|lia].
    unfold py_round. cbv zeta. rewrite Hn1.
    destruct (Rlt_dec (x - 1) (1 / 2)); [lia|lra].
Qed.

(** The line handlers and the press of a canvas take their thin branch,
    a pen of width 1, exactly when the pen width is below one and a half
    times the zoom. *)
Lemma effective_pen_width_thin (pw : Z) (zoom : R) :
  (0 < zoom)%R ->
  effective_pen_width pw zoom = Some 1%Z <-> (IZR pw < 3 / 2 * zoom)%R.
Proof.
  intros Hzoom. unfold effective_pen_width.
  destruct (Req_EM_T zoom 0) as [|_]; [lra|].
  assert (IZR pw / zoom < 3 / 2 <-> IZR pw < 3 / 2 * zoom)%R as <-.
  { pose proof (Rinv_0_lt_compat _ Hzoom) as Hinv.
    pose proof (Rinv_r zoom ltac:(lra)) as Hone.
    unfold Rdiv. split; intros H; nra. }
  rewrite <- py_round_le_1. split.
  - intros [= H]. lia.
  - intros H. f_equal. lia.
Qed.

Lemma effective_pen_width_ge_1 pw zoom t :
  effective_pen_width pw zoom = Some t -> (1 <= t)%Z.
Proof.
  unfold effective_pen_width. destruct (Req_EM_T zoom 0); [done|].
  intros [= <-]. lia.
Qed.

Lemma Int_part_neg_half : Int_part (-1 / 2) = (-1)%Z.
Proof. symmetry. apply Int_part_spec. simpl. lra. Qed.

(** the hue painted on a phase canvas: half the pen's hue, rounded, an
    OpenCV hue *)
Lemma target_hue_range color :
  (-1 <= q_hue color <= 359)%Z ->
  (0 <= target_hue color <= 179)%Z
  /\ (Z.abs (2 * target_hue color - q_hue color) <= 1)%Z.
Proof.
  intros [Hlo Hhi]. unfold target_hue. cbv zeta.
  set (h := q_hue color) in *.
  pose proof (py_round_near (IZR h / 2)) as Hnear.
  assert (Z.abs (2 * py_round (IZR h / 2) - h) <= 1)%Z as Habs.
  { apply Z.abs_le. unfold Rabs in Hnear.
    destruct (Rcase_abs _); split; apply le_IZR;
      rewrite ?opp_IZR, minus_IZR, mult_IZR; lra. }
  clear Hnear.
  assert (0 <= py_round (IZR h / 2))%Z as Hpos.
  { destruct (Z.eq_dec h (-1)%Z) as [Hm1|Hne].
    - rewrite Hm1. unfold py_round. cbv zeta. rewrite Int_part_neg_half.
      destruct (Rlt_dec _ _) as [H|_]; [simpl in H; lra|].
      destruct (Rlt_dec _ _) as [H|_]; [simpl in H; lra|]. simpl. lia.
    - pose proof (py_round_ge_floor (IZR h / 2)) as [Hfl _].
      assert (0 <= Int_part (IZR h / 2))%Z; [|lia].
      assert (0 <= IZR h / 2)%R.
      { assert (0 <= h)%Z as H0 by lia. apply IZR_le in H0. lra. }
      destruct (base_Int_part (IZR h / 2)).
      apply Z.lt_succ_r, lt_IZR. rewrite succ_IZR. lra. }
  destruct (Z.ltb_spec 179 (py_round (IZR h / 2))) as [Hbig|Hsmall];
    [|lia].
  split; [lia|]. lia.
Qed.

Lemma phase_pixel_idem cvt color norm idx r c p :
  phase_pixel cvt color norm idx r c (phase_pixel cvt color norm idx r c p)
  = phase_pixel cvt color norm idx r c p.
Proof. unfold phase_pixel. by destruct (getitem3 norm r c idx). Qed.

Lemma paint_phase_points_spec cvt color norm idx pts (a : ndarray Z) :
  rectangular a ->
  shape (paint_phase_points cvt color norm idx pts a) = shape a
  /\ forall r c,
       getitem (paint_phase_points cvt color norm idx pts a) r c
       = painted (phase_pixel cvt color norm idx) pts r c <$> getitem a r c.
Proof.
  intros Hrect. unfold paint_phase_points.
  destruct (shape a) as [h w] eqn:Hs.
  assert (has_width w a) as Hw.
  { change (has_width (snd (shape a)) a) in Hrect. by rewrite Hs in Hrect. }
  assert (length a = h) as Hh by (by injection Hs as ? ?).
  destruct (paint_loop_spec (phase_pixel cvt color norm idx)
              (phase_pixel_idem cvt color norm idx) h w pts a Hw Hh)
    as [(_ & _ & Hs') Hget].
  split; [congruence|exact Hget].
Qed.

Section ThinLines.

Variable cvt_hsv2bgr : pixel Z -> pixel Z.
Variable cv2_line_mask : nat -> nat -> QPoint -> QPoint -> Z -> list (list Z).
Variable cv2_line :
  ndarray Z -> QPoint -> QPoint -> pixel Z -> Z -> ndarray Z.

(** X15. A thin line is drawn point by point along Bresenham's line,
    clipped to the image.  When the pen width is below one and a half
    times the zoom, a line on the spatial canvas sets the pixels at the
    points of [bresenham_line] that lie in the image to the pen colour
    (as BGR), a line on the frequency canvas gives them their
    [freq_target], a line on a phase canvas their phase pixel, and no
    other pixel changes. *)
Theorem thin_lines_follow_bresenham canvas st p1 p2 color :
  (0 < zoom_factor canvas)%R ->
  (IZR (pen_width canvas) < 3 / 2 * zoom_factor canvas)%R ->
  let line := bresenham_points (pt_x p1) (pt_y p1) (pt_x p2) (pt_y p2) in
  (forall img, current_spatial_image st = Some img -> rectangular img ->
     exists img',
       handle_spatial_line_drawn cv2_line canvas st p1 p2 color
       = with_spatial (Some img') st
       /\ shape img' = shape img
       /\ forall r c,
            getitem img' r c
            = painted (fun _ _ _ => bgr_color color) line r c
                <$> getitem img r c)
  /\ (forall d, display_normalized_spectrum st = Some d -> rectangular d ->
        exists d',
          handle_freq_line_drawn cv2_line_mask canvas st p1 p2 color
          = with_display (Some d') st
          /\ shape d' = shape d
          /\ forall r c,
               getitem d' r c
               = painted (fun _ _ => freq_target st color) line r c
                   <$> getitem d r c)
  /\ (forall k d norm,
        display_phase_vis st k = Some d ->
        display_normalized_spectrum st = Some norm ->
        rectangular d ->
        exists d',
          handle_phase_line_drawn cvt_hsv2bgr cv2_line_mask canvas st
            p1 p2 color k
          = with_display_phase_vis k (Some d') st
          /\ shape d' = shape d
          /\ forall r c,
               getitem d' r c
               = painted (phase_pixel cvt_hsv2bgr color norm
                            (map_bgr_to_rgb_idx k)) line r c
                   <$> getitem d r c).
Proof.
  intros Hzoom Hthin line.
  apply effective_pen_width_thin in Hthin; [|done].
  split; [|split].
  - intros img Himg Hrect. unfold handle_spatial_line_drawn.
    rewrite Himg, Hthin. simpl. eexists. split; [done|].
    destruct (paint_points_spec (fun _ => bgr_color color) line img
                ltac:(done) Hrect) as [(_ & _ & Hs) Hget].
    split; [done|]. exact Hget.
  - intros d Hd Hrect. unfold handle_freq_line_drawn.
    rewrite Hd, Hthin. simpl. eexists. split; [done|].
    destruct (paint_points_spec (freq_target st color) line d
                (freq_target_idem st color) Hrect) as [(_ & _ & Hs) Hget].
    split; [done|]. exact Hget.
  - intros k d norm Hd Hnorm Hrect. unfold handle_phase_line_drawn.
    rewrite Hd, Hnorm, Hthin. simpl. eexists. split; [done|].
    apply paint_phase_points_spec. done.
Qed.

(** X16. A point on a phase canvas paints the pen's hue over the
    brightness of the magnitude display.  For a pen whose hue Qt reports
    in -1..359, the pixel under a point inside the image becomes the
    BGR conversion of the HSV pixel (hue, 255, value) where the hue is
    half the pen's hue rounded, in 0..179, and the value is the sample
    of the magnitude display copy at that pixel, for the RGB channel of
    this canvas, but at least 1.  No other pixel, no other attribute and
    no lock is read or changed. *)
Theorem phase_point_paints_hue st p color k d norm v :
  display_phase_vis st k = Some d ->
  display_normalized_spectrum st = Some norm ->
  rectangular d ->
  in_bounds (fst (shape d)) (snd (shape d)) (pt_x p) (pt_y p) = true ->
  (-1 <= q_hue color <= 359)%Z ->
  getitem3 norm (Z.to_nat (pt_y p)) (Z.to_nat (pt_x p))
    (map_bgr_to_rgb_idx k) = Some v ->
  exists d' hue,
    handle_phase_point_drawn cvt_hsv2bgr st p color k
    = with_display_phase_vis k (Some d') st
    /\ (0 <= hue <= 179)%Z /\ (Z.abs (2 * hue - q_hue color) <= 1)%Z
    /\ shape d' = shape d
    /\ forall r c,
         getitem d' r c
         = if decide (r = Z.to_nat (pt_y p) /\ c = Z.to_nat (pt_x p))
           then Some (cvt_hsv2bgr (Px hue 255%Z (Z.max 1 v)))
           else getitem d r c.
Proof.
  intros Hd Hnorm Hrect Hin Hhue Hv.
  destruct (target_hue_range color Hhue) as [Hrange Hhalf].
  unfold handle_phase_point_drawn. rewrite Hd, Hnorm. cbv zeta.
  eexists _, (target_hue color). split; [done|].
  split; [done|]. split; [done|].
  set (paint := phase_pixel cvt_hsv2bgr color norm (map_bgr_to_rgb_idx k)
                  (Z.to_nat (pt_y p)) (Z.to_nat (pt_x p))).
  destruct (paint_points_spec paint [(pt_x p, pt_y p)] d) as
    [(_ & _ & Hs) Hget]; [|done|].
  { intros px. apply phase_pixel_idem. }
  split; [done|]. intros r c. rewrite Hget. unfold painted.
  apply in_bounds_spec in Hin as [Hy Hx].
  destruct (decide (r = Z.to_nat (pt_y p) /\ c = Z.to_nat (pt_x p)))
    as [[-> ->]|Hne].
  - assert (is_Some (getitem d (Z.to_nat (pt_y p)) (Z.to_nat (pt_x p))))
      as [px ->].
    { apply (getitem_is_Some (snd (shape d))); [exact Hrect|].
      simpl in Hy. lia. }
    cbn [fmap option_fmap option_map]. f_equal.
    rewrite decide_True
      by (rewrite !Z2Nat.id by lia; apply elem_of_cons; auto).
    unfold paint, phase_pixel. by rewrite Hv.
  - destruct (getitem d r c) as [px|]; [|done].
    cbn [fmap option_fmap option_map]. f_equal.
    rewrite decide_False; [done|].
    intros [[= Hc Hr]|Hnil]%elem_of_cons;
      [|by apply elem_of_nil in Hnil].
    apply Hne. rewrite <- Hc, <- Hr, !Nat2Z.id. done.
Qed.

End ThinLines.

(** ** The session *)

(** what the frequency side is computed from: the image and the locks *)
Lemma compute_frequency_domain_inputs cvt st st' img :
  current_spatial_image st = Some img ->
  current_spatial_image st' = Some img ->
  lock_b_check st' = lock_b_check st ->
  lock_g_check st' = lock_g_check st ->
  lock_r_check st' = lock_r_check st ->
  is_Some (frequency_image (compute_frequency_domain cvt st)) ->
  forall res,
    with_result res (compute_frequency_domain cvt st')
    = with_result res (compute_frequency_domain cvt st).
Proof.
  intros Hi Hi' Hb Hg Hr Hsome res. revert Hsome.
  unfold compute_frequency_domain. rewrite Hi, Hi'.
  destruct (forward_transform img) as [f|]; [|by intros [? ?]].
  unfold visualize.
  destruct (log_mag_range (log_magnitude f)) as [rng|]; [|by intros [? ?]].
  intros _. unfold with_result. simpl. by rewrite Hi, Hi', Hb, Hg, Hr.
Qed.

Section SessionFacts.

Variable cvt_hsv2bgr : pixel Z -> pixel Z.
Variable cvt_bgr2hsv : pixel Z -> pixel Z.
Variable cv2_line_mask : nat -> nat -> QPoint -> QPoint -> Z -> list (list Z).
Variable cv2_circle_mask : nat -> nat -> QPoint -> Z -> list (list Z).

Abbreviation perform :=
  (perform cvt_hsv2bgr cvt_bgr2hsv cv2_line_mask cv2_circle_mask).

(** the image and the locks of a state *)
Let inputs (st : AppState) :=
  (current_spatial_image st, lock_b_check st, lock_g_check st,
   lock_r_check st).

Lemma post_filter_update_inputs st :
  inputs (_post_filter_update cvt_hsv2bgr st) = inputs st.
Proof.
  unfold _post_filter_update, _compute_visualizations_from_frequency_data,
    visualize.
  destruct (frequency_image st) as [f|] eqn:Hf; [|done].
  destruct (inverse_transform f); [|done].
  cbn [with_result frequency_image]. rewrite Hf.
  by destruct (log_mag_range (log_magnitude f)).
Qed.

Lemma commit_inputs b m st :
  inputs (fst (commit cvt_hsv2bgr cvt_bgr2hsv b m st)) = inputs st.
Proof.
  unfold commit. destruct (inverse_transform m); [|done].
  destruct b; [|done]. unfold _update_phase_displays_from_magnitude. simpl.
  by repeat case_match.
Qed.

Lemma perform_inputs st a : inputs (perform st a) = inputs st.
Proof.
  destruct a as [canvas s color|k canvas s color|e drawn|k]; simpl.
  - destruct s; simpl;
      unfold handle_freq_point_drawn, handle_freq_line_drawn,
        handle_freq_circle_drawn;
      repeat case_match; done.
  - destruct s; simpl;
      unfold handle_phase_point_drawn, handle_phase_line_drawn,
        handle_phase_circle_drawn;
      repeat case_match; try done; by destruct k.
  - destruct e; simpl.
    + unfold freq_drawing_finished. repeat case_match; try done;
        apply commit_inputs.
    + unfold _process_phase_drawing_finished. repeat case_match; try done;
        apply commit_inputs.
  - destruct k; simpl.
    + unfold apply_radial_filter. case_match; [|done].
      by rewrite post_filter_update_inputs.
    + unfold apply_magnitude_filter. repeat case_match; try done.
      by rewrite post_filter_update_inputs.
    + unfold apply_gaussian_filter. repeat case_match; try done.
      by rewrite post_filter_update_inputs.
Qed.


End SessionFacts.

(** ** The canvas widget *)

Lemma swap_channels_involutive a : swap_channels (swap_channels a) = a.
Proof.
  unfold swap_channels. rewrite <- list_fmap_compose.
  rewrite <- (list_fmap_id a) at 2. apply list_fmap_ext. intros _ row _.
  simpl. rewrite <- list_fmap_compose.
  rewrite <- (list_fmap_id row) at 2. apply list_fmap_ext.
  by intros _ [? ? ?] _.
Qed.

Lemma isNull_swap_channels a : isNull (swap_channels a) = isNull a.
Proof.
  unfold isNull, Fft.zero_size, swap_channels, shape.
  rewrite length_fmap. destruct a as [|row a]; [done|]. simpl.
  by rewrite length_fmap.
Qed.

Section CanvasFacts.

Variable frombuffer : ndarray Z -> ndarray Z.

(** One event keeps the zoom at 0.05 or more, and with such a zoom no
    event raises. *)
Lemma canvas_step_zoom cv e :
  (0.05 <= zoom_factor cv)%R ->
  exists cv' s,
    canvas_step frombuffer cv e = Some (cv', s) /\ (0.05 <= zoom_factor cv')%R.
Proof.
  intros Hz. destruct e; simpl; try (by eexists _, _).
  - unfold mousePressEvent. cbv zeta.
    destruct (ev_button event); simpl; try (by eexists _, _).
    destruct (drawing_enabled cv && drawing_allowed cv);
      [|by eexists _, _].
    destruct (display_image cv); [|by eexists _, _].
    unfold effective_pen_width.
    destruct (Req_EM_T (zoom_factor cv) 0) as [H0|_]; [lra|]. simpl.
    destruct (_ =? 1)%Z; by eexists _, _.
  - unfold mouseMoveEvent. cbv zeta.
    repeat case_match; by eexists _, _.
  - unfold mouseReleaseEvent. repeat case_match; by eexists _, _.
  - unfold wheelEvent. cbv zeta.
    destruct (display_image cv); [|by eexists _, _].
    destruct (wheel_delta event =? 0)%Z; [by eexists _, _|].
    eexists _, _. split; [done|]. simpl. apply Rmax_l.
  - unfold scale_to_fit. cbv zeta.
    repeat case_match; eexists _, _; (split; [done|]); simpl;
      try lra; apply Rmax_l.
  - eexists _, _. split; [done|]. simpl. lra.
  - unfold setImage. repeat case_match; by eexists _, _.
Qed.

(** X18. The zoom of a canvas never falls below 0.05, so no mouse event
    divides by a zero zoom: from the canvas of [__init__] on, whatever
    the sequence of presses, moves, releases, wheel turns, fits, resets,
    images, pens and sizes, every event is handled and the zoom factor
    stays at 0.05 or more. *)
Theorem canvas_zoom_stays_positive allowed w h (events : list canvas_event) :
  exists cv signals,
    canvas_run frombuffer (new_canvas allowed w h) events = Some (cv, signals)
    /\ (0.05 <= zoom_factor cv)%R.
Proof.
  assert (forall cv, (0.05 <= zoom_factor cv)%R ->
            exists cv' signals,
              canvas_run frombuffer cv events = Some (cv', signals)
              /\ (0.05 <= zoom_factor cv')%R) as Hrun.
  { induction events as [|e events IH]; intros cv Hz; [by eexists _, _|].
    cbn [canvas_run].
    destruct (canvas_step_zoom cv e Hz) as (cv1 & s & -> & Hz1).
    cbn [mbind option_bind].
    destruct (IH cv1 Hz1) as (cv2 & signals & -> & Hz2).
    cbn [mbind option_bind]. by eexists _, _. }
  apply Hrun. simpl. lra.
Qed.


(** X20. A turn of the wheel zooms about the cursor: the position of the
    image under the mouse is the same before and after, so the pixel
    [mapWidgetToImage] gives for the mouse position does not change. *)
Theorem wheel_zooms_about_cursor cv img event :
  display_image cv = Some img ->
  (1e-6 < zoom_factor cv)%R ->
  image_position (wheelEvent cv event) img (wheel_pos event)
  = image_position cv img (wheel_pos event)
  /\ mapWidgetToImage (wheelEvent cv event) (wheel_pos event)
     = mapWidgetToImage cv (wheel_pos event).
Proof.
  intros Himg Hzoom.
  assert (image_position (wheelEvent cv event) img (wheel_pos event)
          = image_position cv img (wheel_pos event)
          /\ display_image (wheelEvent cv event) = Some img
          /\ (1e-6 < zoom_factor (wheelEvent cv event))%R)
    as (Hpos & Himg' & Hzoom').
  { unfold wheelEvent. rewrite Himg. cbv zeta.
    destruct (wheel_delta event =? 0)%Z; [done|].
    destruct (Rlt_dec 1e-6 (zoom_factor cv)) as [_|Hn]; [|lra].
    set (z' := Rmax 0.05 _).
    assert (0.05 <= z')%R as Hz' by apply Rmax_l.
    split; [|split; [done|simpl; lra]].
    unfold image_position. cbn [zoom_factor offset_x offset_y with_view
      width height]. f_equal; field; lra. }
  split; [done|].
  unfold mapWidgetToImage. rewrite Himg, Himg'.
  destruct (Rlt_dec (zoom_factor (wheelEvent cv event)) 1e-6); [lra|].
  destruct (Rlt_dec (zoom_factor cv) 1e-6); [lra|].
  by rewrite Hpos.
Qed.

(** X21. [scale_to_fit] centres the image and, unless the zoom had to be
    raised to its floor of 0.05, makes it fit: for an image with pixels
    on a widget with a positive size the offsets are 0, the zoom is at
    least 0.05, and when it is more than 0.05 the zoomed image takes at
    most 95% of the widget in both directions and exactly 95% in one. *)
Theorem scale_to_fit_fits cv img :
  display_image cv = Some img ->
  isNull img = false ->
  (0 < width cv)%Z -> (0 < height cv)%Z ->
  let cv' := scale_to_fit cv in
  offset_x cv' = 0%R /\ offset_y cv' = 0%R
  /\ (0.05 <= zoom_factor cv')%R
  /\ ((0.05 < zoom_factor cv')%R ->
      (image_width img * zoom_factor cv' <= 0.95 * IZR (width cv))%R
      /\ (image_height img * zoom_factor cv' <= 0.95 * IZR (height cv))%R
      /\ ((image_width img * zoom_factor cv' = 0.95 * IZR (width cv))%R
          \/ (image_height img * zoom_factor cv'
              = 0.95 * IZR (height cv))%R)).
Proof.
  intros Himg Hnull Hw Hh cv'. unfold cv', scale_to_fit. rewrite Himg.
  destruct (Z.leb_spec (width cv) 0); [lia|].
  destruct (Z.leb_spec (height cv) 0); [lia|]. cbv zeta. simpl orb. cbv iota.
  assert (0 < image_width img /\ 0 < image_height img)%R as [Hiw Hih].
  { unfold isNull, Fft.zero_size in Hnull. unfold image_width, image_height.
    destruct (shape img) as [[|h] [|w]]; try done.
    split; apply lt_0_INR; simpl; lia. }
  destruct (Rle_dec (image_width img) 0); [lra|].
  destruct (Rle_dec (image_height img) 0); [lra|].
  cbn [offset_x offset_y zoom_factor with_view].
  split; [done|]. split; [done|]. split; [apply Rmax_l|].
  set (rw := (IZR (width cv) * 0.95 / image_width img)%R).
  set (rh := (IZR (height cv) * 0.95 / image_height img)%R).
  intros Hbig.
  assert (Rmax 0.05 (Rmin rw rh) = Rmin rw rh) as ->.
  { unfold Rmax in *. destruct (Rle_dec 0.05 (Rmin rw rh)); [done|lra]. }
  assert (image_width img * rw = 0.95 * IZR (width cv))%R as Hrw
    by (unfold rw; field; lra).
  assert (image_height img * rh = 0.95 * IZR (height cv))%R as Hrh
    by (unfold rh; field; lra).
  unfold Rmin. destruct (Rle_dec rw rh) as [Hle|Hgt].
  - split; [lra|]. split; [|by left]. nra.
  - split; [|split; [lra|by right]]. nra.
Qed.

Lemma release_hands_over cv release (a : ndarray Z) :
  ev_button release = LeftButton ->
  drawing cv = true -> drawing_allowed cv = true ->
  isNull a = false ->
  frombuffer (swap_channels a) = swap_channels a ->
  exists cv',
    mouseReleaseEvent frombuffer
      (setImage (bgr_ndarray_to_qimage (Some a)) cv) release
    = (cv', Some (drawingFinished a))
    /\ drawing cv' = false.
Proof.
  intros Hrelease Hd Hal Ha Hbits.
  unfold mouseReleaseEvent, setImage, bgr_ndarray_to_qimage.
  rewrite isNull_swap_channels, Ha, Hrelease.
  cbn [drawing drawing_allowed with_image]. rewrite Hd, Hal. cbn [andb].
  unfold getImageData, qimage_to_bgr_ndarray.
  cbn [display_image with_mouse with_image mbind option_bind].
  rewrite isNull_swap_channels, Ha, Hbits, swap_channels_involutive.
  cbn [mbind option_bind]. eexists. split; [reflexivity|done].
Qed.

Lemma press_emits cv img press :
  display_image cv = Some img ->
  drawing_enabled cv = true -> drawing_allowed cv = true ->
  (0 < zoom_factor cv)%R ->
  ev_button press = LeftButton ->
  exists t,
    effective_pen_width (pen_width cv) (zoom_factor cv) = Some t
    /\ mousePressEvent cv press
       = Some (with_mouse true (ev_pos press)
                 (mapWidgetToImage cv (ev_pos press)) (_is_panning cv) cv,
               Some (if (t =? 1)%Z
                     then pointDrawn (mapWidgetToImage cv (ev_pos press))
                            (pen_color cv)
                     else circleDrawn (mapWidgetToImage cv (ev_pos press))
                            (t / 2) (pen_color cv))).
Proof.
  intros Himg Hen Hal Hzoom Hpress.
  destruct (effective_pen_width (pen_width cv) (zoom_factor cv))
    as [t|] eqn:Ht.
  2:{ unfold effective_pen_width in Ht.
      destruct (Req_EM_T _ _); [lra|done]. }
  exists t. split; [done|].
  unfold mousePressEvent. cbv zeta. rewrite Hpress.
  cbn [drawing_enabled drawing_allowed display_image with_mouse pen_width
    zoom_factor last_point _is_panning pen_color].
  rewrite Hen, Hal, Himg, Ht. cbn [andb mbind option_bind].
  assert (mapWidgetToImage
            (with_mouse (drawing cv) (ev_pos press) (last_image_point cv)
               (_is_panning cv) cv) (ev_pos press)
          = mapWidgetToImage cv (ev_pos press)) as -> by done.
  by destruct (t =? 1)%Z.
Qed.

(** X22. A click on a canvas that draws: press, the repaint of the
    handler, release.  On a canvas with drawing enabled and an image, a
    press of the left button emits at the image position of the mouse a
    point when the pen width is below one and a half times the zoom and
    otherwise a disc of radius [effective_pen_width // 2], at least 1;
    and when the handler has shown the array [a] with
    [setImage(bgr_ndarray_to_qimage(a))], the release of the button
    emits [drawingFinished] with the array [a] itself, provided Qt's
    buffer of the image reads as the rows of the image, without
    padding. *)
Theorem click_draws_then_hands_over cv img press release (a : ndarray Z) :
  display_image cv = Some img ->
  drawing_enabled cv = true -> drawing_allowed cv = true ->
  (0 < zoom_factor cv)%R ->
  ev_button press = LeftButton -> ev_button release = LeftButton ->
  isNull a = false ->
  frombuffer (swap_channels a) = swap_channels a ->
  exists cv' s,
    canvas_run frombuffer cv [Press press;
                   SetImage (bgr_ndarray_to_qimage (Some a));
                   Release release]
    = Some (cv', [s; drawingFinished a])
    /\ drawing cv' = false
    /\ let image_pos := mapWidgetToImage cv (ev_pos press) in
       if Rlt_dec (IZR (pen_width cv)) (3 / 2 * zoom_factor cv)
       then s = pointDrawn image_pos (pen_color cv)
       else exists t,
              effective_pen_width (pen_width cv) (zoom_factor cv) = Some t
              /\ s = circleDrawn image_pos (t / 2) (pen_color cv)
              /\ (1 <= t / 2)%Z.
Proof.
  intros Himg Hen Hal Hzoom Hpress Hrelease Ha Hbits.
  destruct (press_emits cv img press Himg Hen Hal Hzoom Hpress)
    as (t & Ht & Hp).
  set (cv1 := with_mouse true (ev_pos press)
                (mapWidgetToImage cv (ev_pos press)) (_is_panning cv) cv)
    in Hp.
  destruct (release_hands_over cv1 release a Hrelease eq_refl Hal Ha Hbits)
    as (cv' & Hr & Hd).
  exists cv'. eexists.
  cbn [canvas_run canvas_step]. rewrite Hp. cbn [mbind option_bind].
  rewrite Hr. cbn [mbind option_bind].
  split; [reflexivity|]. split; [done|]. cbv zeta.
  pose proof (effective_pen_width_ge_1 _ _ _ Ht) as Ht1.
  pose proof (effective_pen_width_thin (pen_width cv) (zoom_factor cv)
                Hzoom) as Hthin.
  destruct (Rlt_dec _ _) as [Hlt|Hge].
  - apply Hthin in Hlt. rewrite Ht in Hlt. injection Hlt as ->. done.
  - exists t. split; [done|].
    destruct (Z.eqb_spec t 1) as [->|Hne].
    + exfalso. apply Hge, Hthin. done.
    + split; [done|]. apply Z.div_le_lower_bound; lia.
Qed.

End CanvasFacts.

(** ** Recomputing, and the shape of the result *)

Lemma compute_frequency_domain_idem cvt st :
  compute_frequency_domain cvt (compute_frequency_domain cvt st)
  = compute_frequency_domain cvt st.
Proof.
  unfold compute_frequency_domain at 2.
  destruct (current_spatial_image st) as [img|] eqn:Himg.
  - destruct (forward_transform img) as [f|] eqn:Hf.
    + unfold visualize.
      destruct (log_mag_range (log_magnitude f)) as [rng|] eqn:Hr.
      * unfold compute_frequency_domain, visualize. simpl.
        by rewrite Himg, Hf, Hr.
      * unfold compute_frequency_domain, cleared, visualize. simpl.
        by rewrite Himg, Hf, Hr.
    + unfold compute_frequency_domain, cleared. simpl. by rewrite Himg, Hf.
  - unfold compute_frequency_domain. simpl. by rewrite Himg.
Qed.

Lemma compute_frequency_domain_result cvt st res :
  compute_frequency_domain cvt (with_result res st)
  = with_result res (compute_frequency_domain cvt st).
Proof.
  unfold compute_frequency_domain, visualize, cleared. simpl.
  destruct (current_spatial_image st) as [img|]; [|done].
  destruct (forward_transform img) as [f|]; [|done].
  by destruct (log_mag_range (log_magnitude f)).
Qed.

Lemma current_spatial_image_compute cvt st :
  current_spatial_image (compute_frequency_domain cvt st)
  = current_spatial_image st.
Proof.
  unfold compute_frequency_domain, visualize, cleared.
  destruct (current_spatial_image st) as [img|] eqn:Himg; [|done].
  destruct (forward_transform img) as [f|]; [|done].
  by destruct (log_mag_range (log_magnitude f)).
Qed.

Section Recompute.

Variable cvt_hsv2bgr : pixel Z -> pixel Z.

Lemma reset_after_compute st :
  is_Some (current_spatial_image st) ->
  reset_frequency_domain cvt_hsv2bgr
    (fst (reset_frequency_domain cvt_hsv2bgr st))
  = reset_frequency_domain cvt_hsv2bgr st.
Proof.
  intros [img Himg].
  set (st1 := compute_frequency_domain cvt_hsv2bgr st).
  assert (reset_frequency_domain cvt_hsv2bgr st
          = match frequency_image st1 with
            | None => (st1, SessionFailed)
            | Some f =>
                match inverse_transform f with
                | None => (st1, SessionFailed)
                | Some res => (with_result (Some res) st1, SessionDone)
                end
            end) as Hreset
    by (unfold reset_frequency_domain; by rewrite Himg).
  rewrite Hreset. clear Hreset.
  assert (current_spatial_image st1 = Some img) as H1
    by (unfold st1; by rewrite current_spatial_image_compute).
  assert (compute_frequency_domain cvt_hsv2bgr st1 = st1) as Hidem
    by apply compute_frequency_domain_idem.
  destruct (frequency_image st1) as [f|] eqn:Hf.
  - destruct (inverse_transform f) as [res|] eqn:Hinv; cbn [fst].
    + unfold reset_frequency_domain.
      cbn [with_result current_spatial_image]. rewrite H1.
      rewrite compute_frequency_domain_result, Hidem.
      cbn [with_result frequency_image]. rewrite Hf, Hinv.
      f_equal.
    + unfold reset_frequency_domain. by rewrite H1, Hidem, Hf, Hinv.
  - cbn [fst]. unfold reset_frequency_domain. by rewrite H1, Hidem, Hf.
Qed.

(** X23. Recomputing is idempotent.  A second [reset_frequency_domain]
    right after the first ends as the first did and leaves the state the
    first left; and so does a reset right after
    [apply_result_to_original], when there was a result to apply. *)
Theorem recomputing_twice_changes_nothing st :
  reset_frequency_domain cvt_hsv2bgr
    (fst (reset_frequency_domain cvt_hsv2bgr st))
  = reset_frequency_domain cvt_hsv2bgr st
  /\ (is_Some (resulting_spatial_image st) ->
      reset_frequency_domain cvt_hsv2bgr
        (fst (apply_result_to_original cvt_hsv2bgr st))
      = apply_result_to_original cvt_hsv2bgr st).
Proof.
  split.
  - destruct (current_spatial_image st) as [img|] eqn:Himg.
    + apply reset_after_compute. by eexists.
    + unfold reset_frequency_domain. rewrite Himg. simpl. by rewrite Himg.
  - intros [res Hres].
    assert (apply_result_to_original cvt_hsv2bgr st
            = reset_frequency_domain cvt_hsv2bgr
                (with_spatial (Some res) st)) as ->.
    { unfold apply_result_to_original, reset_frequency_domain.
      by rewrite Hres. }
    apply reset_after_compute. by eexists.
Qed.

End Recompute.

Lemma getitem3_in_range (a : ndarray R) r c k v :
  getitem3 (fmap (M:=list) (fmap (M:=list)
              (px_map (fun x => astype_uint8 (clip x 0 255)))) a) r c k
  = Some v -> (0 <= v <= 255)%Z.
Proof.
  unfold getitem3. rewrite getitem_fmap.
  destruct (getitem a r c) as [[x0 x1 x2]|]; [|done]. simpl.
  intros [= <-]. unfold astype_uint8.
  assert (forall x, 0 <= x mod 256 <= 255)%Z as Hmod.
  { intros x. pose proof (Z.mod_pos_bound x 256 ltac:(lia)). lia. }
  destruct k; apply Hmod.
Qed.

(** X24. The inverse transform keeps the shape.  For a spectrum with at
    least one row and one column [inverse_transform] returns an image of
    the height and width of the spectrum whose samples are in 0..255;
    for a spectrum without a row or without a column it raises
    ([np.fft.ifft2] refuses the empty channel). *)
Theorem inverse_transform_keeps_shape (f : ndarray complex) :
  rectangular f ->
  if Fft.zero_size f then inverse_transform f = None
  else exists res,
         inverse_transform f = Some res
         /\ shape res = shape f /\ rectangular res
         /\ forall r c k v, getitem3 res r c k = Some v -> (0 <= v <= 255)%Z.
Proof.
  intros Hrect. set (w := snd (shape f)).
  assert (has_width w f) as Hw by exact Hrect.
  destruct (Fft.zero_size f) eqn:Hz.
  - assert (Fft.zero_size (Fft.ifftshift (slice_chan C0 f)) = true) as Hz0.
    { pose proof (has_width_ifftshift w _ (has_width_slice_chan C0 w f Hw))
        as Hsw.
      pose proof (length_ifftshift (slice_chan C0 f)) as Hsl.
      rewrite length_slice_chan in Hsl.
      unfold Fft.zero_size in *.
      destruct (Fft.ifftshift (slice_chan C0 f)) as [|row s] eqn:Hs;
        [done|].
      rewrite (shape_has_width w (row :: s)) by done.
      destruct f as [|row0 f0]; [simpl in Hsl; lia|].
      rewrite (shape_has_width w (row0 :: f0)) in Hz by done.
      simpl in Hz. simpl. by destruct w. }
    unfold inverse_transform, inverse_channel, Fft.ifft2.
    cbn [for_each all_chans]. rewrite Hz0. reflexivity.
  - assert (0 < length f /\ 0 < w)%nat as [Hh Hpos].
    { unfold Fft.zero_size in Hz. unfold w.
      destruct (shape f) as [[|h] [|w']] eqn:Hs; try done.
      injection Hs as Hl _. simpl. lia. }
    destruct (inverse_transform_shape w f Hw Hh Hpos)
      as (res & Hres & Hrw & Hrl).
    exists res. split; [done|]. split; [|split].
    + symmetry. by apply (same_shape w).
    + by apply (rectangular_of_has_width w).
    + intros r c k v. revert Hres. unfold inverse_transform.
      destruct (for_each _ _ _) as [a|]; [|done]. simpl.
      intros [= <-]. apply getitem3_in_range.
Qed.

(** ** The properties on the samples *)

Lemma bresenham_line_reaches_end_witness :
  bresenham_line 8 0 0 5 2 = Some (bresenham_points 0 0 5 2)
  /\ head (bresenham_points 0 0 5 2) = Some (0, 0)%Z
  /\ list.last (bresenham_points 0 0 5 2) = Some (5, 2)%Z.
Proof. apply (bresenham_line_reaches_end 0 0 5 2 8). simpl. lia. Defined.

Lemma square_spectrum_rectangular : rectangular square_spectrum.
Proof. unfold rectangular, square_spectrum. simpl. repeat constructor. Defined.

Lemma radial_filters_compose_witness :
  frequency_image
    (apply_radial_filter sample_hsv2bgr
       (apply_radial_filter sample_hsv2bgr square_state (1 / 2)) (1 / 4))
  = frequency_image
      (apply_radial_filter sample_hsv2bgr square_state
         (Rmin (1 / 2) (1 / 4))).
Proof.
  apply (radial_filters_compose sample_hsv2bgr square_state square_spectrum).
  - reflexivity.
  - exact square_spectrum_rectangular.
Defined.

Lemma radial_and_gaussian_filters_commute_witness :
  frequency_image
    (apply_gaussian_filter sample_hsv2bgr
       (apply_radial_filter sample_hsv2bgr square_state (1 / 2)) (1 / 4))
  = frequency_image
      (apply_radial_filter sample_hsv2bgr
         (apply_gaussian_filter sample_hsv2bgr square_state (1 / 4))
         (1 / 2)).
Proof.
  apply (radial_and_gaussian_filters_commute sample_hsv2bgr square_state
           square_spectrum).
  - reflexivity.
  - exact square_spectrum_rectangular.
Defined.

Lemma filters_only_attenuate_witness :
  exists f',
    frequency_image
      (apply_filter sample_hsv2bgr (MagnitudeThreshold (1 / 2)) loaded_unit)
    = Some f'
    /\ shape f' = shape (uniform_spectrum (mkC 1 0))
    /\ forall r c ch z,
         getitem3 (uniform_spectrum (mkC 1 0)) r c ch = Some z ->
         exists g, (0 <= g <= 1)%R
                   /\ getitem3 f' r c ch = Some (cscale g z).
Proof.
  destruct loaded_unit_caches as (Hf & Hm & _).
  apply (filters_only_attenuate sample_hsv2bgr (MagnitudeThreshold (1 / 2))
           loaded_unit (uniform_spectrum (mkC 1 0))).
  - exact Hf.
  - unfold rectangular, uniform_spectrum. simpl. repeat constructor.
  - intros mags Hmags. rewrite Hm in Hmags. injection Hmags as <-.
    split; [|reflexivity].
    unfold rectangular. simpl. repeat constructor.
Defined.

Lemma low_pass_filters_keep_centre_witness :
  (f' ← frequency_image
          (apply_radial_filter sample_hsv2bgr square_state (1 / 2));
   getitem3 f' 1 1 C0)
  = (f' ← frequency_image square_state; getitem3 f' 1 1 C0)
  /\ (f' ← frequency_image
             (apply_gaussian_filter sample_hsv2bgr square_state (1 / 4));
      getitem3 f' 1 1 C0)
     = (f' ← frequency_image square_state; getitem3 f' 1 1 C0).
Proof.
  apply (low_pass_filters_keep_centre sample_hsv2bgr square_state
           square_spectrum (1 / 2) (1 / 4) C0).
  - reflexivity.
  - exact square_spectrum_rectangular.
  - lra.
Defined.

Lemma low_pass_filters_on_single_bin_witness :
  apply_gaussian_filter sample_hsv2bgr
    (with_frequency (Some (uniform_spectrum (mkC 1 0)))
       (initial_state false false false)) (1 / 2)
  = with_frequency (Some (uniform_spectrum (mkC 1 0)))
      (initial_state false false false)
  /\ frequency_image
       (apply_radial_filter sample_hsv2bgr
          (with_frequency (Some (uniform_spectrum (mkC 1 0)))
             (initial_state false false false)) (1 / 4))
     = Some (uniform_spectrum (mkC 1 0)).
Proof.
  apply (low_pass_filters_on_single_bin sample_hsv2bgr).
  - reflexivity.
  - unfold rectangular, uniform_spectrum. simpl. repeat constructor.
  - simpl. lia.
  - simpl. lia.
Defined.

Lemma loaded_unit_caches_of :
  caches_of (uniform_spectrum (mkC 1 0)) loaded_unit.
Proof.
  destruct loaded_unit_caches as (Hf & _).
  exact (compute_frequency_domain_caches sample_hsv2bgr _ _ Hf).
Defined.

Lemma magnitude_filter_at_zero_keeps_all_witness :
  frequency_image (apply_magnitude_filter sample_hsv2bgr loaded_unit 0)
  = Some (uniform_spectrum (mkC 1 0)).
Proof.
  apply (magnitude_filter_at_zero_keeps_all sample_hsv2bgr loaded_unit).
  - destruct loaded_unit_caches_of as (Hf & Hm & Hr & Hn & _).
    by repeat split.
  - lra.
Defined.

Lemma normalize_for_display_is_monotone_witness :
  getitem (normalize_for_display [[0; 4]]%R 0 4) 0 0 = Some 0%Z
  /\ getitem (normalize_for_display [[0; 4]]%R 0 4) 0 1 = Some 255%Z.
Proof.
  destruct (normalize_for_display_is_monotone [[0; 4]]%R 0 4 0 0 0 1 0 4)
    as (u & v & Hu & Hv & _ & _ & Hlo & Hhi).
  - reflexivity.
  - reflexivity.
  - lra.
  - rewrite Hu, Hv.
    rewrite (Hlo ltac:(lra) ltac:(lra)), (Hhi ltac:(lra) ltac:(lra)).
    split; reflexivity.
Defined.

Lemma freq_strokes_respect_locks_witness :
  exists d',
    handle_freq_stroke sample_line_mask sample_circle_mask sample_canvas
      locked_display (CircleDrawn (mkQPoint 0 0) 2) sample_white
    = with_display (Some d') locked_display
    /\ shape d' = shape [[Px 10 20 30; Px 40 50 60]]%Z
    /\ (forall r c k,
          lock_state locked_display k = true ->
          getitem3 d' r c (map_bgr_to_rgb_idx k)
          = getitem3 [[Px 10 20 30; Px 40 50 60]]%Z r c
              (map_bgr_to_rgb_idx k))
    /\ (forall r c ch v,
          getitem3 d' r c ch = Some v ->
          getitem3 [[Px 10 20 30; Px 40 50 60]]%Z r c ch = Some v
          \/ (lock_state locked_display (map_rgb_to_bgr_idx ch) = false
              /\ v = if ((q_red sample_white <? 5)
                         && (q_green sample_white <? 5)
                         && (q_blue sample_white <? 5))%Z then 0%Z
                     else px_get ch (Px (q_red sample_white)
                                       (q_green sample_white)
                                       (q_blue sample_white)))).
Proof.
  apply (freq_strokes_respect_locks sample_line_mask sample_circle_mask).
  - reflexivity.
  - unfold rectangular. simpl. repeat constructor.
Defined.

Lemma point_stroke_commits_one_bin_witness :
  exists st' modified,
    freq_drawing_finished sample_hsv2bgr sample_bgr2hsv
      (handle_freq_point_drawn loaded_unit (mkQPoint 0 0) sample_white) []
    = (st', Finalized)
    /\ frequency_image st' = Some modified
    /\ forall r c k,
         getitem3 modified r c k
         = if decide (r = Z.to_nat 0 /\ c = Z.to_nat 0)
           then
             (fun z =>
                if ((255 <? 5) && (255 <? 5) && (255 <? 5))%Z
                then czero
                else magnitude_value (global_log_mag_range loaded_unit)
                       (px_get (map_bgr_to_rgb_idx k) (Px 255 255 255)%Z)
                       z) <$> getitem3 (uniform_spectrum (mkC 1 0)) r c k
           else getitem3 (uniform_spectrum (mkC 1 0)) r c k.
Proof.
  destruct loaded_unit_caches as (_ & _ & _ & Hn & Hlocks).
  apply (point_stroke_commits_one_bin sample_hsv2bgr sample_bgr2hsv
           loaded_unit (uniform_spectrum (mkC 1 0)) (mkQPoint 0 0)
           sample_white [] (Px 0 0 0)%Z).
  - exact loaded_unit_caches_of.
  - unfold rectangular, uniform_spectrum. simpl. repeat constructor.
  - exact Hlocks.
  - reflexivity.
  - rewrite Hn. reflexivity.
  - unfold freq_target. cbv zeta.
    pose proof (Hlocks C0) as H0. pose proof (Hlocks C1) as H1.
    pose proof (Hlocks C2) as H2. simpl in H0, H1, H2.
    rewrite H0, H1, H2. unfold differs. simpl. lia.
Defined.

Lemma sample_image_rectangular : rectangular sample_image.
Proof. unfold rectangular, sample_image. simpl. repeat constructor. Defined.

Lemma thin_lines_follow_bresenham_witness :
  (exists img',
     handle_spatial_line_drawn (fun img _ _ _ _ => img) thin_canvas
       sample_session (mkQPoint 0 0) (mkQPoint 1 1) sample_green
     = with_spatial (Some img') sample_session
     /\ shape img' = shape sample_image
     /\ forall r c,
          getitem img' r c
          = painted (fun _ _ _ => bgr_color sample_green)
              (bresenham_points 0 0 1 1) r c <$> getitem sample_image r c)
  /\ (exists d',
        handle_freq_line_drawn sample_line_mask thin_canvas locked_display
          (mkQPoint 0 0) (mkQPoint 1 0) sample_white
        = with_display (Some d') locked_display
        /\ shape d' = shape [[Px 10 20 30; Px 40 50 60]]%Z
        /\ forall r c,
             getitem d' r c
             = painted (fun _ _ => freq_target locked_display sample_white)
                 (bresenham_points 0 0 1 0) r c
                 <$> getitem [[Px 10 20 30; Px 40 50 60]]%Z r c)
  /\ (exists d',
        handle_phase_line_drawn sample_hsv2bgr sample_line_mask thin_canvas
          phase_display (mkQPoint 0 0) (mkQPoint 1 0) sample_green C0
        = with_display_phase_vis C0 (Some d') phase_display
        /\ shape d' = shape [[Px 1 1 1; Px 2 2 2]]%Z
        /\ forall r c,
             getitem d' r c
             = painted (phase_pixel sample_hsv2bgr sample_green
                          [[Px 10 20 30; Px 40 50 60]]%Z
                          (map_bgr_to_rgb_idx C0))
                 (bresenham_points 0 0 1 0) r c
                 <$> getitem [[Px 1 1 1; Px 2 2 2]]%Z r c).
Proof.
  assert (0 < zoom_factor thin_canvas)%R as Hz by (simpl; lra).
  assert (IZR (pen_width thin_canvas) < 3 / 2 * zoom_factor thin_canvas)%R
    as Hp by (simpl; lra).
  split; [|split].
  - destruct (thin_lines_follow_bresenham sample_hsv2bgr sample_line_mask
                (fun img _ _ _ _ => img) thin_canvas sample_session
                (mkQPoint 0 0) (mkQPoint 1 1) sample_green Hz Hp)
      as [Hspatial _].
    apply Hspatial.
    + reflexivity.
    + exact sample_image_rectangular.
  - destruct (thin_lines_follow_bresenham sample_hsv2bgr sample_line_mask
                (fun img _ _ _ _ => img) thin_canvas locked_display
                (mkQPoint 0 0) (mkQPoint 1 0) sample_white Hz Hp)
      as (_ & Hfreq & _).
    apply Hfreq.
    + reflexivity.
    + unfold rectangular. simpl. repeat constructor.
  - destruct (thin_lines_follow_bresenham sample_hsv2bgr sample_line_mask
                (fun img _ _ _ _ => img) thin_canvas phase_display
                (mkQPoint 0 0) (mkQPoint 1 0) sample_green Hz Hp)
      as (_ & _ & Hphase).
    apply (Hphase C0).
    + reflexivity.
    + reflexivity.
    + unfold rectangular. simpl. repeat constructor.
Defined.

Lemma phase_point_paints_hue_witness :
  exists d' hue,
    handle_phase_point_drawn sample_hsv2bgr phase_display (mkQPoint 1 0)
      sample_green C0
    = with_display_phase_vis C0 (Some d') phase_display
    /\ (0 <= hue <= 179)%Z /\ (Z.abs (2 * hue - 120) <= 1)%Z
    /\ shape d' = shape [[Px 1 1 1; Px 2 2 2]]%Z
    /\ forall r c,
         getitem d' r c
         = if decide (r = Z.to_nat 0 /\ c = Z.to_nat 1)
           then Some (sample_hsv2bgr (Px hue 255%Z (Z.max 1 60)))
           else getitem [[Px 1 1 1; Px 2 2 2]]%Z r c.
Proof.
  apply (phase_point_paints_hue sample_hsv2bgr phase_display (mkQPoint 1 0)
           sample_green C0 [[Px 1 1 1; Px 2 2 2]]%Z
           [[Px 10 20 30; Px 40 50 60]]%Z 60%Z).
  - reflexivity.
  - reflexivity.
  - unfold rectangular. simpl. repeat constructor.
  - reflexivity.
  - simpl. lia.
  - reflexivity.
Defined.



Lemma wheel_zooms_about_cursor_witness :
  image_position (wheelEvent sample_canvas (mkWheelEvent (mkQPoint 10 20) 120))
    sample_image (mkQPoint 10 20)
  = image_position sample_canvas sample_image (mkQPoint 10 20)
  /\ mapWidgetToImage
       (wheelEvent sample_canvas (mkWheelEvent (mkQPoint 10 20) 120))
       (mkQPoint 10 20)
     = mapWidgetToImage sample_canvas (mkQPoint 10 20).
Proof.
  apply (wheel_zooms_about_cursor sample_canvas sample_image
           (mkWheelEvent (mkQPoint 10 20) 120)).
  - reflexivity.
  - simpl. lra.
Defined.

Lemma scale_to_fit_fits_witness :
  offset_x (scale_to_fit sample_canvas) = 0%R
  /\ offset_y (scale_to_fit sample_canvas) = 0%R
  /\ (image_width sample_image * zoom_factor (scale_to_fit sample_canvas)
      <= 0.95 * IZR (width sample_canvas))%R
  /\ (image_height sample_image * zoom_factor (scale_to_fit sample_canvas)
      <= 0.95 * IZR (height sample_canvas))%R.
Proof.
  destruct (scale_to_fit_fits sample_canvas sample_image)
    as (Hx & Hy & _ & Hfit).
  - reflexivity.
  - reflexivity.
  - simpl. lia.
  - simpl. lia.
  - split; [exact Hx|]. split; [exact Hy|].
    destruct Hfit as (Hw & Hh & _); [|by split].
    unfold scale_to_fit, sample_canvas, image_width, image_height.
    simpl. unfold Rmax, Rmin.
    repeat (destruct (Rle_dec _ _)); simpl; lra.
Defined.

Lemma click_draws_then_hands_over_witness :
  exists cv' s,
    canvas_run sample_frombuffer sample_canvas
      [Press (left_click 200 150);
       SetImage (bgr_ndarray_to_qimage (Some sample_image));
       Release (left_click 200 150)]
    = Some (cv', [s; drawingFinished sample_image])
    /\ drawing cv' = false
    /\ let image_pos := mapWidgetToImage sample_canvas (mkQPoint 200 150) in
       if Rlt_dec (IZR (pen_width sample_canvas))
            (3 / 2 * zoom_factor sample_canvas)
       then s = pointDrawn image_pos (pen_color sample_canvas)
       else exists t,
              effective_pen_width (pen_width sample_canvas)
                (zoom_factor sample_canvas) = Some t
              /\ s = circleDrawn image_pos (t / 2) (pen_color sample_canvas)
              /\ (1 <= t / 2)%Z.
Proof.
  apply (click_draws_then_hands_over sample_frombuffer sample_canvas
           sample_image (left_click 200 150) (left_click 200 150)
           sample_image).
  - reflexivity.
  - reflexivity.
  - reflexivity.
  - simpl. lra.
  - reflexivity.
  - reflexivity.
  - reflexivity.
  - reflexivity.
Defined.

Lemma inverse_transform_keeps_shape_witness :
  if Fft.zero_size square_spectrum then inverse_transform square_spectrum = None
  else exists res,
         inverse_transform square_spectrum = Some res
         /\ shape res = shape square_spectrum /\ rectangular res
         /\ forall r c k v, getitem3 res r c k = Some v -> (0 <= v <= 255)%Z.
Proof.
  apply (inverse_transform_keeps_shape square_spectrum).
  exact square_spectrum_rectangular.
Defined.

Lemma points_outside_are_ignored_witness :
  handle_spatial_point_drawn sample_session (mkQPoint 5 5) sample_green
  = sample_session
  /\ handle_freq_point_drawn locked_display (mkQPoint (-1) 0) sample_white
     = locked_display
  /\ handle_phase_point_drawn sample_hsv2bgr phase_display (mkQPoint 0 7)
       sample_green C0
     = phase_display.
Proof.
  split; [|split].
  - destruct (points_outside_are_ignored sample_hsv2bgr sample_session
                (mkQPoint 5 5) sample_green C0) as (Hspatial & _).
    apply (Hspatial sample_image); reflexivity.
  - destruct (points_outside_are_ignored sample_hsv2bgr locked_display
                (mkQPoint (-1) 0) sample_white C0) as (_ & Hfreq & _).
    apply (Hfreq [[Px 10 20 30; Px 40 50 60]]%Z); reflexivity.
  - destruct (points_outside_are_ignored sample_hsv2bgr phase_display
                (mkQPoint 0 7) sample_green C0) as (_ & _ & Hphase & _).
    apply (Hphase [[Px 1 1 1; Px 2 2 2]]%Z); reflexivity.
Defined.

Lemma recomputing_twice_changes_nothing_witness :
  reset_frequency_domain sample_hsv2bgr
    (fst (apply_result_to_original sample_hsv2bgr
            (with_result (Some sample_image) sample_session)))
  = apply_result_to_original sample_hsv2bgr
      (with_result (Some sample_image) sample_session).
Proof.
  apply (recomputing_twice_changes_nothing sample_hsv2bgr
           (with_result (Some sample_image) sample_session)).
  by eexists.
Defined.

(** ** Which transitions keep the caches those of the spectrum *)

Lemma caches_of_magnitude f st : caches_of f st -> magnitude_caches_of f st.
Proof. intros (? & ? & ? & ? & _). by repeat split. Qed.

Section CacheInvariant.

Variable cvt_hsv2bgr : pixel Z -> pixel Z.
Variable cvt_bgr2hsv : pixel Z -> pixel Z.

(** The loop of a phase edit keeps every absolute value, and with it the
    log-magnitude of the spectrum. *)
Lemma reconcile_phase_log_magnitude orig drawn ch idxs modified :
  reconcile_phase cvt_bgr2hsv orig drawn ch idxs = Some modified ->
  log_magnitude modified = log_magnitude orig.
Proof.
  intros Hrec. apply ndarray_ext.
  - unfold log_magnitude. rewrite !length_fmap.
    unfold reconcile_phase in Hrec.
    eapply (for_each_preserves _ same_dom) in Hrec as [? _];
      eauto using same_dom_refl, same_dom_trans, reconcile_phase_pixel_dom.
  - intros r c k. rewrite !getitem3_log_magnitude.
    rewrite (reconcile_phase_get _ _ _ _ _ _ r c k Hrec).
    destruct (decide ((r, c) ∈ idxs /\ k = ch)) as [[Hin ->]|_]; [|done].
    destruct (reconcile_phase_defined _ _ _ _ _ _ r c Hrec Hin) as [v Hv].
    rewrite Hv. unfold phase_target in Hv.
    destruct (getitem drawn r c) as [px|]; simpl in Hv; [|done].
    destruct (getitem3 orig r c ch) as [z|]; simpl in Hv; [|done].
    injection Hv as <-. simpl. do 3 f_equal.
    unfold phase_value, cscale, cis. simpl.
    apply cabs_polar, cabs_nonneg.
Qed.

(** A phase edit, committed or not, leaves the caches those of the
    spectrum the state holds. *)
Lemma phase_drawing_finished_caches st drawn ch st' msg f :
  magnitude_caches_of f st ->
  _process_phase_drawing_finished cvt_hsv2bgr cvt_bgr2hsv st drawn ch
  = (st', msg) ->
  exists f', magnitude_caches_of f' st'
             /\ log_magnitude f' = log_magnitude f.
Proof.
  intros (Hf & Hm & Hr & Hn) H.
  assert (magnitude_caches_of f st) as Hst by done.
  unfold _process_phase_drawing_finished in H. rewrite Hf in H.
  destruct (display_phase_vis st ch);
    [|injection H as <- <-; by exists f].
  destruct (phase_vis st ch) as [base|];
    [|injection H as <- <-; by exists f].
  destruct (negb (bool_decide _)); [injection H as <- <-; by exists f|].
  cbv zeta in H.
  destruct (negb (np_any _)); [injection H as <- <-; by exists f|].
  destruct (reconcile_phase _ _ _ _ _) as [modified|] eqn:Hrec;
    [|injection H as <- <-; by exists f].
  apply commit_spec in H as (Hf' & (Hm' & Hr' & Hn' & _) & _).
  apply reconcile_phase_log_magnitude in Hrec.
  exists modified. split; [|done].
  unfold magnitude_caches_of. rewrite Hf', Hm', Hr', Hn', Hrec. done.
Qed.

(** C7, as the code has it.  After a load and after a filter that changes
    the spectrum, the LogMagnitude matrix, the global range and the
    baseline magnitude visualization are computed from the new spectrum.
    A phase edit commit does not compute them again, and they still are
    those of the new spectrum, whose absolute values the commit has kept.
    A magnitude edit commit leaves the three as they were before it. *)
Theorem caches_follow_load_and_filter st :
  (forall f,
      frequency_image (compute_frequency_domain cvt_hsv2bgr st) = Some f ->
      magnitude_caches_of f (compute_frequency_domain cvt_hsv2bgr st))
  /\ (forall k f',
        frequency_image (apply_filter cvt_hsv2bgr k st) = Some f' ->
        frequency_image (apply_filter cvt_hsv2bgr k st)
          <> frequency_image st ->
        is_Some (inverse_transform f') -> entries f' <> [] ->
        magnitude_caches_of f' (apply_filter cvt_hsv2bgr k st))
  /\ (forall f ch drawn st' msg,
        magnitude_caches_of f st ->
        _process_phase_drawing_finished cvt_hsv2bgr cvt_bgr2hsv st drawn ch
        = (st', msg) ->
        exists f', magnitude_caches_of f' st')
  /\ (forall drawn st' msg,
        freq_drawing_finished cvt_hsv2bgr cvt_bgr2hsv st drawn = (st', msg) ->
        magnitude_spectrum st' = magnitude_spectrum st
        /\ global_log_mag_range st' = global_log_mag_range st
        /\ normalized_spectrum st' = normalized_spectrum st).
Proof.
  split; [|split; [|split]].
  - intros f Hf. by apply caches_of_magnitude, compute_frequency_domain_caches.
  - intros k f' Hf' Hch Hinv Hne. apply caches_of_magnitude.
    assert (forall g,
              frequency_image
                (_post_filter_update cvt_hsv2bgr
                   (with_frequency (Some g) st)) = Some f' ->
              caches_of f'
                (_post_filter_update cvt_hsv2bgr
                   (with_frequency (Some g) st))) as Hpost.
    { intros g Hg. rewrite frequency_image_post_filter in Hg.
      simpl in Hg. injection Hg as ->.
      by apply post_filter_update_caches. }
    destruct k as [p|p|p]; simpl in *.
    + unfold apply_radial_filter in *.
      destruct (frequency_image st) as [f|] eqn:Hf; [|done]. auto.
    + unfold apply_magnitude_filter in *.
      destruct (frequency_image st) as [f|] eqn:Hf; [|done].
      destruct (magnitude_spectrum st) as [mags|]; [|done].
      destruct (Rlt_dec _ _); [done|]. auto.
    + unfold apply_gaussian_filter in *.
      destruct (frequency_image st) as [f|] eqn:Hf; [|done].
      destruct (Rlt_dec _ _); [done|]. auto.
  - intros f ch drawn st' msg Hc H.
    destruct (phase_drawing_finished_caches _ _ _ _ _ _ Hc H) as (f' & ? & _).
    by exists f'.
  - intros drawn st' msg H.
    apply (drawing_finished_same_caches _ _ MagnitudeEdit) in H
      as (? & ? & ? & _).
    auto.
Qed.

End CacheInvariant.

(** ** The caches on the samples *)

(** phase 0 is shown as hue 89 *)
Lemma hue_of_phase_0 : astype_uint8 ((0 + PI) / (2 * PI) * 179) = 89%Z.
Proof.
  pose proof PI_RGT_0 as Hpi.
  replace ((0 + PI) / (2 * PI) * 179)%R with (179 / 2)%R by (field; lra).
  unfold astype_uint8, trunc.
  destruct (Rle_dec 0 (179 / 2)) as [_|Hn]; [|lra].
  assert (Int_part (179 / 2) = 89%Z) as ->; [|done].
  symmetry. apply Int_part_spec. lra.
Qed.

Lemma loaded_unit_phase_vis :
  phase_vis loaded_unit C0 = Some [[Px 1 1 1]]%Z.
Proof.
  unfold loaded_unit, compute_frequency_domain.
  cbn [current_spatial_image with_spatial initial_state].
  rewrite forward_unit_image.
  assert (log_magnitude (uniform_spectrum (mkC 1 0))
          = [[Px unit_log_mag unit_log_mag unit_log_mag]]) as ->.
  { unfold log_magnitude, uniform_spectrum, unit_log_mag, px_map. simpl.
    rewrite cabs_real by lra. reflexivity. }
  unfold visualize, log_mag_range, np_min, np_max. simpl.
  rewrite !(Rmin_left unit_log_mag unit_log_mag) by lra.
  rewrite !(Rmax_left unit_log_mag unit_log_mag) by lra.
  destruct (Rlt_dec _ _) as [_|Hn];
    [|exfalso; apply Hn; pose proof epsilon_pos; lra].
  cbn [phase_vis phase_vis_b]. f_equal.
  unfold phase_visualization, normalize_for_display. simpl.
  destruct (Rlt_dec _ _) as [Hlt|_]; [exfalso; lra|].
  simpl. rewrite normalize_at_min by lra.
  rewrite angle_pos_real by lra. rewrite hue_of_phase_0. reflexivity.
Qed.

Lemma loaded_unit_magnitude_caches :
  magnitude_caches_of (uniform_spectrum (mkC 1 0)) loaded_unit.
Proof.
  destruct loaded_unit_caches as (Hf & _).
  apply caches_of_magnitude.
  exact (compute_frequency_domain_caches sample_hsv2bgr _ _ Hf).
Qed.

(** the magnitude filter at 50% zeroes the spectrum of [loaded_unit] *)
Lemma thresholded_unit_spectrum :
  frequency_image thresholded_unit = Some (uniform_spectrum (mkC 0 0)).
Proof.
  destruct loaded_unit_caches as (Hf & Hm & Hr & _).
  unfold thresholded_unit, apply_filter, apply_magnitude_filter.
  rewrite Hf, Hm, Hr. cbn [fst snd].
  destruct (Rlt_dec _ _) as [Hlt|_]; [exfalso; lra|].
  rewrite frequency_image_post_filter.
  cbn [with_frequency frequency_image]. f_equal.
  unfold magnitude_filtered, uniform_spectrum. simpl.
  destruct (Rlt_dec _ _) as [_|Hn]; [done|exfalso; lra].
Qed.

(** the green stroke on the blue phase canvas of [loaded_unit] is
    committed and turns the blue entry *)
Lemma phase_unit_edit_commits :
  exists st',
    phase_unit_edit = (st', Finalized)
    /\ frequency_image st'
       = Some [[Px (phase_value sample_bgr2hsv (Px 0 255 0)%Z (mkC 1 0))
                  (mkC 1 0) (mkC 1 0)]].
Proof.
  destruct loaded_unit_caches as (Hf & _).
  apply (phase_drawing_finished_commits sample_hsv2bgr sample_bgr2hsv
           phase_painted_unit green_stroke C0
           (uniform_spectrum (mkC 1 0)) green_stroke [[Px 1 1 1]]%Z);
    try reflexivity; try exact Hf; try exact loaded_unit_phase_vis.
  apply inverse_transform_is_Some. intros []; reflexivity.
Qed.

(** the stroke has turned the blue entry away from 1 *)
Lemma phase_unit_edit_turns :
  phase_value sample_bgr2hsv (Px 0 255 0)%Z (mkC 1 0) <> mkC 1 0.
Proof.
  unfold phase_value, cscale, cis.
  assert (ch0 (sample_bgr2hsv (Px 0 255 0)%Z) = 60%Z) as -> by reflexivity.
  rewrite cabs_real by lra. intros [= He _].
  pose proof PI_RGT_0 as Hpi.
  pose proof (cos_lt_1_sym (60 / 179 * (2 * PI) - PI)) as Hlt.
  rewrite Rmult_1_l in He. rewrite He in Hlt.
  assert (1 < 1)%R; [|lra]. apply Hlt; lra.
Qed.

Lemma caches_follow_load_and_filter_witness :
  magnitude_caches_of (uniform_spectrum (mkC 1 0)) loaded_unit
  /\ (frequency_image thresholded_unit <> frequency_image loaded_unit
      /\ magnitude_caches_of (uniform_spectrum (mkC 0 0)) thresholded_unit)
  /\ (snd phase_unit_edit = Finalized
      /\ frequency_image (fst phase_unit_edit)
         <> frequency_image phase_painted_unit
      /\ exists f', magnitude_caches_of f' (fst phase_unit_edit))
  /\ (magnitude_spectrum (fst bright_edit) = magnitude_spectrum brightened
      /\ global_log_mag_range (fst bright_edit)
         = global_log_mag_range brightened
      /\ normalized_spectrum (fst bright_edit)
         = normalized_spectrum brightened).
Proof.
  assert (frequency_image thresholded_unit <> frequency_image loaded_unit)
    as Hchanged.
  { rewrite thresholded_unit_spectrum.
    destruct loaded_unit_caches as (-> & _). intros [= He]. lra. }
  split; [|split; [|split]].
  - destruct (caches_follow_load_and_filter sample_hsv2bgr sample_bgr2hsv
                (with_spatial (Some unit_image)
                   (initial_state false false false))) as (Hload & _).
    apply Hload. apply loaded_unit_caches.
  - split; [exact Hchanged|].
    destruct (caches_follow_load_and_filter sample_hsv2bgr sample_bgr2hsv
                loaded_unit) as (_ & Hfilter & _).
    apply (Hfilter (MagnitudeThreshold (1 / 2))
             (uniform_spectrum (mkC 0 0))).
    + exact thresholded_unit_spectrum.
    + exact Hchanged.
    + apply inverse_transform_is_Some. intros []; reflexivity.
    + discriminate.
  - destruct phase_unit_edit_commits as (st' & Hedit & Hf').
    rewrite Hedit. cbn [fst snd]. split; [reflexivity|]. split.
    + rewrite Hf'. cbn [phase_painted_unit with_phase_displays
                        frequency_image].
      destruct loaded_unit_caches as (-> & _). intros He.
      apply phase_unit_edit_turns. unfold uniform_spectrum in He.
      congruence.
    + destruct (caches_follow_load_and_filter sample_hsv2bgr sample_bgr2hsv
                  phase_painted_unit) as (_ & _ & Hphase & _).
      apply (Hphase (uniform_spectrum (mkC 1 0)) C0 green_stroke st'
               Finalized).
      * exact loaded_unit_magnitude_caches.
      * exact Hedit.
  - destruct (caches_follow_load_and_filter sample_hsv2bgr sample_bgr2hsv
                brightened) as (_ & _ & _ & Hedit).
    apply (Hedit [[Px 255 255 255]]%Z (fst bright_edit) (snd bright_edit)).
    apply surjective_pairing.
Defined.

(** ** Distances of complex numbers *)

Lemma cabs_triangle a b : (cabs (cadd a b) <= cabs a + cabs b)%R.
Proof.
  unfold cabs, cadd. simpl.
  set (x := Re a). set (y := Im a). set (u := Re b). set (v := Im b).
  set (s := sqrt (x * x + y * y)). set (t := sqrt (u * u + v * v)).
  assert (0 <= s)%R as Hs by apply sqrt_pos.
  assert (0 <= t)%R as Ht by apply sqrt_pos.
  assert (s * s = x * x + y * y)%R as Hs2 by (apply sqrt_sqrt; nra).
  assert (t * t = u * u + v * v)%R as Ht2 by (apply sqrt_sqrt; nra).
  assert (x * u + y * v <= s * t)%R as Hcs.
  { destruct (Rle_dec (x * u + y * v) 0) as [Hn|Hp]; [nra|].
    apply Rnot_le_lt in Hp.
    assert ((x * u + y * v) * (x * u + y * v) <= (s * t) * (s * t))%R
      as Hsq.
    { replace (s * t * (s * t))%R with ((s * s) * (t * t))%R by ring.
      rewrite Hs2, Ht2.
      pose proof (Rle_0_sqr (x * v - y * u)) as Hd. unfold Rsqr in Hd.
      replace ((x * x + y * y) * (u * u + v * v))%R
        with ((x * u + y * v) * (x * u + y * v)
              + (x * v - y * u) * (x * v - y * u))%R by ring.
      lra. }
    assert (0 <= s * t)%R as Hst by nra.
    destruct (Rle_lt_dec (x * u + y * v) (s * t)) as [Hle|Hlt]; [done|].
    pose proof (Rmult_lt_0_compat (x * u + y * v - s * t)
                  (x * u + y * v + s * t) ltac:(lra) ltac:(lra)).
    lra. }
  rewrite <- (sqrt_square (s + t)) by lra.
  apply sqrt_le_1_alt. nra.
Qed.

Lemma cabs_cmul_cis z theta : cabs (cmul z (cis theta)) = cabs z.
Proof.
  unfold cabs, cmul, cis. simpl. f_equal.
  pose proof (sin2_cos2 theta) as H. unfold Rsqr in H.
  set (c := cos theta) in *. set (s := sin theta) in *.
  replace ((Re z * c - Im z * s) * (Re z * c - Im z * s)
           + (Re z * s + Im z * c) * (Re z * s + Im z * c))%R
    with ((Re z * Re z + Im z * Im z) * (s * s + c * c))%R by ring.
  rewrite H. ring.
Qed.

Lemma cabs_csum_le f N M :
  (forall n, (n < N)%nat -> (cabs (f n) <= M)%R) ->
  (cabs (Fft.csum f N) <= INR N * M)%R.
Proof.
  induction N as [|N IH]; intros Hf.
  - simpl. rewrite cabs_czero. lra.
  - cbn [Fft.csum]. rewrite S_INR.
    pose proof (cabs_triangle (Fft.csum f N) (f N)) as Ht.
    assert (cabs (Fft.csum f N) <= INR N * M)%R by (apply IH; auto with lia).
    assert (cabs (f N) <= M)%R by (apply Hf; lia). lra.
Qed.

Lemma csub_cscale m a b : csub (cscale m a) (cscale m b) = cscale m (csub a b).
Proof. apply complex_eq; simpl; ring. Qed.

Lemma csub_cmul a b c : csub (cmul a c) (cmul b c) = cmul (csub a b) c.
Proof. apply complex_eq; simpl; ring. Qed.

Lemma csub_csum f g N :
  csub (Fft.csum f N) (Fft.csum g N)
  = Fft.csum (fun n => csub (f n) (g n)) N.
Proof.
  induction N as [|N IH]; [apply complex_eq; simpl; ring|].
  cbn [Fft.csum]. rewrite <- IH. apply complex_eq; simpl; ring.
Qed.

Lemma cdist_refl z : cdist z z = 0%R.
Proof.
  unfold cdist, csub, cabs. simpl.
  replace ((Re z - Re z) * (Re z - Re z)
           + (Im z - Im z) * (Im z - Im z))%R with 0%R by ring.
  apply sqrt_0.
Qed.

Lemma cdist_triangle a b c : (cdist a c <= cdist a b + cdist b c)%R.
Proof.
  unfold cdist.
  replace (csub a c) with (cadd (csub a b) (csub b c))
    by (apply complex_eq; simpl; ring).
  apply cabs_triangle.
Qed.

(** [|z| - |w|] is at most the distance of [z] and [w] *)
Lemma cabs_cdist z w : (Rabs (cabs z - cabs w) <= cdist z w)%R.
Proof.
  assert (forall a b, cabs a <= cabs b + cdist a b)%R as Hle.
  { intros a b. unfold cdist.
    replace a with (cadd b (csub a b)) at 1
      by (apply complex_eq; simpl; ring).
    apply cabs_triangle. }
  assert (cdist w z = cdist z w) as Hsym.
  { unfold cdist, csub, cabs. simpl. f_equal. ring. }
  pose proof (Hle z w). pose proof (Hle w z). rewrite Hsym in *.
  unfold Rabs. destruct (Rcase_abs _); lra.
Qed.

(** ** The inverse transform does not spread an error *)

Section Near.

Variable eps : R.
Hypothesis eps_nonneg : (0 <= eps)%R.

Let P (z w : complex) : Prop := (cdist z w <= eps)%R.

Lemma lookup_near x y n :
  Forall2 P x y -> P (default czero (x !! n)) (default czero (y !! n)).
Proof.
  intros H. pose proof (proj1 (Forall2_lookup _ _ _) H n) as Hn.
  destruct Hn as [a b Hab|]; simpl; [done|].
  unfold P. rewrite cdist_refl. done.
Qed.

(** One inverse transform of length [N]: a mean of [N] terms, each as far
    from its counterpart as the entries are. *)
Lemma ifft_near x y : Forall2 P x y -> Forall2 P (Fft.ifft x) (Fft.ifft y).
Proof.
  intros H. pose proof (Forall2_length H) as Hlen.
  unfold Fft.ifft, Fft.dft. rewrite <- !list_fmap_compose, <- Hlen.
  apply Forall2_fmap, Forall_Forall2_diag, Forall_forall.
  intros k Hk. apply list_elem_of_In, elem_of_seq in Hk as [_ Hk].
  simpl in Hk. set (N := length x) in *. unfold P, cdist. simpl.
  assert (0 < INR N)%R as HN by (apply lt_0_INR; lia).
  rewrite csub_cscale, csub_csum.
  rewrite cabs_cscale by (left; by apply Rinv_0_lt_compat).
  assert (cabs (Fft.csum (fun n =>
            csub (cmul (default czero (x !! n))
                       (cis (1 * (2 * PI * INR k * INR n / INR N))))
                 (cmul (default czero (y !! n))
                       (cis (1 * (2 * PI * INR k * INR n / INR N))))) N)
          <= INR N * eps)%R as Hsum.
  { apply cabs_csum_le. intros n _. rewrite csub_cmul, cabs_cmul_cis.
    apply (lookup_near x y n H). }
  apply (Rmult_le_compat_l (/ INR N)) in Hsum;
    [|left; by apply Rinv_0_lt_compat].
  replace (/ INR N * (INR N * eps))%R with eps in Hsum by (field; lra).
  exact Hsum.
Qed.

Lemma along_rows_near a b :
  near eps a b ->
  near eps (Fft.along_rows Fft.ifft a) (Fft.along_rows Fft.ifft b).
Proof.
  unfold near, Fft.along_rows. intros H. apply Forall2_fmap.
  eapply Forall2_impl; [|exact H]. intros x y. apply ifft_near.
Qed.

Lemma column_near a b c :
  near eps a b -> Forall2 P (Fft.column a c) (Fft.column b c).
Proof.
  unfold near, Fft.column. induction 1 as [|ra rb a b Hr _ IH]; [constructor|].
  simpl. pose proof (proj1 (Forall2_lookup _ _ _) Hr c) as Hc.
  destruct Hc; [by constructor|done].
Qed.

Lemma near_shape a b : near eps a b -> shape a = shape b.
Proof.
  intros H. unfold shape. rewrite (Forall2_length H).
  destruct H as [|ra rb a b Hr _]; [done|].
  by rewrite (Forall2_length Hr).
Qed.

Lemma near_has_width w a b : near eps a b -> has_width w b -> has_width w a.
Proof.
  unfold near, has_width. induction 1 as [|ra rb a b Hr _ IH]; [done|].
  intros Hw. inversion Hw; subst. constructor; [|auto].
  by rewrite (Forall2_length Hr).
Qed.

Lemma along_columns_near a b :
  near eps a b ->
  near eps (Fft.along_columns Fft.ifft a) (Fft.along_columns Fft.ifft b).
Proof.
  intros H. unfold Fft.along_columns.
  rewrite <- (near_shape a b H), <- (Forall2_length H).
  apply Forall2_fmap, Forall_Forall2_diag, Forall_forall. intros r _.
  apply Forall2_fmap, Forall_Forall2_diag, Forall_forall. intros c _.
  apply lookup_near, ifft_near, column_near, H.
Qed.

(** [ifft2] of two arrays at most [eps] apart: at most [eps] apart. *)
Lemma ifft2_near a b :
  near eps a b -> option_Forall2 (near eps) (Fft.ifft2 a) (Fft.ifft2 b).
Proof.
  intros H. unfold Fft.ifft2, Fft.zero_size.
  rewrite <- (near_shape a b H).
  destruct (shape a) as [[|h] [|w]]; try constructor.
  by apply along_columns_near, along_rows_near.
Qed.

End Near.

Lemma near_trans e1 e2 a b c :
  near e1 a b -> near e2 b c -> near (e1 + e2) a c.
Proof.
  unfold near. apply Forall2_trans. intros x y z.
  apply Forall2_trans. intros u v w Huv Hvw.
  pose proof (cdist_triangle u v w). lra.
Qed.

Lemma near_getitem eps a b r c z :
  near eps a b -> getitem b r c = Some z ->
  exists z', getitem a r c = Some z' /\ (cdist z' z <= eps)%R.
Proof.
  unfold near, getitem. intros H Hz.
  destruct (b !! r) as [rb|] eqn:Hb; [|done].
  destruct (Forall2_lookup_r _ _ _ _ _ H Hb) as (ra & -> & Hr).
  destruct (Forall2_lookup_r _ _ _ _ _ Hr Hz) as (z' & ? & ?). eauto.
Qed.

(** ** The round trip in floating point *)

Lemma log_mag_range_nonempty (mag : ndarray R) :
  entries mag <> [] -> is_Some (log_mag_range mag).
Proof.
  intros Hne. unfold log_mag_range, np_min, np_max.
  destruct (entries mag); [done|]. destruct (Rlt_dec _ _); eauto.
Qed.

Section FloatRoundTrip.

Variable np_fft2 : list (list complex) -> option (list (list complex)).
Variable np_ifft2 : list (list complex) -> option (list (list complex)).
Variable np_abs : complex -> R.
Variables eps_f eps_i eps_a : R.

Variable img : ndarray Z.
Hypothesis img_valid : valid_image img.
Hypothesis accurate :
  fft_accuracy np_fft2 np_ifft2 np_abs eps_f eps_i eps_a img.

Let h := length img.
Let w := snd (shape img).

(** channel [c] as floats and its exact transform *)
Let X (c : chan) : list (list complex) := img_channel_float img c.
Let Fc (c : chan) := Fft.along_columns Fft.fft (Fft.along_rows Fft.fft (X c)).

(** what numpy computes: the transform, the spectrum, the transform back
    and its absolute values *)
Let Ft (c : chan) : list (list complex) := default [] (np_fft2 (X c)).
Let Bt (c : chan) : list (list complex) := default [] (np_ifft2 (Ft c)).
Let S (c : chan) := Fft.fftshift (Ft c).
Let spectrum : ndarray complex :=
  assign_chan C2 (S C2)
    (assign_chan C1 (S C1) (assign_chan C0 (S C0) (full h w czero))).
Let Y (c : chan) : list (list R) :=
  fmap (M:=list) (fmap (M:=list) np_abs) (Bt c).
Let back : ndarray R :=
  assign_chan C2 (Y C2)
    (assign_chan C1 (Y C1) (assign_chan C0 (Y C0) (full h w 0%R))).

Lemma exact_pair c :
  Fft.fft2 (X c) = Some (Fc c) /\ Fft.ifft2 (Fc c) = Some (X c)
  /\ has_width w (Fc c) /\ length (Fc c) = h
  /\ has_width w (X c) /\ length (X c) = h.
Proof.
  destruct (transform_pair img img_valid c) as (? & ? & ? & ?).
  destruct (X_shape img img_valid c) as (? & ?). done.
Qed.

Lemma fft_computed c :
  np_fft2 (X c) = Some (Ft c) /\ near eps_f (Ft c) (Fc c)
  /\ has_width w (Ft c) /\ length (Ft c) = h.
Proof.
  destruct (accurate c) as [Hf _]. fold (X c) in Hf.
  destruct (exact_pair c) as (Hexact & _ & HFw & HFl & _).
  rewrite Hexact in Hf. unfold Ft.
  inversion Hf as [F F' Hnear HF|]; subst. simpl.
  split; [done|]. split; [done|]. split.
  - by apply (near_has_width eps_f w F (Fc c)).
  - rewrite <- HFl. exact (Forall2_length Hnear).
Qed.

(** an array with an entry is at a distance that is not negative *)
Lemma near_nonneg eps (a b : list (list complex)) ww :
  near eps a b -> has_width ww a -> (0 < length a)%nat -> (0 < ww)%nat ->
  (0 <= eps)%R.
Proof.
  intros H Hw Hl Hww. destruct H as [|ra rb a b Hr _]; [simpl in Hl; lia|].
  inversion Hw as [|? ? Hra _]; subst.
  destruct Hr as [|z z' ? ? Hz _]; [simpl in Hww; lia|].
  pose proof (cabs_nonneg (csub z z')). unfold cdist in Hz. lra.
Qed.

Lemma ifft_computed c :
  np_ifft2 (Ft c) = Some (Bt c) /\ near (eps_i + eps_f) (Bt c) (X c)
  /\ has_width w (Bt c) /\ length (Bt c) = h
  /\ Forall (Forall (fun z => (Rabs (np_abs z - cabs z) <= eps_a)%R)) (Bt c).
Proof.
  destruct (valid_image_shape img img_valid) as (_ & Hh & Hw).
  destruct (fft_computed c) as (Hft & Hnear & HFw & HFl).
  destruct (exact_pair c) as (_ & Hinv & _ & _ & HXw & HXl).
  destruct (accurate c) as [_ Hi]. fold (X c) in Hi.
  destruct (Hi (Ft c) Hft) as [Hib Habs].
  assert (0 <= eps_f)%R as Hf0.
  { apply (near_nonneg eps_f (Ft c) (Fc c) w); try done. fold h. lia. }
  pose proof (ifft2_near eps_f Hf0 (Ft c) (Fc c) Hnear) as Hexact.
  rewrite Hinv in Hexact.
  inversion Hexact as [E E' HE HE1 HE2|]; subst.
  rewrite <- HE1 in Hib. unfold Bt.
  inversion Hib as [B B' HB HB1 HB2|]; subst. simpl.
  pose proof (near_trans _ _ _ _ _ HB HE) as Htot.
  split; [done|]. split; [done|]. split; [|split].
  - by apply (near_has_width (eps_i + eps_f) w B (X c)).
  - rewrite <- HXl. exact (Forall2_length Htot).
  - apply Habs. by symmetry.
Qed.

Lemma S_fp_shape c : has_width w (S c) /\ length (S c) = h.
Proof.
  destruct (fft_computed c) as (_ & _ & HFw & HFl). unfold S. split.
  - by apply has_width_fftshift.
  - by rewrite length_fftshift.
Qed.

Lemma forward_transform_fp_spectrum :
  forward_transform_fp np_fft2 img = Some spectrum.
Proof.
  unfold forward_transform_fp, forward_channel_fp.
  cbn [for_each all_chans]. fold (X C0) (X C1) (X C2).
  destruct (fft_computed C0) as (-> & _).
  destruct (fft_computed C1) as (-> & _).
  destruct (fft_computed C2) as (-> & _).
  reflexivity.
Qed.

Lemma spectrum_fp_channels c :
  slice_chan c spectrum = S c /\ has_width w spectrum
  /\ length spectrum = h.
Proof. apply (slice_assigned h w S czero c). apply S_fp_shape. Qed.

Lemma spectrum_fp_shape : shape spectrum = (h, w).
Proof.
  destruct (valid_image_shape img img_valid) as (_ & Hh & Hw).
  destruct (spectrum_fp_channels C0) as (_ & Hsw & Hsl).
  rewrite (shape_has_width w) by (try done; intros He; rewrite He in Hsl;
                                  simpl in Hsl; fold h in Hh; lia).
  by rewrite Hsl.
Qed.

Lemma inverse_channel_fp_spectrum c :
  inverse_channel_fp np_ifft2 np_abs spectrum c = Some (Y c).
Proof.
  unfold inverse_channel_fp.
  destruct (spectrum_fp_channels c) as (-> & _).
  unfold S. rewrite ifftshift_fftshift.
  destruct (ifft_computed c) as (-> & _). reflexivity.
Qed.

Lemma Y_fp_shape c : has_width w (Y c) /\ length (Y c) = h.
Proof.
  destruct (ifft_computed c) as (_ & _ & HBw & HBl & _). unfold Y. split.
  - by apply has_width_fmap.
  - by rewrite length_fmap.
Qed.

Lemma inverse_transform_fp_spectrum :
  inverse_transform_fp np_ifft2 np_abs spectrum
  = Some (fmap (M:=list) (fmap (M:=list)
            (px_map (fun x => astype_uint8 (clip x 0 255)))) back).
Proof.
  unfold inverse_transform_fp. rewrite spectrum_fp_shape.
  cbn [for_each all_chans fst snd mbind option_bind].
  rewrite !inverse_channel_fp_spectrum. reflexivity.
Qed.

(** every float computed back is less than 1 from the sample *)
Lemma back_near r c k v :
  (eps_f + eps_i + eps_a < 1)%R ->
  getitem3 img r c k = Some v ->
  exists x, getitem3 back r c k = Some x /\ (Rabs (x - IZR v) < 1)%R.
Proof.
  intros Heps Hv.
  destruct img_valid as (_ & _ & Hrange).
  destruct (Hrange r c k v Hv) as [Hlo _]. apply IZR_le in Hlo.
  destruct (ifft_computed k) as (_ & Hnear & _ & _ & Habs).
  assert (getitem (X k) r c = Some (mkC (IZR v) 0)) as HX.
  { unfold X, img_channel_float.
    by rewrite getitem_fmap, getitem_slice_chan, Hv. }
  destruct (near_getitem _ _ _ r c _ Hnear HX) as (z & Hz & Hd).
  assert (Rabs (np_abs z - cabs z) <= eps_a)%R as Ha.
  { unfold getitem in Hz. destruct (Bt k !! r) as [row|] eqn:Hrow; [|done].
    rewrite Forall_forall in Habs.
    assert (In row (Bt k)) as Hin
      by (apply list_elem_of_In, list_elem_of_lookup; eauto).
    specialize (Habs row Hin). rewrite Forall_forall in Habs.
    apply Habs, list_elem_of_In, list_elem_of_lookup. eauto. }
  exists (np_abs z). split.
  - pose proof (slice_assigned h w Y 0%R k Y_fp_shape) as (Hk & _).
    fold back in Hk. rewrite <- (getitem_slice_chan k back), Hk.
    unfold Y. by rewrite getitem_fmap, Hz.
  - pose proof (cabs_cdist z (mkC (IZR v) 0)) as Hc.
    rewrite (cabs_real (IZR v)) in Hc by done.
    revert Ha Hc. unfold Rabs. repeat destruct (Rcase_abs _); intros; lra.
Qed.

Lemma round_trip_fp :
  (eps_f + eps_i + eps_a < 1)%R ->
  exists f out,
    forward_transform_fp np_fft2 img = Some f
    /\ entries f <> []
    /\ inverse_transform_fp np_ifft2 np_abs f = Some out
    /\ shape out = shape img
    /\ forall r c k v,
         getitem3 img r c k = Some v ->
         exists v', getitem3 out r c k = Some v'
                    /\ (Z.abs (v' - v) <= 1)%Z.
Proof.
  intros Heps.
  destruct (valid_image_shape img img_valid) as (Hiw & Hh & Hw).
  destruct img_valid as (_ & _ & Hrange).
  pose proof (slice_assigned h w Y 0%R C0 Y_fp_shape) as (_ & Hbw & Hbl).
  fold back in Hbw, Hbl.
  exists spectrum. eexists.
  split; [apply forward_transform_fp_spectrum|]. split.
  { destruct (spectrum_fp_channels C0) as (_ & Hsw & Hsl).
    apply (entries_nonempty w); [done|fold h in Hh; lia|done]. }
  split; [apply inverse_transform_fp_spectrum|]. split.
  - rewrite (shape_has_width w img Hiw)
      by (intros He; rewrite He in Hh; simpl in Hh; lia).
    rewrite (shape_has_width w).
    + by rewrite length_fmap, Hbl.
    + by apply has_width_fmap.
    + intros He. apply (f_equal length) in He.
      rewrite length_fmap, Hbl in He. simpl in He. fold h in Hh. lia.
  - intros r c k v Hv.
    destruct (back_near r c k v Heps Hv) as (x & Hx & Hd).
    exists (astype_uint8 (clip x 0 255)). split.
    + unfold getitem3 in *. rewrite getitem_fmap.
      destruct (getitem back r c) as [[? ? ?]|]; simpl in *; [|done].
      destruct k; simpl in *; by injection Hx as ->.
    + apply quantize_tolerance; eauto.
Qed.

End FloatRoundTrip.

(** With the exact transforms and [cabs] for numpy's, the functions of
    this section are those of the engine. *)
Lemma forward_transform_fp_exact img :
  forward_transform_fp Fft.fft2 img = forward_transform img.
Proof. reflexivity. Qed.

Lemma inverse_transform_fp_exact f :
  inverse_transform_fp Fft.ifft2 cabs f = inverse_transform f.
Proof. reflexivity. Qed.

Lemma compute_frequency_domain_fp_exact cvt st :
  compute_frequency_domain_fp Fft.fft2 cabs cvt st
  = compute_frequency_domain cvt st.
Proof. reflexivity. Qed.

(** C5. Loading a valid image (3 channels of 8-bit samples, at least one
    pixel; 1 x 1 and solid-colour images included) computes a spectrum,
    and the inverse transform of that spectrum, with no edit in between,
    is an image of the same shape whose samples differ from the original
    ones by at most 1.  The transforms and [np.abs] are numpy's, in
    floating point: [fft2] within [eps_f] of the exact transform of each
    channel, [ifft2] within [eps_i] of the exact inverse transform of
    what [fft2] gave, [np.abs] within [eps_a] of the absolute value, and
    the three errors together below 1.  The exact inverse transform undoes
    the exact transform and does not spread the error of [fft2]; the clip
    and the truncating cast then give the sample or the one below it. *)
Theorem round_trip
    (np_fft2 np_ifft2 : list (list complex) -> option (list (list complex)))
    (np_abs : complex -> R) (cvt_hsv2bgr : pixel Z -> pixel Z)
    (eps_f eps_i eps_a : R) (st : AppState) (img : ndarray Z) :
  valid_image img ->
  fft_accuracy np_fft2 np_ifft2 np_abs eps_f eps_i eps_a img ->
  (eps_f + eps_i + eps_a < 1)%R ->
  exists f out,
    frequency_image
      (compute_frequency_domain_fp np_fft2 np_abs cvt_hsv2bgr
         (with_spatial (Some img) st))
    = Some f
    /\ inverse_transform_fp np_ifft2 np_abs f = Some out
    /\ shape out = shape img
    /\ forall r c k v,
         getitem3 img r c k = Some v ->
         exists v', getitem3 out r c k = Some v'
                    /\ (Z.abs (v' - v) <= 1)%Z.
Proof.
  intros Hvalid Hacc Heps.
  destruct (round_trip_fp np_fft2 np_ifft2 np_abs eps_f eps_i eps_a img
              Hvalid Hacc Heps) as (f & out & Hfwd & Hne & Hinv & Hrest).
  exists f, out. split; [|done].
  unfold compute_frequency_domain_fp.
  cbn [with_spatial current_spatial_image]. rewrite Hfwd.
  destruct (log_mag_range_nonempty (log_magnitude_fp np_abs f))
    as [rng Hr].
  { unfold log_magnitude_fp. rewrite entries_fmap.
    by destruct (entries f). }
  unfold visualize. rewrite Hr. reflexivity.
Qed.


(** ** The round trip on the samples *)

Lemma near_refl (a : list (list complex)) : near 0 a a.
Proof.
  apply Forall_Forall2_diag, Forall_forall. intros row _.
  apply Forall_Forall2_diag, Forall_forall. intros z _.
  rewrite cdist_refl. lra.
Qed.

(** the sample implementation is a quarter from the exact one *)
Lemma quarter_low_near (a : list (list complex)) :
  near (1 / 4) (fmap (M:=list) (fmap (M:=list) quarter_low) a) a.
Proof.
  apply Forall2_fmap_l, Forall_Forall2_diag, Forall_forall. intros row _.
  apply Forall2_fmap_l, Forall_Forall2_diag, Forall_forall. intros z _.
  unfold cdist, csub, cabs, quarter_low. simpl.
  replace ((Re z - 1 / 4 - Re z) * (Re z - 1 / 4 - Re z)
           + (Im z - Im z) * (Im z - Im z))%R
    with ((1 / 4) * (1 / 4))%R by field.
  rewrite sqrt_square by lra. lra.
Qed.

Lemma sample_fft_accuracy (img : ndarray Z) :
  fft_accuracy sample_np_fft2 sample_np_ifft2 cabs (1 / 4) (1 / 4) 0 img.
Proof.
  intros c. split.
  - unfold sample_np_fft2. destruct (Fft.fft2 _); constructor.
    apply quarter_low_near.
  - intros F _. split.
    + unfold sample_np_ifft2. destruct (Fft.ifft2 F) as [E|]; constructor.
      apply quarter_low_near.
    + intros B _. apply Forall_forall. intros row _.
      apply Forall_forall. intros z _.
      rewrite Rminus_diag, Rabs_R0. lra.
Qed.

Lemma round_trip_witness :
  exists f out,
    frequency_image
      (compute_frequency_domain_fp sample_np_fft2 cabs sample_hsv2bgr
         (with_spatial (Some sample_image) (initial_state false false false)))
    = Some f
    /\ inverse_transform_fp sample_np_ifft2 cabs f = Some out
    /\ shape out = shape sample_image
    /\ forall r c k v,
         getitem3 sample_image r c k = Some v ->
         exists v', getitem3 out r c k = Some v'
                    /\ (Z.abs (v' - v) <= 1)%Z.
Proof.
  apply (round_trip sample_np_fft2 sample_np_ifft2 cabs sample_hsv2bgr
           (1 / 4) (1 / 4) 0 (initial_state false false false)
           sample_image).
  - exact sample_image_valid.
  - exact (sample_fft_accuracy sample_image).
  - lra.
Defined.

Lemma ifftshift_singleton {A} (z : A) : Fft.ifftshift [[z]] = [[z]].
Proof. reflexivity. Qed.

(** The bound is reached: with the sample implementation the image of one
    pixel [(1, 1, 1)] has the spectrum [3/4] and comes back as
    [(0, 0, 0)]. *)
Lemma round_trip_loses_one :
  forward_transform_fp sample_np_fft2 unit_image
  = Some (uniform_spectrum (mkC (3 / 4) 0))
  /\ inverse_transform_fp sample_np_ifft2 cabs
       (uniform_spectrum (mkC (3 / 4) 0))
     = Some [[Px 0 0 0]]%Z.
Proof.
  split.
  - unfold forward_transform_fp, forward_channel_fp, sample_np_fft2,
      img_channel_float, unit_image.
    cbn [for_each all_chans slice_chan fmap list_fmap px_get ch0 ch1 ch2].
    rewrite !fft2_singleton.
    cbn [fmap option_fmap option_map list_fmap mbind option_bind].
    assert (quarter_low (mkC 1 0) = mkC (3 / 4) 0) as ->
      by (apply complex_eq; simpl; field).
    reflexivity.
  - assert (forall c,
              inverse_channel_fp sample_np_ifft2 cabs
                (uniform_spectrum (mkC (3 / 4) 0)) c
              = Some [[(1 / 2)%R]]) as Hc.
    { intros c. unfold inverse_channel_fp, sample_np_ifft2.
      assert (slice_chan c (uniform_spectrum (mkC (3 / 4) 0))
              = [[mkC (3 / 4) 0]]) as -> by (by destruct c).
      rewrite ifftshift_singleton, ifft2_singleton.
      cbn [fmap option_fmap option_map list_fmap mbind option_bind].
      do 3 f_equal.
      assert (quarter_low (mkC (3 / 4) 0) = mkC (1 / 2) 0) as ->
        by (apply complex_eq; simpl; field).
      apply cabs_real. lra. }
    unfold inverse_transform_fp.
    cbn [for_each all_chans mbind option_bind]. rewrite !Hc.
    cbn [mbind option_bind]. f_equal.
    assert (astype_uint8 (clip (1 / 2) 0 255) = 0%Z) as Hq.
    { unfold clip. rewrite Rmax_left, Rmin_left by lra.
      unfold astype_uint8, trunc.
      destruct (Rle_dec 0 (1 / 2)) as [_|Hn]; [|lra].
      assert (Int_part (1 / 2) = 0%Z) as ->; [|done].
      symmetry. apply Int_part_spec. lra. }
    unfold uniform_spectrum, assign_chan, full, px_map. simpl.
    by rewrite Hq.
Qed.
